(** * SPIRV-LLVM-Translator: a shallow embedding of the translation core

    The development follows the C++ sources
      - lib/SPIRV/SPIRVRegularizeLLVM.cpp  (the legalizer pass),
      - lib/SPIRV/SPIRVWriter.cpp          (LLVM IR -> SPIR-V, "encode"),
      - lib/SPIRV/SPIRVReader.cpp          (SPIR-V -> LLVM IR, "decode").

    Pointers to IR objects are modelled by natural-number identities,
    [std::map]/[DenseMap] tables by stdpp's [gmap], the translator objects'
    mutable members by explicit state passing, 32-bit SPIR-V words and
    arbitrary-precision integers by [Z] with the wrap-around written out. *)

From Stdlib Require Import ZArith Lia Bool.
From stdpp Require Import base option list gmap strings.

Set Warnings "-register-all".

Local Open Scope string_scope.
Local Open Scope list_scope.
Local Open Scope Z_scope.

(** 32-bit SPIR-V words ([SPIRVWord] is [uint32_t]). *)
Definition SpirvWordBitWidth : Z := 32.
Definition to_word (n : Z) : Z := n mod 2 ^ SpirvWordBitWidth.
(** [uint64_t] wrap-around. *)
Definition to_u64 (n : Z) : Z := n mod 2 ^ 64.

(* ===================================================================== *)
(** * Loop-control hints (SPIRVWriter.cpp:880-1025, SPIRVReader.cpp:536-731) *)
(* ===================================================================== *)

Module LoopHints.

(** The loop-control bits of the binary format (spirv.hpp, section 3.23 of
    the SPIR-V specification). *)
Definition LoopControlMaskNone : Z := 0.
Definition LoopControlUnrollMask : Z := 0x1.
Definition LoopControlDontUnrollMask : Z := 0x2.
Definition LoopControlDependencyInfiniteMask : Z := 0x4.
Definition LoopControlDependencyLengthMask : Z := 0x8.
Definition LoopControlMinIterationsMask : Z := 0x10.
Definition LoopControlMaxIterationsMask : Z := 0x20.
Definition LoopControlIterationMultipleMask : Z := 0x40.
Definition LoopControlPeelCountMask : Z := 0x80.
Definition LoopControlPartialCountMask : Z := 0x100.
Definition InitiationIntervalINTEL : Z := 0x10000.
Definition MaxConcurrencyINTEL : Z := 0x20000.
Definition DependencyArrayINTEL : Z := 0x40000.

(** C++ [LC & Mask] used as a condition. *)
Definition has (LC Mask : Z) : bool := negb (Z.land LC Mask =? 0).

(** LLVM metadata.  [MDTuple] is a uniqued node, [MDDistinct] a distinct
    node with its identity, [MDSelf] the operand by which a loop id refers
    to itself (an [MDNode] whose first operand is not a string). *)
Inductive Metadata :=
| MDString (s : string)
| MDConstInt (n : Z)
| MDTuple (ops : list Metadata)
| MDDistinct (id : nat) (ops : list Metadata)
| MDSelf.

(** [dyn_cast<MDNode>(MDOp)] : the operands of the node, if it is a node. *)
Definition asMDNode (m : Metadata) : option (list Metadata) :=
  match m with
  | MDTuple ops => Some ops
  | MDDistinct _ ops => Some ops
  | MDSelf => Some [MDSelf]
  | _ => None
  end.

(** Modelled from the spec: [getMDOperandAsString] (SPIRVInternal) is not
    among the sources; it yields the string held by operand [I] of a node
    and the empty string when that operand is not a string. *)
Definition getMDOperandAsString (N : list Metadata) (I : nat) : string :=
  match N !! I with
  | Some (MDString s) => s
  | _ => EmptyString
  end.

(** Modelled from the spec: [getMDOperandAsInt] (SPIRVInternal) is not among
    the sources; it extracts the constant integer held by operand [I]
    ([None]: the operand is no integer constant, the C++ dereferences null). *)
Definition getMDOperandAsInt (N : list Metadata) (I : nat) : option Z :=
  match N !! I with
  | Some (MDConstInt n) => Some n
  | _ => None
  end.

(** Modelled from the spec: [getMDOperandAsMDNode] (SPIRVInternal) is not
    among the sources; it yields operand [I] when it is a node. *)
Definition getMDOperandAsMDNode (N : list Metadata) (I : nat) : option Metadata :=
  match N !! I with
  | Some (MDTuple ops) => Some (MDTuple ops)
  | Some (MDDistinct i ops) => Some (MDDistinct i ops)
  | Some MDSelf => Some MDSelf
  | _ => None
  end.

(** [LLVMToSPIRVMetadataMap IndexGroupArrayMap]: index-group node -> id of
    the accessed array variable.  Index groups are distinct nodes and are
    keyed by their identity. *)
Definition IndexGroupArrayMapT := gmap nat Z.

Definition lookupIndexGroup (IGM : IndexGroupArrayMapT) (m : Metadata) : option Z :=
  match m with
  | MDDistinct i _ => IGM !! i
  | _ => None
  end.

(** ** class LLVMParallelAccessIndices (SPIRVWriter.cpp:892-940) *)

Definition ExpectedName : string := "llvm.loop.parallel_access_indices".

Definition IVDep_isValid (Node : list Metadata) : bool :=
  String.eqb (getMDOperandAsString Node 0) ExpectedName.

(** The loop [for (I = 1; I <= NumIdxGroups; ++I)] of [initialize]. *)
Fixpoint IVDep_collect (IGM : IndexGroupArrayMapT) (Node : list Metadata)
    (I count : nat) : option (list Z) :=
  match count with
  | O => Some []
  | S count' =>
      match getMDOperandAsMDNode Node I with
      | None => None                       (* assert(IdxGroupNode) *)
      | Some g =>
          match lookupIndexGroup IGM g with
          | None => None                   (* assert(It != end()) *)
          | Some arr =>
              match IVDep_collect IGM Node (S I) count' with
              | None => None
              | Some rest => Some (arr :: rest)
              end
          end
      end
  end.

(** [initialize]: the safelen and the array variables of one
    [llvm.loop.parallel_access_indices] node; [None] is a failed
    assertion. *)
Definition IVDep_initialize (IGM : IndexGroupArrayMapT) (Node : list Metadata)
    : option (Z * list Z) :=
  if negb (IVDep_isValid Node) then None else
  let NumOperands := length Node in
  let SafeLen :=
    match Node !! (NumOperands - 1)%nat with
    | Some (MDConstInt n) => to_word n
    | _ => 0
    end in
  let NumIdxGroups :=
    if SafeLen =? 0 then (NumOperands - 1)%nat else (NumOperands - 2)%nat in
  match IVDep_collect IGM Node 1 NumIdxGroups with
  | None => None
  | Some arrs => Some (SafeLen, arrs)
  end.

(** ** getLoopControl (SPIRVWriter.cpp:945-1025) *)

(** The locals the operand loop updates. *)
Record LCState := mkLC {
  LoopControl : Z;
  Parameters : list Z;
  DependencyArrayParameters : list (Z * Z)
}.

Definition pushParam (st : LCState) (Node : list Metadata) (Mask : Z)
    : option LCState :=
  match getMDOperandAsInt Node 1 with
  | None => None
  | Some Ival =>
      Some (mkLC (Z.lor (LoopControl st) Mask)
                 (Parameters st ++ [to_word Ival])
                 (DependencyArrayParameters st))
  end.

Definition setBit (st : LCState) (Mask : Z) : LCState :=
  mkLC (Z.lor (LoopControl st) Mask) (Parameters st)
       (DependencyArrayParameters st).

(** The body of [for (const MDOperand &MDOp : LoopMD->operands())]. *)
Definition loopOperand (IGM : IndexGroupArrayMapT) (st : LCState)
    (MDOp : Metadata) : option LCState :=
  match asMDNode MDOp with
  | None => Some st
  | Some Node =>
      let S := getMDOperandAsString Node 0 in
      if String.eqb S "llvm.loop.unroll.disable" then
        Some (setBit st LoopControlDontUnrollMask)
      else if String.eqb S "llvm.loop.unroll.full"
              || String.eqb S "llvm.loop.unroll.enable" then
        Some (setBit st LoopControlUnrollMask)
      else if String.eqb S "llvm.loop.unroll.count"
              && negb (has (LoopControl st) LoopControlDontUnrollMask) then
        pushParam st Node LoopControlPartialCountMask
      else if String.eqb S "llvm.loop.ivdep.enable" then
        Some (setBit st LoopControlDependencyInfiniteMask)
      else if String.eqb S "llvm.loop.ivdep.safelen" then
        pushParam st Node LoopControlDependencyLengthMask
      else if String.eqb S "llvm.loop.ii.count" then
        pushParam st Node InitiationIntervalINTEL
      else if String.eqb S "llvm.loop.max_concurrency.count" then
        pushParam st Node MaxConcurrencyINTEL
      else if String.eqb S "llvm.loop.parallel_access_indices" then
        match IVDep_initialize IGM Node with
        | None => None
        | Some (SafeLen, arrs) =>
            Some (mkLC (LoopControl st) (Parameters st)
                       (DependencyArrayParameters st
                          ++ map (fun ArrayId => (ArrayId, SafeLen)) arrs))
        end
      else Some st
  end.

Fixpoint loopOperands (IGM : IndexGroupArrayMapT) (st : LCState)
    (ops : list Metadata) : option LCState :=
  match ops with
  | [] => Some st
  | MDOp :: rest =>
      match loopOperand IGM st MDOp with
      | None => None
      | Some st' => loopOperands IGM st' rest
      end
  end.

Definition flattenPairs (l : list (Z * Z)) : list Z :=
  flat_map (fun p => [fst p; snd p]) l.

(** [getLoopControl]: [LoopMD] is the [!llvm.loop] node attached to the
    branch ([None]: no branch or no such metadata).  The result is the
    mask and the [Parameters] vector; [None] is a failed assertion or a
    null dereference in the helpers. *)
Definition getLoopControl (LoopMD : option (list Metadata))
    (IGM : IndexGroupArrayMapT) : option (Z * list Z) :=
  match LoopMD with
  | None => Some (LoopControlMaskNone, [])
  | Some ops =>
      match loopOperands IGM (mkLC LoopControlMaskNone [] []) ops with
      | None => None
      | Some st =>
          match DependencyArrayParameters st with
          | [] => Some (LoopControl st, Parameters st)
          | dap =>
              Some (Z.lor (LoopControl st) DependencyArrayINTEL,
                    Parameters st
                      ++ [to_word (Z.of_nat (length dap))]
                      ++ flattenPairs dap)
          end
      end
  end.

(** ** The loop construct the branch translation emits
       (SPIRVWriter.cpp:1343-1396) *)

Inductive LoopInst :=
| OpLoopMerge (MergeBlock ContinueTarget : Z) (LoopControl : Z)
              (LoopControlParameters : list Z)
| OpLoopControlINTEL (LoopControl : Z) (LoopControlParameters : list Z).

Definition getLoopControlOf (LM : LoopInst) : Z :=
  match LM with
  | OpLoopMerge _ _ LC _ => LC
  | OpLoopControlINTEL LC _ => LC
  end.

Definition getLoopControlParameters (LM : LoopInst) : list Z :=
  match LM with
  | OpLoopMerge _ _ _ P => P
  | OpLoopControlINTEL _ P => P
  end.

(** What the translation of a branch knows about its surroundings: the
    branch kind, the id of the block holding it (the continue target), for
    an unconditional branch the false label of the header's conditional
    terminator (if the header ends in one), for a conditional branch the
    id of its false successor. *)
Record BranchCtx := mkBranchCtx {
  isUnconditional : bool;
  BBId : Z;
  HeaderCondFalseLabel : option Z;
  SuccessorFalseId : Z;
  AllowUnstructuredLoopControls : bool
}.

Definition transBranchLoopInst (ctx : BranchCtx)
    (LoopMD : option (list Metadata)) (IGM : IndexGroupArrayMapT)
    : option (option LoopInst) :=
  match getLoopControl LoopMD IGM with
  | None => None
  | Some (LC, Params) =>
      if isUnconditional ctx then
        if negb (LC =? LoopControlMaskNone) then
          match HeaderCondFalseLabel ctx with
          | Some merge => Some (Some (OpLoopMerge merge (BBId ctx) LC Params))
          | None =>
              if AllowUnstructuredLoopControls ctx
              then Some (Some (OpLoopControlINTEL LC Params))
              else Some None
          end
        else Some None
      else
        if negb (LC =? LoopControlMaskNone)
        then Some (Some (OpLoopMerge (SuccessorFalseId ctx) (BBId ctx) LC Params))
        else Some None
  end.

(** ** Decoding: setLLVMLoopMetadata (SPIRVReader.cpp:536-731) *)

Definition getMetadataFromName (Name : string) : Metadata :=
  MDTuple [MDString Name].

Definition getMetadataFromNameAndParameter (Name : string) (Param : Z)
    : list Metadata :=
  [MDString Name; MDConstInt Param].

(** [std::map] with integer keys: an association list kept in key order. *)
Fixpoint map_find {V} (k : Z) (m : list (Z * V)) : option V :=
  match m with
  | [] => None
  | (k', v) :: rest => if k' =? k then Some v else map_find k rest
  end.

(** [m.emplace(k, v)]: no effect when the key is present. *)
Fixpoint map_emplace {V} (k : Z) (v : V) (m : list (Z * V)) : list (Z * V) :=
  match m with
  | [] => [(k, v)]
  | (k', v') :: rest =>
      if k' =? k then m
      else if k <? k' then (k, v) :: m
      else (k', v') :: map_emplace k v rest
  end.

(** [m[k].push_back(v)]. *)
Fixpoint map_push {V} (k : Z) (v : V) (m : list (Z * list V))
    : list (Z * list V) :=
  match m with
  | [] => [(k, [v])]
  | (k', vs) :: rest =>
      if k' =? k then (k', vs ++ [v]) :: rest
      else if k <? k' then (k, [v]) :: m
      else (k', vs) :: map_push k v rest
  end.

(** A [getelementptr] of the loop: its identity, its pointer operand (the
    identity of an LLVM value) and its [llvm.index.group] metadata. *)
Record GEP := mkGEP {
  gepId : nat;
  PointerOperand : Z;
  IndexGroupMD : option Metadata
}.

(** What the dependency-array case reads besides the instruction: the
    value table composed with [SPIRVModule::getValue] (absent entries read
    as the null pointer, 0), the [getelementptr]s of the loop's blocks in
    program order, and the supply of identities for distinct nodes. *)
Record LoopEnv := mkLoopEnv {
  ValueMapOfId : gmap Z Z;
  LoopGEPs : list GEP;
  NextDistinct : nat
}.

(** The locals of [setLLVMLoopMetadata]. *)
Record DecState := mkDec {
  NumParam : nat;
  MetadataVec : list Metadata
}.

Definition pushMD (st : DecState) (m : Metadata) : DecState :=
  mkDec (NumParam st) (MetadataVec st ++ [m]).

(** [++NumParam; assert(NumParam <= LoopControlParameters.size())]. *)
Definition incrParam (P : list Z) (st : DecState) : option DecState :=
  let n := S (NumParam st) in
  if (n <=? length P)%nat then Some (mkDec n (MetadataVec st)) else None.

(** [Metadata.push_back(node(Name, P[NumParam])); ++NumParam; assert]. *)
Definition readParam (P : list Z) (st : DecState) (Name : string)
    : option DecState :=
  match P !! NumParam st with
  | None => None
  | Some v =>
      incrParam P (pushMD st (MDTuple (getMetadataFromNameAndParameter Name v)))
  end.

Definition when (c : bool) (f : DecState -> option DecState) (st : DecState)
    : option DecState :=
  if c then f st else Some st.

(** The [while (NumParam < OperandsEndIndex)] loop filling [ArraySflnMap];
    it runs at most [NumOperandPairs] times. *)
Fixpoint collectArraySfln (fuel : nat) (P : list Z) (VM : gmap Z Z)
    (OperandsEndIndex : nat) (n : nat) (acc : list (Z * Z))
    : option (nat * list (Z * Z)) :=
  if negb (n <? OperandsEndIndex)%nat then Some (n, acc) else
  match fuel with
  | O => Some (n, acc)
  | S fuel' =>
      match P !! S n, P !! S (S n) with
      | Some ArraySPIRVId, Some Safelen =>
          let ArrayVar := default 0 (VM !! ArraySPIRVId) in
          collectArraySfln fuel' P VM OperandsEndIndex (S (S n))
                           (map_emplace ArrayVar Safelen acc)
      | _, _ => None
      end
  end.

(** The single run over the loop collecting the [getelementptr]s that
    access one of the listed arrays. *)
Fixpoint collectGEPs (ArraySflnMap : list (Z * Z)) (geps : list GEP)
    (acc : list (Z * list GEP)) : list (Z * list GEP) :=
  match geps with
  | [] => acc
  | g :: rest =>
      match map_find (PointerOperand g) ArraySflnMap with
      | Some _ => collectGEPs ArraySflnMap rest (map_push (PointerOperand g) g acc)
      | None => collectGEPs ArraySflnMap rest acc
      end
  end.

(** Marking one [getelementptr] into the index group of the current loop. *)
Definition markGEP (CurrentDepthIdxGroup : Metadata) (g : GEP) : GEP :=
  match IndexGroupMD g with
  | None => mkGEP (gepId g) (PointerOperand g) (Some CurrentDepthIdxGroup)
  | Some PreviousIdxGroup =>
      let ops := default [] (asMDNode PreviousIdxGroup) in
      let CurrentDepthOperands :=
        (match ops with [] => [PreviousIdxGroup] | _ => ops end)
          ++ [CurrentDepthIdxGroup] in
      mkGEP (gepId g) (PointerOperand g) (Some (MDTuple CurrentDepthOperands))
  end.

(** The loop over [ArrayGEPMap]: one distinct index group per array. *)
Fixpoint makeIdxGroups (ArraySflnMap : list (Z * Z))
    (ArrayGEPMap : list (Z * list GEP)) (next : nat)
    (SafelenIdxGroupMap : list (Z * list Metadata)) (marked : list GEP)
    : nat * list (Z * list Metadata) * list GEP :=
  match ArrayGEPMap with
  | [] => (next, SafelenIdxGroupMap, marked)
  | (arr, geps) :: rest =>
      let CurrentDepthIdxGroup := MDDistinct next [] in
      let Safelen := default 0 (map_find arr ArraySflnMap) in
      makeIdxGroups ArraySflnMap rest (S next)
        (map_push Safelen CurrentDepthIdxGroup SafelenIdxGroupMap)
        (marked ++ map (markGEP CurrentDepthIdxGroup) geps)
  end.

(** The loop over [SafelenIdxGroupMap]. *)
Definition accessIndicesNode (e : Z * list Metadata) : Metadata :=
  let '(SflnValue, groups) := e in
  MDTuple ([MDString "llvm.loop.parallel_access_indices"] ++ groups
           ++ (if SflnValue =? 0 then [] else [MDConstInt SflnValue])).

(** The [getelementptr]s of the loop after marking: a marked instruction
    replaces the one with the same identity. *)
Definition updateGEPs (geps marked : list GEP) : list GEP :=
  map (fun g =>
         match find (fun g' => Nat.eqb (gepId g') (gepId g)) marked with
         | Some g' => g'
         | None => g
         end) geps.

(** The result of [setLLVMLoopMetadata]: the operands of the loop id handed
    to [setLoopID] (the first one is the self reference), the
    [getelementptr]s with their index groups, the supply of identities. *)
Record LoopMDResult := mkLoopMDResult {
  LoopID : list Metadata;
  GEPsAfter : list GEP;
  NextDistinctAfter : nat
}.

Definition dependencyArray (P : list Z) (env : LoopEnv) (st : DecState)
    : option LoopMDResult :=
  match P !! NumParam st with
  | None => None
  | Some NumOperandPairs =>
      let OperandsEndIndex :=
        Z.to_nat (to_word (Z.of_nat (NumParam st) + NumOperandPairs * 2)) in
      if negb (OperandsEndIndex <=? length P)%nat then None else
      match collectArraySfln (Z.to_nat NumOperandPairs) P (ValueMapOfId env)
                             OperandsEndIndex (NumParam st) [] with
      | None => None
      | Some (_, ArraySflnMap) =>
          let ArrayGEPMap := collectGEPs ArraySflnMap (LoopGEPs env) [] in
          let '(next, SafelenIdxGroupMap, marked) :=
            makeIdxGroups ArraySflnMap ArrayGEPMap (NextDistinct env) [] [] in
          Some (mkLoopMDResult
                  (MetadataVec st ++ map accessIndicesNode SafelenIdxGroupMap)
                  (updateGEPs (LoopGEPs env) marked)
                  next)
      end
  end.

(** [setLLVMLoopMetadata(LM, LoopObj)] for a non-null [LM]; [None] is a
    failed assertion or a read past the end of the parameter vector. *)
Definition setLLVMLoopMetadata (LM : LoopInst) (env : LoopEnv)
    : option LoopMDResult :=
  let LC := getLoopControlOf LM in
  let P := getLoopControlParameters LM in
  if LC =? LoopControlMaskNone then
    Some (mkLoopMDResult [MDSelf] (LoopGEPs env) (NextDistinct env))
  else
    let st0 := mkDec 0 [MDSelf] in
    let st1 :=
      if has LC LoopControlUnrollMask && negb (has LC LoopControlPartialCountMask)
      then pushMD st0 (getMetadataFromName "llvm.loop.unroll.enable")
      else if has LC LoopControlDontUnrollMask
      then pushMD st0 (getMetadataFromName "llvm.loop.unroll.disable")
      else st0 in
    let st2 :=
      if has LC LoopControlDependencyInfiniteMask
      then pushMD st1 (getMetadataFromName "llvm.loop.ivdep.enable")
      else st1 in
    st3 ← when (has LC LoopControlDependencyLengthMask
                && negb (Nat.eqb (length P) 0))
              (fun st => readParam P st "llvm.loop.ivdep.safelen") st2;
    st4 ← when (has LC LoopControlMinIterationsMask) (incrParam P) st3;
    st5 ← when (has LC LoopControlMaxIterationsMask) (incrParam P) st4;
    st6 ← when (has LC LoopControlIterationMultipleMask) (incrParam P) st5;
    st7 ← when (has LC LoopControlPeelCountMask) (incrParam P) st6;
    st8 ← when (has LC LoopControlPartialCountMask
                && negb (has LC LoopControlDontUnrollMask))
              (fun st =>
                 match P !! NumParam st with
                 | None => None
                 | Some v =>
                     if (1 =? v) && has LC LoopControlUnrollMask
                     then incrParam P
                            (pushMD st (getMetadataFromName "llvm.loop.unroll.full"))
                     else readParam P st "llvm.loop.unroll.count"
                 end) st7;
    st9 ← when (has LC InitiationIntervalINTEL)
              (fun st => readParam P st "llvm.loop.ii.count") st8;
    st10 ← when (has LC MaxConcurrencyINTEL)
               (fun st => readParam P st "llvm.loop.max_concurrency.count") st9;
    if has LC DependencyArrayINTEL then dependencyArray P env st10
    else Some (mkLoopMDResult (MetadataVec st10) (LoopGEPs env) (NextDistinct env)).

(** The hints a loop id carries, by name: what a consumer of the decoded
    loop reads. *)
Definition hintValue (Name : string) (LoopID : list Metadata) : option Z :=
  match find (fun m => match asMDNode m with
                       | Some ops => String.eqb (getMDOperandAsString ops 0) Name
                       | None => false
                       end) LoopID with
  | Some m => getMDOperandAsInt (default [] (asMDNode m)) 1
  | None => None
  end.

End LoopHints.

(* ===================================================================== *)
(** * The legalizer pass (SPIRVRegularizeLLVM.cpp) *)
(* ===================================================================== *)

Module Legalizer.

Inductive CallingConv := C_CC | SPIR_FUNC | SPIR_KERNEL.

Inductive LinkageTypes :=
| ExternalLinkage | InternalLinkage | PrivateLinkage | LinkOnceODRLinkage
| CommonLinkage | AvailableExternallyLinkage.

#[global] Instance CallingConv_eq_dec : EqDecision CallingConv.
Proof. solve_decision. Defined.
#[global] Instance LinkageTypes_eq_dec : EqDecision LinkageTypes.
Proof. solve_decision. Defined.

(** Operands, as far as the pass looks at them: a formal argument of the
    enclosing function, a function of the module (by name: the module's
    symbol table has one function per name), the call of the wrapper
    block, anything else. *)
Inductive Operand :=
| OArgument (ArgNo : nat)
| OFunction (Name : string)
| OCallResult
| OOther.

(** Instructions, with the flags, attributes and metadata kinds the pass
    reads or clears.  [MD] lists the kinds of the attached metadata. *)
Inductive Instruction :=
| CallInst (CalledFunction : option string) (Args : list Operand)
           (TailCall : bool) (CC : CallingConv) (Attrs : list string)
           (MD : list string)
| BinaryOperator (PossiblyExact : bool) (Exact : bool) (MD : list string)
| ReturnInst (RetVal : option Operand)
| OtherInst (Ops : list Operand) (MD : list string).

Record Function := mkFunction {
  Name : string;
  ReturnsVoid : bool;
  ReturnType : nat;
  ParamTypes : list nat;
  ArgNames : list string;
  CallingConvOf : CallingConv;
  Linkage : LinkageTypes;
  Attributes : list string;
  FnMetadata : list (nat * nat);       (* (kind, node) pairs *)
  BasicBlocks : list (list Instruction)
}.

(** One operand of the named metadata [spirv.ExecutionMode]: the function
    it is attached to and the mode with its literals. *)
Record ExecutionModeMD := mkEM {
  EMFunction : string;
  EMode : list Z
}.

(** A module: its functions, the operands of [spirv.ExecutionMode], and
    the users of functions that are no instructions.  [ConstantUsers] has
    the name of a function once for each constant that refers to it: a
    constant expression (a cast of the function, whether the operand of an
    instruction or not), the initializer of a global variable, an alias.
    Metadata is no user. *)
Record Module := mkModule {
  Functions : list Function;
  ExecutionModes : list ExecutionModeMD;
  ConstantUsers : list string
}.

Definition isDeclaration (F : Function) : bool :=
  match BasicBlocks F with [] => true | _ => false end.

Definition getFunction (M : Module) (N : string) : option Function :=
  find (fun F => String.eqb (Name F) N) (Functions M).

(** In-place mutation of the function called [N]. *)
Definition updFunction (N : string) (f : Function -> Function) (M : Module)
    : Module :=
  mkModule (map (fun F => if String.eqb (Name F) N then f F else F) (Functions M))
           (ExecutionModes M) (ConstantUsers M).

Definition setCallingConv (cc : CallingConv) (F : Function) : Function :=
  mkFunction (Name F) (ReturnsVoid F) (ReturnType F) (ParamTypes F) (ArgNames F)
             cc (Linkage F) (Attributes F) (FnMetadata F) (BasicBlocks F).

(** Modelled from the spec: [getOrCreateFunction] (SPIRVUtil) is not among
    the sources; it returns the function of that name when the module has
    one and otherwise appends a declaration of the given type (external
    linkage, [SPIR_FUNC]) to the module. *)
Definition getOrCreateFunction (M : Module) (RetVoid : bool) (RetTy : nat)
    (Params : list nat) (N : string) : Module :=
  match getFunction M N with
  | Some _ => M
  | None =>
      mkModule (Functions M ++
                  [mkFunction N RetVoid RetTy Params (map (fun _ => EmptyString) Params)
                              SPIR_FUNC ExternalLinkage [] [] []])
               (ExecutionModes M) (ConstantUsers M)
  end.

(** The operands of the instructions that may refer to functions. *)
Definition operandsOf (I : Instruction) : list Operand :=
  match I with
  | CallInst (Some N) Args _ _ _ _ => OFunction N :: Args
  | CallInst None Args _ _ _ _ => Args
  | BinaryOperator _ _ _ => []
  | ReturnInst (Some v) => [v]
  | ReturnInst None => []
  | OtherInst Ops _ => Ops
  end.

Definition usesFunction (N : string) (I : Instruction) : bool :=
  existsb (fun o => match o with OFunction N' => String.eqb N' N | _ => false end)
          (operandsOf I).

Definition instructions (F : Function) : list Instruction :=
  concat (BasicBlocks F).

(** [F->use_empty()]: no instruction has the function as an operand and
    no constant refers to it. *)
Definition use_empty (M : Module) (N : string) : bool :=
  negb (existsb (fun F => existsb (usesFunction N) (instructions F)) (Functions M))
  && negb (existsb (String.eqb N) (ConstantUsers M)).

(** The function [N] is the callee of a call instruction of the module. *)
Definition isCalled (M : Module) (N : string) : bool :=
  existsb (fun F =>
             existsb (fun I => match I with
                               | CallInst (Some N') _ _ _ _ _ => String.eqb N' N
                               | _ => false
                               end) (instructions F))
          (Functions M).

Section Pass.

(** [kSPIRVName::EntrypointPrefix] (SPIRVInternal.h). *)
Variable EntrypointPrefix : string.

(** LLVM's [verifyModule]: [true] when the module is broken. *)
Variable verifyModule : Module -> bool.

(** [eraseUselessFunctions] (SPIRVUtil) and [lowerFuncPtr] on a module, whose
    helpers ([mutateFunction], [hasFunctionPointerArg], [getSPIRVFuncOC])
    are not among the sources. *)
Variable eraseUselessFunctions : Module -> Module.
Variable lowerFuncPtr : Module -> Module.

(** ** addKernelEntryPoint (SPIRVRegularizeLLVM.cpp:200-261) *)

Definition WrapNameOf (F : Function) : string :=
  (EntrypointPrefix ++ Name F)%string.

(** The wrapper after the body of the loop has run on it: [W] is what
    [getOrCreateFunction] returned, [F] the function being wrapped (its
    calling convention already lowered). *)
Definition fillWrapper (F W : Function) : Function :=
  let Args := map OArgument (seq 0 (length (ArgNames W))) in
  let CI := CallInst (Some (Name F)) Args false (CallingConvOf F) (Attributes F) [] in
  let Ret := ReturnInst (if ReturnsVoid F then None else Some OCallResult) in
  mkFunction (Name W) (ReturnsVoid W) (ReturnType W) (ParamTypes W)
             (take (length (ArgNames F)) (ArgNames F)
                ++ drop (length (ArgNames F)) (ArgNames W))
             SPIR_KERNEL InternalLinkage (Attributes F)
             (FnMetadata W ++ FnMetadata F)
             (BasicBlocks W ++ [[CI; Ret]]).

(** Redirecting the execution modes of [F] to the wrapper. *)
Definition redirectExecutionModes (FName WName : string) (M : Module) : Module :=
  mkModule (Functions M)
           (map (fun N => if String.eqb (EMFunction N) FName
                          then mkEM WName (EMode N) else N)
                (ExecutionModes M))
           (ConstantUsers M).

(** The body of [for (auto &F : Work)]. *)
Definition wrapKernel (M : Module) (FName : string) : Module :=
  let M1 := updFunction FName (setCallingConv SPIR_FUNC) M in
  match getFunction M1 FName with
  | None => M1
  | Some F =>
      if isDeclaration F then M1 else
      let WrapName := WrapNameOf F in
      let M2 := getOrCreateFunction M1 (ReturnsVoid F) (ReturnType F)
                                    (ParamTypes F) WrapName in
      let M3 := updFunction WrapName (fillWrapper F) M2 in
      redirectExecutionModes FName WrapName M3
  end.

Definition addKernelEntryPoint (M : Module) : Module :=
  let Work :=
    map Name (filter (fun F => CallingConvOf F = SPIR_KERNEL) (Functions M)) in
  foldl wrapKernel M Work.

(** ** regularize (SPIRVRegularizeLLVM.cpp:109-161) *)

Definition MDs : list string := ["fpmath"; "tbaa"; "range"].

Definition dropMDs (MD : list string) : list string :=
  filter (fun k => negb (existsb (String.eqb k) MDs)) MD.

Definition isIntrinsicName (N : string) : bool := String.prefix "llvm." N.

Definition regularizeInst (I : Instruction) : Instruction :=
  match I with
  | CallInst CF Args _ CC Attrs MD =>
      let Attrs' :=
        match CF with
        | Some N => if isIntrinsicName N
                    then filter (fun a => negb (String.eqb a "nounwind")) Attrs
                    else Attrs
        | None => Attrs
        end in
      CallInst CF Args false CC Attrs' (dropMDs MD)
  | BinaryOperator PE Exact MD =>
      BinaryOperator PE (if PE && Exact then false else Exact) (dropMDs MD)
  | ReturnInst v => ReturnInst v
  | OtherInst Ops MD => OtherInst Ops (dropMDs MD)
  end.

Definition regularizeFunction (F : Function) : Function :=
  mkFunction (Name F) (ReturnsVoid F) (ReturnType F) (ParamTypes F) (ArgNames F)
             (CallingConvOf F) (Linkage F) (Attributes F) (FnMetadata F)
             (map (map regularizeInst) (BasicBlocks F)).

(** The loop over the functions: unused declarations are erased, the
    instructions of the others are normalised.  Neither step changes the
    uses of a function, so [use_empty] is read off the module the loop
    starts with. *)
Definition regularizeFunctions (M : Module) : Module :=
  mkModule
    (map regularizeFunction
         (filter (fun F => negb (isDeclaration F && use_empty M (Name F)))
                 (Functions M)))
    (ExecutionModes M) (ConstantUsers M).

(** [regularize()]: the module it leaves and the flag it returns. *)
Definition regularize (M : Module) : bool * Module :=
  let M1 := eraseUselessFunctions M in
  let M2 := lowerFuncPtr M1 in
  let M3 := addKernelEntryPoint M2 in
  let M4 := regularizeFunctions M3 in
  if verifyModule M4 then (false, M4) else (true, M4).

(** ** runOnModule (SPIRVRegularizeLLVM.cpp:93-107): the value of
    [regularize()] is dropped, the second verification only feeds
    [LLVM_DEBUG], the pass returns [true]. *)
Definition runOnModule (M : Module) : bool * Module :=
  let M' := snd (regularize M) in
  let _ := verifyModule M' in
  (true, M').

End Pass.

End Legalizer.

(* ===================================================================== *)
(** * Outcomes of the translator's operations *)
(* ===================================================================== *)

(** How an operation that does not return normally ends: a null pointer is
    dereferenced, an [assert] fails, [llvm_unreachable] is reached, an
    erased object is used. *)
Inductive FaultKind :=
| NullDeref | AssertionFailure | Unreachable | DanglingPointer.

(** The error kinds of the error log the model distinguishes
    (SPIRVErrorEnum.h). *)
Inductive SPIRVErrorCode :=
| SPIRVEC_InvalidBitWidth
| SPIRVEC_InvalidArraySize
| SPIRVEC_FunctionPointers
| SPIRVEC_InvalidFunctionCall.

(** [Ok]: the call returns; [Error]: the error log is given an error and
    the translation stops with it; [Fault]: a programmer error, the
    translation fails fast; [OutOfFuel]: the recursion bound of the model
    is exhausted (no outcome of the C++). *)
Inductive Res (A : Type) :=
| Ok (a : A)
| Error (code : SPIRVErrorCode)
| Fault (k : FaultKind)
| OutOfFuel.
Arguments Ok {A} a.
Arguments Error {A} code.
Arguments Fault {A} k.
Arguments OutOfFuel {A}.

#[global] Instance Res_ret : MRet Res := fun A a => Ok a.
#[global] Instance Res_bind : MBind Res := fun A B f r =>
  match r with
  | Ok a => f a
  | Error c => Error c
  | Fault k => Fault k
  | OutOfFuel => OutOfFuel
  end.

(** Modelled from the spec: [SPIRVErrorLog::checkError] is not among the
    sources; a check that holds returns, a check that fails hands its error
    kind to the error log, upon which the whole translation stops with
    that error (no partial output). *)
Definition checkError (Cond : bool) (ErrCode : SPIRVErrorCode) : Res unit :=
  if Cond then Ok tt else Error ErrCode.

(* ===================================================================== *)
(** * LLVM IR objects shared by both directions *)
(* ===================================================================== *)

(** LLVM types.  Literal types are uniqued, hence structural; an
    identified struct is a reference into the context's table of struct
    types, which is where its name and (once set) its body live. *)
Inductive LType :=
| LVoid
| LInt (w : Z)
| LHalf | LFloat | LDouble
| LArray (elem : LType) (n : Z)
| LVector (elem : LType) (n : Z)
| LPointer (elem : LType) (addrspace : nat)
| LFunction (ret : LType) (params : list LType)
| LStruct (sid : nat).

(** An identified struct of the context: opaque while [sbody] is [None]. *)
Record StructInfo := mkStructInfo {
  sname : string;
  sbody : option (list LType * bool)     (* members, isPacked *)
}.

(** Uniqued constants. *)
Inductive Constant :=
| CInt (w : Z) (v : Z)
| CFP (w : Z) (bits : Z)
| CNull (t : LType)
| CUndef (t : LType).

(** LLVM values by identity. *)
Inductive Value :=
| VConst (c : Constant)
| VInst (i : nat)
| VGlobal (g : nat)
| VArg (f : nat) (argno : nat)
| VBlock (b : nat)
| VFunc (f : nat).

(** [==] on values is the equality of their identities; constants are
    uniqued, so it is structural on them. *)
Fixpoint LType_eqb (a b : LType) : bool :=
  match a, b with
  | LVoid, LVoid | LHalf, LHalf | LFloat, LFloat | LDouble, LDouble => true
  | LInt w, LInt w' => w =? w'
  | LArray e n, LArray e' n' | LVector e n, LVector e' n' =>
      LType_eqb e e' && (n =? n')
  | LPointer e a, LPointer e' a' => LType_eqb e e' && Nat.eqb a a'
  | LFunction r ps, LFunction r' ps' =>
      LType_eqb r r'
      && (fix all2 (l l' : list LType) : bool :=
            match l, l' with
            | [], [] => true
            | x :: l, y :: l' => LType_eqb x y && all2 l l'
            | _, _ => false
            end) ps ps'
  | LStruct s, LStruct s' => Nat.eqb s s'
  | _, _ => false
  end.

Definition Constant_eqb (a b : Constant) : bool :=
  match a, b with
  | CInt w v, CInt w' v' | CFP w v, CFP w' v' => (w =? w') && (v =? v')
  | CNull t, CNull t' | CUndef t, CUndef t' => LType_eqb t t'
  | _, _ => false
  end.

Definition Value_eqb (a b : Value) : bool :=
  match a, b with
  | VConst c, VConst c' => Constant_eqb c c'
  | VInst i, VInst i' | VGlobal i, VGlobal i' | VBlock i, VBlock i'
  | VFunc i, VFunc i' => Nat.eqb i i'
  | VArg f n, VArg f' n' => Nat.eqb f f' && Nat.eqb n n'
  | _, _ => false
  end.


(* ===================================================================== *)
(** * Decoding: SPIR-V -> LLVM IR (SPIRVReader.cpp) *)
(* ===================================================================== *)

Module Reader.

(** ** The decoded binary module (input) *)

(** SPIR-V types by their defining instruction; operands that are types
    or values are ids.  [OpTypeSpecial] stands for the image, sampled
    image, pipe, pipe storage, VME image, buffer surface and other opaque
    types, whose LLVM struct name and address space are computed by naming
    helpers outside these sources; [OpTypeOther] is any type instruction
    for which [transType] ends in [llvm_unreachable]. *)
Inductive SPIRVType :=
| OpTypeVoid
| OpTypeBool
| OpTypeInt (BitWidth : Z) (IsSigned : bool)
| OpTypeFloat (BitWidth : Z)
| OpTypeArray (ElementType : nat) (Length : nat)
| OpTypePointer (StorageClass : nat) (ElementType : nat)
| OpTypeVector (ComponentType : nat) (ComponentCount : Z)
| OpTypeMatrix (ColumnType : nat) (ColumnCount : Z)
| OpTypeOpaque (Name : string)
| OpTypeFunction (ReturnType : nat) (ParameterTypes : list nat)
| OpTypeStruct (Name : string) (MemberTypes : list nat)
               (ContinuedInstructions : list (list nat)) (Packed : bool)
| OpTypeSpecial (LLVMName : string) (AddrSpace : nat)
| OpTypeOther.

(** SPIR-V values and instructions, as far as their translation differs.
    [OpInst] is any other instruction that is translated from its operands
    in order and memoized. *)
Inductive SPIRVOp :=
| OpConstant (Words : list Z)
| OpConstantTrue
| OpConstantFalse
| OpConstantNull
| OpUndef
| OpConstantSampler (AddrMode Normalized FilterMode : Z)
| OpVariable (StorageClass : nat) (Initializer : option nat)
| OpFunctionParameter (ArgNo : nat)
| OpFunction
| OpLabel
| OpPhi (Pairs : list (nat * nat))
| OpLoad (Src : nat)
| OpFunctionCall (Callee : nat) (ArgumentValues : list nat)
| OpLoopMerge
| OpLine
| OpInst (OpCode : nat) (Operands : list nat).

Record SPIRVValue := mkSPIRVValue {
  Op : SPIRVOp;
  TypeId : nat;
  ValueName : string
}.

Record SPIRVBasicBlock := mkSPIRVBasicBlock {
  LabelId : nat;
  InstVec : list nat
}.

Record SPIRVFunction := mkSPIRVFunction {
  FunctionTypeId : nat;
  IsKernel : bool;
  Arguments : list nat;
  BBVec : list SPIRVBasicBlock
}.

Record SPIRVModule := mkSPIRVModule {
  Types : gmap nat SPIRVType;
  Values : gmap nat SPIRVValue;
  FunctionsOf : gmap nat SPIRVFunction
}.

(** ** The LLVM module under construction and the translator's tables *)

Inductive InstKind :=
| LoadInst | PHINode | AllocaInst | CallInstK | OtherInst (opcode : nat).

Record Instruction := mkInstruction {
  Kind : InstKind;
  Operands : list Value;
  IName : string;
  Parent : option nat
}.

Record GlobalVariable := mkGlobalVariable {
  GName : string;
  GType : LType;
  GInitializer : option Value
}.

Record LLVMFunction := mkLLVMFunction {
  FName : string;
  FType : LType;
  FBlocks : list nat
}.

Record State := mkState {
  TypeMap : gmap nat LType;
  ValueMap : gmap nat Value;
  PlaceholderMap : gmap nat Value;
  FuncMap : gmap nat nat;
  FuncLoopMetadataMap : gmap nat nat;
  Structs : gmap nat StructInfo;
  Insts : gmap nat Instruction;
  BlockInsts : gmap nat (list nat);
  Globals : gmap nat GlobalVariable;
  LFunctions : gmap nat LLVMFunction;
  NextId : nat
}.

Definition initState : State :=
  mkState ∅ ∅ ∅ ∅ ∅ ∅ ∅ ∅ ∅ ∅ 0.

Definition setTypeMap (f : gmap nat LType -> gmap nat LType) (st : State) :=
  mkState (f (TypeMap st)) (ValueMap st) (PlaceholderMap st) (FuncMap st)
          (FuncLoopMetadataMap st) (Structs st) (Insts st) (BlockInsts st)
          (Globals st) (LFunctions st) (NextId st).
Definition setValueMap (f : gmap nat Value -> gmap nat Value) (st : State) :=
  mkState (TypeMap st) (f (ValueMap st)) (PlaceholderMap st) (FuncMap st)
          (FuncLoopMetadataMap st) (Structs st) (Insts st) (BlockInsts st)
          (Globals st) (LFunctions st) (NextId st).
Definition setPlaceholderMap (f : gmap nat Value -> gmap nat Value) (st : State) :=
  mkState (TypeMap st) (ValueMap st) (f (PlaceholderMap st)) (FuncMap st)
          (FuncLoopMetadataMap st) (Structs st) (Insts st) (BlockInsts st)
          (Globals st) (LFunctions st) (NextId st).
Definition setFuncMap (f : gmap nat nat -> gmap nat nat) (st : State) :=
  mkState (TypeMap st) (ValueMap st) (PlaceholderMap st) (f (FuncMap st))
          (FuncLoopMetadataMap st) (Structs st) (Insts st) (BlockInsts st)
          (Globals st) (LFunctions st) (NextId st).
Definition setFuncLoopMetadataMap (f : gmap nat nat -> gmap nat nat) (st : State) :=
  mkState (TypeMap st) (ValueMap st) (PlaceholderMap st) (FuncMap st)
          (f (FuncLoopMetadataMap st)) (Structs st) (Insts st) (BlockInsts st)
          (Globals st) (LFunctions st) (NextId st).
Definition setStructs (f : gmap nat StructInfo -> gmap nat StructInfo) (st : State) :=
  mkState (TypeMap st) (ValueMap st) (PlaceholderMap st) (FuncMap st)
          (FuncLoopMetadataMap st) (f (Structs st)) (Insts st) (BlockInsts st)
          (Globals st) (LFunctions st) (NextId st).
Definition setInsts (f : gmap nat Instruction -> gmap nat Instruction) (st : State) :=
  mkState (TypeMap st) (ValueMap st) (PlaceholderMap st) (FuncMap st)
          (FuncLoopMetadataMap st) (Structs st) (f (Insts st)) (BlockInsts st)
          (Globals st) (LFunctions st) (NextId st).
Definition setBlockInsts (f : gmap nat (list nat) -> gmap nat (list nat)) (st : State) :=
  mkState (TypeMap st) (ValueMap st) (PlaceholderMap st) (FuncMap st)
          (FuncLoopMetadataMap st) (Structs st) (Insts st) (f (BlockInsts st))
          (Globals st) (LFunctions st) (NextId st).
Definition setGlobals (f : gmap nat GlobalVariable -> gmap nat GlobalVariable) (st : State) :=
  mkState (TypeMap st) (ValueMap st) (PlaceholderMap st) (FuncMap st)
          (FuncLoopMetadataMap st) (Structs st) (Insts st) (BlockInsts st)
          (f (Globals st)) (LFunctions st) (NextId st).
Definition setLFunctions (f : gmap nat LLVMFunction -> gmap nat LLVMFunction) (st : State) :=
  mkState (TypeMap st) (ValueMap st) (PlaceholderMap st) (FuncMap st)
          (FuncLoopMetadataMap st) (Structs st) (Insts st) (BlockInsts st)
          (Globals st) (f (LFunctions st)) (NextId st).

(** A fresh identity for a newly allocated IR object. *)
Definition fresh (st : State) : nat * State :=
  (NextId st,
   mkState (TypeMap st) (ValueMap st) (PlaceholderMap st) (FuncMap st)
           (FuncLoopMetadataMap st) (Structs st) (Insts st) (BlockInsts st)
           (Globals st) (LFunctions st) (S (NextId st))).

(** ** Types (SPIRVReader.cpp:244-424, 913-917) *)

Definition mapType (BT : nat) (T : LType) (st : State) : LType * State :=
  (T, setTypeMap <[BT := T]> st).

Definition transFPType (BitWidth : Z) : Res LType :=
  if BitWidth =? 16 then Ok LHalf
  else if BitWidth =? 32 then Ok LFloat
  else if BitWidth =? 64 then Ok LDouble
  else Fault Unreachable.

(** [M->getTypeByName(Name)]: the identified struct of that name. *)
Definition getTypeByName (st : State) (N : string) : option nat :=
  fst <$> find (fun e => String.eqb (sname (snd e)) N)
               (map_to_list (Structs st)).

(** [StructType::create(Context, Name)]: a new opaque identified struct. *)
Definition createStruct (N : string) (st : State) : nat * State :=
  let '(sid, st1) := fresh st in
  (sid, setStructs <[sid := mkStructInfo N None]> st1).

(** [OldST->setName("")]. *)
Definition clearStructName (sid : nat) (st : State) : State :=
  setStructs (alter (fun s => mkStructInfo EmptyString (sbody s)) sid) st.

(** [StructTy->setBody(MT, isPacked)]. *)
Definition setBody (sid : nat) (MT : list LType) (isPacked : bool) (st : State)
    : State :=
  setStructs (alter (fun s => mkStructInfo (sname s) (Some (MT, isPacked))) sid) st.

(** Modelled from the spec: [getOrCreateOpaquePtrType] (SPIRVUtil) is not
    among the sources; it yields the pointer, in the given address space,
    to the opaque struct of the given name, creating the struct when the
    module has none of that name. *)
Definition getOrCreateOpaquePtrType (N : string) (AS : nat) (st : State)
    : LType * State :=
  match getTypeByName st N with
  | Some sid => (LPointer (LStruct sid) AS, st)
  | None =>
      let '(sid, st1) := createStruct N st in
      (LPointer (LStruct sid) AS, st1)
  end.

Section Translator.

Variable BM : SPIRVModule.

(** [SPIRSPIRVAddrSpaceMap::rmap] (SPIRVInternal.h): the address space of
    a storage class. *)
Variable rmapAddrSpace : nat -> nat.

(** [getBitWidth] of a scalar integer or boolean type. *)
Definition getBitWidth (T : SPIRVType) : Z :=
  match T with
  | OpTypeBool => 1
  | OpTypeInt w _ => w
  | OpTypeFloat w => w
  | _ => 0
  end.

(** [APInt(NumBits, BigValVec)]: the value of the 64-bit words, least
    significant first, truncated to [NumBits] bits. *)
Fixpoint APInt_of_words64 (ws : list Z) : Z :=
  match ws with
  | [] => 0
  | w :: rest => w + 2 ^ 64 * APInt_of_words64 rest
  end.

Definition APInt (NumBits : Z) (BigValVec : list Z) : Z :=
  APInt_of_words64 BigValVec mod 2 ^ NumBits.

(** The loop packing pairs of SPIR-V words into 64-bit words
    (SPIRVReader.cpp:1122-1127); a trailing odd word is stored as is. *)
Fixpoint packWords (RawData : list Z) : list Z :=
  match RawData with
  | lo :: hi :: rest =>
      Z.lor (to_u64 (Z.shiftl hi SpirvWordBitWidth)) lo :: packWords rest
  | [last] => [last]
  | [] => []
  end.

(** [getZExtIntValue]: the low 64 bits held by the constant. *)
Definition getZExtIntValue (Words : list Z) : Z :=
  match Words with
  | [] => 0
  | [lo] => lo
  | lo :: hi :: _ => Z.lor (to_u64 (Z.shiftl hi SpirvWordBitWidth)) lo
  end.

(** The integer constant built for an [OpConstant] of boolean or integer
    type [BT] whose LLVM type is [LT] (SPIRVReader.cpp:1109-1134). *)
Definition transIntConstant (BT : SPIRVType) (LT : LType) (Words : list Z)
    : Constant :=
  let NumBits := getBitWidth BT in
  if 64 <? NumBits
  then CInt NumBits (APInt NumBits (packWords Words))
  else CInt NumBits (getZExtIntValue Words mod 2 ^ NumBits).

(** The length operand of an array type: [cast<ConstantInt>(transValue(
    LenExpr, nullptr, nullptr))] for a length given by an [OpConstant] of
    integer type that is translated here if it has not been before.  The
    constant's type is a scalar, so its translation is the leaf case of
    [transType]. *)
Definition transArrayLength (LenExpr : nat) (st : State) : Res (Z * State) :=
  match ValueMap st !! LenExpr with
  | Some (VConst (CInt _ v)) => Ok (v, st)
  | Some _ => Fault AssertionFailure
  | None =>
      match Values BM !! LenExpr with
      | Some (mkSPIRVValue (OpConstant Words) BTId _) =>
          match Types BM !! BTId with
          | Some (OpTypeInt w s) =>
              let '(LT, st1) :=
                match TypeMap st !! BTId with
                | Some LT => (LT, st)
                | None => mapType BTId (LInt w) st
                end in
              match transIntConstant (OpTypeInt w s) LT Words with
              | CInt w' v =>
                  Ok (v, setValueMap <[LenExpr := VConst (CInt w' v)]> st1)
              | _ => Fault AssertionFailure
              end
          | _ => Fault AssertionFailure
          end
      | _ => Fault AssertionFailure
      end
  end.

(** [transType(T)].  [fuel] bounds the depth of the recursion. *)
Fixpoint transType (fuel : nat) (T : nat) (st : State) : Res (LType * State) :=
  match fuel with
  | O => OutOfFuel
  | S fuel' =>
      match TypeMap st !! T with
      | Some LT => Ok (LT, st)
      | None =>
          match Types BM !! T with
          | None => Fault NullDeref
          | Some node =>
              match node with
              | OpTypeVoid => Ok (mapType T LVoid st)
              | OpTypeBool => Ok (mapType T (LInt 1) st)
              | OpTypeInt w _ => Ok (mapType T (LInt w) st)
              | OpTypeFloat w =>
                  LT ← transFPType w; Ok (mapType T LT st)
              | OpTypeArray Elem LenExpr =>
                  '(LenValue, st1) ← transArrayLength LenExpr st;
                  '(ET, st2) ← transType fuel' Elem st1;
                  Ok (mapType T (LArray ET LenValue) st2)
              | OpTypePointer SC Elem =>
                  '(ET, st1) ← transType fuel' Elem st;
                  Ok (mapType T (LPointer ET (rmapAddrSpace SC)) st1)
              | OpTypeVector Comp Count =>
                  '(CT, st1) ← transType fuel' Comp st;
                  Ok (mapType T (LVector CT Count) st1)
              | OpTypeMatrix Col Count =>
                  '(CT, st1) ← transType fuel' Col st;
                  Ok (mapType T (LArray CT Count) st1)
              | OpTypeOpaque N =>
                  let '(sid, st1) := createStruct N st in
                  Ok (mapType T (LStruct sid) st1)
              | OpTypeFunction Ret Params =>
                  '(RT, st1) ← transType fuel' Ret st;
                  '(PT, st2) ←
                    (fix params (l : list nat) (s : State)
                       : Res (list LType * State) :=
                       match l with
                       | [] => Ok ([], s)
                       | P :: l' =>
                           '(t, s1) ← transType fuel' P s;
                           '(ts, s2) ← params l' s1;
                           Ok (t :: ts, s2)
                       end) Params st1;
                  Ok (mapType T (LFunction RT PT) st2)
              | OpTypeStruct N Members Continued isPacked =>
                  let '(N', st0) :=
                    if negb (String.eqb N EmptyString) then
                      match getTypeByName st N with
                      | Some OldST => (N, clearStructName OldST st)
                      | None => (N, st)
                      end
                    else ("structtype", st) in
                  let '(StructTy, st1) := createStruct N' st0 in
                  let '(_, st2) := mapType T (LStruct StructTy) st1 in
                  '(MT, st3) ←
                    (fix params (l : list nat) (s : State)
                       : Res (list LType * State) :=
                       match l with
                       | [] => Ok ([], s)
                       | P :: l' =>
                           '(t, s1) ← transType fuel' P s;
                           '(ts, s2) ← params l' s1;
                           Ok (t :: ts, s2)
                       end) (Members ++ concat Continued) st2;
                  Ok (LStruct StructTy, setBody StructTy MT isPacked st3)
              | OpTypeSpecial N AS =>
                  let '(PT, st1) := getOrCreateOpaquePtrType N AS st in
                  Ok (mapType T PT st1)
              | OpTypeOther => Fault Unreachable
              end
          end
      end
  end.

(** [transType] over a vector of types, in order. *)
Definition transTypes (fuel : nat) : list nat -> State -> Res (list LType * State) :=
  fix params (l : list nat) (s : State) : Res (list LType * State) :=
    match l with
    | [] => Ok ([], s)
    | P :: l' =>
        '(t, s1) ← transType fuel P s;
        '(ts, s2) ← params l' s1;
        Ok (t :: ts, s2)
    end.

(** ** Values (SPIRVReader.cpp:530-534, 733-793, 919-936, 985-997,
    1083-2219, 2229-2311) *)

(** The IR under construction.  A new object gets a fresh identity; an
    instruction created in a block is appended to it. *)
Definition addInst (K : InstKind) (Ops : list Value) (Name : string)
    (BB : option nat) (st : State) : nat * State :=
  let '(i, st1) := fresh st in
  (i, setBlockInsts
        (match BB with
         | Some b => alter (fun l => l ++ [i]) b
         | None => fun m => m
         end)
        (setInsts <[i := mkInstruction K Ops Name BB]> st1)).

Definition addGlobal (Name : string) (Ty : LType) (Init : option Value)
    (st : State) : nat * State :=
  let '(g, st1) := fresh st in
  (g, setGlobals <[g := mkGlobalVariable Name Ty Init]> st1).

Definition addBlock (F : option nat) (st : State) : nat * State :=
  let '(b, st1) := fresh st in
  (b, setLFunctions
        (match F with
         | Some f =>
             alter (fun fn => mkLLVMFunction (FName fn) (FType fn)
                                             (FBlocks fn ++ [b])) f
         | None => fun m => m
         end)
        (setBlockInsts <[b := []]> st1)).

Definition addFunction (Name : string) (FT : LType) (st : State)
    : nat * State :=
  let '(f, st1) := fresh st in
  (f, setLFunctions <[f := mkLLVMFunction Name FT []]> st1).

(** [Old->replaceAllUsesWith(New)] for an instruction [Old], whose users
    are instructions. *)
Definition replaceAllUsesWith (Old New : Value) (st : State) : State :=
  setInsts
    (fmap (fun i =>
             mkInstruction (Kind i)
               (map (fun v => if Value_eqb v Old then New else v) (Operands i))
               (IName i) (Parent i)))
    st.

(** [eraseFromParent()] of an instruction and of a global variable. *)
Definition eraseInst (i : nat) (st : State) : State :=
  setBlockInsts (fmap (filter (fun j => j ≠ i))) (setInsts (delete i) st).

Definition eraseGlobal (g : nat) (st : State) : State :=
  setGlobals (delete g) st.

Definition KPlaceholderPrefix : string := "placeholder.".

(** The first lines of the branch of [mapValue] for a value that is
    mapped already (SPIRVReader.cpp:924-928): the old mapping is taken for
    a load and its pointer operand is fetched before anything is checked;
    the assertion then wants that pointer to be a global variable whose
    name starts with the placeholder prefix.  The result is the load and
    the global. *)
Definition placeholderOf (st : State) (Old : Value) : Res (nat * nat) :=
  match Old with
  | VInst i =>
      match Insts st !! i with
      | None => Fault DanglingPointer
      | Some LD =>
          match Kind LD, Operands LD with
          | LoadInst, ptr :: _ =>
              match ptr with
              | VGlobal g =>
                  match Globals st !! g with
                  | None => Fault DanglingPointer
                  | Some Placeholder =>
                      if String.prefix KPlaceholderPrefix (GName Placeholder)
                      then Ok (i, g)
                      else Fault AssertionFailure
                  end
              | _ => Fault AssertionFailure
              end
          | LoadInst, [] => Fault AssertionFailure
          | _, _ => Fault NullDeref
          end
      end
  | _ => Fault NullDeref
  end.

(** [mapValue(BV, V)] (SPIRVReader.cpp:919-936). *)
Definition mapValue (BV : nat) (V : Value) (st : State) : Res (Value * State) :=
  match ValueMap st !! BV with
  | Some Old =>
      if Value_eqb Old V then Ok (V, st)
      else
        '(LD, Placeholder) ← placeholderOf st Old;
        let st1 := replaceAllUsesWith (VInst LD) V st in
        let st2 := eraseInst LD st1 in
        let st3 := eraseGlobal Placeholder st2 in
        Ok (V, setValueMap <[BV := V]> st3)
  | None => Ok (V, setValueMap <[BV := V]> st)
  end.

Definition mapFunction (BF F : nat) (st : State) : State :=
  setFuncMap <[BF := F]> st.

(** [setName(V, BV)] (SPIRVReader.cpp:530-534): a value that can carry a
    name takes the name of [BV], unless that is empty. *)
Definition setName (V : Value) (Name : string) (st : State) : State :=
  if String.eqb Name EmptyString then st
  else
    match V with
    | VInst i =>
        setInsts (alter (fun x => mkInstruction (Kind x) (Operands x) Name
                                                (Parent x)) i) st
    | VGlobal g =>
        setGlobals (alter (fun x => mkGlobalVariable Name (GType x)
                                                     (GInitializer x)) g) st
    | VFunc f =>
        setLFunctions (alter (fun x => mkLLVMFunction Name (FType x)
                                                      (FBlocks x)) f) st
    | _ => st
    end.

(** Storage classes (spirv.hpp). *)
Definition StorageClassUniformConstant : nat := 0.
Definition StorageClassFunction : nat := 7.

(** [isSPIRVSamplerType] (SPIRVUtil), the name [SAMPLER_INIT] and the type
    of that function (OCLUtil.h), and the loop headers that [LoopInfo]
    finds in a function. *)
Variable isSPIRVSamplerType : LType -> bool.
Variable SAMPLER_INIT : string.
Variable SamplerInitTy : LType.
Variable loopHeaders : State -> nat -> list nat.

(** [M->getOrInsertFunction(Name, FTy)]. *)
Definition getOrInsertFunction (Name : string) (FTy : LType) (st : State)
    : nat * State :=
  match find (fun e => String.eqb (FName (snd e)) Name)
             (map_to_list (LFunctions st)) with
  | Some (f, _) => (f, st)
  | None => addFunction Name FTy st
  end.

(** [oclTransConstantSampler] (SPIRVReader.cpp:985-997): a new call of the
    sampler initializer in [BB].  The operands of the constant are words,
    and the literal is computed in words. *)
Definition oclTransConstantSampler (AddrMode Normalized FilterMode : Z)
    (BB : option nat) (st : State) : Value * State :=
  let '(Func, st1) := getOrInsertFunction SAMPLER_INIT SamplerInitTy st in
  let Lit := Z.lor (Z.lor (to_word (Z.shiftl AddrMode 1)) Normalized)
                   (to_word (Z.shiftl (to_word (FilterMode + 1)) 4)) in
  let '(CI, st2) :=
    addInst CallInstK [VFunc Func; VConst (CInt 32 Lit)] EmptyString BB st1 in
  (VInst CI, st2).

(** [transLLVMLoopMetadata(F)] (SPIRVReader.cpp:733-767), as far as it
    changes the tables: the entries of the loop headers are consumed. *)
Definition transLLVMLoopMetadata (F : nat) (st : State) : State :=
  setFuncLoopMetadataMap
    (fun m => foldl (fun m h => delete h m) m (loopHeaders st F)) st.

(** The types of the recursive functions, for the definitions below that
    call them. *)
Definition TransValueT : Type :=
  nat -> option nat -> option nat -> bool -> State -> Res (option Value * State).
Definition TransFunctionT : Type := nat -> State -> Res (nat * State).
Definition TransTypeT : Type := nat -> State -> Res (LType * State).

Section Step.

Variable transType' : TransTypeT.
Variable transValue' : TransValueT.
Variable transFunction' : TransFunctionT.

(** A translated value that is used as an operand must not be null. *)
Definition operandValue (BV : nat) (F BB : option nat) (CreatePlaceHolder : bool)
    (st : State) : Res (Value * State) :=
  '(V, st1) ← transValue' BV F BB CreatePlaceHolder st;
  match V with
  | Some v => Ok (v, st1)
  | None => Fault NullDeref
  end.

(** [transValue(const std::vector<SPIRVValue *> &, F, BB)]. *)
Fixpoint transValues (BVs : list nat) (F BB : option nat) (st : State)
    : Res (list Value * State) :=
  match BVs with
  | [] => Ok ([], st)
  | BV :: rest =>
      '(v, st1) ← operandValue BV F BB true st;
      '(vs, st2) ← transValues rest F BB st1;
      Ok (v :: vs, st2)
  end.

(** [LPhi->addIncoming(V, BB)]. *)
Definition addIncoming (Phi : nat) (V B : Value) (st : State) : State :=
  setInsts (alter (fun x => mkInstruction (Kind x) (Operands x ++ [V; B])
                                          (IName x) (Parent x)) Phi) st.

Fixpoint transPhiPairs (Phi : nat) (Pairs : list (nat * nat)) (F BB : option nat)
    (st : State) : Res State :=
  match Pairs with
  | [] => Ok st
  | (IncomingV, IncomingBB) :: rest =>
      '(Translated, st1) ← operandValue IncomingV F BB true st;
      '(B, st2) ← operandValue IncomingBB F BB true st1;
      transPhiPairs Phi rest F BB (addIncoming Phi Translated B st2)
  end.

Definition returnMapped (r : Res (Value * State)) : Res (option Value * State) :=
  '(v, st) ← r; Ok (Some v, st).

(** [transValueWithoutDecoration(BV, F, BB, CreatePlaceHolder)]
    (SPIRVReader.cpp:1083-2219).  Where the source leaves the order of
    evaluation of the operands open, they are translated from left to
    right. *)
Definition transValueWithoutDecoration (BV : nat) (F BB : option nat)
    (CreatePlaceHolder : bool) (st : State) : Res (option Value * State) :=
  match Values BM !! BV with
  | None => Fault NullDeref
  | Some val =>
      let Name := ValueName val in
      let instruction (k : State -> Res (option Value * State)) :=
        (* the instructions, after the values that are none *)
        match BB with
        | None => Fault AssertionFailure
        | Some _ =>
            if CreatePlaceHolder then
              '(Ty, st1) ← transType' (TypeId val) st;
              let '(GV, st2) :=
                addGlobal (KPlaceholderPrefix ++ Name) Ty None st1 in
              let '(LD, st3) := addInst LoadInst [VGlobal GV] Name BB st2 in
              returnMapped
                (mapValue BV (VInst LD)
                          (setPlaceholderMap <[BV := VInst LD]> st3))
            else k st
        end in
      match Op val with
      | OpConstant Words =>
          match Types BM !! TypeId val with
          | None => Fault NullDeref
          | Some BT =>
              '(LT, st1) ← transType' (TypeId val) st;
              match BT with
              | OpTypeBool | OpTypeInt _ _ =>
                  returnMapped
                    (mapValue BV (VConst (transIntConstant BT LT Words)) st1)
              | OpTypeFloat w =>
                  if (w =? 16) || (w =? 32) || (w =? 64)
                  then returnMapped
                         (mapValue BV
                            (VConst (CFP w (getZExtIntValue Words mod 2 ^ w)))
                            st1)
                  else Fault Unreachable
              | _ => Fault Unreachable
              end
          end
      | OpConstantTrue => returnMapped (mapValue BV (VConst (CInt 1 1)) st)
      | OpConstantFalse => returnMapped (mapValue BV (VConst (CInt 1 0)) st)
      | OpConstantNull =>
          '(LT, st1) ← transType' (TypeId val) st;
          returnMapped (mapValue BV (VConst (CNull LT)) st1)
      | OpUndef =>
          '(LT, st1) ← transType' (TypeId val) st;
          returnMapped (mapValue BV (VConst (CUndef LT)) st1)
      | OpConstantSampler AddrMode Normalized FilterMode =>
          (* intentionally not mapped *)
          let '(CI, st1) :=
            oclTransConstantSampler AddrMode Normalized FilterMode BB st in
          Ok (Some CI, st1)
      | OpVariable BS Init =>
          match Types BM !! TypeId val with
          | Some (OpTypePointer _ ElemTy) =>
              '(Ty, st1) ← transType' ElemTy st;
              if isSPIRVSamplerType Ty
                 && Nat.eqb BS StorageClassUniformConstant
              then
                match BB, Init with
                | None, _ => Ok (None, st1)
                | Some _, None => Fault AssertionFailure
                | Some _, Some InitV => transValue' InitV F BB true st1
                end
              else
                '(Initializer, st2) ←
                  match Init with
                  | Some InitV =>
                      '(v, s) ← transValue' InitV F BB false st1;
                      Ok (match v with
                          | Some (VConst c) => Some (VConst c)
                          | Some (VGlobal g) => Some (VGlobal g)
                          | Some (VFunc f) => Some (VFunc f)
                          | _ => None
                          end, s)
                  | None => Ok (None, st1)
                  end;
                if Nat.eqb BS StorageClassFunction
                   && negb (bool_decide (is_Some Init))
                then
                  match BB with
                  | None => Fault AssertionFailure
                  | Some _ =>
                      let '(A, st3) := addInst AllocaInst [] Name BB st2 in
                      returnMapped (mapValue BV (VInst A) st3)
                  end
                else
                  let '(LVar, st3) :=
                    addGlobal Name Ty Initializer st2 in
                  returnMapped (mapValue BV (VGlobal LVar) st3)
          | _ => Fault NullDeref
          end
      | OpFunctionParameter ArgNo =>
          match F with
          | None => Fault AssertionFailure
          | Some f =>
              match LFunctions st !! f with
              | Some (mkLLVMFunction _ (LFunction _ Params) _) =>
                  if (ArgNo <? length Params)%nat
                  then returnMapped (mapValue BV (VArg f ArgNo) st)
                  else Fault Unreachable
              | _ => Fault Unreachable
              end
          end
      | OpFunction =>
          '(LF, st1) ← transFunction' BV st;
          returnMapped (mapValue BV (VFunc LF) st1)
      | OpLabel =>
          let '(B, st1) := addBlock F st in
          returnMapped (mapValue BV (VBlock B) (setName (VBlock B) Name st1))
      | OpPhi Pairs =>
          instruction (fun st =>
            '(Ty, st1) ← transType' (TypeId val) st;
            let '(LPhi, st2) := addInst PHINode [] Name BB st1 in
            '(_, st3) ← mapValue BV (VInst LPhi) st2;
            st4 ← transPhiPairs LPhi Pairs F BB st3;
            Ok (Some (VInst LPhi), st4))
      | OpLoad Src =>
          instruction (fun st =>
            '(Ptr, st1) ← operandValue Src F BB true st;
            let '(LI, st2) := addInst LoadInst [Ptr] Name BB st1 in
            returnMapped (mapValue BV (VInst LI) st2))
      | OpFunctionCall Callee ArgumentValues =>
          instruction (fun st =>
            '(LF, st1) ← transFunction' Callee st;
            '(Args, st2) ← transValues ArgumentValues F BB st1;
            let '(Call, st3) :=
              addInst CallInstK (VFunc LF :: Args) Name BB st2 in
            returnMapped (mapValue BV (VInst Call) st3))
      | OpLoopMerge =>
          instruction (fun st =>
            match BB with
            | Some b => Ok (None, setFuncLoopMetadataMap <[b := BV]> st)
            | None => Fault AssertionFailure
            end)
      | OpLine => instruction (fun st => Ok (None, st))
      | OpInst OpCode Ops =>
          instruction (fun st =>
            '(Vs, st1) ← transValues Ops F BB st;
            let '(Inst, st2) := addInst (OtherInst OpCode) Vs Name BB st1 in
            returnMapped (mapValue BV (VInst Inst) st2))
      end
  end.

(** [transValue(BV, F, BB, CreatePlaceHolder)] (SPIRVReader.cpp:769-793);
    [transDecoration] changes nothing of the state of the model. *)
Definition transValueStep (BV : nat) (F BB : option nat)
    (CreatePlaceHolder : bool) (st : State) : Res (option Value * State) :=
  let translate :=
    '(V, st1) ← transValueWithoutDecoration BV F BB CreatePlaceHolder st;
    match V with
    | None => Ok (None, st1)
    | Some v =>
        Ok (Some v,
            setName v (default EmptyString (ValueName <$> Values BM !! BV)) st1)
    end in
  match ValueMap st !! BV with
  | Some v =>
      if negb (bool_decide (is_Some (PlaceholderMap st !! BV)))
         || CreatePlaceHolder
      then Ok (Some v, st)
      else translate
  | None => translate
  end.

(** The loops of [transFunction] over the arguments, the blocks and the
    instructions. *)
Fixpoint mapArguments (F : nat) (ArgNo : nat) (BAs : list nat) (st : State)
    : Res State :=
  match BAs with
  | [] => Ok st
  | BA :: rest =>
      '(_, st1) ← mapValue BA (VArg F ArgNo) st;
      mapArguments F (S ArgNo) rest st1
  end.

Fixpoint transLabels (F : nat) (BBs : list SPIRVBasicBlock) (st : State)
    : Res State :=
  match BBs with
  | [] => Ok st
  | BBB :: rest =>
      '(_, st1) ← transValue' (LabelId BBB) (Some F) None true st;
      transLabels F rest st1
  end.

Fixpoint transInsts (F : nat) (BB : option nat) (BInsts : list nat)
    (st : State) : Res State :=
  match BInsts with
  | [] => Ok st
  | BInst :: rest =>
      '(_, st1) ← transValue' BInst (Some F) BB false st;
      transInsts F BB rest st1
  end.

Fixpoint transBlocks (F : nat) (BBs : list SPIRVBasicBlock) (st : State)
    : Res State :=
  match BBs with
  | [] => Ok st
  | BBB :: rest =>
      '(B, st1) ← transValue' (LabelId BBB) (Some F) None true st;
      let BB := match B with Some (VBlock b) => Some b | _ => None end in
      st2 ← transInsts F BB (InstVec BBB) st1;
      transBlocks F rest st2
  end.

(** [transFunction(BF)] (SPIRVReader.cpp:2229-2311). *)
Definition transFunctionStep (BF : nat) (st : State) : Res (nat * State) :=
  match FuncMap st !! BF with
  | Some F => Ok (F, st)
  | None =>
      match FunctionsOf BM !! BF, Values BM !! BF with
      | Some Fn, Some val =>
          let BFName := ValueName val in
          let sameName :=
            if IsKernel Fn
            then find (fun e =>
                         String.eqb BFName
                           (default EmptyString
                              (ValueName <$> Values BM !! fst e)))
                      (map_to_list (FuncMap st))
            else None in
          match sameName with
          | Some (_, F) =>
              '(_, st1) ← mapValue BF (VFunc F) st;
              Ok (F, mapFunction BF F st1)
          | None =>
              '(FT, st1) ← transType' (FunctionTypeId Fn) st;
              match FT with
              | LFunction _ Params =>
                  let '(F, st2) := addFunction BFName FT st1 in
                  '(_, st3) ← mapValue BF (VFunc F) st2;
                  let st4 := mapFunction BF F st3 in
                  if negb (length Params <=? length (Arguments Fn))%nat
                  then Fault AssertionFailure
                  else
                    st5 ← mapArguments F 0
                            (take (length Params) (Arguments Fn)) st4;
                    st6 ← transLabels F (BBVec Fn) st5;
                    st7 ← transBlocks F (BBVec Fn) st6;
                    Ok (F, transLLVMLoopMetadata F st7)
              | _ => Fault NullDeref
              end
          end
      | _, _ => Fault NullDeref
      end
  end.

End Step.

(** The recursion.  [fuel] bounds its depth. *)
Fixpoint transValue (fuel : nat) : TransValueT :=
  match fuel with
  | O => fun _ _ _ _ _ => OutOfFuel
  | S fuel' =>
      transValueStep (transType fuel') (transValue fuel') (transFunction fuel')
  end
with transFunction (fuel : nat) : TransFunctionT :=
  match fuel with
  | O => fun _ _ => OutOfFuel
  | S fuel' => transFunctionStep (transType fuel') (transValue fuel')
  end.


End Translator.

End Reader.

(* ===================================================================== *)
(** * Encoding: LLVM IR -> SPIR-V (SPIRVWriter.cpp) *)
(* ===================================================================== *)

Module Writer.

(** ** The LLVM module (input) *)

(** LLVM types by identity ([Type *]); operands are identities.  A struct
    without body is opaque (not sized). *)
Inductive LLVMType :=
| VoidTy
| IntegerTy (BitWidth : Z)
| FloatingPointTy (PrimitiveSizeInBits : Z)
| PointerTy (ElementType : nat) (AddressSpace : nat)
| VectorTy (ElementType : nat) (NumElements : Z)
| ArrayTy (ElementType : nat) (NumElements : Z)
| StructTy (Name : string) (Body : option (list nat)) (Packed : bool)
| FunctionTy (ReturnType : nat) (Params : list nat).

(** The translator options the model reads. *)
Inductive ExtensionID :=
| SPV_INTEL_arbitrary_precision_integers
| SPV_INTEL_function_pointers
| SPV_INTEL_long_constant_composite
| SPV_INTEL_unstructured_loop_controls.

(** ** The SPIR-V module under construction *)

(** Entries of the module by id.  A struct is opened with unset members
    ([None]) that [setMemberType] fills in; [ESpecial] stands for the
    OpenCL and vendor vocabulary (pipes, images, samplers, events, queues,
    buffer surfaces, ...). *)
Inductive SPIRVEntry :=
| EVoid
| EBool
| EInt (BitWidth : Z)
| EFloat (BitWidth : Z)
| EPointer (StorageClass : nat) (ElementType : nat)
| EVector (ComponentType : nat) (Count : Z)
| EArray (ElementType : nat) (Length : nat)
| EOpaque (Name : string)
| EStruct (Name : string) (Members : list (option nat))
          (Continued : list nat) (Packed Closed : bool)
| EFunction (ReturnType : nat) (Params : list nat)
| ESpecial (Kind : nat)
| EConstant (TypeId : nat) (Words : list Z)
| EForward (TypeId : nat)
| EFunctionV (TypeId : nat) (Params : list nat)
| EFunctionParameter (F : nat) (ArgNo : nat)
| EBasicBlock (F : nat)
| EInstruction (OpCode : Z) (Operands : list nat) (BB : option nat)
| EConstFunctionPointer (TypeId : nat) (F : nat)
| EConstantExpr (TypeId : nat) (Operands : list nat).

(** The contraction status of a function (SPIRVWriter.h). *)
Inductive FPContract := UNDEF | DISABLED | ENABLED.

Record State := mkState {
  TypeMap : gmap nat nat;
  ValueMap : gmap nat nat;
  Entries : gmap nat SPIRVEntry;
  NextId : nat;
  FPContractMap : gmap nat FPContract
}.

Definition initState : State := mkState ∅ ∅ ∅ 1 ∅.

Definition setTypeMap (f : gmap nat nat -> gmap nat nat) (st : State) :=
  mkState (f (TypeMap st)) (ValueMap st) (Entries st) (NextId st)
          (FPContractMap st).
Definition setValueMap (f : gmap nat nat -> gmap nat nat) (st : State) :=
  mkState (TypeMap st) (f (ValueMap st)) (Entries st) (NextId st)
          (FPContractMap st).
Definition setEntries (f : gmap nat SPIRVEntry -> gmap nat SPIRVEntry) (st : State) :=
  mkState (TypeMap st) (ValueMap st) (f (Entries st)) (NextId st)
          (FPContractMap st).

(** Modelled from the spec: the [add...] constructors of [SPIRVModule] are
    not among the sources; each gives the new entry the next free id and
    records it in the module. *)
Definition addEntry (e : SPIRVEntry) (st : State) : nat * State :=
  (NextId st,
   mkState (TypeMap st) (ValueMap st) (<[NextId st := e]> (Entries st))
           (S (NextId st)) (FPContractMap st)).

(** Modelled from the spec: [SPIRVTypeStruct::setMemberType] is not among
    the sources; it stores the id of the member type in slot [I] of the
    open struct. *)
Definition setMemberType (Struct Idx Ty : nat) (st : State) : State :=
  setEntries
    (alter (fun e => match e with
                     | EStruct N Ms C P Cl => EStruct N (<[Idx := Some Ty]> Ms) C P Cl
                     | e => e
                     end) Struct) st.

(** Modelled from the spec: [SPIRVModule::closeStructType] is not among
    the sources; it records the packing and seals the struct. *)
Definition closeStructType (Struct : nat) (isPacked : bool) (st : State) : State :=
  setEntries
    (alter (fun e => match e with
                     | EStruct N Ms C _ _ => EStruct N Ms C isPacked true
                     | e => e
                     end) Struct) st.

(** Modelled from the spec: [addContinuedInstruction] with
    [addTypeStructContinuedINTEL] is not among the sources; it appends a
    continuation record for [n] further members to the struct. *)
Definition addContinued (Struct n : nat) (st : State) : State :=
  setEntries
    (alter (fun e => match e with
                     | EStruct N Ms C P Cl =>
                         EStruct N (Ms ++ replicate n None) (C ++ [n]) P Cl
                     | e => e
                     end) Struct) st.

(** [MaxWordCount - SPIRVTypeStruct::FixedWC]. *)
Definition MaxNumElements : Z := 65535 - 2.

(** Modelled from the spec: the word representation [SPIRVConstant] gives
    a value is not among the sources; a constant of an integer type of
    [w] bits holds the value in as many 32-bit words as [w] bits need,
    least significant word first. *)
Fixpoint wordsOf (NumWords : nat) (v : Z) : list Z :=
  match NumWords with
  | O => []
  | S n => to_word v :: wordsOf n (Z.shiftr v SpirvWordBitWidth)
  end.

Definition numWordsOf (BitWidth : Z) : nat :=
  Z.to_nat ((BitWidth + 31) / 32).

Section Translator.

(** The types of the module, and the options of the translation. *)
Variable LTypes : gmap nat LLVMType.
Variable isAllowedToUseExtension : ExtensionID -> bool.

(** [SPIRSPIRVAddrSpaceMap::map] (SPIRVInternal.h). *)
Variable mapAddrSpace : nat -> nat.

(** The opaque struct names that denote special SPIR-V vocabulary, with
    the kind of type they denote (the name tables of SPIRVInternal.h and
    OCLUtil.h). *)
Variable specialOpaque : string -> option nat.

(** [getSPIRVTypeName(kSPIRVTypeName::ConstantSampler)] and
    [...ConstantPipeStorage], and the types [getSamplerType(M)] and
    [getPipeStorageType(M)] (SPIRVUtil). *)
Variable ConstantSamplerName ConstantPipeStorageName : string.
Variable SamplerType PipeStorageType : nat.

(** [getSizetType()], and the identity of the uniqued constant
    [ConstantInt::get(Ty, V)]. *)
Variable SizetType : nat.
Variable ConstantIntId : nat -> Z -> nat.

Definition isComposite (T : LLVMType) : bool :=
  match T with
  | StructTy _ _ _ | ArrayTy _ _ | VectorTy _ _ => true
  | _ => false
  end.

Definition isPointerTy (T : LLVMType) : bool :=
  match T with PointerTy _ _ => true | _ => false end.

(** ** recursiveType (SPIRVWriter.cpp:222-261): does [Ty] reach the struct
    [ST]?  [Seen] is the set the lambda captures. *)
Fixpoint Run (fuel : nat) (ST : nat) (Seen : gset nat) (Ty : nat)
    : Res (bool * gset nat) :=
  match fuel with
  | O => OutOfFuel
  | S fuel' =>
      match LTypes !! Ty with
      | None => Fault NullDeref
      | Some node =>
          match node with
          | StructTy _ Body _ =>
              if Nat.eqb Ty ST then Ok (true, Seen)
              else if bool_decide (Ty ∈ Seen) then Ok (false, Seen)
              else
                (fix find_if (l : list nat) (seen : gset nat)
                   : Res (bool * gset nat) :=
                   match l with
                   | [] => Ok (false, seen)
                   | E :: l' =>
                       '(b, seen1) ← Run fuel' ST seen E;
                       if b : bool then Ok (true, seen1) else find_if l' seen1
                   end) (default [] Body) ({[Ty]} ∪ Seen)
          | PointerTy ElTy _ =>
              match LTypes !! ElTy with
              | Some (FunctionTy Ret Ps) =>
                  '(b, seen1) ← Run fuel' ST Seen Ret;
                  if b : bool then Ok (true, seen1)
                  else
                    (fix any_of (l : list nat) (seen : gset nat)
                       : Res (bool * gset nat) :=
                       match l with
                       | [] => Ok (false, seen)
                       | E :: l' =>
                           '(b, seen1) ← Run fuel' ST seen E;
                           if b : bool then Ok (true, seen1) else any_of l' seen1
                       end) Ps seen1
              | _ => Run fuel' ST Seen ElTy
              end
          | ArrayTy El _ => Run fuel' ST Seen El
          | _ => Ok (false, Seen)
          end
      end
  end.

Definition recursiveType (fuel : nat) (ST Ty : nat) : Res bool :=
  '(b, _) ← Run fuel ST ∅ Ty; Ok b.

(** ** Types (SPIRVWriter.cpp:263-470, 1522-1526) *)

Definition mapType (T : nat) (BT : nat * State) : nat * State :=
  (fst BT, setTypeMap <[T := fst BT]> (snd BT)).

(** The length operand of an array type: [transValue(ConstantInt::get(
    getSizetType(), N), nullptr)], the translation of an integer constant
    (SPIRVWriter.cpp:692-702) with its memoization (796-818, 1198-1202).
    [fuel] is spent on the type of the constant. *)
Definition transConstantInt (transType : nat -> State -> Res (nat * State))
    (Ty : nat) (v : Z) (st : State) : Res (nat * State) :=
  let V := ConstantIntId Ty v in
  match ValueMap st !! V with
  | Some BV => Ok (BV, st)
  | None =>
      match LTypes !! Ty with
      | Some (IntegerTy BitWidth) =>
          _ ← (if 64 <? BitWidth
               then checkError
                      (isAllowedToUseExtension SPV_INTEL_arbitrary_precision_integers)
                      SPIRVEC_InvalidBitWidth
               else Ok tt);
          '(BT, st1) ← transType Ty st;
          let '(BV, st2) :=
            addEntry (EConstant BT (wordsOf (numWordsOf BitWidth)
                                            (if 64 <? BitWidth then v else to_u64 v)))
                     st1 in
          Ok (BV, setValueMap <[V := BV]> st2)
      | _ => Fault AssertionFailure
      end
  end.

(** The two loops over the members of a struct: members from which the
    struct can be reached again are collected in [ForwardRefs], the others
    are translated at once. *)
Definition transMembers1 (transType : nat -> State -> Res (nat * State))
    (fuel : nat) (T Struct : nat) (Elements : list nat)
    : nat -> list nat -> State -> Res (list nat * State) :=
  fix loop (Idx : nat) (l : list nat) (st : State) : Res (list nat * State) :=
    match l with
    | [] => Ok ([], st)
    | ElemTy :: l' =>
        deferred ←
          match LTypes !! ElemTy with
          | None => Fault NullDeref
          | Some node =>
              if isComposite node || isPointerTy node
              then recursiveType fuel T ElemTy
              else Ok false
          end;
        if deferred : bool then
          '(ForwardRefs, st1) ← loop (S Idx) l' st;
          Ok (Idx :: ForwardRefs, st1)
        else
          '(BT, st1) ← transType ElemTy st;
          loop (S Idx) l' (setMemberType Struct Idx BT st1)
    end.

Definition transMembers2 (transType : nat -> State -> Res (nat * State))
    (Struct : nat) (Elements : list nat)
    : list nat -> State -> Res State :=
  fix loop (ForwardRefs : list nat) (st : State) : Res State :=
    match ForwardRefs with
    | [] => Ok st
    | Idx :: l' =>
        match Elements !! Idx with
        | None => Fault AssertionFailure
        | Some ElemTy =>
            '(BT, st1) ← transType ElemTy st;
            loop l' (setMemberType Struct Idx BT st1)
        end
    end.

(** The continuation records of an oversized struct
    (SPIRVWriter.cpp:422-437). *)
Definition addContinuedInstructions (Struct NumElements : nat) (st : State)
    : State :=
  if (MaxNumElements <? Z.of_nat NumElements)
     && isAllowedToUseExtension SPV_INTEL_long_constant_composite
  then
    let NumOfContinuedInstructions :=
      Z.to_nat (Z.of_nat NumElements / MaxNumElements - 1) in
    let st1 :=
      Nat.iter NumOfContinuedInstructions
               (addContinued Struct (Z.to_nat MaxNumElements)) st in
    let Remains := Z.of_nat NumElements mod MaxNumElements in
    if 0 <? Remains then addContinued Struct (Z.to_nat Remains) st1 else st1
  else st.

(** [transType(T)].  [fuel] bounds the depth of the recursion. *)
Fixpoint transType (fuel : nat) (T : nat) (st : State) : Res (nat * State) :=
  match fuel with
  | O => OutOfFuel
  | S fuel' =>
      match TypeMap st !! T with
      | Some BT => Ok (BT, st)
      | None =>
          match LTypes !! T with
          | None => Fault NullDeref
          | Some node =>
              match node with
              | VoidTy => Ok (mapType T (addEntry EVoid st))
              | IntegerTy BitWidth =>
                  if BitWidth =? 1 then Ok (mapType T (addEntry EBool st))
                  else
                    _ ← (if isAllowedToUseExtension
                              SPV_INTEL_arbitrary_precision_integers
                         then Ok tt
                         else checkError
                                ((BitWidth =? 8) || (BitWidth =? 16)
                                 || (BitWidth =? 32) || (BitWidth =? 64))
                                SPIRVEC_InvalidBitWidth);
                    Ok (mapType T (addEntry (EInt BitWidth) st))
              | FloatingPointTy Bits =>
                  Ok (mapType T (addEntry (EFloat Bits) st))
              | PointerTy ET AddrSpc =>
                  match LTypes !! ET with
                  | None => Fault NullDeref
                  | Some ETnode =>
                      _ ← (match ETnode with
                           | FunctionTy _ _ =>
                               checkError
                                 (isAllowedToUseExtension SPV_INTEL_function_pointers)
                                 SPIRVEC_FunctionPointers
                           | _ => Ok tt
                           end);
                      match ETnode with
                      | StructTy STName None _ =>
                          match specialOpaque STName with
                          | Some k => Ok (mapType T (addEntry (ESpecial k) st))
                          | None =>
                              '(BET, st1) ← transType fuel' ET st;
                              Ok (mapType T (addEntry
                                    (EPointer (mapAddrSpace AddrSpc) BET) st1))
                          end
                      | _ =>
                          '(BET, st1) ← transType fuel' ET st;
                          Ok (mapType T (addEntry
                                (EPointer (mapAddrSpace AddrSpc) BET) st1))
                      end
                  end
              | VectorTy El Num =>
                  '(BEl, st1) ← transType fuel' El st;
                  Ok (mapType T (addEntry (EVector BEl Num) st1))
              | ArrayTy El Num =>
                  _ ← checkError (1 <=? Num) SPIRVEC_InvalidArraySize;
                  '(BEl, st1) ← transType fuel' El st;
                  '(Len, st2) ←
                    transConstantInt (transType fuel') SizetType Num st1;
                  Ok (mapType T (addEntry (EArray BEl Len) st2))
              | StructTy N None _ =>
                  Ok (mapType T (addEntry (EOpaque N) st))
              | StructTy N (Some Elements) isPacked =>
                  if String.eqb N ConstantSamplerName
                  then transType fuel' SamplerType st
                  else if String.eqb N ConstantPipeStorageName
                  then transType fuel' PipeStorageType st
                  else
                    let NumElements := length Elements in
                    let SPIRVStructNumElements :=
                      if (MaxNumElements <? Z.of_nat NumElements)
                         && isAllowedToUseExtension SPV_INTEL_long_constant_composite
                      then Z.to_nat MaxNumElements else NumElements in
                    let '(Struct, st1) :=
                      mapType T
                        (addEntry (EStruct N (replicate SPIRVStructNumElements None)
                                           [] false false) st) in
                    let st2 := addContinuedInstructions Struct NumElements st1 in
                    '(ForwardRefs, st3) ←
                      transMembers1 (transType fuel') fuel' T Struct Elements
                                    0%nat Elements st2;
                    let st4 := closeStructType Struct isPacked st3 in
                    st5 ← transMembers2 (transType fuel') Struct Elements
                                        ForwardRefs st4;
                    Ok (Struct, st5)
              | FunctionTy Ret Ps =>
                  '(RT, st1) ← transType fuel' Ret st;
                  '(PT, st2) ←
                    (fix params (l : list nat) (s : State)
                       : Res (list nat * State) :=
                       match l with
                       | [] => Ok ([], s)
                       | P :: l' =>
                           '(t, s1) ← transType fuel' P s;
                           '(ts, s2) ← params l' s1;
                           Ok (t :: ts, s2)
                       end) Ps st1;
                  Ok (mapType T (addEntry (EFunction RT PT) st2))
              end
          end
      end
  end.

Definition transTypes (fuel : nat) : list nat -> State -> Res (list nat * State) :=
  fix params (l : list nat) (s : State) : Res (list nat * State) :=
    match l with
    | [] => Ok ([], s)
    | P :: l' =>
        '(t, s1) ← transType fuel P s;
        '(ts, s2) ← params l' s1;
        Ok (t :: ts, s2)
    end.

(** ** Values (SPIRVWriter.cpp:159-164, 527-590, 677-818, 1077-1541,
    2373-2520, 2659-2795, 3239-3266) *)

(** The LLVM module (input): values by identity.  The users of a value
    are the values that have it among their operands. *)
Inductive CalledOperand :=
| CalledFunction (F : nat)
| CalledInlineAsm
| CalledValue (V : nat).

Inductive Instruction :=
| CallInst (Called : CalledOperand) (Args : list nat)
| BinaryOperator (OpCode : nat) (Op0 Op1 : nat) (UnfusedMulAdd : bool)
| OtherInstruction (OpCode : nat) (Operands : list nat).

Inductive LLVMValue :=
| FunctionV (Name : string) (PtrTy : nat) (NumArgs : nat) (Blocks : list nat)
| BasicBlockV (Parent : nat) (Insts : list nat)
| ArgumentV (Parent : nat) (ArgNo : nat)
| ConstantIntV (Ty : nat) (v : Z)
| ConstantExprV (Ty : nat) (Operands : list nat)
| InstructionV (Parent : nat) (Ty : nat) (Inst : Instruction).

Definition instOperands (Inst : Instruction) : list nat :=
  match Inst with
  | CallInst (CalledFunction F) Args => F :: Args
  | CallInst CalledInlineAsm Args => Args
  | CallInst (CalledValue V) Args => V :: Args
  | BinaryOperator _ Op0 Op1 _ => [Op0; Op1]
  | OtherInstruction _ Ops => Ops
  end.

Definition operandsOf (val : LLVMValue) : list nat :=
  match val with
  | ConstantExprV _ Ops => Ops
  | InstructionV _ _ Inst => instOperands Inst
  | _ => []
  end.

Inductive FuncTransMode := Decl | Pointer.

(** The cases of the switch of [transIntrinsicInst]
    (SPIRVWriter.cpp:2020-2371) that the model tells apart, as the options
    of the translator select them:
    - [IntrinsicInstruction]: one instruction, made of the translation of
      the type of the call (if [Typed]) and then of the arguments with the
      numbers [ArgNos] ([bitreverse], the unary and binary floating-point
      intrinsics, [fma], [ctpop], [ctlz] and [cttz], which leave out their
      second argument, [stacksave] with SPV_INTEL_variable_length_array:
      typed; [assume] with SPV_KHR_expect_assume, [memcpy], [stackrestore]
      with its extension: not typed);
    - [IntrinsicDropped]: [nullptr] at once ([assume] without its
      extension, [invariant.start], [invariant.end], [dbg.label]);
    - [IntrinsicNeedsExtension]: [stacksave] and [stackrestore] without
      their extension, an error unless unknown intrinsics are allowed, and
      [nullptr];
    - [IntrinsicUnknown]: the default case.
    The intrinsics whose translation makes several entries, decorates, or
    answers with the translation of an operand ([fmuladd], [usub.sat],
    [memset], [expect], the annotations, [lifetime] and the debug
    intrinsics) have no case here: a module that calls them is outside
    the model. *)
Inductive IntrinsicCase :=
| IntrinsicInstruction (OpCode : Z) (Typed : bool) (ArgNos : list nat)
| IntrinsicDropped
| IntrinsicNeedsExtension
| IntrinsicUnknown.

Definition FuncTransMode_eqb (a b : FuncTransMode) : bool :=
  match a, b with Decl, Decl | Pointer, Pointer => true | _, _ => false end.

(** The module and what the translation reads of helpers outside these
    sources: the adapted type of a function (OCLTypeToSPIRV), the
    intrinsics of the list of [isKnownIntrinsic] (SPIRVWriter.cpp:1908),
    by name, the instruction that stands for a direct call of a sampler
    cast, of a builtin or of an extended instruction, the case of
    [transIntrinsicInst] for an intrinsic, the table of opcodes, the
    functions [translate] leaves out, and the option
    [-spirv-allow-unknown-intrinsics]. *)
Variable LValues : gmap nat LLVMValue.
Variable ModuleFunctions : list nat.
Variable getAdaptedType : nat -> nat.
Variable isKnownIntrinsic : string -> bool.
Variable builtinOp : string -> option Z.
Variable intrinsicCase : string -> IntrinsicCase.
Variable OpCodeMap : nat -> Z.
Variable isSkippedFunction : string -> bool.
Variable SPV_INTEL_inline_assembly_allowed : bool.
Variable SPIRVAllowUnknownIntrinsics : bool.

(** LLVM's [Function::isIntrinsic]: the name begins with [llvm.].  A call
    instruction is an [IntrinsicInst] when it calls such a function
    directly. *)
Definition isIntrinsic (Name : string) : bool := String.prefix "llvm." Name.

(** The functions that [transFunctionDecl] does not translate
    (SPIRVWriter.cpp:531-532). *)
Definition isUntranslatedIntrinsic (Name : string) : bool :=
  isIntrinsic Name && (negb SPIRVAllowUnknownIntrinsics || isKnownIntrinsic Name).

Definition usersOf (V : nat) : list nat :=
  fst <$> filter (fun e => V ∈ operandsOf (snd e)) (map_to_list LValues).

Definition isFunction (V : nat) : bool :=
  match LValues !! V with Some (FunctionV _ _ _ _) => true | _ => false end.

Definition isDeclaration (F : nat) : bool :=
  match LValues !! F with
  | Some (FunctionV _ _ _ []) => true
  | _ => false
  end.

Definition nameOf (F : nat) : string :=
  match LValues !! F with
  | Some (FunctionV Name _ _ _) => Name
  | _ => EmptyString
  end.

(** [getFPContract] and [joinFPContract] (SPIRVWriter.cpp:3239-3266). *)
Definition getFPContract (F : nat) (st : State) : FPContract :=
  default UNDEF (FPContractMap st !! F).

Definition setFPContractMap (f : gmap nat FPContract -> gmap nat FPContract)
    (st : State) : State :=
  mkState (TypeMap st) (ValueMap st) (Entries st) (NextId st)
          (f (FPContractMap st)).

Definition joinFPContract (F : nat) (C : FPContract) (st : State)
    : bool * State :=
  (* [FPContractMap[F]] makes the entry if there is none *)
  let Existing := getFPContract F st in
  let st0 := setFPContractMap <[F := Existing]> st in
  match Existing with
  | UNDEF =>
      match C with
      | UNDEF => (false, st0)
      | _ => (true, setFPContractMap <[F := C]> st)
      end
  | ENABLED =>
      match C with
      | DISABLED => (true, setFPContractMap <[F := C]> st)
      | _ => (false, st0)
      end
  | DISABLED => (false, st0)
  end.

(** [fpContractUpdateRecursive] (SPIRVWriter.cpp:2659-2717): the queue of
    users; [fuel] bounds the number of rounds of the loop. *)
Fixpoint fpContractLoop (fuel : nat) (Users : list nat) (FPC : FPContract)
    (st : State) : Res State :=
  match Users with
  | [] => Ok st
  | U :: Users' =>
      match fuel with
      | O => OutOfFuel
      | S fuel' =>
          match LValues !! U with
          | Some (InstructionV Parent _ _) =>
              fpContractLoop fuel' (Users' ++ [Parent]) FPC st
          | Some (FunctionV _ _ _ _) =>
              let '(updated, st1) := joinFPContract U FPC st in
              if updated : bool
              then fpContractLoop fuel' (Users' ++ usersOf U) FPC st1
              else fpContractLoop fuel' Users' FPC st1
          | Some (ConstantIntV _ _) | Some (ConstantExprV _ _) =>
              fpContractLoop fuel' (Users' ++ usersOf U) FPC st
          | _ => Fault Unreachable
          end
      end
  end.

Definition fpContractUpdateRecursive (fuel : nat) (F : nat) (FPC : FPContract)
    (st : State) : Res State :=
  fpContractLoop fuel (usersOf F) FPC st.

(** The instructions of the SPIR-V module that the model tells apart. *)
Definition OpFunctionCall : Z := 57.
Definition OpFunctionPointerCallINTEL : Z := 5601.
Definition OpAsmCallINTEL : Z := 5611.

Definition isForward (st : State) (BV : nat) : bool :=
  match Entries st !! BV with Some (EForward _) => true | _ => false end.

(** Modelled from the spec: [SPIRVModule::replaceForward] is not among the
    sources; the entry takes the id of the forward reference, which
    ceases to exist, so that what referred to the forward refers to the
    entry. *)
Definition replaceForward (Forward BV : nat) (st : State) : State :=
  match Entries st !! BV with
  | Some e => setEntries (fun m => <[Forward := e]> (delete BV m)) st
  | None => st
  end.

(** [mapValue(V, BV)] (SPIRVWriter.cpp:1528-1541); the result is the id
    under which the entry is known afterwards. *)
Definition mapValue (V BV : nat) (st : State) : Res (nat * State) :=
  match ValueMap st !! V with
  | Some Old =>
      if Nat.eqb Old BV then Ok (BV, st)
      else if isForward st Old
      then Ok (Old, setValueMap <[V := Old]> (replaceForward Old BV st))
      else Fault AssertionFailure
  | None => Ok (BV, setValueMap <[V := BV]> st)
  end.

(** Modelled from the spec: [SPIRVModule::addFunction] is not among the
    sources; the function gets an id and its parameters the ids that
    follow. *)
Definition addFunction (BFT : nat) (NumParams : nat) (st : State)
    : nat * State :=
  let F := NextId st in
  let Params := seq (S F) NumParams in
  (F,
   mkState (TypeMap st) (ValueMap st)
     (foldr (fun p m => <[p := EFunctionParameter F (p - S F)]> m)
            (<[F := EFunctionV BFT Params]> (Entries st)) Params)
     (S F + NumParams) (FPContractMap st)).

Definition TransValueT : Type :=
  nat -> option nat -> bool -> FuncTransMode -> State
  -> Res (option nat * State).

Section Step.

Variable transType' : nat -> State -> Res (nat * State).
Variable transValue' : TransValueT.

(** [transFunctionDecl(F)] (SPIRVWriter.cpp:527-590). *)
Definition transFunctionDecl (F : nat) (st : State)
    : Res (option nat * State) :=
  match ValueMap st !! F with
  | Some BF => Ok (Some BF, st)
  | None =>
      match LValues !! F with
      | Some (FunctionV Name _ NumArgs _) =>
          if isUntranslatedIntrinsic Name then Ok (None, st)
          else
            '(BFT, st1) ← transType' (getAdaptedType F) st;
            let '(BF, st2) := addFunction BFT NumArgs st1 in
            '(BF', st3) ← mapValue F BF st2;
            Ok (Some BF', st3)
      | _ => Fault NullDeref
      end
  end.

Definition operandValue (V : nat) (BB : option nat) (FuncTrans : FuncTransMode)
    (st : State) : Res (nat * State) :=
  '(BV, st1) ← transValue' V BB true FuncTrans st;
  match BV with
  | Some bv => Ok (bv, st1)
  | None => Fault NullDeref
  end.

Fixpoint transValues (Vs : list nat) (BB : option nat)
    (FuncTrans : FuncTransMode) (st : State) : Res (list nat * State) :=
  match Vs with
  | [] => Ok ([], st)
  | V :: rest =>
      '(bv, st1) ← operandValue V BB FuncTrans st;
      '(bvs, st2) ← transValues rest BB FuncTrans st1;
      Ok (bv :: bvs, st2)
  end.

(** [transDirectCallInst] (SPIRVWriter.cpp:2396-2445). *)
Definition transDirectCallInst (F : nat) (Callee : nat) (Args : list nat)
    (BB : option nat) (st : State) : Res (nat * State) :=
  match builtinOp (nameOf Callee) with
  | Some OpCode =>
      '(BArgs, st1) ← transValues Args BB Decl st;
      Ok (addEntry (EInstruction OpCode BArgs BB) st1)
  | None =>
      let st1 :=
        if isDeclaration Callee
        then snd (joinFPContract F DISABLED st)
        else snd (joinFPContract F (getFPContract Callee st) st) in
      '(BF, st2) ← transFunctionDecl Callee st1;
      '(BArgs, st3) ← transValues Args BB Decl st2;
      match BF with
      | Some bf => Ok (addEntry (EInstruction OpFunctionCall (bf :: BArgs) BB) st3)
      | None => Fault NullDeref
      end
  end.

(** [transCallInst] (SPIRVWriter.cpp:2373-2394) with
    [transIndirectCallInst] (2447-2457). *)
Definition transCallInst (F : nat) (Ty : nat) (Called : CalledOperand)
    (Args : list nat) (BB : option nat) (st : State) : Res (nat * State) :=
  match Called with
  | CalledInlineAsm =>
      if SPV_INTEL_inline_assembly_allowed then
        let st1 := snd (joinFPContract F DISABLED st) in
        '(BArgs, st2) ← transValues Args BB Decl st1;
        Ok (addEntry (EInstruction OpAsmCallINTEL BArgs BB) st2)
      else Fault NullDeref
  | CalledValue V =>
      let st1 := snd (joinFPContract F DISABLED st) in
      _ ← checkError (isAllowedToUseExtension SPV_INTEL_function_pointers)
                     SPIRVEC_FunctionPointers;
      '(BCalled, st2) ← operandValue V BB Decl st1;
      '(BT, st3) ← transType' Ty st2;
      '(BArgs, st4) ← transValues Args BB Decl st3;
      Ok (addEntry (EInstruction OpFunctionPointerCallINTEL
                                 (BCalled :: BArgs) BB) st4)
  | CalledFunction Callee => transDirectCallInst F Callee Args BB st
  end.

(** [II->getArgOperand(n)] for each of [ArgNos]. *)
Definition getArgOperands (Args : list nat) (ArgNos : list nat)
    : option (list nat) :=
  mapM (fun n => Args !! n) ArgNos.

(** [transIntrinsicInst] (SPIRVWriter.cpp:2020-2371); the answer [None] is
    [nullptr]. *)
Definition transIntrinsicInst (Ty : nat) (Callee : nat) (Args : list nat)
    (BB : option nat) (st : State) : Res (option nat * State) :=
  match intrinsicCase (nameOf Callee) with
  | IntrinsicInstruction OpCode Typed ArgNos =>
      match getArgOperands Args ArgNos with
      | None => Fault AssertionFailure
      | Some Ops =>
          if Typed then
            '(BT, st1) ← transType' Ty st;
            '(BOps, st2) ← transValues Ops BB Decl st1;
            let '(BI, st3) :=
              addEntry (EInstruction OpCode (BT :: BOps) BB) st2 in
            Ok (Some BI, st3)
          else
            '(BOps, st1) ← transValues Ops BB Decl st;
            let '(BI, st2) := addEntry (EInstruction OpCode BOps BB) st1 in
            Ok (Some BI, st2)
      end
  | IntrinsicDropped => Ok (None, st)
  | IntrinsicNeedsExtension =>
      _ ← checkError SPIRVAllowUnknownIntrinsics SPIRVEC_InvalidFunctionCall;
      Ok (None, st)
  | IntrinsicUnknown =>
      if SPIRVAllowUnknownIntrinsics then
        '(BF, st1) ← transFunctionDecl Callee st;
        '(BArgs, st2) ← transValues Args BB Decl st1;
        match BF with
        | Some bf =>
            let '(BI, st3) :=
              addEntry (EInstruction OpFunctionCall (bf :: BArgs) BB) st2 in
            Ok (Some BI, st3)
        | None => Fault NullDeref
        end
      else
        _ ← checkError false SPIRVEC_InvalidFunctionCall;
        Ok (None, st)
  end.

Definition returnMapped (r : Res (nat * State)) : Res (option nat * State) :=
  '(bv, st) ← r; Ok (Some bv, st).

(** [transValueWithoutDecoration] (SPIRVWriter.cpp:1077-1520). *)
Definition transValueWithoutDecoration (V : nat) (BB : option nat)
    (CreateForward : bool) (FuncTrans : FuncTransMode) (st : State)
    : Res (option nat * State) :=
  match LValues !! V with
  | None => Fault NullDeref
  | Some (BasicBlockV Parent _) =>
      match ValueMap st !! Parent with
      | None => Fault AssertionFailure
      | Some BF =>
          let '(B, st1) := addEntry (EBasicBlock BF) st in
          returnMapped (mapValue V B st1)
      end
  | Some (FunctionV _ PtrTy _ _) =>
      match FuncTrans with
      | Decl => transFunctionDecl V st
      | Pointer =>
          _ ← checkError (isAllowedToUseExtension SPV_INTEL_function_pointers)
                         SPIRVEC_FunctionPointers;
          '(BT, st1) ← transType' PtrTy st;
          '(BF, st2) ← operandValue V None Decl st1;
          let '(C, st3) := addEntry (EConstFunctionPointer BT BF) st2 in
          Ok (Some C, st3)
      end
  | Some (ConstantIntV Ty v) =>
      match LTypes !! Ty with
      | Some (IntegerTy BitWidth) =>
          _ ← (if 64 <? BitWidth
               then checkError
                      (isAllowedToUseExtension
                         SPV_INTEL_arbitrary_precision_integers)
                      SPIRVEC_InvalidBitWidth
               else Ok tt);
          '(BT, st1) ← transType' Ty st;
          let '(BV, st2) :=
            addEntry (EConstant BT
                        (wordsOf (numWordsOf BitWidth)
                                 (if 64 <? BitWidth then v else to_u64 v)))
                     st1 in
          returnMapped (mapValue V BV st2)
      | _ => Fault AssertionFailure
      end
  | Some (ConstantExprV Ty Ops) =>
      '(BOps, st1) ← transValues Ops None Pointer st;
      '(BT, st2) ← transType' Ty st1;
      let '(BV, st3) := addEntry (EConstantExpr BT BOps) st2 in
      returnMapped (mapValue V BV st3)
  | Some (ArgumentV _ ArgNo) =>
      match BB with
      | None => Fault NullDeref
      | Some b =>
          match Entries st !! b with
          | Some (EBasicBlock BF) =>
              match Entries st !! BF with
              | Some (EFunctionV _ Params) =>
                  match Params !! ArgNo with
                  | Some BA => returnMapped (mapValue V BA st)
                  | None => Fault AssertionFailure
                  end
              | _ => Fault NullDeref
              end
          | _ => Fault NullDeref
          end
      end
  | Some (InstructionV Parent Ty Inst) =>
      if CreateForward then
        '(BT, st1) ← transType' Ty st;
        let '(Fw, st2) := addEntry (EForward BT) st1 in
        returnMapped (mapValue V Fw st2)
      else
        match Inst with
        | BinaryOperator OpCode Op0 Op1 UnfusedMulAdd =>
            '(BOp0, st1) ← operandValue Op0 BB Decl st;
            '(BT, st2) ← transType' Ty st1;
            '(BOp1, st3) ← operandValue Op1 BB Decl st2;
            let '(BI, st4) :=
              addEntry (EInstruction (OpCodeMap OpCode) [BT; BOp0; BOp1] BB)
                       st3 in
            let st5 :=
              if UnfusedMulAdd then snd (joinFPContract Parent DISABLED st4)
              else st4 in
            returnMapped (mapValue V BI st5)
        | CallInst Called Args =>
            match Called with
            | CalledFunction Callee =>
                if isIntrinsic (nameOf Callee) then
                  (* [return BV ? mapValue(V, BV) : nullptr] *)
                  '(BV, st1) ← transIntrinsicInst Ty Callee Args BB st;
                  match BV with
                  | Some bv => returnMapped (mapValue V bv st1)
                  | None => Ok (None, st1)
                  end
                else
                  '(BV, st1) ← transCallInst Parent Ty Called Args BB st;
                  returnMapped (mapValue V BV st1)
            | _ =>
                '(BV, st1) ← transCallInst Parent Ty Called Args BB st;
                returnMapped (mapValue V BV st1)
            end
        | OtherInstruction OpCode Ops =>
            '(BOps, st1) ← transValues Ops BB Pointer st;
            '(BT, st2) ← transType' Ty st1;
            let '(BI, st3) :=
              addEntry (EInstruction (OpCodeMap OpCode) (BT :: BOps) BB) st2 in
            returnMapped (mapValue V BI st3)
        end
  end.

(** [transValue(V, BB, CreateForward, FuncTrans)] (SPIRVWriter.cpp:796-818);
    decorations and names are outside the state of the model. *)
Definition transValueStep (V : nat) (BB : option nat) (CreateForward : bool)
    (FuncTrans : FuncTransMode) (st : State) : Res (option nat * State) :=
  let translate :=
    match LValues !! V, BB with
    | Some (InstructionV _ _ _), None => Fault AssertionFailure
    | _, _ => transValueWithoutDecoration V BB CreateForward FuncTrans st
    end in
  match ValueMap st !! V with
  | Some BV =>
      if (negb (isForward st BV) || CreateForward)
         && negb (FuncTransMode_eqb FuncTrans Pointer && isFunction V)
      then Ok (Some BV, st)
      else translate
  | None => translate
  end.

End Step.

(** The recursion.  [fuel] bounds its depth. *)
Fixpoint transValue (fuel : nat) : TransValueT :=
  match fuel with
  | O => fun _ _ _ _ _ => OutOfFuel
  | S fuel' => transValueStep (transType fuel') (transValue fuel')
  end.

(** The loops of [transFunction] over the blocks and the instructions. *)
Fixpoint transLabels (fuel : nat) (Blocks : list nat) (st : State) : Res State :=
  match Blocks with
  | [] => Ok st
  | FI :: rest =>
      '(_, st1) ← transValue fuel FI None true Decl st;
      transLabels fuel rest st1
  end.

Fixpoint transInsts (fuel : nat) (BB : option nat) (BIs : list nat) (st : State)
    : Res State :=
  match BIs with
  | [] => Ok st
  | BI :: rest =>
      '(_, st1) ← transValue fuel BI BB false Decl st;
      transInsts fuel BB rest st1
  end.

Fixpoint transBlocks (fuel : nat) (Blocks : list nat) (st : State) : Res State :=
  match Blocks with
  | [] => Ok st
  | FI :: rest =>
      '(BB, st1) ← transValue fuel FI None true Decl st;
      st2 ← transInsts fuel BB
               (match LValues !! FI with
                | Some (BasicBlockV _ Insts) => Insts
                | _ => []
                end) st1;
      transBlocks fuel rest st2
  end.

(** [transFunction(I)] (SPIRVWriter.cpp:2719-2741). *)
Definition transFunction (fuel : nat) (Fn : nat) (st : State) : Res State :=
  '(_, st1) ← transFunctionDecl (transType fuel) Fn st;
  let Blocks :=
    match LValues !! Fn with
    | Some (FunctionV _ _ _ Blocks) => Blocks
    | _ => []
    end in
  st2 ← transLabels fuel Blocks st1;
  st3 ← transBlocks fuel Blocks st2;
  let st4 := snd (joinFPContract Fn ENABLED st3) in
  fpContractUpdateRecursive fuel Fn (getFPContract Fn st4) st4.

(** The functions in [translate] (SPIRVWriter.cpp:2768-2784): the
    declarations before the definitions. *)
Fixpoint transFunctionDecls (fuel : nat) (Decls : list nat) (st : State)
    : Res State :=
  match Decls with
  | [] => Ok st
  | F :: rest =>
      '(_, st1) ← transFunctionDecl (transType fuel) F st;
      transFunctionDecls fuel rest st1
  end.

Fixpoint transFunctions (fuel : nat) (Defs : list nat) (st : State)
    : Res State :=
  match Defs with
  | [] => Ok st
  | F :: rest =>
      st1 ← transFunction fuel F st;
      transFunctions fuel rest st1
  end.

Definition translatedFunctions : list nat :=
  filter (fun F => isSkippedFunction (nameOf F) = false) ModuleFunctions.

Definition Decls : list nat :=
  filter (fun F => isDeclaration F = true) translatedFunctions.
Definition Defs : list nat :=
  filter (fun F => isDeclaration F = false) translatedFunctions.

Definition translateFunctions (fuel : nat) (st : State) : Res State :=
  st1 ← transFunctionDecls fuel Decls st;
  transFunctions fuel Defs st1.


End Translator.

End Writer.

(* ===================================================================== *)
(** * Sampler constants (SPIRVWriter.cpp:740-758, 1699-1738) *)
(* ===================================================================== *)

Module Samplers.

(** The lambda [GetSamplerConstant] of [oclTransSpvcCastSampler]
    (SPIRVWriter.cpp:1711-1717) on the zero-extended value of the sampler
    literal, a [uint64_t]: the addressing mode, the flag of normalized
    coordinates and the filter mode that [addSamplerConstant] gets, which
    are words. *)
Definition GetSamplerConstant (SamplerValue : Z) : Z * Z * Z :=
  let AddrMode := Z.shiftr (Z.land SamplerValue 0xE) 1 in
  let Param := Z.land SamplerValue 0x1 in
  let Filter :=
    if SamplerValue =? 0 then 0
    else to_u64 (Z.shiftr (Z.land SamplerValue 0x30) 4 - 1) in
  (to_word AddrMode, to_word Param, to_word Filter).

(** The constant struct with the name of the sampler constants
    (SPIRVWriter.cpp:744-758): the zero-extended values of its three
    operands become words, which the assertions bound, and the operands of
    the sampler constant. *)
Definition transConstantSampler (Op0 Op1 Op2 : Z) : Res (Z * Z * Z) :=
  let AddrMode := to_word Op0 in
  let Normalized := to_word Op1 in
  let FilterMode := to_word Op2 in
  if negb (AddrMode <? 5) then Fault AssertionFailure
  else if negb (Normalized <? 2) then Fault AssertionFailure
  else if negb (FilterMode <? 2) then Fault AssertionFailure
  else Ok (AddrMode, Normalized, FilterMode).

End Samplers.

(* ===================================================================== *)
(** * Reachability in the call graph (SPIRVWriter.cpp:2583-2613) *)
(* ===================================================================== *)

Module CallGraphReach.

Section Reach.

(** LLVM's [CallGraph]: for a function its node, that is the nodes it
    calls, each by its function ([None]: a node without function, as the
    node of the external calls has). *)
Variable CG : gmap nat (list (option nat)).

(** [*ToDo.begin()]: the element that an [unordered_set] lists first. *)
Variable begin : gset nat -> option nat.

(** The loop over the called nodes of [FN]. *)
Definition insertCallees (FN : list (option nat)) (Done ToDo : gset nat)
    : gset nat :=
  foldl (fun ToDo NN =>
           match NN with
           | None => ToDo
           | Some NNF => if decide (NNF ∈ Done) then ToDo else {[NNF]} ∪ ToDo
           end) ToDo FN.

(** The loop [while (!ToDo.empty())]; [fuel] bounds the number of its
    rounds.  The lookup of [F] in the call graph asserts that [F] has a
    node there. *)
Fixpoint reachLoop (fuel : nat) (Funcs Done ToDo : gset nat) : Res bool :=
  if decide (ToDo = ∅) then Ok false else
  match fuel with
  | O => OutOfFuel
  | S fuel' =>
      match begin ToDo with
      | None => Fault DanglingPointer
      | Some F =>
          if decide (F ∈ Funcs) then Ok true else
          let ToDo1 := ToDo ∖ {[F]} in
          let Done1 := Done ∪ {[F]} in
          match CG !! F with
          | None => Fault AssertionFailure
          | Some FN =>
              reachLoop fuel' Funcs Done1 (insertCallees FN Done1 ToDo1)
          end
      end
  end.

(** [isAnyFunctionReachableFromFunction(FS, Funcs)]. *)
Definition isAnyFunctionReachableFromFunction (fuel : nat) (FS : nat)
    (Funcs : gset nat) : Res bool :=
  reachLoop fuel Funcs ∅ {[FS]}.

End Reach.

End CallGraphReach.

(* ===================================================================== *)
(** * The type names of kernel arguments (SPIRVWriter.cpp:3016-3025,
      SPIRVReader.cpp:3000-3043) *)
(* ===================================================================== *)

Module KernelArgTypes.
Import LoopHints.
Import Stdlib.Strings.Ascii.

Section Strings.

(** [kSPIRVName::EntrypointPrefix] and [SPIR_MD_KERNEL_ARG_TYPE]
    (SPIRVInternal.h). *)
Variable EntrypointPrefix : string.
Variable SPIR_MD_KERNEL_ARG_TYPE : string.

(** [transKernelArgTypeMD(BM, F, MD, MDName)]: the string that is handed
    to [BM->getString].  [None]: [substr] throws because the name of the
    function is shorter than the prefix, or an operand that is no string
    fails the assertion of [cast<MDString>]. *)
Definition transKernelArgTypeMD (FName : string) (MD : list Metadata)
    (MDName : string) : option string :=
  if (String.length FName <? String.length EntrypointPrefix)%nat then None
  else
    let Name :=
      String.substring (String.length EntrypointPrefix)
                (String.length FName - String.length EntrypointPrefix)
                FName in
    foldl (fun acc TyOp =>
             match acc, TyOp with
             | Some KernelArgTypesMDStr, MDString Ty =>
                 Some (KernelArgTypesMDStr ++ Ty ++ ",")%string
             | _, _ => None
             end)
          (Some (MDName ++ "." ++ Name ++ ".")%string) MD.

(** The loop of [transKernelArgTypeMedataFromString] over the characters
    of [ArgTypeStr]: [I] is the index, [fuel] the number of characters
    that are left.  [CountBraces] is an [int]; the strings are far too
    short for it to overflow. *)
Fixpoint splitArgTypes (ArgTypeStr : string) (fuel I : nat) (CountBraces : Z)
    (Start : nat) (TypeMDs : list string) : list string :=
  match fuel with
  | O => TypeMDs
  | S fuel' =>
      match String.get I ArgTypeStr with
      | None => TypeMDs
      | Some c =>
          if Ascii.eqb c "<"%char then
            splitArgTypes ArgTypeStr fuel' (S I) (CountBraces + 1) Start TypeMDs
          else if Ascii.eqb c ">"%char then
            splitArgTypes ArgTypeStr fuel' (S I) (CountBraces - 1) Start TypeMDs
          else if Ascii.eqb c ","%char then
            if CountBraces =? 0 then
              splitArgTypes ArgTypeStr fuel' (S I) CountBraces (S I)
                (TypeMDs ++ [String.substring Start (I - Start) ArgTypeStr])
            else
              splitArgTypes ArgTypeStr fuel' (S I) CountBraces Start TypeMDs
          else
            splitArgTypes ArgTypeStr fuel' (S I) CountBraces Start TypeMDs
      end
  end.

(** [transKernelArgTypeMedataFromString(Ctx, BM, Kernel)]: the strings of
    the [kernel_arg_type] metadata that is set on the kernel; [None]: the
    module has no string for the kernel, the function returns [false]. *)
Definition transKernelArgTypeMedataFromString (StringVec : list string)
    (KernelName : string) : option (list string) :=
  let ArgTypePrefix :=
    (SPIR_MD_KERNEL_ARG_TYPE ++ "." ++ KernelName ++ ".")%string in
  match find (fun Str =>
                match String.index 0 ArgTypePrefix Str with
                | Some 0%nat => true
                | _ => false
                end) StringVec with
  | None => None
  | Some Str =>
      let ArgTypeStr :=
        String.substring (String.length ArgTypePrefix)
                  (String.length Str - String.length ArgTypePrefix) Str in
      Some (splitArgTypes ArgTypeStr (String.length ArgTypeStr) 0 0 0 [])
  end.

End Strings.

End KernelArgTypes.

(* ===================================================================== *)
(** * Decoding of a module (SPIRVReader.cpp:2615-2643) *)

Module ReaderTranslate.
Import Reader.

Section Translate.

Variable BM : SPIRVModule.
Variable rmapAddrSpace : nat -> nat.
Variable isSPIRVSamplerType : LType -> bool.
Variable SAMPLER_INIT : string.
Variable SamplerInitTy : LType.
Variable loopHeaders : State -> nat -> list nat.

(** [BM->getVariable(I)] and [BM->getFunction(I)]: the variables of the
    module and its functions, by their ids, in the order of the module. *)
Variable ModuleVariables : list nat.
Variable ModuleFunctions : list nat.

(** The first loop of [translate]: the variables that are not of the
    storage class [Function] are translated outside of any function and
    block; the flag [CreatePlaceHolder] is left to its default, which is
    [true].  An entry of the list that is no variable is a fault of the
    decoded module. *)
Fixpoint transVariables (fuel : nat) (BVs : list nat) (st : State)
    : Res State :=
  match BVs with
  | [] => Ok st
  | BV :: rest =>
      match Op <$> Values BM !! BV with
      | Some (OpVariable BS _) =>
          if negb (Nat.eqb BS StorageClassFunction)
          then
            '(_, st1) ← transValue BM rmapAddrSpace isSPIRVSamplerType
                          SAMPLER_INIT SamplerInitTy loopHeaders fuel
                          BV None None true st;
            transVariables fuel rest st1
          else transVariables fuel rest st
      | _ => Fault NullDeref
      end
  end.

(** The loop of [translate] over the functions; [transUserSemantic]
    collects annotations and changes nothing of the state of the
    model. *)
Fixpoint transFunctions (fuel : nat) (BFs : list nat) (st : State)
    : Res State :=
  match BFs with
  | [] => Ok st
  | BF :: rest =>
      '(_, st1) ← transFunction BM rmapAddrSpace isSPIRVSamplerType
                    SAMPLER_INIT SamplerInitTy loopHeaders fuel BF st;
      transFunctions fuel rest st1
  end.

(** [translate], as far as it builds the variables and the functions:
    the debug instructions, the metadata and the passes that follow work
    on the finished module. *)
Definition translate (fuel : nat) (st : State) : Res State :=
  st1 ← transVariables fuel ModuleVariables st;
  transFunctions fuel ModuleFunctions st1.

End Translate.

End ReaderTranslate.

(* ===================================================================== *)
(** * Annotation strings of the FPGA memory attributes
      (SPIRVWriter.cpp:1740-1787) *)

Module FPGAAnnotations.
Import Stdlib.Strings.Ascii.

(** The decorations that an annotation can stand for (spirv.hpp). *)
Inductive Decoration :=
| DecorationSinglepumpINTEL
| DecorationDoublepumpINTEL
| DecorationRegisterINTEL
| DecorationSimpleDualPortINTEL
| DecorationMemoryINTEL
| DecorationNumbanksINTEL
| DecorationBankwidthINTEL
| DecorationMaxPrivateCopiesINTEL
| DecorationMaxReplicatesINTEL
| DecorationBankBitsINTEL
| DecorationMergeINTEL
| DecorationForcePow2DepthINTEL
| DecorationUserSemantic.

(** ** [StringRef] (llvm/ADT/StringRef.h)

    Positions and lengths are of type [size_t]: numbers below [2 ^ 64]
    whose arithmetic wraps around; [npos] is the greatest of them. *)

Definition npos : Z := 2 ^ 64 - 1.

Definition size_t (n : Z) : Z := n mod 2 ^ 64.

Definition size (s : string) : Z := Z.of_nat (String.length s).

(** [count(C)]: the number of occurrences of [C]. *)
Fixpoint count (C : ascii) (s : string) : nat :=
  match s with
  | EmptyString => 0
  | String a r => (if Ascii.eqb a C then 1 else 0) + count C r
  end.

(** [substr(Start, N)]: the [N] characters from [Start] on, or as many as
    there are. *)
Definition substr (Start N : Z) (s : string) : string :=
  let Start' := Z.min Start (size s) in
  String.substring (Z.to_nat Start') (Z.to_nat (Z.min N (size s - Start'))) s.

(** The position of the first [C]. *)
Fixpoint firstIndex (C : ascii) (s : string) : option nat :=
  match s with
  | EmptyString => None
  | String a r => if Ascii.eqb a C then Some 0%nat else S <$> firstIndex C r
  end.

(** [find(C, From)]: the position of the first [C] at or after [From],
    [npos] when there is none. *)
Definition find (C : ascii) (From : Z) (s : string) : Z :=
  let FindBegin := Z.min From (size s) in
  match firstIndex C (substr FindBegin npos s) with
  | Some i => FindBegin + Z.of_nat i
  | None => npos
  end.

(** [split(Separator)]: what is before and what is after the first
    [Separator]; the whole string and the empty one when there is
    none. *)
Definition split (Separator : ascii) (s : string) : string * string :=
  let Idx := find Separator 0 s in
  if Idx =? npos then (s, EmptyString)
  else (substr 0 Idx s, substr (Idx + 1) npos s).

(** [drop_front(N)] asserts that there are [N] characters to drop. *)
Definition drop_front (N : Z) (s : string) : Res string :=
  if N <=? size s then Ok (substr N npos s) else Fault AssertionFailure.

(** ** [tryParseIntelFPGAAnnotationString] *)

(** The decoration and the value of one annotation, from the name [F] and
    the argument [S] that the colon separates; [Whole] is
    [AnnotatedCode.substr(From, To + 1)].  A [StringSwitch] without a
    default asserts that a case has matched. *)
Definition decorationOf (F S Whole : string) : Res (Decoration * string) :=
  if String.eqb F "pump" then
    if String.eqb S "1" then Ok (DecorationSinglepumpINTEL, EmptyString)
    else if String.eqb S "2" then Ok (DecorationDoublepumpINTEL, EmptyString)
    else Fault AssertionFailure
  else if String.eqb F "register" then Ok (DecorationRegisterINTEL, EmptyString)
  else if String.eqb F "simple_dual_port"
  then Ok (DecorationSimpleDualPortINTEL, EmptyString)
  else if String.eqb F "memory" then Ok (DecorationMemoryINTEL, S)
  else if String.eqb F "numbanks" then Ok (DecorationNumbanksINTEL, S)
  else if String.eqb F "bankwidth" then Ok (DecorationBankwidthINTEL, S)
  else if String.eqb F "private_copies"
  then Ok (DecorationMaxPrivateCopiesINTEL, S)
  else if String.eqb F "max_replicates"
  then Ok (DecorationMaxReplicatesINTEL, S)
  else if String.eqb F "bank_bits" then Ok (DecorationBankBitsINTEL, S)
  else if String.eqb F "merge" then Ok (DecorationMergeINTEL, S)
  else if String.eqb F "force_pow2_depth"
  then Ok (DecorationForcePow2DepthINTEL, S)
  else Ok (DecorationUserSemantic, Whole).

(** The loop over the opening brackets that were counted. *)
Fixpoint parseLoop (n : nat) (AnnotatedCode : string)
    (Decorates : list (Decoration * string))
    : Res (list (Decoration * string)) :=
  match n with
  | O => Ok Decorates
  | S n' =>
      let From := find "{" 0 AnnotatedCode in
      let To := find "}" From AnnotatedCode in
      let AnnotatedDecoration :=
        substr (size_t (From + 1)) (size_t (To - 1)) AnnotatedCode in
      let '(F, S_) := split ":" AnnotatedDecoration in
      D ← decorationOf F S_ (substr From (size_t (To + 1)) AnnotatedCode);
      Rest ← drop_front (size_t (To + 1)) AnnotatedCode;
      parseLoop n' Rest (Decorates ++ [D])
  end.

Definition tryParseIntelFPGAAnnotationString (AnnotatedCode : string)
    : Res (list (Decoration * string)) :=
  let OpenBracketNum := count "{" AnnotatedCode in
  let CloseBracketNum := count "}" AnnotatedCode in
  if negb (Nat.eqb OpenBracketNum CloseBracketNum) then Ok []
  else parseLoop OpenBracketNum AnnotatedCode [].

End FPGAAnnotations.

(* ===================================================================== *)
(** * The annotation string of decorated memory
      (SPIRVReader.cpp:2700-2741) *)

From Stdlib Require DecimalString.

Module FPGAAnnotationText.

(** Modelled from the spec: the decorations of an entry, which
    [hasDecorate], [getDecorationStringLiteral] and
    [getDecorationLiterals] of [SPIRVEntry] (libSPIRV) look up, are not
    among the sources.  A decoration without literals is there or not; a
    decoration with literals is absent or has its first word, its strings
    or its words. *)
Record Decorations := mkDecorations {
  RegisterINTEL : bool;
  MemoryINTEL : option (list string);
  BankwidthINTEL : option Z;
  NumbanksINTEL : option Z;
  MaxPrivateCopiesINTEL : option Z;
  SinglepumpINTEL : bool;
  DoublepumpINTEL : bool;
  MaxReplicatesINTEL : option Z;
  SimpleDualPortINTEL : bool;
  MergeINTEL : option (list string);
  BankBitsINTEL : option (list Z);
  ForcePow2DepthINTEL : option Z;
  UserSemantic : option (list string)
}.

(** [Out << Result] for a word: its decimal digits. *)
Definition showWord (Result : Z) : string :=
  DecimalString.NilZero.string_of_uint (N.to_uint (Z.to_N Result)).

(** [front()] of a vector of strings; there is no first element of an
    empty vector. *)
Definition front (Strs : list string) : Res string :=
  match Strs with
  | Str :: _ => Ok Str
  | [] => Fault DanglingPointer
  end.

(** [if (E->hasDecorate(D)) Out << Text]. *)
Definition emitFlag (D : bool) (Text : string) (Out : string) : string :=
  if D then (Out ++ Text)%string else Out.

(** [if (E->hasDecorate(D, 0, &Result)) Out << "{name:" << Result <<
    '}']. *)
Definition emitWord (D : option Z) (Name : string) (Out : string) : string :=
  match D with
  | Some Result => (Out ++ "{" ++ Name ++ ":" ++ showWord Result ++ "}")%string
  | None => Out
  end.

(** [generateIntelFPGAAnnotation(E, AnnotStr)]: the text that is appended
    to [AnnotStr]. *)
Definition generateIntelFPGAAnnotation (E : Decorations) (AnnotStr : string)
    : Res string :=
  let Out := AnnotStr in
  let Out := emitFlag (RegisterINTEL E) "{register:1}" Out in
  Out ← match MemoryINTEL E with
        | Some Strs =>
            Str ← front Strs; Ok (Out ++ "{memory:" ++ Str ++ "}")%string
        | None => Ok Out
        end;
  let Out := emitWord (BankwidthINTEL E) "bankwidth" Out in
  let Out := emitWord (NumbanksINTEL E) "numbanks" Out in
  let Out := emitWord (MaxPrivateCopiesINTEL E) "private_copies" Out in
  let Out := emitFlag (SinglepumpINTEL E) "{pump:1}" Out in
  let Out := emitFlag (DoublepumpINTEL E) "{pump:2}" Out in
  let Out := emitWord (MaxReplicatesINTEL E) "max_replicates" Out in
  let Out := emitFlag (SimpleDualPortINTEL E) "{simple_dual_port:1}" Out in
  let Out :=
    match MergeINTEL E with
    | Some Strs =>
        (foldl (fun O Str => (O ++ ":" ++ Str)%string) (Out ++ "{merge")%string
               Strs ++ "}")%string
    | None => Out
    end in
  Out ← match BankBitsINTEL E with
        | Some Literals =>
            (* the loop runs to [Literals.size() - 1], which wraps around
               for an empty vector *)
            match Literals with
            | [] => Fault DanglingPointer
            | _ =>
                Ok (foldl (fun O L => (O ++ showWord L ++ ",")%string)
                          (Out ++ "{bank_bits:")%string
                          (List.removelast Literals)
                    ++ showWord (List.last Literals 0) ++ "}")%string
            end
        | None => Ok Out
        end;
  let Out := emitWord (ForcePow2DepthINTEL E) "force_pow2_depth" Out in
  match UserSemantic E with
  | Some Strs => Str ← front Strs; Ok (Out ++ Str)%string
  | None => Ok Out
  end.

End FPGAAnnotationText.


(* ===================================================================== *)
(** * Properties *)
(* ===================================================================== *)

(** ** Loop-control hints *)

Section LoopHintFacts.
Import LoopHints.

(** A loop id carrying a single [llvm.loop.unroll.count] hint. *)
Definition unrollCountLoop (n : Z) : list Metadata :=
  [MDSelf; MDTuple [MDString "llvm.loop.unroll.count"; MDConstInt n]].

(** The branch closes a structured loop: it is conditional (do-while), or
    the header it jumps to ends in a conditional branch (for, while). *)
Definition structuredLoop (ctx : BranchCtx) : Prop :=
  isUnconditional ctx = false ∨ is_Some (HeaderCondFalseLabel ctx).

Lemma to_word_small n : 0 <= n < 2 ^ 32 -> to_word n = n.
Proof. intros H. unfold to_word, SpirvWordBitWidth. now apply Z.mod_small. Qed.

Lemma getLoopControl_unroll_count n IGM :
  0 <= n < 2 ^ 32 ->
  getLoopControl (Some (unrollCountLoop n)) IGM
  = Some (LoopControlPartialCountMask, [n]).
Proof.
  intros H. unfold getLoopControl, unrollCountLoop. cbn.
  unfold pushParam. cbn. rewrite to_word_small by assumption. reflexivity.
Qed.

Lemma decode_partial_count n LM env :
  0 <= n < 2 ^ 32 ->
  getLoopControlOf LM = LoopControlPartialCountMask ->
  getLoopControlParameters LM = [n] ->
  setLLVMLoopMetadata LM env
  = Some (mkLoopMDResult (unrollCountLoop n) (LoopGEPs env) (NextDistinct env)).
Proof.
  intros Hn HLC HP. unfold setLLVMLoopMetadata. rewrite HLC, HP.
  vm_compute. destruct n as [|p|p]; try reflexivity.
  destruct p; reflexivity.
Qed.

(** C7 (amended).  A loop with an unroll-count hint [n] (in particular 4)
    attached to the branch that closes a structured loop is encoded as an
    [OpLoopMerge] whose loop-control mask is exactly the partial-count bit
    and whose parameter list is [[n]]; decoding that instruction sets a
    loop id that is the original hint list again. *)
Theorem unroll_count_roundtrip (n : Z) (ctx : BranchCtx)
    (IGM : IndexGroupArrayMapT) (env : LoopEnv) :
  0 <= n < 2 ^ 32 ->
  structuredLoop ctx ->
  ∃ LM Merge,
    transBranchLoopInst ctx (Some (unrollCountLoop n)) IGM = Some (Some LM)
    ∧ LM = OpLoopMerge Merge (BBId ctx) LoopControlPartialCountMask [n]
    ∧ (∀ Mask, has (getLoopControlOf LM) Mask
               = has LoopControlPartialCountMask Mask)
    ∧ LoopID <$> setLLVMLoopMetadata LM env = Some (unrollCountLoop n)
    ∧ hintValue "llvm.loop.unroll.count"
        (default [] (LoopID <$> setLLVMLoopMetadata LM env)) = Some n.
Proof.
  intros Hn Hs.
  assert (Hdec : ∀ Merge,
    setLLVMLoopMetadata
      (OpLoopMerge Merge (BBId ctx) LoopControlPartialCountMask [n]) env
    = Some (mkLoopMDResult (unrollCountLoop n) (LoopGEPs env) (NextDistinct env))).
  { intros. now apply decode_partial_count. }
  unfold transBranchLoopInst. rewrite getLoopControl_unroll_count by assumption.
  change (negb (LoopControlPartialCountMask =? LoopControlMaskNone)) with true.
  destruct Hs as [Hc | [m Hm]].
  - rewrite Hc. cbn [negb]. eexists _, (SuccessorFalseId ctx).
    split; [reflexivity|]. split; [reflexivity|]. split; [reflexivity|].
    rewrite Hdec. cbn. auto.
  - rewrite Hm. destruct (isUnconditional ctx).
    + eexists _, m. split; [reflexivity|]. split; [reflexivity|].
      split; [reflexivity|]. rewrite Hdec. cbn. auto.
    + cbn [negb]. eexists _, (SuccessorFalseId ctx).
      split; [reflexivity|]. split; [reflexivity|]. split; [reflexivity|].
      rewrite Hdec. cbn. auto.
Qed.

Lemma unroll_count_roundtrip_witness :
  ∃ LM Merge,
    transBranchLoopInst (mkBranchCtx true 7 (Some 9) 0 false)
                        (Some (unrollCountLoop 4)) ∅ = Some (Some LM)
    ∧ LM = OpLoopMerge Merge 7 LoopControlPartialCountMask [4]
    ∧ (∀ Mask, has (getLoopControlOf LM) Mask
               = has LoopControlPartialCountMask Mask)
    ∧ LoopID <$> setLLVMLoopMetadata LM (mkLoopEnv ∅ [] 0)
      = Some (unrollCountLoop 4)
    ∧ hintValue "llvm.loop.unroll.count"
        (default [] (LoopID <$> setLLVMLoopMetadata LM (mkLoopEnv ∅ [] 0)))
      = Some 4.
Proof.
  apply (unroll_count_roundtrip 4 (mkBranchCtx true 7 (Some 9) 0 false) ∅
                                (mkLoopEnv ∅ [] 0)).
  - lia.
  - right. cbn. eauto.
Defined.

(** C7 as stated fails: the unroll count of 4 is attached to an
    unconditional branch to a header that does not end in a conditional
    branch.  No [OpLoopMerge] is emitted: without
    [SPV_INTEL_unstructured_loop_controls] the hint is dropped, with it an
    [OpLoopControlINTEL] takes the mask and the parameter. *)
Theorem unroll_count_on_unstructured_loop_has_no_loop_merge :
  transBranchLoopInst (mkBranchCtx true 7 None 0 false)
                      (Some (unrollCountLoop 4)) ∅ = Some None
  ∧ transBranchLoopInst (mkBranchCtx true 7 None 0 true)
                        (Some (unrollCountLoop 4)) ∅
    = Some (Some (OpLoopControlINTEL LoopControlPartialCountMask [4])).
Proof. split; reflexivity. Qed.

(** A loop id whose initiation-interval hint precedes its unroll count. *)
Definition iiBeforeUnroll : list Metadata :=
  [MDSelf;
   MDTuple [MDString "llvm.loop.ii.count"; MDConstInt 2];
   MDTuple [MDString "llvm.loop.unroll.count"; MDConstInt 4]].

(** C8 (the code at the failing input).  With the initiation-interval hint
    written before the unroll count, [getLoopControl] emits the parameters
    in source order, [[2; 4]], although the partial-count bit is the
    smaller one; the decoder, which reads positionally by bit number,
    recovers an unroll count of 2 and an initiation interval of 4. *)
Theorem loop_parameters_follow_source_order :
  getLoopControl (Some iiBeforeUnroll) ∅
  = Some (Z.lor LoopControlPartialCountMask InitiationIntervalINTEL, [2; 4])
  ∧ (let LID := default []
          (LoopID <$> setLLVMLoopMetadata
             (OpLoopMerge 1 0 (Z.lor LoopControlPartialCountMask
                                     InitiationIntervalINTEL) [2; 4])
             (mkLoopEnv ∅ [] 0)) in
     hintValue "llvm.loop.unroll.count" LID = Some 2
     ∧ hintValue "llvm.loop.ii.count" LID = Some 4)
  ∧ hintValue "llvm.loop.unroll.count" iiBeforeUnroll = Some 4
  ∧ hintValue "llvm.loop.ii.count" iiBeforeUnroll = Some 2.
Proof. vm_compute. auto. Qed.

(** *** The bits and the parameters of a loop control *)

(** The bits [getLoopControl] can set. *)
Definition emittedBits : Z :=
  Z.lor LoopControlUnrollMask
    (Z.lor LoopControlDontUnrollMask
       (Z.lor LoopControlDependencyInfiniteMask
          (Z.lor LoopControlDependencyLengthMask
             (Z.lor LoopControlPartialCountMask
                (Z.lor InitiationIntervalINTEL
                   (Z.lor MaxConcurrencyINTEL DependencyArrayINTEL)))))).

Definition within (LC : Z) : Prop := Z.lor LC emittedBits = emittedBits.

Lemma within_lor LC Mask :
  within LC -> Z.lor Mask emittedBits = emittedBits -> within (Z.lor LC Mask).
Proof.
  unfold within. intros H1 H2. now rewrite <- Z.lor_assoc, H2.
Qed.

Lemma within_pushParam st Node Mask st' :
  within (LoopControl st) -> Z.lor Mask emittedBits = emittedBits ->
  pushParam st Node Mask = Some st' -> within (LoopControl st').
Proof.
  unfold pushParam. intros H1 H2 H.
  destruct (getMDOperandAsInt Node 1); [|discriminate].
  injection H as <-. now apply within_lor.
Qed.

Lemma within_loopOperand IGM st MDOp st' :
  within (LoopControl st) -> loopOperand IGM st MDOp = Some st' ->
  within (LoopControl st').
Proof.
  intros HI H. unfold loopOperand in H.
  destruct (asMDNode MDOp) as [Node|]; [|now injection H as <-].
  repeat match type of H with
         | (if ?c then _ else _) = _ => destruct c
         end;
    try (injection H as <-; first [exact HI | now apply within_lor]);
    try (now eapply within_pushParam; [exact HI| |exact H]).
  destruct (IVDep_initialize IGM Node) as [[SafeLen arrs]|]; [|discriminate].
  now injection H as <-.
Qed.

Lemma within_loopOperands IGM ops :
  ∀ st st', within (LoopControl st) -> loopOperands IGM st ops = Some st' ->
            within (LoopControl st').
Proof.
  induction ops as [|MDOp ops IH]; intros st st' HI H; cbn in H.
  - now injection H as <-.
  - destruct (loopOperand IGM st MDOp) as [st1|] eqn:E; [|discriminate].
    eapply IH; [|exact H]. eapply within_loopOperand; eauto.
Qed.

Lemma land_lor_absorb a b : Z.land a (Z.lor a b) = a.
Proof.
  apply Z.bits_inj'. intros n _. rewrite Z.land_spec, Z.lor_spec.
  now destruct (Z.testbit a n).
Qed.

Lemma within_has LC Mask :
  within LC -> Z.land emittedBits Mask = 0 -> has LC Mask = false.
Proof.
  unfold within, has. intros H1 H2.
  assert (E : Z.land LC Mask = 0).
  { rewrite <- (land_lor_absorb LC emittedBits) at 1.
    rewrite H1, <- Z.land_assoc, H2. apply Z.land_0_r. }
  now rewrite E.
Qed.

(** X1.  Whatever hints a loop carries, the mask that [getLoopControl]
    returns has no bits but those of unroll, don't-unroll, dependency
    infinite, dependency length, partial count, initiation interval, max
    concurrency and dependency array: the bits for minimum and maximum
    iterations, iteration multiple and peel count, for which the decoder
    skips a parameter, are never set. *)
Theorem getLoopControl_sets_known_bits_only
    (LoopMD : option (list Metadata)) (IGM : IndexGroupArrayMapT)
    (LC : Z) (P : list Z) :
  getLoopControl LoopMD IGM = Some (LC, P) ->
  Z.land LC emittedBits = LC
  ∧ has LC LoopControlMinIterationsMask = false
  ∧ has LC LoopControlMaxIterationsMask = false
  ∧ has LC LoopControlIterationMultipleMask = false
  ∧ has LC LoopControlPeelCountMask = false.
Proof.
  intros H.
  assert (HW : within LC).
  { unfold getLoopControl in H. destruct LoopMD as [ops|].
    - destruct (loopOperands IGM _ ops) as [st|] eqn:E; [|discriminate].
      apply within_loopOperands in E; [|reflexivity].
      destruct (DependencyArrayParameters st); injection H as <- _;
        [exact E|now apply within_lor].
    - now injection H as <- _. }
  split.
  { unfold within in HW. rewrite <- HW at 1. apply land_lor_absorb. }
  repeat split; now apply within_has.
Qed.

Lemma getLoopControl_sets_known_bits_only_witness :
  Z.land (Z.lor LoopControlDontUnrollMask InitiationIntervalINTEL)
         emittedBits
  = Z.lor LoopControlDontUnrollMask InitiationIntervalINTEL
  ∧ has (Z.lor LoopControlDontUnrollMask InitiationIntervalINTEL)
        LoopControlMinIterationsMask = false
  ∧ has (Z.lor LoopControlDontUnrollMask InitiationIntervalINTEL)
        LoopControlMaxIterationsMask = false
  ∧ has (Z.lor LoopControlDontUnrollMask InitiationIntervalINTEL)
        LoopControlIterationMultipleMask = false
  ∧ has (Z.lor LoopControlDontUnrollMask InitiationIntervalINTEL)
        LoopControlPeelCountMask = false.
Proof.
  apply (getLoopControl_sets_known_bits_only
           (Some [MDSelf;
                  MDTuple [MDString "llvm.loop.unroll.disable"];
                  MDTuple [MDString "llvm.loop.ii.count"; MDConstInt 3]])
           ∅ _ [3]).
  reflexivity.
Defined.

(** *** How many parameters the decoder reads *)

(** The number of parameters [setLLVMLoopMetadata] reads or skips for a
    mask without the dependency array bit. *)
Definition b2n (b : bool) : nat := if b then 1%nat else 0%nat.

Definition consumed (LC : Z) (P : list Z) : nat :=
  (b2n (has LC LoopControlDependencyLengthMask && negb (Nat.eqb (length P) 0))
   + b2n (has LC LoopControlMinIterationsMask)
   + b2n (has LC LoopControlMaxIterationsMask)
   + b2n (has LC LoopControlIterationMultipleMask)
   + b2n (has LC LoopControlPeelCountMask)
   + b2n (has LC LoopControlPartialCountMask
          && negb (has LC LoopControlDontUnrollMask))
   + b2n (has LC InitiationIntervalINTEL)
   + b2n (has LC MaxConcurrencyINTEL))%nat.

(** A step of the decoder that takes one parameter: it fails when none
    is left, and otherwise moves on by one and only adds to the hints. *)
Definition takesOne (P : list Z) (f : DecState -> option DecState) : Prop :=
  ∀ st,
    ((NumParam st < length P)%nat ->
       ∃ st', f st = Some st' ∧ NumParam st' = S (NumParam st)
              ∧ ∃ l, MetadataVec st' = MetadataVec st ++ l)
    ∧ ((length P <= NumParam st)%nat -> f st = None).

Lemma takesOne_incrParam P : takesOne P (incrParam P).
Proof.
  intros st. unfold incrParam. split; intros H.
  - rewrite (proj2 (Nat.leb_le _ _)) by lia. eexists. split; [reflexivity|].
    split; [reflexivity|]. exists []. cbn. now rewrite app_nil_r.
  - now rewrite (proj2 (Nat.leb_gt _ _)) by lia.
Qed.

Lemma takesOne_push P m f :
  takesOne P f -> takesOne P (fun st => f (pushMD st m)).
Proof.
  intros Hf st. split; intros H.
  - destruct (proj1 (Hf (pushMD st m)) H) as (st' & E & En & l & El).
    exists st'. split; [exact E|]. split; [exact En|].
    exists (m :: l). rewrite El. cbn. now rewrite <- app_assoc.
  - apply (proj2 (Hf (pushMD st m))). exact H.
Qed.

Lemma takesOne_readParam P Name :
  takesOne P (fun st => readParam P st Name).
Proof.
  intros st. unfold readParam. split; intros H.
  - destruct (lookup_lt_is_Some_2 P (NumParam st) H) as [v ->].
    apply (takesOne_push P _ _ (takesOne_incrParam P) st). exact H.
  - now rewrite (lookup_ge_None_2 P (NumParam st)) by lia.
Qed.

Lemma takesOne_partialCount P LC :
  takesOne P
    (fun st =>
       match P !! NumParam st with
       | None => None
       | Some v =>
           if (1 =? v) && has LC LoopControlUnrollMask
           then incrParam P
                  (pushMD st (getMetadataFromName "llvm.loop.unroll.full"))
           else readParam P st "llvm.loop.unroll.count"
       end).
Proof.
  intros st. split; intros H.
  - destruct (lookup_lt_is_Some_2 P (NumParam st) H) as [v Hv]. rewrite Hv.
    destruct ((1 =? v) && has LC LoopControlUnrollMask).
    + apply (takesOne_push P _ _ (takesOne_incrParam P) st). exact H.
    + apply (takesOne_readParam P _ st). exact H.
  - now rewrite (lookup_ge_None_2 P (NumParam st)) by lia.
Qed.

(** The steps of the decoder in their order, each under its condition. *)
Fixpoint steps (l : list (bool * (DecState -> option DecState)))
    (st : DecState) : option DecState :=
  match l with
  | [] => Some st
  | (c, f) :: l' => st' ← when c f st; steps l' st'
  end.

Lemma steps_spec P l :
  Forall (fun cf => takesOne P (snd cf)) l ->
  ∀ st, (NumParam st <= length P)%nat ->
    let n := foldr (fun cf k => (b2n (fst cf) + k)%nat) 0%nat l in
    ((NumParam st + n <= length P)%nat ->
       ∃ st', steps l st = Some st'
              ∧ NumParam st' = (NumParam st + n)%nat
              ∧ ∃ h, MetadataVec st' = MetadataVec st ++ h)
    ∧ ((length P < NumParam st + n)%nat -> steps l st = None).
Proof.
  induction 1 as [|[c f] l Hf Hl IH]; intros st Hst; cbn.
  - split; intros H; [|lia]. exists st. split; [reflexivity|].
    split; [lia|]. exists []. now rewrite app_nil_r.
  - cbn in Hf. destruct c; cbn.
    + destruct (Nat.lt_ge_cases (NumParam st) (length P)) as [Hlt|Hge].
      * destruct (proj1 (Hf st) Hlt) as (st1 & E & En & h1 & Eh).
        rewrite E. cbn. destruct (IH st1) as [IH1 IH2]; [lia|].
        split; intros H.
        -- destruct IH1 as (st' & E' & En' & h2 & Eh'); [lia|].
           exists st'. split; [exact E'|]. split; [lia|].
           exists (h1 ++ h2). now rewrite Eh', Eh, app_assoc.
        -- apply IH2. lia.
      * rewrite (proj2 (Hf st) Hge). cbn. split; intros H; [lia|reflexivity].
    + apply IH. exact Hst.
Qed.

(** X2.  For a mask without the dependency array bit,
    [setLLVMLoopMetadata] returns exactly when the instruction has at
    least as many parameters as its mask makes the decoder read or skip
    (one for each of dependency length - unless there is no parameter at
    all -, minimum iterations, maximum iterations, iteration multiple,
    peel count, partial count without don't-unroll, initiation interval
    and max concurrency); otherwise an assertion fails or the decoder
    reads past the end of the parameters.  When it returns, the loop id
    begins with the self reference and no [getelementptr] of the loop is
    touched. *)
Theorem setLLVMLoopMetadata_needs_enough_parameters
    (LM : LoopInst) (env : LoopEnv) :
  has (getLoopControlOf LM) DependencyArrayINTEL = false ->
  (is_Some (setLLVMLoopMetadata LM env)
   ↔ (consumed (getLoopControlOf LM) (getLoopControlParameters LM)
      <= length (getLoopControlParameters LM))%nat)
  ∧ ∀ r, setLLVMLoopMetadata LM env = Some r ->
         (∃ hints, LoopID r = MDSelf :: hints)
         ∧ GEPsAfter r = LoopGEPs env
         ∧ NextDistinctAfter r = NextDistinct env.
Proof.
  intros HDA.
  set (LC := getLoopControlOf LM) in *.
  set (P := getLoopControlParameters LM).
  destruct (LC =? LoopControlMaskNone) eqn:E0.
  { apply Z.eqb_eq in E0.
    assert (E : setLLVMLoopMetadata LM env
                = Some (mkLoopMDResult [MDSelf] (LoopGEPs env)
                                       (NextDistinct env))).
    { unfold setLLVMLoopMetadata. fold LC. now rewrite E0. }
    rewrite E. split.
    - split; [|eauto]. intros _. rewrite E0.
      unfold consumed, has, LoopControlMaskNone. rewrite !Z.land_0_l.
      cbn. lia.
    - intros r [= <-]. cbn. eauto. }
  set (st2 :=
    let st0 := mkDec 0 [MDSelf] in
    let st1 :=
      if has LC LoopControlUnrollMask && negb (has LC LoopControlPartialCountMask)
      then pushMD st0 (getMetadataFromName "llvm.loop.unroll.enable")
      else if has LC LoopControlDontUnrollMask
      then pushMD st0 (getMetadataFromName "llvm.loop.unroll.disable")
      else st0 in
    if has LC LoopControlDependencyInfiniteMask
    then pushMD st1 (getMetadataFromName "llvm.loop.ivdep.enable")
    else st1).
  set (l :=
    [(has LC LoopControlDependencyLengthMask && negb (Nat.eqb (length P) 0),
      fun st => readParam P st "llvm.loop.ivdep.safelen");
     (has LC LoopControlMinIterationsMask, incrParam P);
     (has LC LoopControlMaxIterationsMask, incrParam P);
     (has LC LoopControlIterationMultipleMask, incrParam P);
     (has LC LoopControlPeelCountMask, incrParam P);
     (has LC LoopControlPartialCountMask
      && negb (has LC LoopControlDontUnrollMask),
      fun st =>
        match P !! NumParam st with
        | None => None
        | Some v =>
            if (1 =? v) && has LC LoopControlUnrollMask
            then incrParam P
                   (pushMD st (getMetadataFromName "llvm.loop.unroll.full"))
            else readParam P st "llvm.loop.unroll.count"
        end);
     (has LC InitiationIntervalINTEL,
      fun st => readParam P st "llvm.loop.ii.count");
     (has LC MaxConcurrencyINTEL,
      fun st => readParam P st "llvm.loop.max_concurrency.count")]).
  assert (E : setLLVMLoopMetadata LM env
              = st10 ← steps l st2;
                Some (mkLoopMDResult (MetadataVec st10) (LoopGEPs env)
                                     (NextDistinct env))).
  { unfold setLLVMLoopMetadata. fold LC P. rewrite E0, HDA. cbn [steps l].
    unfold st2.
    repeat match goal with
           | |- (?x ≫= _) = (?y ≫= _) =>
               destruct x; cbn [mbind option_bind]; [|reflexivity]
           end.
    reflexivity. }
  assert (Hl : Forall (fun cf => takesOne P (snd cf)) l).
  { unfold l.
    constructor; [apply (takesOne_readParam P "llvm.loop.ivdep.safelen")|].
    do 4 (constructor; [apply takesOne_incrParam|]).
    constructor; [apply takesOne_partialCount|].
    constructor; [apply (takesOne_readParam P "llvm.loop.ii.count")|].
    constructor;
      [apply (takesOne_readParam P "llvm.loop.max_concurrency.count")|].
    constructor. }
  assert (H2 : NumParam st2 = 0%nat ∧ ∃ h, MetadataVec st2 = MDSelf :: h).
  { unfold st2. cbv zeta.
    repeat match goal with |- context [if ?c then _ else _] => destruct c end;
      cbn; eauto. }
  destruct H2 as [Hn [h0 Hh0]].
  destruct (steps_spec P l Hl st2) as [S1 S2]; [lia|].
  cbv zeta in S1, S2. rewrite Hn in S1, S2.
  assert (Ec : foldr (fun cf k => (b2n (fst cf) + k)%nat) 0%nat l
               = consumed LC P).
  { unfold l, consumed. cbn. lia. }
  rewrite Ec in S1, S2. rewrite E. split.
  - split.
    + intros [r Hr].
      destruct (Nat.le_gt_cases (consumed LC P) (length P)) as [?|Hgt];
        [assumption|].
      rewrite S2 in Hr by lia. discriminate.
    + intros Hle. destruct S1 as (st' & -> & _); [lia|]. cbn. eauto.
  - intros r Hr.
    destruct (Nat.le_gt_cases (consumed LC P) (length P)) as [Hle|Hgt].
    + destruct S1 as (st'' & Es' & _ & h & Eh); [lia|].
      rewrite Es' in Hr. cbn in Hr. injection Hr as <-. cbn.
      split; [|auto]. exists (h0 ++ h). now rewrite Eh, Hh0.
    + rewrite S2 in Hr by lia. discriminate.
Qed.

Lemma setLLVMLoopMetadata_needs_enough_parameters_witness :
  (is_Some (setLLVMLoopMetadata
              (OpLoopMerge 1 0 (Z.lor LoopControlPartialCountMask
                                      LoopControlMinIterationsMask) [5])
              (mkLoopEnv ∅ [] 0))
   ↔ (2 <= 1)%nat)
  ∧ ∀ r, setLLVMLoopMetadata
           (OpLoopMerge 1 0 (Z.lor LoopControlPartialCountMask
                                   LoopControlMinIterationsMask) [5])
           (mkLoopEnv ∅ [] 0) = Some r ->
         (∃ hints, LoopID r = MDSelf :: hints)
         ∧ GEPsAfter r = []
         ∧ NextDistinctAfter r = 0%nat.
Proof.
  apply (setLLVMLoopMetadata_needs_enough_parameters
           (OpLoopMerge 1 0 (Z.lor LoopControlPartialCountMask
                                   LoopControlMinIterationsMask) [5])
           (mkLoopEnv ∅ [] 0)).
  reflexivity.
Defined.

End LoopHintFacts.

(** ** The legalizer *)

Section LegalizerFacts.
Import Legalizer.

Variable EntrypointPrefix : string.

(** C1 (the code on any module).  [runOnModule] answers [true] whatever
    the verifier says about the regularized module, and hands on the very
    module [regularize] left; only [regularize] itself turns a failed
    verification into [false], and that value is dropped. *)
Theorem runOnModule_drops_verification_failure
    (verifyModule : Module -> bool)
    (eraseUselessFunctions lowerFuncPtr : Module -> Module) (M : Module) :
  let R := regularize EntrypointPrefix verifyModule eraseUselessFunctions
                      lowerFuncPtr M in
  let P := runOnModule EntrypointPrefix verifyModule eraseUselessFunctions
                       lowerFuncPtr M in
  fst R = negb (verifyModule (snd R))
  ∧ fst P = true
  ∧ snd P = snd R.
Proof.
  cbn. unfold runOnModule, regularize.
  destruct (verifyModule _) eqn:E; cbn; rewrite ?E; auto.
Qed.


Abbreviation WrapNameOf := (WrapNameOf EntrypointPrefix).
Abbreviation wrapKernel := (wrapKernel EntrypointPrefix).
Abbreviation addKernelEntryPoint := (addKernelEntryPoint EntrypointPrefix).

Definition names (L : list Function) : list string := map Name L.

Definition isKernel (F : Function) : bool :=
  bool_decide (CallingConvOf F = SPIR_KERNEL).

Definition isKernelDef (F : Function) : bool :=
  isKernel F && negb (isDeclaration F).

(** A kernel loses the kernel calling convention and nothing else. *)
Definition demote (F : Function) : Function :=
  if isKernel F then setCallingConv SPIR_FUNC F else F.

(** The declaration [getOrCreateFunction] adds for the wrapper of [F]. *)
Definition freshDecl (F : Function) : Function :=
  mkFunction (WrapNameOf F) (ReturnsVoid F) (ReturnType F) (ParamTypes F)
             (map (fun _ => EmptyString) (ParamTypes F))
             SPIR_FUNC ExternalLinkage [] [] [].

Definition wrapperOf (F : Function) : Function :=
  fillWrapper (setCallingConv SPIR_FUNC F) (freshDecl F).

Definition redirect (L : list Function) (N : ExecutionModeMD) : ExecutionModeMD :=
  if existsb (fun F => isKernelDef F && String.eqb (Name F) (EMFunction N)) L
  then mkEM (EntrypointPrefix ++ EMFunction N)%string (EMode N) else N.

Lemma upd_notin (f : Function -> Function) N L :
  N ∉ names L ->
  map (fun F => if String.eqb (Name F) N then f F else F) L = L.
Proof.
  induction L as [|G L IH]; cbn; intros H; [reflexivity|].
  apply not_elem_of_cons in H as [H1 H2].
  destruct (String.eqb_spec (Name G) N); [congruence|]. now rewrite IH.
Qed.

Lemma find_notin N L :
  N ∉ names L -> find (fun F => String.eqb (Name F) N) L = None.
Proof.
  induction L as [|G L IH]; cbn; intros H; [reflexivity|].
  apply not_elem_of_cons in H as [H1 H2].
  destruct (String.eqb_spec (Name G) N); [congruence|]. auto.
Qed.

Lemma find_app_notin N L1 L2 :
  N ∉ names L1 ->
  find (fun F => String.eqb (Name F) N) (L1 ++ L2)
  = find (fun F => String.eqb (Name F) N) L2.
Proof.
  induction L1 as [|G L IH]; cbn; intros H; [reflexivity|].
  apply not_elem_of_cons in H as [H1 H2].
  destruct (String.eqb_spec (Name G) N); [congruence|]. auto.
Qed.

Lemma names_app L1 L2 : names (L1 ++ L2) = names L1 ++ names L2.
Proof. apply map_app. Qed.

Lemma demote_kernel F :
  CallingConvOf F = SPIR_KERNEL -> demote F = setCallingConv SPIR_FUNC F.
Proof. intros H. unfold demote, isKernel. now rewrite bool_decide_eq_true_2. Qed.

Lemma demote_other F : CallingConvOf F ≠ SPIR_KERNEL -> demote F = F.
Proof. intros H. unfold demote, isKernel. now rewrite bool_decide_eq_false_2. Qed.

Lemma Name_demote F : Name (demote F) = Name F.
Proof. unfold demote. now destruct (isKernel F). Qed.

Lemma names_demote L : names (map demote L) = names L.
Proof.
  unfold names. rewrite map_map. apply map_ext. intros. apply Name_demote.
Qed.

Lemma Name_wrapperOf F : Name (wrapperOf F) = WrapNameOf F.
Proof. reflexivity. Qed.

Lemma WrapNameOf_inj F G : WrapNameOf F = WrapNameOf G -> Name F = Name G.
Proof.
  unfold Legalizer.WrapNameOf. generalize (Name F) (Name G).
  induction EntrypointPrefix as [|c p IH]; cbn; intros a b H; [assumption|].
  injection H as H. auto.
Qed.

Lemma elem_of_names_wrappers N L :
  N ∈ names (map wrapperOf (filter isKernelDef L)) ->
  ∃ F, F ∈ L ∧ isKernelDef F = true ∧ N = WrapNameOf F.
Proof.
  unfold names. rewrite map_map. intros H.
  apply list_elem_of_fmap in H as (F & -> & HF).
  apply list_elem_of_filter in HF as [HK HF]. exists F.
  split; [assumption|]. split; [|reflexivity].
  now apply Is_true_true.
Qed.

Lemma NoDup_names_inj L F G :
  NoDup (names L) -> F ∈ L -> G ∈ L -> Name F = Name G -> F = G.
Proof.
  induction L as [|H L IH]; intros Hnd HF HG HN; [inversion HF|].
  cbn in Hnd. apply NoDup_cons in Hnd as [HH Hnd].
  apply elem_of_cons in HF as [->|HF]; apply elem_of_cons in HG as [->|HG];
    auto.
  - exfalso. apply HH. rewrite HN. unfold names. apply list_elem_of_fmap. eauto.
  - exfalso. apply HH. rewrite <- HN. unfold names. apply list_elem_of_fmap. eauto.
Qed.

(** Well-formed input: one function per name, and no function already
    bears the name of a wrapper. *)
Definition wrapperNamesFresh (M : Module) : Prop :=
  NoDup (names (Functions M))
  ∧ ∀ F, F ∈ Functions M -> WrapNameOf F ∉ names (Functions M).

Lemma redirect_snoc_other L F N :
  isKernelDef F = false -> redirect (L ++ [F]) N = redirect L N.
Proof.
  intros H. unfold redirect. rewrite existsb_app. cbn. rewrite H. cbn.
  now rewrite orb_false_r.
Qed.

Lemma wrapKernel_prefix (M : Module) (L1 L2 : list Function) :
  wrapperNamesFresh M ->
  Functions M = L1 ++ L2 ->
  foldl wrapKernel M (map Name (filter (λ F, CallingConvOf F = SPIR_KERNEL) L1))
  = mkModule (map demote L1 ++ L2 ++ map wrapperOf (filter isKernelDef L1))
             (map (redirect L1) (ExecutionModes M)) (ConstantUsers M).
Proof.
  intros [Hnd Hfr]. revert L2.
  induction L1 as [|F L1 IH] using rev_ind; intros L2 HM.
  - cbn. rewrite app_nil_r. destruct M as [Fs EMs]. cbn in *. subst.
    f_equal. symmetry. rewrite <- (map_id EMs) at 2. apply map_ext.
    reflexivity.
  - rewrite <- app_assoc in HM. cbn in HM.
    specialize (IH (F :: L2) HM).
    rewrite filter_app, map_app, foldl_app, IH.
    rewrite (filter_app _ L1 [F]), (map_app demote), (map_app wrapperOf).
    assert (HFin : F ∈ Functions M).
    { rewrite HM. apply elem_of_app. right. apply elem_of_cons. auto. }
    assert (Hnd' : NoDup (names L1 ++ Name F :: names L2)).
    { rewrite HM in Hnd. unfold names in *. now rewrite map_app in Hnd. }
    apply NoDup_app in Hnd' as (Hnd1 & Hdisj & Hnd2).
    apply NoDup_cons in Hnd2 as [HF2 Hnd2].
    assert (HF1 : Name F ∉ names L1).
    { intros Hin. apply (Hdisj _ Hin). apply elem_of_cons. auto. }
    assert (HFw : Name F ∉ names (map wrapperOf (filter isKernelDef L1))).
    { intros Hin. apply elem_of_names_wrappers in Hin as (G & HG & HGK & HN).
      apply (Hfr G).
      - rewrite HM. apply elem_of_app. auto.
      - rewrite <- HN. unfold names. apply list_elem_of_fmap. eauto. }
    change (filter (λ F0 : Function, CallingConvOf F0 = SPIR_KERNEL) [F])
      with (if decide (CallingConvOf F = SPIR_KERNEL) then [F] else []).
    change (filter (λ F0 : Function, isKernelDef F0) [F])
      with (if decide (isKernelDef F) then [F] else []).
    destruct (decide (CallingConvOf F = SPIR_KERNEL)) as [HK|HK].
    + cbn [andb map foldl].
      unfold Legalizer.wrapKernel at 1.
      set (Mcur := mkModule _ _ _).
      assert (Hupd : updFunction (Name F) (setCallingConv SPIR_FUNC) Mcur
                     = mkModule (map demote L1 ++ setCallingConv SPIR_FUNC F :: L2
                                 ++ map wrapperOf (filter isKernelDef L1))
                                (map (redirect L1) (ExecutionModes M))
                                (ConstantUsers M)).
      { unfold updFunction, Mcur. cbn. f_equal.
        rewrite map_app. cbn. rewrite String.eqb_refl.
        rewrite map_app.
        rewrite !upd_notin; auto.
        now rewrite names_demote. }
      rewrite Hupd. unfold getFunction. cbn [Functions].
      rewrite find_app_notin by (now rewrite names_demote).
      cbn [find]. rewrite String.eqb_refl.
      change (isDeclaration (setCallingConv SPIR_FUNC F)) with (isDeclaration F).
      destruct (isDeclaration F) eqn:HD.
      * rewrite decide_False
          by (unfold isKernelDef; rewrite HD, andb_false_r; exact id).
        cbn. rewrite app_nil_r. f_equal.
        -- rewrite <- !app_assoc. cbn. now rewrite (demote_kernel F HK).
        -- apply map_ext. intros N. symmetry. apply redirect_snoc_other.
           unfold isKernelDef. now rewrite HD, andb_false_r.
      * rewrite decide_True
          by (unfold isKernelDef, isKernel;
              rewrite (bool_decide_eq_true_2 _ HK), HD; exact I).
        cbn [negb].
        change (Legalizer.WrapNameOf EntrypointPrefix (setCallingConv SPIR_FUNC F))
          with (WrapNameOf F).
        assert (HW : WrapNameOf F ∉ names (map demote L1 ++ setCallingConv SPIR_FUNC F
                       :: L2 ++ map wrapperOf (filter isKernelDef L1))).
        { rewrite names_app. cbn. rewrite names_app, names_demote.
          intros Hin.
          assert (Horig : WrapNameOf F ∉ names L1 ++ Name F :: names L2).
          { specialize (Hfr F HFin). rewrite HM in Hfr. unfold names in *.
            now rewrite map_app in Hfr. }
          apply elem_of_app in Hin as [Hin|Hin].
          { apply Horig. apply elem_of_app. auto. }
          apply elem_of_cons in Hin as [Hin|Hin].
          { apply Horig. apply elem_of_app. right. apply elem_of_cons. auto. }
          apply elem_of_app in Hin as [Hin|Hin].
          { apply Horig. apply elem_of_app. right. apply elem_of_cons. auto. }
          apply elem_of_names_wrappers in Hin as (G & HG & HGK & HN).
          apply WrapNameOf_inj in HN. apply HF1. rewrite HN.
          unfold names. apply list_elem_of_fmap. eauto. }
        unfold getOrCreateFunction, getFunction. cbn [Functions ExecutionModes].
        rewrite (find_notin _ _ HW).
        cbn [ReturnsVoid ReturnType ParamTypes setCallingConv].
        unfold updFunction, redirectExecutionModes. cbn [Functions ExecutionModes].
        f_equal.
        -- rewrite map_app. rewrite (upd_notin _ _ _ HW). cbn [map].
           change (Name _) with (WrapNameOf F) at 1.
           rewrite String.eqb_refl. cbn [map].
           rewrite (demote_kernel F HK). rewrite <- !app_assoc. cbn [app].
           rewrite <- !app_assoc. reflexivity.
        -- rewrite map_map. apply map_ext. intros N.
           assert (HKD : isKernelDef F = true).
           { unfold isKernelDef, isKernel.
             now rewrite (bool_decide_eq_true_2 _ HK), HD. }
           unfold redirect. rewrite existsb_app. cbn [existsb].
           rewrite HKD. cbn [andb]. rewrite orb_false_r.
           destruct (existsb _ L1) eqn:HE.
           ++ cbn [EMFunction EMode orb].
              (* entry already redirected: its name is a wrapper name *)
              destruct (String.eqb_spec (EntrypointPrefix ++ EMFunction N)%string (Name F))
                as [He|He]; [|reflexivity].
              exfalso. apply existsb_exists in HE as (G & HG & HGe).
              apply andb_prop in HGe as [_ HGn]. apply String.eqb_eq in HGn.
              apply (Hfr G).
              { rewrite HM. apply elem_of_app. left. now apply list_elem_of_In. }
              unfold Legalizer.WrapNameOf. rewrite HGn, He.
              unfold names. apply list_elem_of_fmap. eauto.
           ++ cbn [orb]. destruct (String.eqb_spec (EMFunction N) (Name F)) as [He|He].
              ** rewrite String.eqb_sym. rewrite <- He, String.eqb_refl.
                 unfold Legalizer.WrapNameOf. cbn. now rewrite He.
              ** rewrite String.eqb_sym.
                 destruct (String.eqb_spec (EMFunction N) (Name F)); [congruence|].
                 reflexivity.
    + rewrite decide_False
        by (unfold isKernelDef, isKernel;
            rewrite (bool_decide_eq_false_2 _ HK); exact id).
      cbn [andb map foldl].
      rewrite !app_nil_r. f_equal.
      * rewrite <- !app_assoc. cbn. now rewrite (demote_other F HK).
      * apply map_ext. intros N. symmetry. apply redirect_snoc_other.
        unfold isKernelDef, isKernel. now rewrite (bool_decide_eq_false_2 _ HK).
Qed.


Lemma addKernelEntryPoint_closed_form (M : Module) :
  wrapperNamesFresh M ->
  addKernelEntryPoint M
  = mkModule (map demote (Functions M)
                ++ map wrapperOf (filter isKernelDef (Functions M)))
             (map (redirect (Functions M)) (ExecutionModes M))
             (ConstantUsers M).
Proof.
  intros H. unfold Legalizer.addKernelEntryPoint.
  rewrite (wrapKernel_prefix M (Functions M) [] H) by now rewrite app_nil_r.
  reflexivity.
Qed.

Lemma names_wrappers_fresh (M : Module) N :
  wrapperNamesFresh M ->
  N ∈ names (map wrapperOf (filter isKernelDef (Functions M))) ->
  N ∉ names (Functions M).
Proof.
  intros [_ Hfr] Hin. apply elem_of_names_wrappers in Hin as (F & HF & _ & ->).
  now apply Hfr.
Qed.

Lemma NoDup_names_filter L (P : Function -> bool) :
  NoDup (names L) -> NoDup (map WrapNameOf (filter P L)).
Proof.
  induction L as [|F L IH]; intros H; [constructor|].
  cbn in H. apply NoDup_cons in H as [HF H].
  rewrite filter_cons. destruct (decide (P F)); [|auto].
  cbn. apply NoDup_cons. split; [|auto].
  intros Hin. apply list_elem_of_fmap in Hin as (G & HG & HGin).
  apply list_elem_of_filter in HGin as [_ HGin].
  apply WrapNameOf_inj in HG. apply HF. rewrite HG.
  unfold names. apply list_elem_of_fmap. eauto.
Qed.

Lemma NoDup_names_after (M : Module) :
  wrapperNamesFresh M ->
  NoDup (names (Functions (addKernelEntryPoint M))).
Proof.
  intros H. rewrite (addKernelEntryPoint_closed_form M H). cbn.
  rewrite names_app, names_demote. apply NoDup_app. split; [apply H|]. split.
  - intros N HN HW. now apply (names_wrappers_fresh M N H HW).
  - unfold names. rewrite map_map.
    rewrite (map_ext _ WrapNameOf) by reflexivity.
    apply NoDup_names_filter, H.
Qed.

(** Every callee is a function of the module. *)
Definition calleesResolved (M : Module) : Prop :=
  ∀ N, isCalled M N = true -> N ∈ names (Functions M).

Definition callsName (N : string) (I : Instruction) : bool :=
  match I with
  | CallInst (Some N') _ _ _ _ _ => String.eqb N' N
  | _ => false
  end.

Lemma isCalled_alt M N :
  isCalled M N = existsb (fun F => existsb (callsName N) (instructions F))
                         (Functions M).
Proof. reflexivity. Qed.

Lemma instructions_demote F : instructions (demote F) = instructions F.
Proof. unfold demote. now destruct (isKernel F). Qed.

Lemma existsb_ext' {A} (p q : A -> bool) (l : list A) :
  (∀ x, p x = q x) -> existsb p l = existsb q l.
Proof. intros H. induction l; cbn; [reflexivity|]. now rewrite H, IHl. Qed.

Lemma existsb_map {A B} (f : A -> B) (p : B -> bool) (l : list A) :
  existsb p (map f l) = existsb (fun x => p (f x)) l.
Proof. induction l; cbn; congruence. Qed.

Lemma no_kernel_is_called (M : Module) G :
  wrapperNamesFresh M -> calleesResolved M ->
  G ∈ Functions (addKernelEntryPoint M) ->
  CallingConvOf G = SPIR_KERNEL ->
  isCalled (addKernelEntryPoint M) (Name G) = false.
Proof.
  intros Hfr Hres HG HK.
  rewrite (addKernelEntryPoint_closed_form M Hfr) in *. cbn in HG.
  apply elem_of_app in HG as [HG|HG].
  { apply list_elem_of_fmap in HG as (F & -> & _). exfalso. revert HK.
    unfold demote, isKernel. case_bool_decide; [discriminate | assumption]. }
  apply list_elem_of_fmap in HG as (F & -> & HF).
  apply list_elem_of_filter in HF as [_ HF].
  rewrite Name_wrapperOf. rewrite isCalled_alt. cbn [Functions].
  rewrite existsb_app, !existsb_map. apply orb_false_iff. split.
  - destruct (existsb _ (Functions M)) eqn:E; [|reflexivity]. exfalso.
    apply (proj2 Hfr F HF). apply Hres. rewrite isCalled_alt.
    rewrite <- E. apply existsb_ext'. intros H.
    now rewrite instructions_demote.
  - apply not_true_is_false. intros E.
    apply existsb_exists in E as (H & HH & E).
    apply list_elem_of_In, list_elem_of_filter in HH as [_ HH].
    cbn in E. rewrite orb_false_r in E. apply String.eqb_eq in E.
    apply (proj2 Hfr F HF). rewrite <- E. unfold names.
    apply list_elem_of_fmap. eauto.
Qed.

(** C2 (amended).  On a module with one function per name, resolved
    callees and no function already named like a wrapper,
    [addKernelEntryPoint] leaves: every function of the module in place,
    a kernel lowered to an ordinary function and otherwise untouched;
    behind them one wrapper for each kernel definition, called or not,
    with internal linkage, the kernel calling convention, the attributes
    and all the metadata of the wrapped function and a body that calls
    it; the execution modes of the wrapped kernels redirected to their
    wrappers; one function per name; and no function that is both of
    kernel calling convention and the callee of a call. *)
Theorem addKernelEntryPoint_wraps_kernel_definitions (M : Module) :
  wrapperNamesFresh M -> calleesResolved M ->
  let M' := addKernelEntryPoint M in
  Functions M' = map demote (Functions M)
                   ++ map wrapperOf (filter isKernelDef (Functions M))
  ∧ ExecutionModes M' = map (redirect (Functions M)) (ExecutionModes M)
  ∧ NoDup (names (Functions M'))
  ∧ (∀ F, F ∈ Functions M -> isKernelDef F = true ->
       let W := wrapperOf F in
       (W ∈ Functions M') ∧ (Name W ∉ names (Functions M))
       ∧ Linkage W = InternalLinkage ∧ CallingConvOf W = SPIR_KERNEL
       ∧ Attributes W = Attributes F ∧ FnMetadata W = FnMetadata F
       ∧ (∃ Args Ret,
            BasicBlocks W
            = [[CallInst (Some (Name F)) Args false SPIR_FUNC (Attributes F) [];
                ReturnInst Ret]])
       ∧ (setCallingConv SPIR_FUNC F ∈ Functions M'))
  ∧ (∀ F, F ∈ Functions M -> isKernelDef F = false ->
       getFunction M' (WrapNameOf F) = None)
  ∧ (∀ G, G ∈ Functions M' -> CallingConvOf G = SPIR_KERNEL ->
       isCalled M' (Name G) = false).
Proof.
  intros Hfr Hres M'.
  pose proof (addKernelEntryPoint_closed_form M Hfr) as Hcf.
  fold M' in Hcf.
  split; [now rewrite Hcf|]. split; [now rewrite Hcf|].
  split; [now apply NoDup_names_after|]. split; [|split].
  - intros F HF HKD W. rewrite Hcf. cbn [Functions].
    split.
    { apply elem_of_app. right. apply list_elem_of_fmap. exists F.
      split; [reflexivity|]. apply list_elem_of_filter. split; [|assumption].
      now rewrite HKD. }
    split; [apply (proj2 Hfr F HF)|].
    do 4 (split; [reflexivity|]). split; [cbn; eauto|].
    apply elem_of_app. left. apply list_elem_of_fmap. exists F.
    split; [|assumption]. symmetry. apply demote_kernel.
    unfold isKernelDef, isKernel in HKD. apply andb_prop in HKD as [HKD _].
    now apply bool_decide_eq_true_1 in HKD.
  - intros F HF HKD. rewrite Hcf. unfold getFunction. cbn [Functions].
    rewrite find_app_notin
      by (rewrite names_demote; apply (proj2 Hfr F HF)).
    apply find_notin. intros Hin.
    apply elem_of_names_wrappers in Hin as (G & HG & HGK & HN).
    apply WrapNameOf_inj in HN.
    assert (F = G) by (apply (NoDup_names_inj (Functions M)); auto; apply Hfr).
    congruence.
  - intros G HG HK. now apply no_kernel_is_called.
Qed.

(** *** The loop of [regularize] over the functions *)

(** An instruction as the loop leaves it. *)
Definition normalized (I : Instruction) : Prop :=
  match I with
  | CallInst CF Args TailCall _ Attrs MD =>
      TailCall = false
      ∧ (∀ N, CF = Some N -> isIntrinsicName N = true ->
              "nounwind" ∉ Attrs)
      ∧ (∀ k, k ∈ MD -> k ∉ MDs)
  | BinaryOperator PossiblyExact Exact MD =>
      (PossiblyExact = true -> Exact = false) ∧ (∀ k, k ∈ MD -> k ∉ MDs)
  | ReturnInst _ => True
  | OtherInst _ MD => ∀ k, k ∈ MD -> k ∉ MDs
  end.

Lemma existsb_eqb_true k l :
  existsb (String.eqb k) l = true ↔ k ∈ l.
Proof.
  induction l as [|x l IH]; cbn.
  - split; [discriminate|]. intros H. now apply not_elem_of_nil in H.
  - rewrite orb_true_iff, IH, elem_of_cons, String.eqb_eq. tauto.
Qed.

Lemma elem_of_dropMDs k MD : k ∈ dropMDs MD ↔ k ∈ MD ∧ k ∉ MDs.
Proof.
  unfold dropMDs. rewrite list_elem_of_filter.
  split; intros [H1 H2]; split; auto.
  - intros H3. apply existsb_eqb_true in H3.
    rewrite H3 in H1. now apply Is_true_true in H1.
  - apply Is_true_true. apply negb_true_iff.
    destruct (existsb (String.eqb k) MDs) eqn:E; [|reflexivity].
    now apply existsb_eqb_true in E.
Qed.

Lemma regularizeInst_normalized I : normalized (regularizeInst I).
Proof.
  destruct I as [CF Args TC CC Attrs MD|PE Exact MD|v|Ops MD]; cbn.
  - split; [reflexivity|]. split.
    + intros N -> HN. rewrite HN. intros H.
      apply list_elem_of_filter in H as [H _]. now apply Is_true_true in H.
    + intros k H. now apply elem_of_dropMDs in H.
  - split.
    + intros ->. now destruct Exact.
    + intros k H. now apply elem_of_dropMDs in H.
  - exact Logic.I.
  - intros k H. now apply elem_of_dropMDs in H.
Qed.

Lemma instructions_regularizeFunction F :
  instructions (regularizeFunction F) = map regularizeInst (instructions F).
Proof.
  unfold instructions, regularizeFunction. cbn.
  induction (BasicBlocks F) as [|B Bs IH]; cbn; [reflexivity|].
  now rewrite map_app, IH.
Qed.

(** X3.  After the loop of [regularize] over the functions, no call is a
    tail call, no call of an intrinsic has the [nounwind] attribute, no
    binary operator that can be exact is exact, and no instruction has
    metadata of the kinds [fpmath], [tbaa] or [range]. *)
Theorem regularize_normalizes_instructions (M : Module) (F : Function)
    (I : Instruction) :
  F ∈ Functions (regularizeFunctions M) -> I ∈ instructions F ->
  normalized I.
Proof.
  intros HF HI. unfold regularizeFunctions in HF. cbn in HF.
  apply list_elem_of_fmap in HF as (F0 & -> & _).
  rewrite instructions_regularizeFunction in HI.
  apply list_elem_of_fmap in HI as (I0 & -> & _).
  apply regularizeInst_normalized.
Qed.

Lemma regularize_normalizes_instructions_witness :
  normalized
    (CallInst (Some "llvm.fabs.f32") [OOther] false C_CC ["readnone"]
              ["dbg"]).
Proof.
  apply (regularize_normalizes_instructions
           (mkModule
              [mkFunction "f" true 0 [] [] SPIR_FUNC ExternalLinkage [] []
                 [[CallInst (Some "llvm.fabs.f32") [OOther] true C_CC
                            ["nounwind"; "readnone"] ["tbaa"; "dbg"]]]] [] [])
           (mkFunction "f" true 0 [] [] SPIR_FUNC ExternalLinkage [] []
              [[CallInst (Some "llvm.fabs.f32") [OOther] false C_CC
                         ["readnone"] ["dbg"]]])).
  - vm_compute. apply elem_of_cons. now left.
  - vm_compute. apply elem_of_cons. now left.
Defined.

Lemma operandsOf_regularizeInst I :
  operandsOf (regularizeInst I) = operandsOf I.
Proof. now destruct I as [[N|] ? ? ? ? ?| | |]. Qed.

Lemma usesFunction_regularizeInst N I :
  usesFunction N (regularizeInst I) = usesFunction N I.
Proof. unfold usesFunction. now rewrite operandsOf_regularizeInst. Qed.

Lemma isDeclaration_regularizeFunction F :
  isDeclaration (regularizeFunction F) = isDeclaration F.
Proof. unfold isDeclaration. cbn. now destruct (BasicBlocks F). Qed.

Lemma instructions_declaration F :
  isDeclaration F = true -> instructions F = [].
Proof.
  unfold isDeclaration, instructions. now destruct (BasicBlocks F).
Qed.

Lemma existsb_filter_keep {A} (p q : A -> bool) (l : list A) :
  (∀ x, q x = false -> p x = false) ->
  existsb p (filter (fun x => q x) l) = existsb p l.
Proof.
  intros H. induction l as [|x l IH]; [reflexivity|].
  rewrite filter_cons. destruct (decide (q x)) as [Hq|Hq]; cbn.
  - now rewrite IH.
  - rewrite IH. apply Is_true_false in Hq. now rewrite (H x Hq).
Qed.

(** The uses of the functions are those of the module the loop began
    with. *)
Lemma use_empty_regularizeFunctions M N :
  use_empty (regularizeFunctions M) N = use_empty M N.
Proof.
  unfold use_empty, regularizeFunctions. cbn. f_equal. f_equal.
  rewrite existsb_map.
  rewrite (existsb_ext' _ (fun F => existsb (usesFunction N) (instructions F))).
  - apply existsb_filter_keep. intros F HF.
    apply negb_false_iff, andb_prop in HF as [HF _].
    now rewrite (instructions_declaration F HF).
  - intros F. rewrite instructions_regularizeFunction, existsb_map.
    apply existsb_ext'. intros I. apply usesFunction_regularizeInst.
Qed.

(** X4.  After the loop of [regularize] over the functions every
    declaration that is left has a user, an instruction of the module that
    is left or a constant; a declaration that has a user, be it only a
    constant, is left; and the definitions are all there, in their order,
    with their names. *)
Theorem regularize_leaves_no_unused_declaration (M : Module) :
  let M' := regularizeFunctions M in
  (∀ F, F ∈ Functions M' -> isDeclaration F = true ->
        use_empty M' (Name F) = false)
  ∧ (∀ F, F ∈ Functions M -> isDeclaration F = true ->
          use_empty M (Name F) = false ->
          regularizeFunction F ∈ Functions M')
  ∧ (∀ F, F ∈ Functions M -> isDeclaration F = true ->
          Name F ∈ ConstantUsers M ->
          regularizeFunction F ∈ Functions M')
  ∧ map Name (filter (fun F => negb (isDeclaration F)) (Functions M'))
    = map Name (filter (fun F => negb (isDeclaration F)) (Functions M)).
Proof.
  intros M'.
  assert (Hkeep : ∀ F, F ∈ Functions M -> use_empty M (Name F) = false ->
                       regularizeFunction F ∈ Functions M').
  { intros F HF HU. unfold M', regularizeFunctions. cbn [Functions].
    apply list_elem_of_fmap. exists F. split; [reflexivity|].
    apply list_elem_of_filter. split; [|assumption].
    rewrite HU, andb_false_r. exact Logic.I. }
  split; [|split; [|split]].
  - intros F HF HD. unfold M'. rewrite use_empty_regularizeFunctions.
    unfold M', regularizeFunctions in HF. cbn in HF.
    apply list_elem_of_fmap in HF as (F0 & -> & HF0).
    apply list_elem_of_filter in HF0 as [HK _].
    rewrite isDeclaration_regularizeFunction in HD. rewrite HD in HK.
    cbn in HK. cbn. now destruct (use_empty M (Name F0)).
  - intros F HF _ HU. now apply Hkeep.
  - intros F HF _ HC. apply Hkeep; [assumption|].
    unfold use_empty. apply andb_false_iff. right.
    apply negb_false_iff, existsb_exists. exists (Name F).
    split; [now apply list_elem_of_In|apply String.eqb_refl].
  - clear Hkeep. unfold M', regularizeFunctions.
    change (Functions (mkModule ?l _ _)) with l.
    induction (Functions M) as [|F L IH]; [reflexivity|].
    rewrite (filter_cons _ F L), (filter_cons (fun F => negb (isDeclaration F)) F L).
    destruct (decide (negb (isDeclaration F && use_empty M (Name F))))
      as [HK|HK]; destruct (decide (negb (isDeclaration F))) as [HD|HD].
    + rewrite map_cons, filter_cons, isDeclaration_regularizeFunction.
      rewrite decide_True by assumption. rewrite !map_cons. now rewrite IH.
    + rewrite map_cons, filter_cons, isDeclaration_regularizeFunction.
      rewrite decide_False by assumption. exact IH.
    + destruct (isDeclaration F); [now destruct HD|now destruct HK].
    + exact IH.
Qed.

Lemma dropMDs_idem MD : dropMDs (dropMDs MD) = dropMDs MD.
Proof.
  unfold dropMDs. induction MD as [|k MD IH]; [reflexivity|].
  rewrite filter_cons. destruct (decide _) as [Hk|Hk]; [|exact IH].
  rewrite filter_cons, decide_True by assumption. now rewrite IH.
Qed.

Lemma filter_idem {A} (P : A -> Prop) `{∀ x, Decision (P x)} (l : list A) :
  filter P (filter P l) = filter P l.
Proof.
  induction l as [|x l IH]; [reflexivity|].
  rewrite filter_cons. destruct (decide (P x)) as [Hx|Hx]; [|exact IH].
  rewrite filter_cons, decide_True by assumption. now rewrite IH.
Qed.

Lemma regularizeInst_idem I :
  regularizeInst (regularizeInst I) = regularizeInst I.
Proof.
  destruct I as [[N|] Args TC CC Attrs MD|PE Exact MD|v|Ops MD]; cbn;
    rewrite ?dropMDs_idem; try reflexivity.
  - destruct (isIntrinsicName N); [|reflexivity]. now rewrite filter_idem.
  - now destruct PE, Exact.
Qed.

Lemma regularizeFunction_idem F :
  regularizeFunction (regularizeFunction F) = regularizeFunction F.
Proof.
  unfold regularizeFunction. cbn. f_equal.
  rewrite map_map. apply map_ext. intros B. rewrite map_map.
  apply map_ext. intros I. apply regularizeInst_idem.
Qed.

Lemma regularize_list_idem (K : Function -> bool) (L : list Function) :
  (∀ F, K (regularizeFunction F) = K F) ->
  map regularizeFunction
      (filter (fun F => K F) (map regularizeFunction (filter (fun F => K F) L)))
  = map regularizeFunction (filter (fun F => K F) L).
Proof.
  intros HK. induction L as [|F L IH]; [reflexivity|].
  rewrite (filter_cons _ F L).
  destruct (decide (K F)) as [H|H]; [|exact IH].
  rewrite map_cons, filter_cons, HK.
  rewrite decide_True by assumption. rewrite map_cons.
  now rewrite regularizeFunction_idem, IH.
Qed.

(** X5.  The loop of [regularize] over the functions changes nothing
    when it is run on its own result. *)
Theorem regularize_loop_idempotent (M : Module) :
  regularizeFunctions (regularizeFunctions M) = regularizeFunctions M.
Proof.
  unfold regularizeFunctions at 1.
  rewrite (list_filter_iff _
             (fun F => negb (isDeclaration F && use_empty M (Name F)))).
  2:{ intros F. now rewrite use_empty_regularizeFunctions. }
  unfold regularizeFunctions. cbn [Functions ExecutionModes]. f_equal.
  apply (regularize_list_idem
           (fun F => negb (isDeclaration F && use_empty M (Name F)))).
  intros F. now rewrite isDeclaration_regularizeFunction.
Qed.

End LegalizerFacts.

(** A kernel definition that nothing calls, and a helper that is called. *)
Definition kernelOnly : Legalizer.Module :=
  Legalizer.mkModule
    [Legalizer.mkFunction "k" true 0%nat [1%nat] ["x"] Legalizer.SPIR_KERNEL
       Legalizer.ExternalLinkage ["nounwind"] [(7%nat, 1%nat)]
       [[Legalizer.CallInst (Some "h") [Legalizer.OArgument 0%nat] false
           Legalizer.SPIR_FUNC [] [];
         Legalizer.ReturnInst None]];
     Legalizer.mkFunction "h" true 0%nat [1%nat] ["y"] Legalizer.SPIR_FUNC
       Legalizer.ExternalLinkage [] [] [[Legalizer.ReturnInst None]]]
    [Legalizer.mkEM "k" [17; 8; 1; 1]] [].

Ltac not_in_names :=
  let H := fresh in
  intros H; repeat (apply elem_of_cons in H as [H|H]; [discriminate|]);
  inversion H.

Lemma kernelOnly_fresh : wrapperNamesFresh "__spirv_entry_" kernelOnly.
Proof.
  split.
  - cbn. apply NoDup_cons. split; [not_in_names|].
    apply NoDup_cons. split; [not_in_names|]. constructor.
  - intros F HF. cbn in HF.
    apply elem_of_cons in HF as [->|HF];
      [|apply elem_of_cons in HF as [->|HF]; [|inversion HF]];
      cbn; not_in_names.
Defined.

Lemma kernelOnly_resolved : calleesResolved kernelOnly.
Proof.
  intros N. unfold Legalizer.isCalled. cbn -[String.eqb].
  rewrite !orb_false_r. intros H.
  apply String.eqb_eq in H as <-. apply elem_of_cons. right.
  apply elem_of_cons. now left.
Defined.

Lemma addKernelEntryPoint_wraps_kernel_definitions_witness :
  let M' := Legalizer.addKernelEntryPoint "__spirv_entry_" kernelOnly in
  Legalizer.Functions M'
  = map demote (Legalizer.Functions kernelOnly)
      ++ map (wrapperOf "__spirv_entry_")
             (filter isKernelDef (Legalizer.Functions kernelOnly))
  ∧ Legalizer.ExecutionModes M' = [Legalizer.mkEM "__spirv_entry_k" [17; 8; 1; 1]].
Proof.
  pose proof (addKernelEntryPoint_wraps_kernel_definitions
                "__spirv_entry_" kernelOnly kernelOnly_fresh
                kernelOnly_resolved) as (H1 & H2 & _).
  split; [exact H1 | rewrite H2; reflexivity].
Defined.

(** C2 as stated fails: the kernel of [kernelOnly] is the callee of no
    call, so it is not used in both roles, and yet it is wrapped. *)
Lemma uncalled_kernel_is_wrapped :
  Legalizer.isCalled kernelOnly "k" = false
  ∧ is_Some (Legalizer.getFunction
               (Legalizer.addKernelEntryPoint "__spirv_entry_" kernelOnly)
               "__spirv_entry_k").
Proof. split; [reflexivity|]. vm_compute. eauto. Qed.

(** A kernel [k], a function that already has the name of its wrapper, and
    a caller of that function. *)
Definition wrapperNameTaken : Legalizer.Module :=
  Legalizer.mkModule
    [Legalizer.mkFunction "k" true 0%nat [] [] Legalizer.SPIR_KERNEL
       Legalizer.ExternalLinkage [] [] [[Legalizer.ReturnInst None]];
     Legalizer.mkFunction "__spirv_entry_k" true 0%nat [] []
       Legalizer.SPIR_FUNC Legalizer.ExternalLinkage [] []
       [[Legalizer.ReturnInst None]];
     Legalizer.mkFunction "g" true 0%nat [] [] Legalizer.SPIR_FUNC
       Legalizer.ExternalLinkage [] []
       [[Legalizer.CallInst (Some "__spirv_entry_k") [] false
           Legalizer.SPIR_FUNC [] [];
         Legalizer.ReturnInst None]]]
    [] [].

(** Why the names of the wrappers have to be free: [getOrCreateFunction]
    hands out the function that has the name already, so no function is
    added, and the function that [g] calls becomes the kernel. *)
Lemma taken_wrapper_name_is_reused :
  let M' := Legalizer.addKernelEntryPoint "__spirv_entry_" wrapperNameTaken in
  map Legalizer.Name (Legalizer.Functions M') = ["k"; "__spirv_entry_k"; "g"]
  ∧ (Legalizer.CallingConvOf <$> Legalizer.getFunction M' "__spirv_entry_k")
    = Some Legalizer.SPIR_KERNEL
  ∧ Legalizer.isCalled M' "__spirv_entry_k" = true.
Proof. vm_compute. auto. Qed.

(** ** Decoding of types *)

Section ReaderTypeFacts.
Import Reader.

Variable BM : SPIRVModule.
Variable rmapAddrSpace : nat -> nat.

Abbreviation transType := (Reader.transType BM rmapAddrSpace).
Abbreviation transTypes := (Reader.transTypes BM rmapAddrSpace).
Abbreviation transArrayLength := (Reader.transArrayLength BM).

(** What the table entry of [T] has to be, given the entries of the types
    and the length constant [T] is built from. *)
Definition agrees (st : State) (T : nat) (LT : LType) : Prop :=
  match Types BM !! T with
  | None => False
  | Some OpTypeVoid => LT = LVoid
  | Some OpTypeBool => LT = LInt 1
  | Some (OpTypeInt w _) => LT = LInt w
  | Some (OpTypeFloat w) => transFPType w = Ok LT
  | Some (OpTypeArray E L) =>
      ∃ ET w n, TypeMap st !! E = Some ET
                ∧ ValueMap st !! L = Some (VConst (CInt w n))
                ∧ LT = LArray ET n
  | Some (OpTypePointer SC E) =>
      ∃ ET, TypeMap st !! E = Some ET ∧ LT = LPointer ET (rmapAddrSpace SC)
  | Some (OpTypeVector C n) =>
      ∃ CT, TypeMap st !! C = Some CT ∧ LT = LVector CT n
  | Some (OpTypeMatrix C n) =>
      ∃ CT, TypeMap st !! C = Some CT ∧ LT = LArray CT n
  | Some (OpTypeOpaque _) => ∃ s, LT = LStruct s
  | Some (OpTypeFunction R Ps) =>
      ∃ RT PT, TypeMap st !! R = Some RT
               ∧ Forall2 (fun P t => TypeMap st !! P = Some t) Ps PT
               ∧ LT = LFunction RT PT
  | Some (OpTypeStruct _ _ _ _) => ∃ s, LT = LStruct s
  | Some (OpTypeSpecial _ AS) => ∃ s, LT = LPointer (LStruct s) AS
  | Some OpTypeOther => False
  end.

(** The invariant of the type table. *)
Definition TInv (st : State) : Prop :=
  (∀ T LT, TypeMap st !! T = Some LT -> agrees st T LT)
  ∧ (∀ s, is_Some (Structs st !! s) -> (s < NextId st)%nat).

(** [st'] extends [st]: table entries are kept, identified structs keep
    their bodies, and nothing but the tables, the struct table and the
    supply of identities differs. *)
Definition TExt (st st' : State) : Prop :=
  TypeMap st ⊆ TypeMap st'
  ∧ ValueMap st ⊆ ValueMap st'
  ∧ (NextId st <= NextId st')%nat
  ∧ (∀ s i, Structs st !! s = Some i ->
        ∃ i', Structs st' !! s = Some i' ∧ sbody i' = sbody i)
  ∧ PlaceholderMap st' = PlaceholderMap st
  ∧ FuncMap st' = FuncMap st
  ∧ FuncLoopMetadataMap st' = FuncLoopMetadataMap st
  ∧ Insts st' = Insts st
  ∧ BlockInsts st' = BlockInsts st
  ∧ Globals st' = Globals st
  ∧ LFunctions st' = LFunctions st
  ∧ (∀ L v, ValueMap st' !! L = Some v ->
        ValueMap st !! L = Some v ∨ ∃ w n, v = VConst (CInt w n)).

Lemma TExt_refl st : TExt st st.
Proof. unfold TExt. repeat split; eauto. Qed.

Lemma TExt_trans st1 st2 st3 : TExt st1 st2 -> TExt st2 st3 -> TExt st1 st3.
Proof.
  intros (A1&B1&C1&D1&E1&F1&G1&H1&I1&J1&K1&L1)
         (A2&B2&C2&D2&E2&F2&G2&H2&I2&J2&K2&L2).
  unfold TExt. repeat split; try congruence.
  - etrans; eauto.
  - etrans; eauto.
  - lia.
  - intros s i Hs. destruct (D1 _ _ Hs) as (i' & Hi' & Hb).
    destruct (D2 _ _ Hi') as (i'' & Hi'' & Hb'). exists i''. split; congruence.
  - intros L v Hv. destruct (L2 _ _ Hv) as [Hv'|?]; [|now right]. eauto.
Qed.

Lemma agrees_mono st st' T LT :
  TypeMap st ⊆ TypeMap st' -> ValueMap st ⊆ ValueMap st' ->
  agrees st T LT -> agrees st' T LT.
Proof.
  intros HT HV. unfold agrees.
  destruct (Types BM !! T) as [[]|]; auto.
  - intros (ET & w & n & H1 & H2 & H3). exists ET, w, n.
    repeat split; eauto using lookup_weaken.
  - intros (ET & H1 & H2). exists ET. eauto using lookup_weaken.
  - intros (ET & H1 & H2). exists ET. eauto using lookup_weaken.
  - intros (ET & H1 & H2). exists ET. eauto using lookup_weaken.
  - intros (RT & PT & H1 & H2 & H3). exists RT, PT.
    repeat split; eauto using lookup_weaken.
    eapply Forall2_impl; [exact H2|]. cbn. eauto using lookup_weaken.
Qed.

(** Registering [T] when it is unmapped, or mapped to the same type. *)
Lemma mapType_spec st T LT :
  TInv st -> agrees st T LT ->
  (∀ LT0, TypeMap st !! T = Some LT0 -> LT0 = LT) ->
  let st' := snd (mapType T LT st) in
  TInv st' ∧ TExt st st' ∧ TypeMap st' !! T = Some LT.
Proof.
  intros [Hag Hfr] HT Hsame st'. subst st'. cbn.
  assert (Hsub : TypeMap st ⊆ <[T:=LT]> (TypeMap st)).
  { destruct (TypeMap st !! T) as [LT0|] eqn:E.
    - rewrite (Hsame LT0 eq_refl) in E. now rewrite insert_id.
    - now apply insert_subseteq. }
  split; [split|split].
  - cbn. intros T' LT' H. destruct (decide (T' = T)) as [->|Hne].
    + rewrite lookup_insert_eq in H. injection H as <-.
      eapply agrees_mono; [exact Hsub|reflexivity|exact HT].
    + rewrite lookup_insert_ne in H by congruence.
      eapply agrees_mono; [exact Hsub|reflexivity|]. now apply Hag.
  - cbn. exact Hfr.
  - unfold TExt. cbn. repeat split; eauto.
  - cbn. apply lookup_insert_eq.
Qed.

Lemma transType_eq fuel T st :
  transType (S fuel) T st =
  match TypeMap st !! T with
  | Some LT => Ok (LT, st)
  | None =>
      match Types BM !! T with
      | None => Fault NullDeref
      | Some node =>
          match node with
          | OpTypeVoid => Ok (mapType T LVoid st)
          | OpTypeBool => Ok (mapType T (LInt 1) st)
          | OpTypeInt w _ => Ok (mapType T (LInt w) st)
          | OpTypeFloat w => LT ← transFPType w; Ok (mapType T LT st)
          | OpTypeArray Elem LenExpr =>
              '(LenValue, st1) ← transArrayLength LenExpr st;
              '(ET, st2) ← transType fuel Elem st1;
              Ok (mapType T (LArray ET LenValue) st2)
          | OpTypePointer SC Elem =>
              '(ET, st1) ← transType fuel Elem st;
              Ok (mapType T (LPointer ET (rmapAddrSpace SC)) st1)
          | OpTypeVector Comp Count =>
              '(CT, st1) ← transType fuel Comp st;
              Ok (mapType T (LVector CT Count) st1)
          | OpTypeMatrix Col Count =>
              '(CT, st1) ← transType fuel Col st;
              Ok (mapType T (LArray CT Count) st1)
          | OpTypeOpaque N =>
              let '(sid, st1) := createStruct N st in
              Ok (mapType T (LStruct sid) st1)
          | OpTypeFunction Ret Params =>
              '(RT, st1) ← transType fuel Ret st;
              '(PT, st2) ← transTypes fuel Params st1;
              Ok (mapType T (LFunction RT PT) st2)
          | OpTypeStruct N Members Continued isPacked =>
              let '(N', st0) :=
                if negb (String.eqb N EmptyString) then
                  match getTypeByName st N with
                  | Some OldST => (N, clearStructName OldST st)
                  | None => (N, st)
                  end
                else ("structtype", st) in
              let '(StructTy, st1) := createStruct N' st0 in
              let '(_, st2) := mapType T (LStruct StructTy) st1 in
              '(MT, st3) ← transTypes fuel (Members ++ concat Continued) st2;
              Ok (LStruct StructTy, setBody StructTy MT isPacked st3)
          | OpTypeSpecial N AS =>
              let '(PT, st1) := getOrCreateOpaquePtrType N AS st in
              Ok (mapType T PT st1)
          | OpTypeOther => Fault Unreachable
          end
      end
  end.
Proof. reflexivity. Qed.

Lemma createStruct_spec N st :
  TInv st ->
  let sid := fst (createStruct N st) in
  let st' := snd (createStruct N st) in
  TInv st' ∧ TExt st st' ∧ Structs st !! sid = None
  ∧ Structs st' !! sid = Some (mkStructInfo N None)
  ∧ TypeMap st' = TypeMap st ∧ ValueMap st' = ValueMap st.
Proof.
  intros [Hag Hfr]. cbn.
  assert (Hnone : Structs st !! NextId st = None).
  { destruct (Structs st !! NextId st) eqn:E; [|reflexivity].
    assert (NextId st < NextId st)%nat by (apply Hfr; eauto). lia. }
  split; [split|].
  - intros T LT H. cbn in H. specialize (Hag T LT H).
    eapply agrees_mono; [| |exact Hag]; reflexivity.
  - cbn. intros s [i Hs]. destruct (decide (s = NextId st)) as [Heq|Hne]; [lia|].
    rewrite lookup_insert_ne in Hs by congruence.
    assert (s < NextId st)%nat by (apply Hfr; eauto). lia.
  - split; [|split; [exact Hnone | split; [apply lookup_insert_eq | auto]]].
    unfold TExt. cbn. repeat split; eauto.
    intros s i Hs. exists i. split; [|reflexivity].
    rewrite lookup_insert_ne; [assumption|]. intros Heq. rewrite <- Heq in Hs.
    congruence.
Qed.

Lemma clearStructName_spec s st :
  TInv st ->
  let st' := clearStructName s st in
  TInv st' ∧ TExt st st' ∧ TypeMap st' = TypeMap st
  ∧ ValueMap st' = ValueMap st.
Proof.
  intros [Hag Hfr]. cbn. split; [split|].
  - intros T LT H. cbn in H. specialize (Hag T LT H).
    eapply agrees_mono; [| |exact Hag]; reflexivity.
  - cbn. intros s' [i Hs]. apply Hfr.
    destruct (decide (s' = s)) as [->|Hne].
    + rewrite lookup_alter_eq in Hs. destruct (Structs st !! s); eauto; try discriminate.
    + rewrite lookup_alter_ne in Hs by congruence. eauto.
  - split; [|auto]. unfold TExt. cbn. repeat split; eauto.
    intros s' i Hs. destruct (decide (s' = s)) as [->|Hne].
    + rewrite lookup_alter_eq, Hs. cbn. eauto.
    + rewrite lookup_alter_ne by congruence. eauto.
Qed.

Lemma setBody_spec st0 st sid MT p :
  TInv st -> TExt st0 st -> Structs st0 !! sid = None ->
  let st' := setBody sid MT p st in
  TInv st' ∧ TExt st0 st' ∧ TypeMap st' = TypeMap st
  ∧ (∀ i, Structs st !! sid = Some i ->
       Structs st' !! sid = Some (mkStructInfo (sname i) (Some (MT, p))))
  ∧ (∀ s, s ≠ sid -> Structs st' !! s = Structs st !! s).
Proof.
  intros [Hag Hfr] HE Hnone. cbn. split; [split|].
  - intros T LT H. cbn in H. specialize (Hag T LT H).
    eapply agrees_mono; [| |exact Hag]; reflexivity.
  - cbn. intros s' [i Hs]. apply Hfr.
    destruct (decide (s' = sid)) as [->|Hne].
    + rewrite lookup_alter_eq in Hs. destruct (Structs st !! sid); eauto; try discriminate.
    + rewrite lookup_alter_ne in Hs by congruence. eauto.
  - split; [|split; [reflexivity|split]].
    + destruct HE as (A&B&C&D&E&F&G&H&I&J&K&L).
      unfold TExt. cbn. repeat split; eauto.
      intros s i Hs. destruct (D _ _ Hs) as (i' & Hi' & Hb).
      exists i'. split; [|assumption].
      rewrite lookup_alter_ne; [assumption|]. intros ->. congruence.
    + intros i Hi. cbn. now rewrite lookup_alter_eq, Hi.
    + intros s Hne. cbn. now rewrite lookup_alter_ne.
Qed.

Lemma getOrCreateOpaquePtrType_spec N AS st :
  TInv st ->
  let PT := fst (getOrCreateOpaquePtrType N AS st) in
  let st' := snd (getOrCreateOpaquePtrType N AS st) in
  TInv st' ∧ TExt st st' ∧ (∃ s, PT = LPointer (LStruct s) AS)
  ∧ TypeMap st' = TypeMap st.
Proof.
  intros HI. unfold getOrCreateOpaquePtrType.
  destruct (getTypeByName st N) as [sid|].
  - cbn. split; [exact HI|]. split; [apply TExt_refl|]. split; eauto.
  - pose proof (createStruct_spec N st HI) as (H1 & H2 & _ & _ & H5 & _).
    destruct (createStruct N st) as [sid st1]. cbn in *.
    split; [exact H1|]. split; [exact H2|]. split; eauto.
Qed.

(** Struct types that entered the table between [st] and [st'] are closed
    in [st']: their body is set, to the table entries of their member
    types and with their packing flag. *)
Definition closedNew (st st' : State) : Prop :=
  ∀ T N ms c p LT,
    Types BM !! T = Some (OpTypeStruct N ms c p) ->
    TypeMap st !! T = None -> TypeMap st' !! T = Some LT ->
    ∃ s MT i, LT = LStruct s ∧ Structs st' !! s = Some i
              ∧ sbody i = Some (MT, p)
              ∧ Forall2 (fun m t => TypeMap st' !! m = Some t)
                        (ms ++ concat c) MT.

Lemma closedNew_same st st' :
  TypeMap st' = TypeMap st -> closedNew st st'.
Proof. intros H T N ms c p LT _ H1 H2. congruence. Qed.

Lemma closedNew_trans st1 st2 st3 :
  TExt st1 st2 -> TExt st2 st3 ->
  closedNew st1 st2 -> closedNew st2 st3 -> closedNew st1 st3.
Proof.
  intros HE1 HE2 HC1 HC2 T N ms c p LT HT H1 H3.
  destruct (TypeMap st2 !! T) as [LT2|] eqn:E2.
  - assert (LT2 = LT).
    { destruct HE2 as (A&_). pose proof (lookup_weaken _ _ _ _ E2 A). congruence. }
    subst LT2. destruct (HC1 _ _ _ _ _ _ HT H1 E2) as (s & MT & i & -> & Hs & Hb & HF).
    destruct HE2 as (A&_&_&D&_). destruct (D _ _ Hs) as (i' & Hi' & Hb').
    exists s, MT, i'. repeat split; [assumption|congruence|].
    eapply Forall2_impl; [exact HF|]. cbn. eauto using lookup_weaken.
  - eauto.
Qed.


Definition TPost (st st' : State) : Prop :=
  TInv st' ∧ TExt st st' ∧ closedNew st st'.

Lemma TPost_refl st : TInv st -> TPost st st.
Proof.
  intros H. split; [assumption|]. split; [apply TExt_refl|].
  now apply closedNew_same.
Qed.

Lemma TPost_trans st1 st2 st3 : TPost st1 st2 -> TPost st2 st3 -> TPost st1 st3.
Proof.
  intros (A1 & B1 & C1) (A2 & B2 & C2). split; [assumption|].
  split; [eapply TExt_trans; eassumption|].
  eapply closedNew_trans; eassumption.
Qed.

Definition isStructNode (n : SPIRVType) : bool :=
  match n with OpTypeStruct _ _ _ _ => true | _ => false end.

(** Registering a type that is not a struct. *)
Lemma mapType_post st T LT node :
  Types BM !! T = Some node -> isStructNode node = false ->
  TInv st -> agrees st T LT ->
  (∀ LT0, TypeMap st !! T = Some LT0 -> LT0 = LT) ->
  TPost st (snd (mapType T LT st))
  ∧ TypeMap (snd (mapType T LT st)) !! T = Some LT.
Proof.
  intros HT Hns HI Hag Hsame.
  destruct (mapType_spec st T LT HI Hag Hsame) as (H1 & H2 & H3).
  split; [|exact H3]. split; [exact H1|]. split; [exact H2|].
  intros T' N ms c p LT' HT' Hnone Hsome. exfalso.
  cbn in Hsome. destruct (decide (T' = T)) as [->|Hne].
  - rewrite HT in HT'. injection HT' as ->. discriminate.
  - rewrite lookup_insert_ne in Hsome by congruence. congruence.
Qed.

Lemma insertValue_spec st L w n :
  TInv st -> ValueMap st !! L = None ->
  let st' := setValueMap <[L := VConst (CInt w n)]> st in
  TPost st st' ∧ ValueMap st' !! L = Some (VConst (CInt w n)).
Proof.
  intros [Hag Hfr] HN st'.
  assert (Hsub : ValueMap st ⊆ ValueMap st').
  { subst st'. cbn. now apply insert_subseteq. }
  split; [split; [split|split]|].
  - intros T LT H. apply (agrees_mono st st'); [reflexivity|exact Hsub|].
    now apply Hag.
  - exact Hfr.
  - unfold TExt. subst st'. cbn. repeat split; eauto.
    intros L' v' H'. destruct (decide (L' = L)) as [->|Hne].
    + rewrite lookup_insert_eq in H'. injection H' as <-. eauto.
    + rewrite lookup_insert_ne in H' by congruence. now left.
  - now apply closedNew_same.
  - subst st'. cbn. apply lookup_insert_eq.
Qed.

Lemma transArrayLength_spec L st n st' :
  TInv st -> transArrayLength L st = Ok (n, st') ->
  TPost st st' ∧ ∃ w, ValueMap st' !! L = Some (VConst (CInt w n)).
Proof.
  intros HI. unfold Reader.transArrayLength.
  destruct (ValueMap st !! L) as [[[w v| | |]| | | | |]|] eqn:EV; try discriminate.
  - intros [= <- <-]. split; [now apply TPost_refl|eauto].
  - destruct (Values BM !! L) as [[[] BT nm]|]; try discriminate.
    destruct (Types BM !! BT) as [[]|] eqn:ET; try discriminate.
    set (r := match TypeMap st !! BT with
              | Some LT => (LT, st) | None => mapType BT (LInt BitWidth) st end).
    assert (Hr : TPost st (snd r) ∧ ValueMap (snd r) = ValueMap st).
    { subst r. destruct (TypeMap st !! BT) eqn:EM.
      - cbn. split; [now apply TPost_refl|reflexivity].
      - destruct (mapType_post st BT (LInt BitWidth) _ ET eq_refl HI) as (H1 & _).
        + unfold agrees. now rewrite ET.
        + intros LT0. rewrite EM. discriminate.
        + split; [exact H1|reflexivity]. }
    destruct r as [LT st1]. cbn in Hr. destruct Hr as (HP1 & HV1).
    assert (EV1 : ValueMap st1 !! L = None) by congruence.
    unfold transIntConstant. cbn [getBitWidth].
    destruct (64 <? BitWidth); intros [= <- <-].
    all: match goal with
         | |- TPost _ (setValueMap (insert ?l (VConst (CInt ?w ?n))) ?s) ∧ _ =>
             destruct (insertValue_spec s l w n (proj1 HP1) EV1) as (H1 & H3)
         end;
      (split; [eapply TPost_trans; eassumption|]); eauto.
Qed.

Lemma Forall2_lookup_fun (m : gmap nat LType) Ps PT PT' :
  Forall2 (fun P t => m !! P = Some t) Ps PT ->
  Forall2 (fun P t => m !! P = Some t) Ps PT' -> PT' = PT.
Proof.
  intros H. revert PT'. induction H; intros PT' H'; inversion H'; subst.
  - reflexivity.
  - f_equal; [congruence|auto].
Qed.

Lemma transTypes_spec_of fuel :
  (∀ T st LT st', TInv st -> transType fuel T st = Ok (LT, st') ->
                  TPost st st' ∧ TypeMap st' !! T = Some LT) ->
  ∀ l st MT st', TInv st -> transTypes fuel l st = Ok (MT, st') ->
    TPost st st' ∧ Forall2 (fun m t => TypeMap st' !! m = Some t) l MT.
Proof.
  intros IH. induction l as [|m l IHl]; intros st MT st' HI H.
  - cbn in H. injection H as <- <-. split; [now apply TPost_refl|constructor].
  - cbn in H.
    destruct (transType fuel m st) as [[t s1]| | |] eqn:E1; try discriminate.
    cbn in H.
    destruct (transTypes fuel l s1) as [[ts s2]| | |] eqn:E2; try discriminate.
    cbn in H. injection H as <- <-.
    destruct (IH _ _ _ _ HI E1) as (P1 & M1).
    destruct (IHl _ _ _ (proj1 P1) E2) as (P2 & F2).
    split; [eapply TPost_trans; eassumption|].
    constructor; [|assumption].
    destruct P2 as (_ & (A & _) & _). eauto using lookup_weaken.
Qed.

Ltac inv_bind H :=
  match type of H with
  | context [ transType ?f ?T ?s ] =>
      let E := fresh "E" in
      destruct (transType f T s) as [[? ?]| | |] eqn:E; try discriminate;
      cbn in H
  | context [ transTypes ?f ?T ?s ] =>
      let E := fresh "E" in
      destruct (transTypes f T s) as [[? ?]| | |] eqn:E; try discriminate;
      cbn in H
  | context [ transArrayLength ?L ?s ] =>
      let E := fresh "E" in
      destruct (transArrayLength L s) as [[? ?]| | |] eqn:E; try discriminate;
      cbn in H
  end.

Lemma transType_spec fuel :
  ∀ T st LT st', TInv st -> transType fuel T st = Ok (LT, st') ->
                 TPost st st' ∧ TypeMap st' !! T = Some LT.
Proof.
  induction fuel as [|fuel IH]; intros T st LT st' HI H; [discriminate|].
  rewrite transType_eq in H.
  destruct (TypeMap st !! T) as [LT0|] eqn:EM.
  { injection H as <- <-. split; [now apply TPost_refl|assumption]. }
  destruct (Types BM !! T) as [node|] eqn:EN; [|discriminate].
  assert (Hleaf : ∀ LT1, agrees st T LT1 ->
            TPost st (snd (mapType T LT1 st))
            ∧ TypeMap (snd (mapType T LT1 st)) !! T = Some LT1
            ∨ isStructNode node = true).
  { intros LT1 Hag. destruct (isStructNode node) eqn:Es; [now right|left].
    eapply mapType_post; eauto. intros LT0. rewrite EM. discriminate. }
  destruct node.
  - (* void *)
    injection H as <- <-. destruct (Hleaf LVoid) as [?|?]; try discriminate; auto.
    unfold agrees. now rewrite EN.
  - injection H as <- <-. destruct (Hleaf (LInt 1)) as [?|?]; try discriminate; auto.
    unfold agrees. now rewrite EN.
  - injection H as <- <-.
    destruct (Hleaf (LInt BitWidth)) as [?|?]; try discriminate; auto.
    unfold agrees. now rewrite EN.
  - destruct (transFPType BitWidth) as [LT1| | |] eqn:EF; try discriminate.
    cbn in H. injection H as <- <-.
    destruct (Hleaf LT1) as [?|?]; try discriminate; auto.
    unfold agrees. now rewrite EN.
  - (* array *)
    inv_bind H. inv_bind H. injection H as <- <-.
    destruct (transArrayLength_spec _ _ _ _ HI E) as (P1 & (w & V1)).
    destruct (IH _ _ _ _ (proj1 P1) E0) as (P2 & M2).
    assert (V2 : ValueMap s0 !! Length = Some (VConst (CInt w z))).
    { destruct P2 as (_ & (_ & B & _) & _). eauto using lookup_weaken. }
    destruct (mapType_post s0 T (LArray l z) _ EN eq_refl (proj1 P2)) as (P3 & M3).
    + unfold agrees. rewrite EN. eauto 10.
    + intros LT0 H0. destruct P2 as ((Hag & _) & _).
      specialize (Hag _ _ H0). unfold agrees in Hag. rewrite EN in Hag.
      destruct Hag as (ET & w' & n' & A1 & A2 & ->). congruence.
    + split; [|exact M3]. eapply TPost_trans; [|exact P3].
      eapply TPost_trans; eassumption.
  - (* pointer *)
    inv_bind H. injection H as <- <-.
    destruct (IH _ _ _ _ HI E) as (P2 & M2).
    destruct (mapType_post s T (LPointer l (rmapAddrSpace StorageClass)) _ EN
                eq_refl (proj1 P2)) as (P3 & M3).
    + unfold agrees. rewrite EN. eauto.
    + intros LT0 H0. destruct P2 as ((Hag & _) & _).
      specialize (Hag _ _ H0). unfold agrees in Hag. rewrite EN in Hag.
      destruct Hag as (ET & A1 & ->). congruence.
    + split; [|exact M3]. eapply TPost_trans; eassumption.
  - (* vector *)
    inv_bind H. injection H as <- <-.
    destruct (IH _ _ _ _ HI E) as (P2 & M2).
    destruct (mapType_post s T (LVector l ComponentCount) _ EN
                eq_refl (proj1 P2)) as (P3 & M3).
    + unfold agrees. rewrite EN. eauto.
    + intros LT0 H0. destruct P2 as ((Hag & _) & _).
      specialize (Hag _ _ H0). unfold agrees in Hag. rewrite EN in Hag.
      destruct Hag as (ET & A1 & ->). congruence.
    + split; [|exact M3]. eapply TPost_trans; eassumption.
  - (* matrix *)
    inv_bind H. injection H as <- <-.
    destruct (IH _ _ _ _ HI E) as (P2 & M2).
    destruct (mapType_post s T (LArray l ColumnCount) _ EN
                eq_refl (proj1 P2)) as (P3 & M3).
    + unfold agrees. rewrite EN. eauto.
    + intros LT0 H0. destruct P2 as ((Hag & _) & _).
      specialize (Hag _ _ H0). unfold agrees in Hag. rewrite EN in Hag.
      destruct Hag as (ET & A1 & ->). congruence.
    + split; [|exact M3]. eapply TPost_trans; eassumption.
  - (* opaque *)
    destruct (createStruct_spec Name st HI) as (I1 & X1 & _ & _ & T1 & _).
    destruct (createStruct Name st) as [sid st1]. cbn in I1, X1, T1.
    injection H as <- <-.
    destruct (mapType_post st1 T (LStruct sid) _ EN eq_refl I1) as (P3 & M3).
    + unfold agrees. rewrite EN. eauto.
    + intros LT0. rewrite T1, EM. discriminate.
    + split; [|exact M3]. eapply TPost_trans; [|exact P3].
      split; [exact I1|]. split; [exact X1|]. now apply closedNew_same.
  - (* function *)
    inv_bind H. inv_bind H. injection H as <- <-.
    destruct (IH _ _ _ _ HI E) as (P1 & M1).
    destruct (transTypes_spec_of fuel IH _ _ _ _ (proj1 P1) E0) as (P2 & F2).
    assert (M2 : TypeMap s0 !! ReturnType = Some l).
    { destruct P2 as (_ & (A & _) & _). eauto using lookup_weaken. }
    destruct (mapType_post s0 T (LFunction l l0) _ EN eq_refl (proj1 P2))
      as (P3 & M3).
    + unfold agrees. rewrite EN. eauto.
    + intros LT0 H0. destruct P2 as ((Hag & _) & _).
      specialize (Hag _ _ H0). unfold agrees in Hag. rewrite EN in Hag.
      destruct Hag as (RT & PT & A1 & A2 & ->).
      f_equal; [congruence|]. eapply Forall2_lookup_fun; eassumption.
    + split; [|exact M3]. eapply TPost_trans; [|exact P3].
      eapply TPost_trans; eassumption.
  - (* struct *)
    set (pre := if negb (String.eqb Name EmptyString)
                then match getTypeByName st Name with
                     | Some OldST => (Name, clearStructName OldST st)
                     | None => (Name, st)
                     end
                else ("structtype", st)) in H.
    assert (Hpre : TInv (snd pre) ∧ TExt st (snd pre)
                   ∧ TypeMap (snd pre) = TypeMap st).
    { subst pre. destruct (negb _); [destruct (getTypeByName st Name)|]; cbn.
      - destruct (clearStructName_spec n st HI) as (A & B & C & _). auto.
      - auto using TExt_refl.
      - auto using TExt_refl. }
    destruct pre as [N' st0]. cbn in Hpre. destruct Hpre as (I0 & X0 & T0).
    destruct (createStruct_spec N' st0 I0) as (I1 & X1 & S0 & S1 & T1 & _).
    destruct (createStruct N' st0) as [sid st1]. cbn in I1, X1, S0, S1, T1.
    destruct (mapType_spec st1 T (LStruct sid) I1) as (I2 & X2 & M2).
    { unfold agrees. rewrite EN. eauto. }
    { intros LT0. rewrite T1, T0, EM. discriminate. }
    cbn [mapType] in H. cbn [snd mapType] in I2, X2, M2.
    inv_bind H. injection H as <- <-.
    destruct (transTypes_spec_of fuel IH _ _ _ _ I2 E) as (P3 & F3).
    assert (X02 : TExt st (setTypeMap <[T:=LStruct sid]> st1)).
    { eapply TExt_trans; [exact X0|]. eapply TExt_trans; eassumption. }
    assert (X03 : TExt st s).
    { eapply TExt_trans; [exact X02|]. apply P3. }
    assert (Snone : Structs st !! sid = None).
    { destruct (Structs st !! sid) as [i|] eqn:Es; [|reflexivity].
      destruct X0 as (_&_&_&D&_). destruct (D _ _ Es) as (i' & Hi' & _).
      congruence. }
    assert (S3 : ∃ i3, Structs s !! sid = Some i3 ∧ sbody i3 = None).
    { assert (X13 : TExt st1 s).
      { eapply TExt_trans; [exact X2|]. apply P3. }
      destruct X13 as (_&_&_&D&_). destruct (D _ _ S1) as (i' & Hi' & Hb).
      eauto. }
    destruct S3 as (i3 & S3 & B3).
    destruct (setBody_spec st s sid l Packed (proj1 P3) X03 Snone)
      as (I4 & X4 & T4 & S4 & O4).
    assert (M3 : TypeMap s !! T = Some (LStruct sid)).
    { destruct P3 as (_ & (A & _) & _). eauto using lookup_weaken. }
    split; [|now rewrite T4].
    split; [exact I4|]. split; [exact X4|].
    intros T' N0 ms c p LT' HT' Hnone Hsome. rewrite T4 in Hsome.
    destruct (decide (T' = T)) as [->|Hne].
    + rewrite EN in HT'. injection HT' as <- <- <- <-.
      rewrite M3 in Hsome. injection Hsome as <-.
      exists sid, l, (mkStructInfo (sname i3) (Some (l, Packed))).
      split; [reflexivity|]. split; [now apply S4|]. split; [reflexivity|].
      now rewrite T4.
    + assert (Hn2 : TypeMap (setTypeMap <[T:=LStruct sid]> st1) !! T' = None).
      { cbn. rewrite lookup_insert_ne by congruence. congruence. }
      destruct P3 as (_ & _ & C3).
      destruct (C3 _ _ _ _ _ _ HT' Hn2 Hsome) as (s' & MT' & i' & -> & Hs' & Hb' & HF').
      exists s', MT', i'. split; [reflexivity|].
      assert (s' ≠ sid) by (intros ->; congruence).
      split; [now rewrite O4|]. split; [assumption|]. now rewrite T4.
  - (* special *)
    destruct (getOrCreateOpaquePtrType_spec LLVMName AddrSpace st HI)
      as (I1 & X1 & (s1 & Hs1) & T1).
    destruct (getOrCreateOpaquePtrType LLVMName AddrSpace st) as [PT st1].
    cbn in I1, X1, Hs1, T1. injection H as <- <-.
    destruct (mapType_post st1 T PT _ EN eq_refl I1) as (P3 & M3).
    + unfold agrees. rewrite EN. eauto.
    + intros LT0. rewrite T1, EM. discriminate.
    + split; [|exact M3]. eapply TPost_trans; [|exact P3].
      split; [exact I1|]. split; [exact X1|]. now apply closedNew_same.
  - discriminate.
Qed.

Lemma transTypes_spec fuel l st MT st' :
  TInv st -> transTypes fuel l st = Ok (MT, st') ->
  TPost st st' ∧ Forall2 (fun m t => TypeMap st' !! m = Some t) l MT.
Proof. apply transTypes_spec_of, transType_spec. Qed.


(** *** Termination *)

(** The struct types of the module, and how many of them have no table
    entry yet. *)
Definition structIds : gset nat :=
  dom (filter (fun p => isStructNode (snd p) = true) (Types BM)).

Definition openCount (st : State) : nat :=
  size (structIds ∖ dom (TypeMap st)).

Lemma elem_of_structIds T :
  T ∈ structIds ↔ ∃ n, Types BM !! T = Some n ∧ isStructNode n = true.
Proof.
  unfold structIds. rewrite elem_of_dom. split.
  - intros [n Hn]. apply map_lookup_filter_Some in Hn as [H1 H2]. eauto.
  - intros (n & H1 & H2). exists n. apply map_lookup_filter_Some. auto.
Qed.

Lemma openCount_mono st st' :
  TypeMap st ⊆ TypeMap st' -> (openCount st' <= openCount st)%nat.
Proof.
  intros H. unfold openCount. apply (subseteq_size (C := gset nat)).
  apply subseteq_dom in H. set_solver.
Qed.

Lemma openCount_lt st st' T :
  TypeMap st ⊆ TypeMap st' -> T ∈ structIds ->
  TypeMap st !! T = None -> is_Some (TypeMap st' !! T) ->
  (openCount st' < openCount st)%nat.
Proof.
  intros H HT Hn Hs. unfold openCount. apply (subset_size (C := gset nat)).
  apply subseteq_dom in H.
  apply not_elem_of_dom in Hn. apply elem_of_dom in Hs. set_solver.
Qed.

(** A length operand the model translates: an integer [OpConstant]. *)
Definition lengthOk (L : nat) : Prop :=
  ∃ Words BT nm w s,
    Values BM !! L = Some (mkSPIRVValue (OpConstant Words) BT nm)
    ∧ Types BM !! BT = Some (OpTypeInt w s).

(** Well-formed type declarations: operands are declared, floating-point
    widths are those LLVM has, and apart from the members of a struct every
    operand has a smaller rank than the type it is used in, i.e. every
    cycle of the declarations passes through a struct. *)
Definition wfNode (rank : nat -> nat) (T : nat) (node : SPIRVType) : Prop :=
  match node with
  | OpTypeFloat w => w = 16 ∨ w = 32 ∨ w = 64
  | OpTypeArray E L =>
      is_Some (Types BM !! E) ∧ (rank E < rank T)%nat ∧ lengthOk L
  | OpTypePointer _ E | OpTypeVector E _ | OpTypeMatrix E _ =>
      is_Some (Types BM !! E) ∧ (rank E < rank T)%nat
  | OpTypeFunction R Ps =>
      Forall (fun c => is_Some (Types BM !! c) ∧ (rank c < rank T)%nat) (R :: Ps)
  | OpTypeStruct _ ms c _ =>
      Forall (fun m => is_Some (Types BM !! m)) (ms ++ concat c)
  | OpTypeOther => False
  | _ => True
  end.

Definition wfTypeGraph (rank : nat -> nat) (R : nat) : Prop :=
  ∀ T node, Types BM !! T = Some node -> (rank T <= R)%nat ∧ wfNode rank T node.

(** Table entries of length operands are integer constants. *)
Definition lengthsOk (st : State) : Prop :=
  ∀ T E L v, Types BM !! T = Some (OpTypeArray E L) ->
             ValueMap st !! L = Some v -> ∃ w n, v = VConst (CInt w n).

Lemma lengthsOk_ext st st' : TExt st st' -> lengthsOk st -> lengthsOk st'.
Proof.
  intros (_&_&_&_&_&_&_&_&_&_&_&HL) H T E L v HT Hv.
  destruct (HL _ _ Hv) as [Hv'|?]; eauto.
Qed.

Lemma transArrayLength_total T E L st :
  Types BM !! T = Some (OpTypeArray E L) -> lengthOk L -> lengthsOk st ->
  ∃ n st', transArrayLength L st = Ok (n, st').
Proof.
  intros HT (Words & BT & nm & w & s & HV & HB) HL.
  unfold Reader.transArrayLength.
  destruct (ValueMap st !! L) as [v|] eqn:EV.
  - destruct (HL _ _ _ _ HT EV) as (w' & n & ->). eauto.
  - rewrite HV, HB.
    destruct (match TypeMap st !! BT with
              | Some LT => (LT, st) | None => mapType BT (LInt w) st end).
    unfold transIntConstant. destruct (64 <? _); eauto.
Qed.

Section Termination.

Variable rank : nat -> nat.
Variable R : nat.
Hypothesis Hwf : wfTypeGraph rank R.

Definition bound (st : State) (r : nat) : nat :=
  (openCount st * (R + 1) + r)%nat.

Lemma transTypes_total_of fuel :
  (∀ T st, TInv st -> lengthsOk st -> is_Some (Types BM !! T) ->
           (bound st (rank T) < fuel)%nat ->
           ∃ LT st', transType fuel T st = Ok (LT, st')) ->
  ∀ l st n, TInv st -> lengthsOk st ->
    Forall (fun m => is_Some (Types BM !! m) ∧ (rank m <= n)%nat) l ->
    (bound st n < fuel)%nat ->
    ∃ MT st', transTypes fuel l st = Ok (MT, st').
Proof.
  intros IH. induction l as [|m l IHl]; intros st n HI HL HF Hb.
  - cbn. eauto.
  - apply Forall_cons in HF as [[Hm Hr] HF].
    destruct (IH m st HI HL Hm) as (t & s1 & E1); [unfold bound in *; lia|].
    destruct (transType_spec _ _ _ _ _ HI E1) as ((I1 & X1 & _) & _).
    destruct (IHl s1 n I1 (lengthsOk_ext _ _ X1 HL) HF) as (ts & s2 & E2).
    { pose proof (openCount_mono st s1 (proj1 X1)). unfold bound in *. nia. }
    cbn. rewrite E1. cbn. rewrite E2. cbn. eauto.
Qed.

Lemma transType_total fuel :
  ∀ T st, TInv st -> lengthsOk st -> is_Some (Types BM !! T) ->
          (bound st (rank T) < fuel)%nat ->
          ∃ LT st', transType fuel T st = Ok (LT, st').
Proof.
  induction fuel as [|fuel IH]; intros T st HI HL [node EN] Hb; [lia|].
  rewrite transType_eq.
  destruct (TypeMap st !! T) as [LT0|] eqn:EM; [eauto|].
  rewrite EN. destruct (Hwf _ _ EN) as [HR Hn].
  assert (Hchild : ∀ E st1, is_Some (Types BM !! E) -> (rank E < rank T)%nat ->
            TInv st1 -> TExt st st1 ->
            ∃ LT st', transType fuel E st1 = Ok (LT, st')).
  { intros E st1 HE Hr I1 X1. apply IH; auto.
    - eapply lengthsOk_ext; eassumption.
    - pose proof (openCount_mono st st1 (proj1 X1)). unfold bound in *. nia. }
  destruct node; cbn in Hn.
  - eauto.
  - eauto.
  - eauto.
  - (* float *)
    unfold transFPType.
    destruct Hn as [-> | [-> | ->]]; cbn; eexists _, _; reflexivity.
  - (* array *)
    destruct Hn as (HE & Hr & HLen).
    destruct (transArrayLength_total _ _ _ st EN HLen HL) as (n & st1 & E1).
    rewrite E1. cbn.
    destruct (transArrayLength_spec _ _ _ _ HI E1) as ((I1 & X1 & _) & _).
    destruct (Hchild _ st1 HE Hr I1 X1) as (ET & st2 & E2).
    rewrite E2. cbn. eauto.
  - destruct Hn as (HE & Hr).
    destruct (Hchild _ st HE Hr HI (TExt_refl st)) as (ET & st2 & E2).
    rewrite E2. cbn. eauto.
  - destruct Hn as (HE & Hr).
    destruct (Hchild _ st HE Hr HI (TExt_refl st)) as (ET & st2 & E2).
    rewrite E2. cbn. eauto.
  - destruct Hn as (HE & Hr).
    destruct (Hchild _ st HE Hr HI (TExt_refl st)) as (ET & st2 & E2).
    rewrite E2. cbn. eauto.
  - (* opaque *)
    destruct (createStruct Name st). eauto.
  - (* function *)
    apply Forall_cons in Hn as [[HE Hr] HF].
    destruct (Hchild _ st HE Hr HI (TExt_refl st)) as (RT & st1 & E1).
    rewrite E1. cbn.
    destruct (transType_spec _ _ _ _ _ HI E1) as ((I1 & X1 & _) & _).
    destruct (transTypes_total_of fuel IH ParameterTypes st1 (rank T - 1)%nat I1)
      as (PT & st2 & E2).
    + eapply lengthsOk_ext; eassumption.
    + eapply Forall_impl; [exact HF|]. cbn. intros c [? ?]. split; [auto|lia].
    + pose proof (openCount_mono st st1 (proj1 X1)). unfold bound in *. nia.
    + rewrite E2. cbn. eauto.
  - (* struct *)
    set (pre := if negb (String.eqb Name EmptyString)
                then match getTypeByName st Name with
                     | Some OldST => (Name, clearStructName OldST st)
                     | None => (Name, st)
                     end
                else ("structtype", st)).
    assert (Hpre : TInv (snd pre) ∧ TExt st (snd pre)
                   ∧ TypeMap (snd pre) = TypeMap st).
    { subst pre. destruct (negb _); [destruct (getTypeByName st Name)|]; cbn.
      - destruct (clearStructName_spec n st HI) as (A & B & C & _). auto.
      - auto using TExt_refl.
      - auto using TExt_refl. }
    destruct pre as [N' st0]. cbn in Hpre. destruct Hpre as (I0 & X0 & T0).
    destruct (createStruct_spec N' st0 I0) as (I1 & X1 & S0 & S1 & T1 & _).
    destruct (createStruct N' st0) as [sid st1]. cbn in I1, X1, S0, S1, T1.
    destruct (mapType_spec st1 T (LStruct sid) I1) as (I2 & X2 & M2).
    { unfold agrees. rewrite EN. eauto. }
    { intros LT0. rewrite T1, T0, EM. discriminate. }
    cbn [mapType]. cbn [snd mapType] in I2, X2, M2.
    assert (X02 : TExt st (setTypeMap <[T:=LStruct sid]> st1)).
    { eapply TExt_trans; [exact X0|]. eapply TExt_trans; eassumption. }
    destruct (transTypes_total_of fuel IH (MemberTypes ++ concat ContinuedInstructions)
                (setTypeMap <[T:=LStruct sid]> st1) R I2) as (MT & st3 & E3).
    + eapply lengthsOk_ext; eassumption.
    + eapply Forall_impl; [exact Hn|]. cbn. intros m Hm. split; [assumption|].
      destruct Hm as [nm Hm]. apply (Hwf _ _ Hm).
    + assert (openCount (setTypeMap <[T:=LStruct sid]> st1) < openCount st)%nat.
      { eapply (openCount_lt _ _ T); [apply X02| | assumption | eauto].
        apply elem_of_structIds. eauto. }
      unfold bound in *. nia.
    + rewrite E3. cbn. eauto.
  - (* special *)
    destruct (getOrCreateOpaquePtrType LLVMName AddrSpace st). eauto.
  - destruct Hn.
Qed.


(** Every struct type with a table entry is closed. *)
Definition structsClosed (st : State) : Prop :=
  ∀ T N ms c p LT,
    Types BM !! T = Some (OpTypeStruct N ms c p) ->
    TypeMap st !! T = Some LT ->
    ∃ s MT i, LT = LStruct s ∧ Structs st !! s = Some i
              ∧ sbody i = Some (MT, p)
              ∧ Forall2 (fun m t => TypeMap st !! m = Some t)
                        (ms ++ concat c) MT.

Lemma structsClosed_post st st' :
  structsClosed st -> TPost st st' -> structsClosed st'.
Proof.
  intros HC (HI & HE & HN) T N ms c p LT HT HM.
  destruct (TypeMap st !! T) as [LT0|] eqn:E0; [|eauto].
  assert (LT0 = LT).
  { pose proof (lookup_weaken _ _ _ _ E0 (proj1 HE)). congruence. }
  subst LT0. destruct (HC _ _ _ _ _ _ HT E0) as (s & MT & i & -> & Hs & Hb & HF).
  destruct HE as (A&_&_&D&_). destruct (D _ _ Hs) as (i' & Hi' & Hb').
  exists s, MT, i'. repeat split; [assumption|congruence|].
  eapply Forall2_impl; [exact HF|]. cbn. eauto using lookup_weaken.
Qed.

(** The struct case registers the struct, still without a body, before
    any member type is translated. *)
Lemma transType_struct_registers_first fuel S st N ms c p :
  Types BM !! S = Some (OpTypeStruct N ms c p) ->
  TypeMap st !! S = None ->
  ∃ sid st2 info,
    TypeMap st2 !! S = Some (LStruct sid)
    ∧ Structs st2 !! sid = Some info ∧ sbody info = None
    ∧ transType (Datatypes.S fuel) S st
      = ('(MT, st3) ← transTypes fuel (ms ++ concat c) st2;
         Ok (LStruct sid, setBody sid MT p st3)).
Proof.
  intros HT HM. rewrite transType_eq, HM, HT.
  destruct (if negb (String.eqb N EmptyString)
            then match getTypeByName st N with
                 | Some OldST => (N, clearStructName OldST st)
                 | None => (N, st)
                 end
            else ("structtype", st)) as [N' st0].
  exists (fst (createStruct N' st0)),
         (snd (mapType S (LStruct (fst (createStruct N' st0)))
                       (snd (createStruct N' st0)))),
         (mkStructInfo N' None).
  cbn. split; [apply lookup_insert_eq|].
  split; [apply lookup_insert_eq|]. split; reflexivity.
Qed.

Lemma agrees_pointer st P SC E LT :
  TInv st -> Types BM !! P = Some (OpTypePointer SC E) ->
  TypeMap st !! P = Some LT ->
  ∃ ET, TypeMap st !! E = Some ET ∧ LT = LPointer ET (rmapAddrSpace SC).
Proof.
  intros [Hag _] HP HM. specialize (Hag _ _ HM). unfold agrees in Hag.
  now rewrite HP in Hag.
Qed.

Lemma agrees_array st A E L LT :
  TInv st -> Types BM !! A = Some (OpTypeArray E L) ->
  TypeMap st !! A = Some LT ->
  ∃ ET n, TypeMap st !! E = Some ET ∧ LT = LArray ET n.
Proof.
  intros [Hag _] HP HM. specialize (Hag _ _ HM). unfold agrees in Hag.
  rewrite HP in Hag. destruct Hag as (ET & w & n & ? & ? & ?). eauto.
Qed.

(** Decoding a struct that refers to itself. *)
Lemma reader_struct_translation (fuel : nat) (st : State) S N ms c p :
  TInv st -> lengthsOk st -> structsClosed st ->
  Types BM !! S = Some (OpTypeStruct N ms c p) ->
  (bound st R < fuel)%nat ->
  ∃ s st' MT i,
    transType fuel S st = Ok (LStruct s, st')
    ∧ TInv st' ∧ lengthsOk st' ∧ structsClosed st'
    ∧ TypeMap st' !! S = Some (LStruct s)
    ∧ Structs st' !! s = Some i ∧ sbody i = Some (MT, p)
    ∧ Forall2 (fun m t => TypeMap st' !! m = Some t) (ms ++ concat c) MT
    (* a member that points to the struct *)
    ∧ (∀ k P SC,
         (ms ++ concat c) !! k = Some P ->
         Types BM !! P = Some (OpTypePointer SC S) ->
         MT !! k = Some (LPointer (LStruct s) (rmapAddrSpace SC)))
    (* a member that is an array of pointers to the struct *)
    ∧ (∀ k A P L SC,
         (ms ++ concat c) !! k = Some A ->
         Types BM !! A = Some (OpTypeArray P L) ->
         Types BM !! P = Some (OpTypePointer SC S) ->
         ∃ n, MT !! k = Some (LArray (LPointer (LStruct s) (rmapAddrSpace SC)) n))
    (* a member struct with a member that points to the struct *)
    ∧ (∀ k T' N' ms' c' p' j P SC,
         (ms ++ concat c) !! k = Some T' ->
         Types BM !! T' = Some (OpTypeStruct N' ms' c' p') ->
         (ms' ++ concat c') !! j = Some P ->
         Types BM !! P = Some (OpTypePointer SC S) ->
         ∃ s' i' MT',
           MT !! k = Some (LStruct s') ∧ Structs st' !! s' = Some i'
           ∧ sbody i' = Some (MT', p')
           ∧ MT' !! j = Some (LPointer (LStruct s) (rmapAddrSpace SC))).
Proof.
  intros HI HL HC HS Hb.
  destruct (transType_total fuel S st HI HL) as (LT & st' & E); [eauto| |].
  { pose proof (proj1 (Hwf _ _ HS)). unfold bound in *. lia. }
  destruct (transType_spec _ _ _ _ _ HI E) as (HP & HM).
  pose proof (structsClosed_post _ _ HC HP) as HC'.
  destruct (HC' _ _ _ _ _ _ HS HM) as (s & MT & i & -> & Hs & Hb' & HF).
  destruct HP as (HI' & HE' & _).
  assert (Hptr : ∀ P SC LT, Types BM !! P = Some (OpTypePointer SC S) ->
            TypeMap st' !! P = Some LT ->
            LT = LPointer (LStruct s) (rmapAddrSpace SC)).
  { intros P SC LT HP HMP.
    destruct (agrees_pointer _ _ _ _ _ HI' HP HMP) as (ET & HE & ->).
    congruence. }
  exists s, st', MT, i. split; [exact E|]. split; [exact HI'|].
  split; [eapply lengthsOk_ext; eassumption|]. split; [exact HC'|].
  split; [exact HM|]. split; [exact Hs|]. split; [exact Hb'|].
  split; [exact HF|]. split; [|split].
  - intros k P SC Hk HP.
    destruct (Forall2_lookup_l _ _ _ _ _ HF Hk) as (t & Ht & HMP).
    rewrite Ht. f_equal. eauto.
  - intros k A P L SC Hk HA HP.
    destruct (Forall2_lookup_l _ _ _ _ _ HF Hk) as (t & Ht & HMA).
    destruct (agrees_array _ _ _ _ _ HI' HA HMA) as (ET & n & HE & ->).
    exists n. rewrite Ht. do 2 f_equal. eauto.
  - intros k T' N' ms' c' p' j P SC Hk HT' Hj HP.
    destruct (Forall2_lookup_l _ _ _ _ _ HF Hk) as (t & Ht & HMT).
    destruct (HC' _ _ _ _ _ _ HT' HMT) as (s' & MT' & i' & -> & Hs' & Hb'' & HF').
    destruct (Forall2_lookup_l _ _ _ _ _ HF' Hj) as (t' & Ht' & HMP).
    exists s', i', MT'. repeat split; auto.
    rewrite Ht'. f_equal. eauto.
Qed.

End Termination.

(** *** Memoization, and what the translation of a type leaves alone *)

Lemma transType_mapped fuel T st LT :
  TypeMap st !! T = Some LT -> transType (S fuel) T st = Ok (LT, st).
Proof. intros H. now rewrite transType_eq, H. Qed.

(** X6.  A type that has been translated is in the table of types: the
    next request for it, and any request after further types have been
    translated, returns the identical LLVM type and changes nothing. *)
Theorem reader_transType_memoized fuel T st LT st' fuel2 T2 LT2 st2 k :
  TInv st ->
  transType fuel T st = Ok (LT, st') ->
  transType fuel2 T2 st' = Ok (LT2, st2) ->
  transType (S k) T st' = Ok (LT, st')
  ∧ transType (S k) T st2 = Ok (LT, st2).
Proof.
  intros HI H1 H2.
  destruct (transType_spec fuel T st LT st' HI H1) as [(I1 & _ & _) M1].
  destruct (transType_spec fuel2 T2 st' LT2 st2 I1 H2) as [(_ & X2 & _) _].
  split; apply transType_mapped; [exact M1|].
  destruct X2 as (S2 & _). eapply lookup_weaken; eauto.
Qed.

(** X7.  The translation of a type changes the table of types, the
    struct types of the LLVM module, the supply of identities and, for
    the length of an array, the table of values, to which it only adds
    integer constants; the instructions, blocks, global variables and
    functions of the module under construction and the tables of the
    placeholders, of the functions and of the loop metadata are as they
    were, and no entry of the tables of types and values is changed. *)
Theorem reader_transType_leaves_ir_untouched fuel T st LT st' :
  TInv st ->
  transType fuel T st = Ok (LT, st') ->
  Insts st' = Insts st ∧ BlockInsts st' = BlockInsts st
  ∧ Globals st' = Globals st ∧ LFunctions st' = LFunctions st
  ∧ PlaceholderMap st' = PlaceholderMap st ∧ FuncMap st' = FuncMap st
  ∧ FuncLoopMetadataMap st' = FuncLoopMetadataMap st
  ∧ TypeMap st ⊆ TypeMap st' ∧ ValueMap st ⊆ ValueMap st'
  ∧ (∀ L v, ValueMap st' !! L = Some v ->
            ValueMap st !! L = Some v ∨ ∃ w n, v = VConst (CInt w n)).
Proof.
  intros HI H.
  destruct (transType_spec fuel T st LT st' HI H) as [(_ & X & _) _].
  destruct X as (A & B & _ & _ & E & F & G & HH & I & J & K & L).
  repeat split; assumption.
Qed.

End ReaderTypeFacts.

(** ** Encoding of types *)

Lemma Res_Ok_inj {A} (a b : A) : Ok a = Ok b -> a = b.
Proof. now intros [= ->]. Qed.

Section WriterTypeFacts.
Import Writer.

Variable LTypes : gmap nat LLVMType.
Variable isAllowedToUseExtension : ExtensionID -> bool.
Variable mapAddrSpace : nat -> nat.
Variable specialOpaque : string -> option nat.
Variable ConstantSamplerName ConstantPipeStorageName : string.
Variable SamplerType PipeStorageType : nat.
Variable SizetType : nat.
Variable ConstantIntId : nat -> Z -> nat.

Abbreviation wtransType :=
  (Writer.transType LTypes isAllowedToUseExtension mapAddrSpace specialOpaque
     ConstantSamplerName ConstantPipeStorageName SamplerType PipeStorageType
     SizetType ConstantIntId).
Abbreviation wtransTypes :=
  (Writer.transTypes LTypes isAllowedToUseExtension mapAddrSpace specialOpaque
     ConstantSamplerName ConstantPipeStorageName SamplerType PipeStorageType
     SizetType ConstantIntId).
Abbreviation wtransConstantInt :=
  (Writer.transConstantInt LTypes isAllowedToUseExtension ConstantIntId).
Abbreviation wrecursiveType := (Writer.recursiveType LTypes).
Abbreviation wtransMembers1 := (Writer.transMembers1 LTypes).

(** A struct type that is translated to a struct (and not, by its name,
    to the sampler or pipe-storage type). *)
Definition realStruct (T : nat) (N : string) (els : list nat) (P : bool) : Prop :=
  LTypes !! T = Some (StructTy N (Some els) P)
  ∧ String.eqb N ConstantSamplerName = false
  ∧ String.eqb N ConstantPipeStorageName = false.

Definition isStructEntry (e : SPIRVEntry) : bool :=
  match e with EStruct _ _ _ _ _ => true | _ => false end.

Definition isTypeEntry (e : SPIRVEntry) : bool :=
  match e with
  | EVoid | EBool | EInt _ | EFloat _ | EPointer _ _ | EVector _ _
  | EArray _ _ | EOpaque _ | EStruct _ _ _ _ _ | EFunction _ _ | ESpecial _ =>
      true
  | _ => false
  end.

(** [Img st T id]: the entry [id] of the module is a translation of the
    LLVM type [T].  A struct has the one translation the table records;
    the other types may have been emitted more than once. *)
Inductive Img (st : State) : nat -> nat -> Prop :=
| Img_void T id :
    LTypes !! T = Some VoidTy -> Entries st !! id = Some EVoid -> Img st T id
| Img_bool T id :
    LTypes !! T = Some (IntegerTy 1) -> Entries st !! id = Some EBool ->
    Img st T id
| Img_int T id w :
    LTypes !! T = Some (IntegerTy w) -> Entries st !! id = Some (EInt w) ->
    Img st T id
| Img_float T id w :
    LTypes !! T = Some (FloatingPointTy w) ->
    Entries st !! id = Some (EFloat w) -> Img st T id
| Img_pointer T id ET AS e :
    LTypes !! T = Some (PointerTy ET AS) ->
    Entries st !! id = Some (EPointer (mapAddrSpace AS) e) ->
    Img st ET e -> Img st T id
| Img_special T id ET AS N P k :
    LTypes !! T = Some (PointerTy ET AS) ->
    LTypes !! ET = Some (StructTy N None P) -> specialOpaque N = Some k ->
    Entries st !! id = Some (ESpecial k) -> Img st T id
| Img_vector T id El n e :
    LTypes !! T = Some (VectorTy El n) ->
    Entries st !! id = Some (EVector e n) -> Img st El e -> Img st T id
| Img_array T id El n e len :
    LTypes !! T = Some (ArrayTy El n) ->
    Entries st !! id = Some (EArray e len) -> Img st El e -> Img st T id
| Img_opaque T id N P :
    LTypes !! T = Some (StructTy N None P) ->
    Entries st !! id = Some (EOpaque N) -> Img st T id
| Img_struct T id N els P :
    realStruct T N els P -> TypeMap st !! T = Some id -> Img st T id
| Img_sampler T id N els P :
    LTypes !! T = Some (StructTy N (Some els) P) ->
    String.eqb N ConstantSamplerName = true ->
    Img st SamplerType id -> Img st T id
| Img_pipe_storage T id N els P :
    LTypes !! T = Some (StructTy N (Some els) P) ->
    String.eqb N ConstantSamplerName = false ->
    String.eqb N ConstantPipeStorageName = true ->
    Img st PipeStorageType id -> Img st T id
| Img_function T id R Ps r ps :
    LTypes !! T = Some (FunctionTy R Ps) ->
    Entries st !! id = Some (EFunction r ps) -> Img st T id.

(** What [Img] needs of a later state: the table keeps the structs, and
    of the types of the module only structs have changed. *)
Definition ImgExt (st st' : State) : Prop :=
  (∀ T N els P id, realStruct T N els P -> TypeMap st !! T = Some id ->
                   TypeMap st' !! T = Some id)
  ∧ (∀ id e, Entries st !! id = Some e -> isTypeEntry e = true ->
             isStructEntry e = false -> Entries st' !! id = Some e).

(** [st'] extends [st]: the tables have grown, and the entries of the
    module are as they were, except that the struct [x] under construction
    may have been filled further. *)
Definition WExtX (x : option nat) (st st' : State) : Prop :=
  TypeMap st ⊆ TypeMap st'
  ∧ ValueMap st ⊆ ValueMap st'
  ∧ (NextId st <= NextId st')%nat
  ∧ (∀ id e, Entries st !! id = Some e ->
             Some id ≠ x ∨ isStructEntry e = false ->
             Entries st' !! id = Some e)
  ∧ FPContractMap st' = FPContractMap st
  ∧ (∀ V b, ValueMap st' !! V = Some b ->
            ValueMap st !! V = Some b
            ∨ ((∃ T v, V = ConstantIntId T v)
               ∧ ∃ BT ws, Entries st' !! b = Some (EConstant BT ws)))
  ∧ (∀ id e, Entries st' !! id = Some e ->
             Entries st !! id = Some e ∨ isTypeEntry e = true
             ∨ ∃ BT ws, e = EConstant BT ws).

Abbreviation WExt := (WExtX None).

Lemma WExtX_refl x st : WExtX x st st.
Proof. unfold WExtX. repeat split; eauto. Qed.

Lemma WExtX_trans x a b c : WExtX x a b -> WExtX x b c -> WExtX x a c.
Proof.
  intros (A1&B1&C1&D1&E1&F1&G1) (A2&B2&C2&D2&E2&F2&G2). unfold WExtX.
  split; [etrans; eauto|]. split; [etrans; eauto|]. split; [lia|].
  split; [intros id e He Hx; eauto|]. split; [congruence|]. split.
  - intros V bv H. destruct (F2 _ _ H) as [H'|?]; [|now right].
    destruct (F1 _ _ H') as [?|(HK & BT & ws & He)]; [now left|].
    right. split; [assumption|]. exists BT, ws. apply D2; auto.
  - intros id e H. destruct (G2 _ _ H) as [H'|?]; [|now right].
    apply (G1 _ _ H').
Qed.

Lemma WExt_WExtX x st st' : WExt st st' -> WExtX x st st'.
Proof.
  intros (A&B&C&D&E&F&G). unfold WExtX. repeat split; try assumption.
  intros id e He _. apply D; [assumption|]. left. discriminate.
Qed.

Lemma WExtX_ImgExt x st st' : WExtX x st st' -> ImgExt st st'.
Proof.
  intros (A&B&C&D&_). split.
  - intros T N els P id _ H. eapply lookup_weaken; eauto.
  - intros id e He _ Hs. apply D; auto.
Qed.

Lemma WExt_entries st st' : WExt st st' -> Entries st ⊆ Entries st'.
Proof.
  intros (_&_&_&D&_). apply map_subseteq_spec. intros id e He.
  apply D; [assumption|]. left. discriminate.
Qed.

Lemma ImgExt_trans a b c : ImgExt a b -> ImgExt b c -> ImgExt a c.
Proof. intros [A1 B1] [A2 B2]. split; eauto. Qed.

Lemma Img_mono st st' T id : ImgExt st st' -> Img st T id -> Img st' T id.
Proof.
  intros [A D] H.
  induction H.
  - eapply Img_void; eauto.
  - eapply Img_bool; eauto.
  - eapply Img_int; eauto.
  - eapply Img_float; eauto.
  - eapply Img_pointer; eauto.
  - eapply Img_special; eauto.
  - eapply Img_vector; eauto.
  - eapply Img_array; eauto.
  - eapply Img_opaque; eauto.
  - eapply Img_struct; eauto.
  - eapply Img_sampler; eauto.
  - eapply Img_pipe_storage; eauto.
  - eapply Img_function; eauto.
Qed.

(** The invariant of the tables. *)
Definition membersImg (st : State) : Prop :=
  ∀ T N els P sid,
    realStruct T N els P -> TypeMap st !! T = Some sid ->
    ∃ Ms C P' Cl,
      Entries st !! sid = Some (EStruct N Ms C P' Cl)
      ∧ length Ms = length els
      ∧ (∀ k m, Ms !! k = Some (Some m) ->
           ∃ el, els !! k = Some el ∧ Img st el m).

Definition WInv (st : State) : Prop :=
  (∀ T id, TypeMap st !! T = Some id -> Img st T id)
  ∧ membersImg st
  ∧ (∀ id, is_Some (Entries st !! id) -> (id < NextId st)%nat)
  ∧ (∀ T id, TypeMap st !! T = Some id -> (id < NextId st)%nat)
  ∧ (∀ T T' N els P N' els' P' sid,
       realStruct T N els P -> realStruct T' N' els' P' ->
       TypeMap st !! T = Some sid -> TypeMap st !! T' = Some sid -> T = T').

(** A struct whose translation is finished: sealed, with the packing of
    the source and every member a translation of the member of the
    source. *)
Definition completeAt (st : State) (sid : nat) (N : string) (els : list nat)
    (P : bool) : Prop :=
  ∃ ms C, Entries st !! sid = Some (EStruct N (map Some ms) C P true)
          ∧ Forall2 (Img st) els ms.

Definition completeNew (st st' : State) : Prop :=
  ∀ T N els P sid,
    realStruct T N els P -> TypeMap st !! T = None ->
    TypeMap st' !! T = Some sid -> completeAt st' sid N els P.

Lemma completeAt_keep st st' sid N els P :
  ImgExt st st' ->
  (∀ e, Entries st !! sid = Some e -> Entries st' !! sid = Some e) ->
  completeAt st sid N els P -> completeAt st' sid N els P.
Proof.
  intros HE Hk (ms & C & He & Hf). exists ms, C. split; [auto|].
  eapply Forall2_impl; [exact Hf|]. intros a b. now apply Img_mono.
Qed.

Lemma completeAt_mono x st st' sid N els P :
  WExtX x st st' -> Some sid ≠ x ->
  completeAt st sid N els P -> completeAt st' sid N els P.
Proof.
  intros HE Hx. apply completeAt_keep; [eapply WExtX_ImgExt; eauto|].
  destruct HE as (_&_&_&D&_). intros e He. apply D; auto.
Qed.

Lemma completeNew_refl st : completeNew st st.
Proof. intros T N els P sid _ H1 H2. congruence. Qed.

Lemma completeNew_trans x a b c :
  WExtX x b c -> completeNew a b -> completeNew b c ->
  (∀ T N els P sid, realStruct T N els P -> TypeMap a !! T = None ->
                    TypeMap c !! T = Some sid -> Some sid ≠ x) ->
  completeNew a c.
Proof.
  intros Hbc H1 H2 Hx T N els P sid HT Ha Hc.
  destruct (TypeMap b !! T) as [sid'|] eqn:Hb.
  - assert (sid' = sid) as ->.
    { destruct Hbc as (A&_). pose proof (lookup_weaken _ _ _ _ Hb A). congruence. }
    eapply completeAt_mono; [exact Hbc|eauto|]. eapply H1; eauto.
  - eapply H2; eauto.
Qed.

Definition WPost (st : State) (T id : nat) (st' : State) : Prop :=
  WInv st' ∧ WExt st st' ∧ Img st' T id ∧ completeNew st st'.

Lemma WPost_refl st T id :
  WInv st -> TypeMap st !! T = Some id -> WPost st T id st.
Proof.
  intros HI H. split; [assumption|]. split; [apply WExtX_refl|].
  split; [now apply HI|apply completeNew_refl].
Qed.

Lemma wtransType_eq fuel T st :
  wtransType (S fuel) T st =
  match TypeMap st !! T with
  | Some BT => Ok (BT, st)
  | None =>
      match LTypes !! T with
      | None => Fault NullDeref
      | Some node =>
          match node with
          | VoidTy => Ok (mapType T (addEntry EVoid st))
          | IntegerTy BitWidth =>
              if BitWidth =? 1 then Ok (mapType T (addEntry EBool st))
              else
                _ ← (if isAllowedToUseExtension
                          SPV_INTEL_arbitrary_precision_integers
                     then Ok tt
                     else checkError
                            ((BitWidth =? 8) || (BitWidth =? 16)
                             || (BitWidth =? 32) || (BitWidth =? 64))
                            SPIRVEC_InvalidBitWidth);
                Ok (mapType T (addEntry (EInt BitWidth) st))
          | FloatingPointTy Bits =>
              Ok (mapType T (addEntry (EFloat Bits) st))
          | PointerTy ET AddrSpc =>
              match LTypes !! ET with
              | None => Fault NullDeref
              | Some ETnode =>
                  _ ← (match ETnode with
                       | FunctionTy _ _ =>
                           checkError
                             (isAllowedToUseExtension SPV_INTEL_function_pointers)
                             SPIRVEC_FunctionPointers
                       | _ => Ok tt
                       end);
                  match ETnode with
                  | StructTy STName None _ =>
                      match specialOpaque STName with
                      | Some k => Ok (mapType T (addEntry (ESpecial k) st))
                      | None =>
                          '(BET, st1) ← wtransType fuel ET st;
                          Ok (mapType T (addEntry
                                (EPointer (mapAddrSpace AddrSpc) BET) st1))
                      end
                  | _ =>
                      '(BET, st1) ← wtransType fuel ET st;
                      Ok (mapType T (addEntry
                            (EPointer (mapAddrSpace AddrSpc) BET) st1))
                  end
              end
          | VectorTy El Num =>
              '(BEl, st1) ← wtransType fuel El st;
              Ok (mapType T (addEntry (EVector BEl Num) st1))
          | ArrayTy El Num =>
              _ ← checkError (1 <=? Num) SPIRVEC_InvalidArraySize;
              '(BEl, st1) ← wtransType fuel El st;
              '(Len, st2) ← wtransConstantInt (wtransType fuel) SizetType Num st1;
              Ok (mapType T (addEntry (EArray BEl Len) st2))
          | StructTy N None _ =>
              Ok (mapType T (addEntry (EOpaque N) st))
          | StructTy N (Some Elements) isPacked =>
              if String.eqb N ConstantSamplerName
              then wtransType fuel SamplerType st
              else if String.eqb N ConstantPipeStorageName
              then wtransType fuel PipeStorageType st
              else
                let NumElements := length Elements in
                let SPIRVStructNumElements :=
                  if (MaxNumElements <? Z.of_nat NumElements)
                     && isAllowedToUseExtension SPV_INTEL_long_constant_composite
                  then Z.to_nat MaxNumElements else NumElements in
                let '(Struct, st1) :=
                  mapType T
                    (addEntry (EStruct N (replicate SPIRVStructNumElements None)
                                       [] false false) st) in
                let st2 :=
                  addContinuedInstructions isAllowedToUseExtension
                                           Struct NumElements st1 in
                '(ForwardRefs, st3) ←
                  wtransMembers1 (wtransType fuel) fuel T Struct Elements
                                 0%nat Elements st2;
                let st4 := closeStructType Struct isPacked st3 in
                st5 ← transMembers2 (wtransType fuel) Struct Elements
                                    ForwardRefs st4;
                Ok (Struct, st5)
          | FunctionTy Ret Ps =>
              '(RT, st1) ← wtransType fuel Ret st;
              '(PT, st2) ← wtransTypes fuel Ps st1;
              Ok (mapType T (addEntry (EFunction RT PT) st2))
          end
      end
  end.
Proof. reflexivity. Qed.

(** The last step of the translation of a type that is no struct: the new
    entry is emitted and recorded for [T]. *)
Lemma emit_spec st st1 T node e id st2 :
  WInv st1 -> WExt st st1 -> completeNew st st1 ->
  TypeMap st !! T = None -> LTypes !! T = Some node ->
  (∀ N els P, node ≠ StructTy N (Some els) P) ->
  isTypeEntry e && negb (isStructEntry e) = true ->
  (∀ s, ImgExt st1 s -> Entries s !! NextId st1 = Some e ->
        Img s T (NextId st1)) ->
  mapType T (addEntry e st1) = (id, st2) ->
  WPost st T id st2.
Proof.
  intros HI HE HC HT HN Hns He Himg Heq.
  apply andb_prop in He as [Hty He]. apply negb_true_iff in He.
  unfold mapType, addEntry, setTypeMap in Heq; cbn in Heq.
  injection Heq as <- <-.
  destruct HI as (I1 & I2 & I3 & I4 & I5).
  assert (Hfresh : Entries st1 !! NextId st1 = None).
  { destruct (Entries st1 !! NextId st1) eqn:E; [|reflexivity].
    assert (NextId st1 < NextId st1)%nat by (apply I3; eauto). lia. }
  assert (Hne : ∀ T' N els P, realStruct T' N els P -> T' ≠ T).
  { intros T' N els P [H1 _] ->. rewrite HN in H1.
    injection H1 as ->. now apply (Hns N els P). }
  set (s2 := mkState _ _ _ _ _).
  assert (HX : ImgExt st1 s2).
  { split.
    - intros T' N els P i HT' Hl. cbn.
      rewrite lookup_insert_ne; [assumption|]. intros ->. now apply (Hne _ _ _ _ HT').
    - intros i e' Hl _ _. cbn. rewrite lookup_insert_ne; [assumption|].
      intros <-. congruence. }
  assert (Hnew : Img s2 T (NextId st1)).
  { apply Himg; [assumption|]. cbn. apply lookup_insert_eq. }
  split; [|split; [|split]].
  - split; [|split; [|split; [|split]]].
    + intros T' i Hl. cbn in Hl.
      destruct (decide (T' = T)) as [->|Hd].
      * rewrite lookup_insert_eq in Hl. injection Hl as <-. assumption.
      * rewrite lookup_insert_ne in Hl by congruence.
        eapply Img_mono; eauto.
    + intros T' N els P sid HT' Hl. cbn in Hl.
      rewrite lookup_insert_ne in Hl
        by (intros <-; now apply (Hne _ _ _ _ HT')).
      destruct (I2 _ _ _ _ _ HT' Hl) as (Ms & C & P' & Cl & E1 & E2 & E3).
      exists Ms, C, P', Cl. split; [|split; [assumption|]].
      * cbn. rewrite lookup_insert_ne; [assumption|]. intros <-. congruence.
      * intros k m Hk. destruct (E3 _ _ Hk) as (el & ? & ?).
        exists el. split; [assumption|]. eapply Img_mono; eauto.
    + intros i Hi. cbn in *. destruct (decide (i = NextId st1)) as [->|Hd]; [lia|].
      rewrite lookup_insert_ne in Hi by congruence. specialize (I3 _ Hi). lia.
    + intros T' i Hl. cbn in *. destruct (decide (T' = T)) as [->|Hd].
      * rewrite lookup_insert_eq in Hl. injection Hl as <-. lia.
      * rewrite lookup_insert_ne in Hl by congruence. specialize (I4 _ _ Hl). lia.
    + intros T1 T2 N els P N' els' P' sid H1 H2 L1 L2. cbn in L1, L2.
      rewrite lookup_insert_ne in L1 by (intros <-; now apply (Hne _ _ _ _ H1)).
      rewrite lookup_insert_ne in L2 by (intros <-; now apply (Hne _ _ _ _ H2)).
      eapply I5; eauto.
  - destruct HE as (A & B & C & D & E & F & G).
    split; [|split; [|split; [|split; [|split; [|split]]]]]; cbn.
    + now apply insert_subseteq_r.
    + assumption.
    + lia.
    + intros i e' Hl Hx. rewrite lookup_insert_ne; [now apply D|].
      intros <-. rewrite (D _ _ Hl Hx) in Hfresh. discriminate.
    + assumption.
    + intros V b Hl. destruct (F _ _ Hl) as [?|(HK & BT & ws & Hc)]; [now left|].
      right. split; [assumption|]. exists BT, ws.
      rewrite lookup_insert_ne; [assumption|]. intros <-. congruence.
    + intros i e' Hl. destruct (decide (i = NextId st1)) as [->|Hd].
      * rewrite lookup_insert_eq in Hl. injection Hl as <-. now right; left.
      * rewrite lookup_insert_ne in Hl by congruence. now apply G.
  - assumption.
  - intros T' N els P sid HT' Hu Hl. cbn in Hl.
    rewrite lookup_insert_ne in Hl by (intros <-; now apply (Hne _ _ _ _ HT')).
    eapply completeAt_keep; [exact HX| |eapply HC; eauto].
    intros e' Hl'. cbn. rewrite lookup_insert_ne; [assumption|].
    intros <-. congruence.
Qed.

(** The entry of the struct under construction: its fixed fields, the
    number of its slots, and the slots [F] that are filled. *)
Definition header (st : State) (sid : nat) (N : string) (C : list nat)
    (P Cl : bool) (n : nat) (F : nat -> Prop) : Prop :=
  ∃ Ms, Entries st !! sid = Some (EStruct N Ms C P Cl)
        ∧ length Ms = n
        ∧ ∀ k, F k -> ∃ m, Ms !! k = Some (Some m).

Lemma header_weaken st sid N C P Cl n (F G : nat -> Prop) :
  (∀ k, G k -> F k) -> header st sid N C P Cl n F -> header st sid N C P Cl n G.
Proof. intros HFG (Ms & ? & ? & HF). exists Ms. eauto. Qed.

Lemma header_mono st st' sid N C P Cl n F :
  Entries st ⊆ Entries st' ->
  header st sid N C P Cl n F -> header st' sid N C P Cl n F.
Proof.
  intros HE (Ms & ? & ? & HF). exists Ms.
  split; [eapply lookup_weaken; eauto|auto].
Qed.

Lemma header_setMemberType st sid N C P Cl n F I BT :
  (I < n)%nat -> header st sid N C P Cl n F ->
  header (setMemberType sid I BT st) sid N C P Cl n (fun k => F k ∨ k = I).
Proof.
  intros HI (Ms & He & Hl & HF). exists (<[I := Some BT]> Ms).
  split; [|split].
  - cbn. rewrite lookup_alter_eq, He. reflexivity.
  - now rewrite length_insert.
  - intros k [Hk| ->].
    + destruct (decide (k = I)) as [->|Hd].
      * exists BT. apply list_lookup_insert_eq. lia.
      * destruct (HF _ Hk) as [m Hm]. exists m.
        now rewrite list_lookup_insert_ne by congruence.
    + exists BT. apply list_lookup_insert_eq. lia.
Qed.

Lemma header_closeStructType st sid N C P Cl n F isPacked :
  header st sid N C P Cl n F ->
  header (closeStructType sid isPacked st) sid N C isPacked true n F.
Proof.
  intros (Ms & He & Hl & HF). exists Ms. split; [|auto].
  cbn. rewrite lookup_alter_eq, He. reflexivity.
Qed.

(** Filling a slot of the struct under construction, or sealing it,
    changes nothing but the entry of that struct. *)
Definition touches (sid : nat) (st st' : State) : Prop :=
  TypeMap st' = TypeMap st ∧ ValueMap st' = ValueMap st
  ∧ NextId st' = NextId st
  ∧ (∀ id, id ≠ sid -> Entries st' !! id = Entries st !! id)
  ∧ (∀ e, Entries st !! sid = Some e ->
          ∃ e', Entries st' !! sid = Some e'
                ∧ (if isStructEntry e then isTypeEntry e' = true
                   else e' = e))
  ∧ (Entries st !! sid = None -> Entries st' !! sid = None)
  ∧ FPContractMap st' = FPContractMap st.

Lemma touches_setMemberType sid I BT st :
  touches sid st (setMemberType sid I BT st).
Proof.
  repeat split; cbn.
  - intros id Hd. now rewrite lookup_alter_ne by congruence.
  - intros e He. rewrite lookup_alter_eq, He. cbn. eexists. split; [reflexivity|].
    now destruct e.
  - intros He. now rewrite lookup_alter_eq, He.
Qed.

Lemma touches_closeStructType sid P st :
  touches sid st (closeStructType sid P st).
Proof.
  repeat split; cbn.
  - intros id Hd. now rewrite lookup_alter_ne by congruence.
  - intros e He. rewrite lookup_alter_eq, He. cbn. eexists. split; [reflexivity|].
    now destruct e.
  - intros He. now rewrite lookup_alter_eq, He.
Qed.

Lemma touches_WExtX sid st st' : touches sid st st' -> WExtX (Some sid) st st'.
Proof.
  intros (A & B & C & D & E & F & G). unfold WExtX. rewrite A, B, C.
  assert (HD : ∀ id e, Entries st !! id = Some e ->
                 Some id ≠ Some sid ∨ isStructEntry e = false ->
                 Entries st' !! id = Some e).
  { intros id e He Hx. destruct (decide (id = sid)) as [->|Hd].
    - destruct Hx as [Hx|Hx]; [congruence|].
      destruct (E _ He) as (e' & He' & Heq). rewrite Hx in Heq.
      now rewrite He', Heq.
    - now rewrite D. }
  split; [reflexivity|]. split; [reflexivity|]. split; [reflexivity|].
  split; [exact HD|]. split; [exact G|]. split; [intros V b H; now left|].
  intros id e He. destruct (decide (id = sid)) as [->|Hd].
  - destruct (Entries st !! sid) as [e0|] eqn:E0.
    + destruct (E _ eq_refl) as (e' & He' & Heq). rewrite He in He'.
      injection He' as <-. destruct (isStructEntry e0); [now right; left|].
      left. now subst.
    + rewrite (F eq_refl) in He. discriminate.
  - left. now rewrite <- D.
Qed.

(** The invariant survives a change of the struct under construction that
    keeps what the invariant says of its slots. *)
Lemma WInv_touches st st' sid T N els P :
  WInv st -> touches sid st st' ->
  realStruct T N els P -> TypeMap st !! T = Some sid ->
  (∃ Ms C P' Cl,
      Entries st' !! sid = Some (EStruct N Ms C P' Cl)
      ∧ length Ms = length els
      ∧ (∀ k m, Ms !! k = Some (Some m) ->
           ∃ el, els !! k = Some el ∧ Img st el m)) ->
  WInv st'.
Proof.
  intros (I1 & I2 & I3 & I4 & I5) Ht HT HM Hnew.
  pose proof (WExtX_ImgExt _ _ _ (touches_WExtX _ _ _ Ht)) as HX.
  destruct Ht as (A & B & C & D & E & E' & _).
  split; [|split; [|split; [|split]]].
  - intros T' i Hl. rewrite A in Hl. eapply Img_mono; eauto.
  - intros T' N' els' P' sid' HT' Hl. rewrite A in Hl.
    destruct (decide (sid' = sid)) as [->|Hd].
    + assert (T' = T) as -> by (eapply I5; eauto).
      destruct HT as [HT _], HT' as [HT' _]. rewrite HT in HT'.
      injection HT' as <- <- <-.
      destruct Hnew as (Ms & C0 & P0 & Cl & E1 & E2 & E3).
      exists Ms, C0, P0, Cl. split; [assumption|]. split; [assumption|].
      intros k m Hk. destruct (E3 _ _ Hk) as (el & ? & ?).
      exists el. split; [assumption|]. eapply Img_mono; eauto.
    + destruct (I2 _ _ _ _ _ HT' Hl) as (Ms & C0 & P0 & Cl & E1 & E2 & E3).
      exists Ms, C0, P0, Cl. split; [now rewrite D|]. split; [assumption|].
      intros k m Hk. destruct (E3 _ _ Hk) as (el & ? & ?).
      exists el. split; [assumption|]. eapply Img_mono; eauto.
  - intros i Hi. rewrite C. apply I3.
    destruct (decide (i = sid)) as [->|Hd]; [|now rewrite <- D].
    destruct (Entries st !! sid) eqn:Es; [eauto|].
    rewrite (E' eq_refl) in Hi. now destruct Hi.
  - intros T' i Hl. rewrite A in Hl. rewrite C. eauto.
  - intros T1 T2 N1 els1 P1 N2 els2 P2 i H1 H2 L1 L2. rewrite A in L1, L2.
    eapply I5; eauto.
Qed.

Lemma WInv_setMemberType st sid T N els P I el BT :
  WInv st -> realStruct T N els P -> TypeMap st !! T = Some sid ->
  els !! I = Some el -> Img st el BT ->
  WInv (setMemberType sid I BT st).
Proof.
  intros HI HT HM Hel Himg.
  eapply WInv_touches; eauto using touches_setMemberType.
  destruct HI as (_ & I2 & _).
  destruct (I2 _ _ _ _ _ HT HM) as (Ms & C0 & P0 & Cl & E1 & E2 & E3).
  exists (<[I := Some BT]> Ms), C0, P0, Cl. split; [|split].
  - cbn. rewrite lookup_alter_eq, E1. reflexivity.
  - now rewrite length_insert.
  - intros k m Hk. apply list_lookup_insert_Some in Hk.
    destruct Hk as [(-> & Hm & _)|[_ Hk]]; [|eauto].
    injection Hm as <-. eauto.
Qed.

Lemma WInv_closeStructType st sid T N els P :
  WInv st -> realStruct T N els P -> TypeMap st !! T = Some sid ->
  WInv (closeStructType sid P st).
Proof.
  intros HI HT HM.
  eapply WInv_touches; eauto using touches_closeStructType.
  destruct HI as (_ & I2 & _).
  destruct (I2 _ _ _ _ _ HT HM) as (Ms & C0 & P0 & Cl & E1 & E2 & E3).
  exists Ms, C0, P, true. split; [|split; assumption].
  cbn. rewrite lookup_alter_eq, E1. reflexivity.
Qed.

Lemma addEntry_spec st e f :
  WInv st -> isStructEntry e = false ->
  let st' := setValueMap f (snd (addEntry e st)) in
  WInv st' ∧ ImgExt st st' ∧ Entries st ⊆ Entries st'
  ∧ TypeMap st' = TypeMap st.
Proof.
  intros (I1 & I2 & I3 & I4 & I5) He st'.
  assert (Hfresh : Entries st !! NextId st = None).
  { destruct (Entries st !! NextId st) eqn:E; [|reflexivity].
    assert (NextId st < NextId st)%nat by (apply I3; eauto). lia. }
  assert (HE : Entries st ⊆ Entries st') by (cbn; now apply insert_subseteq).
  assert (HX : ImgExt st st').
  { split; [intros; assumption|]. intros i e' Hl _ _.
    eapply lookup_weaken; eauto. }
  split; [|auto].
  split; [|split; [|split; [|split]]].
  - intros T i Hl. eapply Img_mono; eauto.
  - intros T N els P sid HT Hl.
    destruct (I2 _ _ _ _ _ HT Hl) as (Ms & C & P' & Cl & E1 & E2 & E3).
    exists Ms, C, P', Cl. split; [eapply lookup_weaken; eauto|].
    split; [assumption|]. intros k m Hk. destruct (E3 _ _ Hk) as (el & ? & ?).
    exists el. split; [assumption|]. eapply Img_mono; eauto.
  - intros i Hi. cbn in *. destruct (decide (i = NextId st)) as [->|Hd]; [lia|].
    rewrite lookup_insert_ne in Hi by congruence. specialize (I3 _ Hi). lia.
  - intros T i Hl. cbn in *. specialize (I4 _ _ Hl). lia.
  - exact I5.
Qed.

Lemma addContinued_opened TM VM E nx FP sid m N k C P Cl :
  addContinued sid m
    (mkState TM VM (<[sid := EStruct N (replicate k None) C P Cl]> E) nx FP)
  = mkState TM VM
      (<[sid := EStruct N (replicate (k + m) None) (C ++ [m]) P Cl]> E) nx FP.
Proof.
  unfold addContinued, setEntries; cbn.
  now rewrite alter_insert_eq, replicate_add.
Qed.

Lemma iter_addContinued_opened TM VM E nx FP sid m N P Cl j :
  ∀ k C,
  Nat.iter j (addContinued sid m)
    (mkState TM VM (<[sid := EStruct N (replicate k None) C P Cl]> E) nx FP)
  = mkState TM VM
      (<[sid := EStruct N (replicate (k + j * m) None)
                        (C ++ replicate j m) P Cl]> E) nx FP.
Proof.
  induction j as [|j IHj]; intros k C.
  - cbn. now rewrite Nat.add_0_r, app_nil_r.
  - rewrite Nat.iter_succ, IHj, addContinued_opened. do 3 f_equal.
    + f_equal. lia.
    + rewrite <- app_assoc. f_equal.
      change (m :: replicate j m) with (replicate (S j) m).
      now rewrite <- replicate_S_end.
Qed.

Lemma addContinuedInstructions_opened TM VM E nx FP sid N n :
  let n0 := if (MaxNumElements <? Z.of_nat n)
               && isAllowedToUseExtension SPV_INTEL_long_constant_composite
            then Z.to_nat MaxNumElements else n in
  ∃ C, addContinuedInstructions isAllowedToUseExtension sid n
         (mkState TM VM
            (<[sid := EStruct N (replicate n0 None) [] false false]> E) nx FP)
       = mkState TM VM
           (<[sid := EStruct N (replicate n None) C false false]> E) nx FP.
Proof.
  intros n0. unfold addContinuedInstructions. subst n0.
  destruct ((MaxNumElements <? Z.of_nat n)
            && isAllowedToUseExtension SPV_INTEL_long_constant_composite) eqn:Hbig;
    [|now exists []].
  apply andb_true_iff in Hbig. destruct Hbig as [Hbig _].
  apply Z.ltb_lt in Hbig.
  rewrite iter_addContinued_opened.
  assert (Hmax : MaxNumElements = 65533) by reflexivity.
  pose proof (Z.div_mod (Z.of_nat n) MaxNumElements ltac:(rewrite Hmax; lia)) as Hdm.
  pose proof (Z.mod_pos_bound (Z.of_nat n) MaxNumElements ltac:(rewrite Hmax; lia)) as Hr.
  set (q := Z.of_nat n / MaxNumElements) in *.
  set (r := Z.of_nat n mod MaxNumElements) in *.
  rewrite Hmax in *.
  destruct (0 <? r) eqn:Hpos.
  - rewrite addContinued_opened. eexists. do 3 f_equal. f_equal.
    apply Z.ltb_lt in Hpos. lia.
  - eexists. do 3 f_equal. f_equal. apply Z.ltb_ge in Hpos. lia.
Qed.

Lemma opened_spec st T N els P C :
  WInv st -> realStruct T N els P -> TypeMap st !! T = None ->
  let sid := NextId st in
  let st2 := mkState (<[T := sid]> (TypeMap st)) (ValueMap st)
               (<[sid := EStruct N (replicate (length els) None) C false false]>
                  (Entries st)) (S sid) (FPContractMap st) in
  WInv st2 ∧ WExt st st2
  ∧ header st2 sid N C false false (length els) (fun _ => False).
Proof.
  intros (I1 & I2 & I3 & I4 & I5) HT Hu sid st2.
  assert (Hfresh : Entries st !! sid = None).
  { destruct (Entries st !! sid) eqn:E; [|reflexivity].
    assert (sid < NextId st)%nat by (apply I3; eauto). subst sid. lia. }
  assert (HE : WExt st st2).
  { unfold WExtX; cbn. split; [now apply insert_subseteq|].
    split; [reflexivity|]. split; [lia|].
    split; [|split; [reflexivity|split; [intros V b H; now left|]]].
    - intros i e Hl _. rewrite lookup_insert_ne; [assumption|].
      intros <-. congruence.
    - intros i e Hl. destruct (decide (i = sid)) as [->|Hd].
      + rewrite lookup_insert_eq in Hl. injection Hl as <-. now right; left.
      + rewrite lookup_insert_ne in Hl by congruence. now left. }
  pose proof (WExtX_ImgExt _ _ _ HE) as HX.
  split; [|split; [assumption|]].
  - split; [|split; [|split; [|split]]].
    + intros T' i Hl. cbn in Hl. destruct (decide (T' = T)) as [->|Hd].
      * rewrite lookup_insert_eq in Hl. injection Hl as <-.
        eapply Img_struct; eauto. cbn. apply lookup_insert_eq.
      * rewrite lookup_insert_ne in Hl by congruence. eapply Img_mono; eauto.
    + intros T' N' els' P' sid' HT' Hl. cbn in Hl.
      destruct (decide (T' = T)) as [->|Hd].
      * rewrite lookup_insert_eq in Hl. injection Hl as <-.
        destruct HT as [HT _], HT' as [HT' _]. rewrite HT in HT'.
        injection HT' as <- <- <-.
        eexists _, C, false, false. split; [cbn; apply lookup_insert_eq|].
        split; [apply length_replicate|].
        intros k m Hk. apply lookup_replicate in Hk. now destruct Hk.
      * rewrite lookup_insert_ne in Hl by congruence.
        destruct (I2 _ _ _ _ _ HT' Hl) as (Ms & C0 & P0 & Cl & E1 & E2 & E3).
        exists Ms, C0, P0, Cl. split; [|split; [assumption|]].
        -- cbn. rewrite lookup_insert_ne; [assumption|]. intros <-. congruence.
        -- intros k m Hk. destruct (E3 _ _ Hk) as (el & ? & ?).
           exists el. split; [assumption|]. eapply Img_mono; eauto.
    + intros i Hi. cbn in *. destruct (decide (i = sid)) as [->|Hd]; [lia|].
      rewrite lookup_insert_ne in Hi by congruence. specialize (I3 _ Hi). lia.
    + intros T' i Hl. cbn in *. destruct (decide (T' = T)) as [->|Hd].
      * rewrite lookup_insert_eq in Hl. injection Hl as <-. lia.
      * rewrite lookup_insert_ne in Hl by congruence. specialize (I4 _ _ Hl). lia.
    + intros T1 T2 N1 els1 P1 N2 els2 P2 i H1 H2 L1 L2. cbn in L1, L2.
      destruct (decide (T1 = T)) as [->|Hd1], (decide (T2 = T)) as [->|Hd2];
        [reflexivity| | |].
      * rewrite lookup_insert_eq in L1. injection L1 as <-.
        rewrite lookup_insert_ne in L2 by congruence.
        specialize (I4 _ _ L2). subst sid. lia.
      * rewrite lookup_insert_eq in L2. injection L2 as <-.
        rewrite lookup_insert_ne in L1 by congruence.
        specialize (I4 _ _ L1). subst sid. lia.
      * rewrite lookup_insert_ne in L1, L2 by congruence. eapply I5; eauto.
  - eexists. split; [cbn; apply lookup_insert_eq|].
    split; [apply length_replicate|]. intros k [].
Qed.

(** From a struct entry with every slot filled to the list of members. *)
Lemma all_slots_filled {A} (Ms : list (option A)) :
  (∀ k, (k < length Ms)%nat -> ∃ m, Ms !! k = Some (Some m)) ->
  ∃ ms, Ms = map Some ms.
Proof.
  induction Ms as [|o Ms IHl]; intros H; [now exists []|].
  destruct (H 0%nat) as [m Hm]; [cbn; lia|]. cbn in Hm. injection Hm as ->.
  destruct IHl as [ms ->].
  { intros k Hk. apply (H (S k)). cbn. lia. }
  now exists (m :: ms).
Qed.

Lemma completeAt_of_header st T sid N els P C :
  WInv st -> realStruct T N els P -> TypeMap st !! T = Some sid ->
  header st sid N C P true (length els) (fun k => (k < length els)%nat) ->
  completeAt st sid N els P.
Proof.
  intros (_ & I2 & _) HT HM (Ms & He & Hlen & HF).
  destruct (I2 _ _ _ _ _ HT HM) as (Ms' & C' & P' & Cl & E1 & E2 & E3).
  rewrite He in E1. injection E1 as <- <- <- <-.
  destruct (all_slots_filled Ms) as [ms ->].
  { intros k Hk. apply HF. lia. }
  exists ms, C. split; [assumption|].
  apply Forall2_same_length_lookup. split.
  - rewrite length_map in Hlen. lia.
  - intros i el m Hel Hm.
    destruct (E3 i m) as (el' & Hel' & Hi).
    { rewrite list_lookup_fmap, Hm. reflexivity. }
    congruence.
Qed.

Ltac winv_bind H :=
  match type of H with
  | context [ Writer.transType ?a ?b ?c ?d ?e ?f ?g ?h ?i ?j ?fu ?T ?s ] =>
      let E := fresh "E" in
      destruct (Writer.transType a b c d e f g h i j fu T s)
        as [[? ?]| | |] eqn:E; try discriminate; cbn in H
  end.

Section WriterStep.

Variable fuel : nat.
Hypothesis IH : ∀ T st id st',
  WInv st -> wtransType fuel T st = Ok (id, st') -> WPost st T id st'.

Lemma wtransTypes_spec_of :
  ∀ l st ids st', WInv st -> wtransTypes fuel l st = Ok (ids, st') ->
                  WInv st' ∧ WExt st st' ∧ completeNew st st'.
Proof.
  induction l as [|P l IHl]; intros st ids st' HI H; cbn in H.
  - injection H as <- <-.
    split; [assumption|]. split; [apply WExtX_refl|apply completeNew_refl].
  - winv_bind H.
    destruct (IH _ _ _ _ HI E) as (I1 & X1 & _ & C1).
    match type of H with context [ ?f l s ] =>
      destruct (f l s) as [[ts s2]| | |] eqn:E2; try discriminate end.
    cbn in H. injection H as <- <-.
    destruct (IHl _ _ _ I1 E2) as (I2 & X2 & C2).
    split; [assumption|]. split; [eapply WExtX_trans; eauto|].
    eapply completeNew_trans; eauto; intros; discriminate.
Qed.

Lemma wtransConstantInt_spec Ty v st id st' :
  WInv st -> wtransConstantInt (wtransType fuel) Ty v st = Ok (id, st') ->
  WInv st' ∧ WExt st st' ∧ completeNew st st'.
Proof.
  intros HI H. unfold Writer.transConstantInt in H.
  destruct (ValueMap st !! ConstantIntId Ty v) as [BV|] eqn:EV.
  { injection H as <- <-.
    split; [assumption|]. split; [apply WExtX_refl|apply completeNew_refl]. }
  destruct (LTypes !! Ty) as [[]|]; try discriminate.
  match type of H with context [ mbind _ ?c ] =>
    destruct c as [[]| | |]; try discriminate end.
  cbn in H. winv_bind H. injection H as <- <-.
  destruct (IH _ _ _ _ HI E) as (I1 & X1 & _ & C1).
  match goal with |- context [ EConstant ?a ?b ] => set (e := EConstant a b) end.
  destruct (addEntry_spec s e <[ConstantIntId Ty v := NextId s]> I1 eq_refl)
    as (I2 & X2 & E2 & T2).
  split; [exact I2|]. split.
  - destruct X1 as (A & B & C & D & E' & F & G). unfold WExtX; cbn.
    split; [assumption|]. split; [now apply insert_subseteq_r|]. split; [lia|].
    split; [|split; [assumption|split]].
    + intros i e' Hl Hx. eapply lookup_weaken; [|exact E2]. now apply D.
    + intros V b Hl.
      destruct (decide (V = ConstantIntId Ty v)) as [->|Hd].
      * rewrite lookup_insert_eq in Hl. injection Hl as <-. right.
        split; [eauto|]. eexists _, _. apply lookup_insert_eq.
      * rewrite lookup_insert_ne in Hl by congruence.
        destruct (F _ _ Hl) as [?|(HK & BT & ws & Hc)]; [now left|].
        right. split; [assumption|]. exists BT, ws.
        eapply lookup_weaken; [exact Hc|exact E2].
    + intros i e' Hl. destruct (decide (i = NextId s)) as [->|Hd].
      * rewrite lookup_insert_eq in Hl. injection Hl as <-. right; right.
        subst e. eauto.
      * rewrite lookup_insert_ne in Hl by congruence. now apply G.
  - intros T N els P sid HT Hu Hl. cbn in Hl.
    eapply completeAt_keep; [exact X2| |eapply C1; eauto].
    intros e' Hl'. eapply lookup_weaken; eauto.
Qed.

Section StructLoops.

Variables (T sid : nat) (N : string) (els : list nat) (P : bool).
Hypothesis HT : realStruct T N els P.

(** Structs that are new since [T] was registered are not [T]. *)
Lemma new_struct_other st st' :
  WInv st' -> TypeMap st !! T = Some sid -> TypeMap st ⊆ TypeMap st' ->
  ∀ T' N' els' P' sid', realStruct T' N' els' P' -> TypeMap st !! T' = None ->
                        TypeMap st' !! T' = Some sid' -> Some sid' ≠ Some sid.
Proof.
  intros (_ & _ & _ & _ & I5) HM HS T' N' els' P' sid' HT' Hu Hl Heq.
  injection Heq as ->.
  assert (T' = T) as ->; [|congruence].
  eapply I5; eauto. eapply lookup_weaken; eauto.
Qed.

(** A member is translated and stored in its slot. *)
Lemma member_spec st I el BT st1 C P' Cl F :
  WInv st -> TypeMap st !! T = Some sid -> els !! I = Some el ->
  header st sid N C P' Cl (length els) F ->
  wtransType fuel el st = Ok (BT, st1) ->
  let st2 := setMemberType sid I BT st1 in
  WInv st2 ∧ WExtX (Some sid) st st2 ∧ completeNew st st2
  ∧ header st2 sid N C P' Cl (length els) (fun k => F k ∨ k = I).
Proof.
  intros HI HM Hel HH E st2.
  destruct (IH _ _ _ _ HI E) as (I1 & X1 & G1 & C1).
  assert (HM1 : TypeMap st1 !! T = Some sid).
  { destruct X1 as (A & _). eapply lookup_weaken; eauto. }
  pose proof (touches_WExtX _ _ _ (touches_setMemberType sid I BT st1)) as X2.
  split; [eapply WInv_setMemberType; eauto|].
  split; [eapply WExtX_trans; [eapply WExt_WExtX; eauto|exact X2]|].
  split.
  - intros T' N' els' P0 sid' HT' Hu Hl.
    eapply completeAt_mono; [exact X2| |eapply C1; eauto].
    eapply (new_struct_other st st1); eauto. now destruct X1.
  - apply header_setMemberType; [now apply lookup_lt_Some in Hel|].
    eapply header_mono; [apply WExt_entries|]; eauto.
Qed.

Lemma wtransMembers1_spec :
  ∀ l I st FR st' C P' Cl F,
    WInv st -> TypeMap st !! T = Some sid -> drop I els = l ->
    header st sid N C P' Cl (length els) F ->
    wtransMembers1 (wtransType fuel) fuel T sid els I l st = Ok (FR, st') ->
    WInv st' ∧ WExtX (Some sid) st st' ∧ completeNew st st'
    ∧ header st' sid N C P' Cl (length els)
             (fun k => F k ∨ ((I <= k < length els)%nat ∧ k ∉ FR))
    ∧ Forall (fun k => (I <= k < length els)%nat) FR.
Proof.
  induction l as [|ElemTy l IHl]; intros I st FR st' C P' Cl F HI HM Hd HH H;
    cbn in H.
  - injection H as <- <-.
    split; [assumption|]. split; [apply WExtX_refl|].
    split; [apply completeNew_refl|]. split; [|constructor].
    eapply header_weaken; [|exact HH]. intros k [Hk|[Hk _]]; [assumption|].
    apply (f_equal length) in Hd. rewrite length_drop in Hd. cbn in Hd. lia.
  - assert (Hel : els !! I = Some ElemTy).
    { rewrite <- (Nat.add_0_r I), <- lookup_drop, Hd. reflexivity. }
    assert (Hd' : drop (S I) els = l).
    { rewrite <- (Nat.add_1_l I), Nat.add_comm, <- drop_drop, Hd. reflexivity. }
    pose proof (lookup_lt_Some _ _ _ Hel) as HIlt.
    match type of H with context [ mbind _ ?c ] =>
      destruct c as [[|]| | |] eqn:ED; try discriminate end; cbn in H.
    + match type of H with context [ mbind _ ?c ] =>
        destruct c as [[FR0 s1]| | |] eqn:E1; try discriminate end.
      cbn in H. injection H as <- <-.
      destruct (IHl _ _ _ _ _ _ _ F HI HM Hd' HH E1) as (I1 & X1 & C1 & H1 & F1).
      split; [assumption|]. split; [assumption|]. split; [assumption|].
      split.
      * eapply header_weaken; [|exact H1].
        intros k [Hk|[Hk Hn]]; [now left|]. right.
        rewrite not_elem_of_cons in Hn. destruct Hn. split; [lia|assumption].
      * constructor; [lia|]. eapply Forall_impl; [exact F1|]. cbn. intros; lia.
    + winv_bind H.
      destruct (member_spec _ _ _ _ _ _ _ _ F HI HM Hel HH E)
        as (I1 & X1 & C1 & H1).
      assert (HM1 : TypeMap (setMemberType sid I n s) !! T = Some sid).
      { destruct X1 as (A & _). eapply lookup_weaken; eauto. }
      destruct (IHl _ _ _ _ _ _ _ _ I1 HM1 Hd' H1 H) as (I2 & X2 & C2 & H2 & F2).
      split; [assumption|]. split; [eapply WExtX_trans; eauto|].
      split.
      * eapply completeNew_trans; eauto.
        eapply new_struct_other; eauto.
        destruct X1 as (A1 & _), X2 as (A2 & _). etrans; eauto.
      * split.
        -- eapply header_weaken; [|exact H2].
           intros k [Hk|[Hk Hn]]; [now left; left|].
           destruct (decide (k = I)) as [->|Hne]; [now left; right|].
           right. split; [lia|assumption].
        -- eapply Forall_impl; [exact F2|]. cbn. intros; lia.
Qed.

Lemma wtransMembers2_spec :
  ∀ FR st st' C P' Cl F,
    WInv st -> TypeMap st !! T = Some sid ->
    header st sid N C P' Cl (length els) F ->
    transMembers2 (wtransType fuel) sid els FR st = Ok st' ->
    WInv st' ∧ WExtX (Some sid) st st' ∧ completeNew st st'
    ∧ header st' sid N C P' Cl (length els) (fun k => F k ∨ k ∈ FR).
Proof.
  induction FR as [|I FR IHl]; intros st st' C P' Cl F HI HM HH H; cbn in H.
  - injection H as <-.
    split; [assumption|]. split; [apply WExtX_refl|].
    split; [apply completeNew_refl|].
    eapply header_weaken; [|exact HH]. intros k [Hk|Hk]; [assumption|].
    now apply not_elem_of_nil in Hk.
  - destruct (els !! I) as [ElemTy|] eqn:Hel; [|discriminate].
    winv_bind H.
    destruct (member_spec _ _ _ _ _ _ _ _ F HI HM Hel HH E)
      as (I1 & X1 & C1 & H1).
    assert (HM1 : TypeMap (setMemberType sid I n s) !! T = Some sid).
    { destruct X1 as (A & _). eapply lookup_weaken; eauto. }
    destruct (IHl _ _ _ _ _ _ I1 HM1 H1 H) as (I2 & X2 & C2 & H2).
    split; [assumption|]. split; [eapply WExtX_trans; eauto|].
    split.
    + eapply completeNew_trans; eauto.
      eapply new_struct_other; eauto.
      destruct X1 as (A1 & _), X2 as (A2 & _). etrans; eauto.
    + eapply header_weaken; [|exact H2].
      intros k [Hk|Hk]; [now left; left|].
      apply elem_of_cons in Hk. destruct Hk as [->|Hk]; [now left; right|now right].
Qed.

End StructLoops.

End WriterStep.

Lemma wtransType_spec fuel :
  ∀ T st id st', WInv st -> wtransType fuel T st = Ok (id, st') ->
                 WPost st T id st'.
Proof.
  induction fuel as [|fuel IH]; intros T st id st' HI H; [discriminate|].
  rewrite wtransType_eq in H.
  destruct (TypeMap st !! T) as [BT|] eqn:EM.
  { injection H as <- <-. now apply WPost_refl. }
  destruct (LTypes !! T) as [node|] eqn:EN; [|discriminate].
  assert (Hleaf : ∀ e,
            mapType T (addEntry e st) = (id, st') ->
            isTypeEntry e && negb (isStructEntry e) = true ->
            (∀ N els P, node ≠ StructTy N (Some els) P) ->
            (∀ s, Entries s !! NextId st = Some e -> Img s T (NextId st)) ->
            WPost st T id st').
  { intros e Heq He Hn Himg.
    eapply emit_spec; eauto using WExtX_refl, completeNew_refl. }
  assert (Hchild : ∀ E BE st1 e,
            wtransType fuel E st = Ok (BE, st1) ->
            mapType T (addEntry e st1) = (id, st') ->
            isTypeEntry e && negb (isStructEntry e) = true ->
            (∀ N els P, node ≠ StructTy N (Some els) P) ->
            (∀ s, Img s E BE -> Entries s !! NextId st1 = Some e ->
                  Img s T (NextId st1)) ->
            WPost st T id st').
  { intros E BE st1 e HE Heq He Hn Himg.
    destruct (IH _ _ _ _ HI HE) as (I1 & X1 & G1 & C1).
    eapply emit_spec; eauto.
    intros s HX Hs. apply Himg; [|assumption]. eapply Img_mono; eauto. }
  destruct node as [ |w|w|ET AS|El n|El n|N [els|] P|Ret Ps].
  - apply Res_Ok_inj in H. eapply Hleaf; [exact H|reflexivity|discriminate|].
    intros; eapply Img_void; eauto.
  - destruct (w =? 1) eqn:Ew.
    + apply Res_Ok_inj in H. apply Z.eqb_eq in Ew. subst w.
      eapply Hleaf; [exact H|reflexivity|discriminate|]. intros; eapply Img_bool; eauto.
    + match type of H with context [ mbind _ ?c ] =>
        destruct c as [[]| | |]; try discriminate end.
      cbn in H. apply Res_Ok_inj in H.
      eapply Hleaf; [exact H|reflexivity|discriminate|]. intros; eapply Img_int; eauto.
  - apply Res_Ok_inj in H. eapply Hleaf; [exact H|reflexivity|discriminate|].
    intros; eapply Img_float; eauto.
  - destruct (LTypes !! ET) as [ETnode|] eqn:EET; [|discriminate].
    match type of H with context [ mbind _ ?c ] =>
      destruct c as [[]| | |]; try discriminate end.
    cbn in H.
    assert (Hptr : ('(BET, st1) ← wtransType fuel ET st;
                    Ok (mapType T (addEntry (EPointer (mapAddrSpace AS) BET) st1)))
                   = Ok (id, st') -> WPost st T id st').
    { clear H. intros H. winv_bind H. apply Res_Ok_inj in H.
      eapply Hchild; [exact E|exact H|reflexivity|discriminate|].
      intros; eapply Img_pointer; eauto. }
    destruct ETnode as [ | | | | | |STN [b|] STP| ]; try (now apply Hptr).
    destruct (specialOpaque STN) as [k|] eqn:Ek; [|now apply Hptr].
    apply Res_Ok_inj in H. eapply Hleaf; [exact H|reflexivity|discriminate|].
    intros; eapply Img_special; eauto.
  - winv_bind H. apply Res_Ok_inj in H.
    eapply Hchild; [exact E|exact H|reflexivity|discriminate|]. intros; eapply Img_vector; eauto.
  - match type of H with context [ mbind _ ?c ] =>
      destruct c as [[]| | |]; try discriminate end.
    cbn in H. winv_bind H.
    match type of H with context [ mbind _ ?c ] =>
      destruct c as [[Len s2]| | |] eqn:EL; try discriminate end.
    cbn in H. apply Res_Ok_inj in H.
    destruct (IH _ _ _ _ HI E) as (I1 & X1 & G1 & C1).
    destruct (wtransConstantInt_spec fuel IH _ _ _ _ _ I1 EL) as (I2 & X2 & C2).
    refine (emit_spec st s2 T _ _ id st' I2 _ _ EM EN _ _ _ H).
    + eapply WExtX_trans; eauto.
    + eapply completeNew_trans; eauto; intros; discriminate.
    + discriminate.
    + reflexivity.
    + intros s0 HX Hs. eapply Img_array; eauto.
      eapply Img_mono; [exact HX|]. eapply Img_mono; [|exact G1].
      eapply WExtX_ImgExt; eauto.
  - destruct (String.eqb N ConstantSamplerName) eqn:EqS.
    { destruct (IH _ _ _ _ HI H) as (I1 & X1 & G1 & C1).
      split; [assumption|]. split; [assumption|]. split; [|assumption].
      eapply Img_sampler; eauto. }
    destruct (String.eqb N ConstantPipeStorageName) eqn:EqP.
    { destruct (IH _ _ _ _ HI H) as (I1 & X1 & G1 & C1).
      split; [assumption|]. split; [assumption|]. split; [|assumption].
      eapply Img_pipe_storage; eauto. }
    assert (HT : realStruct T N els P) by (split; [assumption|split; assumption]).
    cbv zeta in H. unfold mapType, addEntry, setTypeMap in H. cbn in H.
    match type of H with context [ addContinuedInstructions _ _ _ ?s ] =>
      destruct (addContinuedInstructions_opened (TypeMap s) (ValueMap s)
                  (Entries st) (NextId s) (FPContractMap s) (NextId st) N
                  (length els))
        as [C EC] end.
    cbn in EC. rewrite EC in H. clear EC.
    destruct (opened_spec st T N els P C HI HT EM) as (I2 & X2 & H2).
    cbv zeta in I2, X2, H2.
    match type of H with context [ transMembers1 _ _ _ _ _ _ _ _ ?s ] =>
      set (st2 := s) in * end.
    assert (M2 : TypeMap st2 !! T = Some (NextId st)) by apply lookup_insert_eq.
    match type of H with context [ mbind _ ?c ] =>
      destruct c as [[FR st3]| | |] eqn:E1; try discriminate end.
    cbn in H.
    match type of H with context [ mbind _ ?c ] =>
      destruct c as [st5| | |] eqn:E2; try discriminate end.
    cbn in H. injection H as <- <-.
    destruct (wtransMembers1_spec fuel IH T (NextId st) N els P HT
                _ _ _ _ _ _ _ _ _ I2 M2 eq_refl H2 E1)
      as (I3 & X3 & C3 & H3 & F3).
    assert (M3 : TypeMap st3 !! T = Some (NextId st)).
    { destruct X3 as (A & _). eapply lookup_weaken; eauto. }
    pose proof (WInv_closeStructType _ _ _ _ _ _ I3 HT M3) as I4.
    pose proof (header_closeStructType _ _ _ _ _ _ _ _ P H3) as H4.
    pose proof (touches_WExtX _ _ _ (touches_closeStructType (NextId st) P st3))
      as X4.
    set (st4 := closeStructType (NextId st) P st3) in *.
    destruct (wtransMembers2_spec fuel IH T (NextId st) N els P HT
                _ _ _ _ _ _ _ I4 M3 H4 E2)
      as (I5 & X5 & C5 & H5).
    assert (X25 : WExtX (Some (NextId st)) st2 st5).
    { eapply WExtX_trans; [exact X3|]. eapply WExtX_trans; eauto. }
    assert (M5 : TypeMap st5 !! T = Some (NextId st)).
    { destruct X25 as (A & _). exact (lookup_weaken _ _ _ _ M2 A). }
    split; [assumption|]. split; [|split].
    + pose proof (WExtX_trans _ _ _ _ (WExt_WExtX (Some (NextId st)) _ _ X2) X25)
        as (A6 & B6 & D6 & E6 & F6 & G6 & H6).
      destruct X2 as (A2 & B2 & D2 & E2' & _), X25 as (A5 & B5 & D5 & E5 & _).
      unfold WExtX. split; [assumption|]. split; [assumption|].
      split; [assumption|]. split; [|split; [|split]; assumption].
      intros i e Hl _. apply E5.
      * apply E2'; [assumption|]. left; discriminate.
      * left. intros Heq. injection Heq as ->.
        destruct HI as (_ & _ & J3 & _).
        assert (NextId st < NextId st)%nat by (apply J3; eauto). lia.
    + eapply Img_struct; eauto.
    + intros T' N' els' P' sid' HT' Hu Hl.
      destruct (decide (T' = T)) as [->|Hd].
      * destruct HT as [HT0 HT1], HT' as [HT' _]. rewrite HT0 in HT'.
        injection HT' as <- <- <-. rewrite M5 in Hl. injection Hl as <-.
        eapply completeAt_of_header; eauto; [split; eauto|].
        eapply header_weaken; [|exact H5]. cbn. intros k Hk.
        destruct (decide (k ∈ FR)); [now right|]. left. right.
        split; [lia|assumption].
      * assert (Hu2 : TypeMap st2 !! T' = None).
        { subst st2. cbn. now rewrite lookup_insert_ne by congruence. }
        assert (HN : ∀ s, WInv s -> TypeMap st2 ⊆ TypeMap s ->
                     ∀ sid0, TypeMap s !! T' = Some sid0 ->
                             Some sid0 ≠ Some (NextId st)).
        { intros s Is Hs sid0 Hl0.
          eapply (new_struct_other T (NextId st) N els P HT st2 s); eauto. }
        destruct (TypeMap st3 !! T') as [sid3|] eqn:Hl3.
        -- assert (sid3 = sid') as ->.
           { destruct X4 as (A4 & _), X5 as (A5 & _).
             pose proof (lookup_weaken _ _ _ _ Hl3 A4) as Hl4.
             pose proof (lookup_weaken _ _ _ _ Hl4 A5). congruence. }
           assert (Some sid' ≠ Some (NextId st)).
           { eapply (HN st3); eauto. now destruct X3. }
           eapply completeAt_mono; [exact X5|assumption|].
           eapply completeAt_mono; [exact X4|assumption|].
           eapply C3; eauto.
        -- eapply C5; eauto.
  - apply Res_Ok_inj in H. eapply Hleaf; [exact H|reflexivity|discriminate|].
    intros; eapply Img_opaque; eauto.
  - winv_bind H.
    match type of H with context [ mbind _ ?c ] =>
      destruct c as [[PT s2]| | |] eqn:EL; try discriminate end.
    cbn in H. apply Res_Ok_inj in H.
    destruct (IH _ _ _ _ HI E) as (I1 & X1 & G1 & C1).
    destruct (wtransTypes_spec_of fuel IH _ _ _ _ I1 EL) as (I2 & X2 & C2).
    refine (emit_spec st s2 T _ _ id st' I2 _ _ EM EN _ _ _ H).
    + eapply WExtX_trans; eauto.
    + eapply completeNew_trans; eauto; intros; discriminate.
    + discriminate.
    + reflexivity.
    + intros s0 HX Hs. eapply Img_function; eauto.
Qed.


(** *** Termination *)

Definition isStructTy (node : LLVMType) : bool :=
  match node with StructTy _ _ _ => true | _ => false end.

Definition isFunctionTy (node : LLVMType) : bool :=
  match node with FunctionTy _ _ => true | _ => false end.

(** The struct types of the module, and how many of them have no table
    entry yet. *)
Definition wstructIds : gset nat :=
  dom (filter (fun p => isStructTy (snd p) = true) LTypes).

Definition wopenCount (st : State) : nat :=
  size (wstructIds ∖ dom (TypeMap st)).

Lemma elem_of_wstructIds T :
  T ∈ wstructIds ↔ ∃ n, LTypes !! T = Some n ∧ isStructTy n = true.
Proof.
  unfold wstructIds. rewrite elem_of_dom. split.
  - intros [n Hn]. apply map_lookup_filter_Some in Hn as [H1 H2]. eauto.
  - intros (n & H1 & H2). exists n. apply map_lookup_filter_Some. auto.
Qed.

Lemma wopenCount_mono st st' :
  TypeMap st ⊆ TypeMap st' -> (wopenCount st' <= wopenCount st)%nat.
Proof.
  intros H. unfold wopenCount. apply (subseteq_size (C := gset nat)).
  apply subseteq_dom in H. set_solver.
Qed.

Lemma wopenCount_lt st st' T :
  TypeMap st ⊆ TypeMap st' -> T ∈ wstructIds ->
  TypeMap st !! T = None -> is_Some (TypeMap st' !! T) ->
  (wopenCount st' < wopenCount st)%nat.
Proof.
  intros H HT Hn Hs. unfold wopenCount. apply (subset_size (C := gset nat)).
  apply subseteq_dom in H.
  apply not_elem_of_dom in Hn. apply elem_of_dom in Hs. set_solver.
Qed.

(** The type of array lengths is an integer type the target has. *)
Definition sizetOk : Prop :=
  ∃ w, LTypes !! SizetType = Some (IntegerTy w) ∧ (w = 32 ∨ w = 64).

(** The types the translation handles without an error: the operands of
    a type exist, integer widths and function pointers are those the
    options allow, arrays are not empty; and every operand of a type that
    is no struct has a smaller rank than the type, i.e. every cycle
    of the graph of types passes through the members of a struct. *)
Definition wfLLVMType (rank : nat -> nat) (T : nat) (node : LLVMType) : Prop :=
  match node with
  | VoidTy | FloatingPointTy _ => True
  | IntegerTy w =>
      w = 1
      ∨ isAllowedToUseExtension SPV_INTEL_arbitrary_precision_integers = true
      ∨ w = 8 ∨ w = 16 ∨ w = 32 ∨ w = 64
  | PointerTy ET _ =>
      ∃ ETnode, LTypes !! ET = Some ETnode ∧ (rank ET < rank T)%nat
                ∧ (isFunctionTy ETnode = true ->
                   isAllowedToUseExtension SPV_INTEL_function_pointers = true)
  | VectorTy El _ => is_Some (LTypes !! El) ∧ (rank El < rank T)%nat
  | ArrayTy El n =>
      1 <= n ∧ is_Some (LTypes !! El) ∧ (rank El < rank T)%nat ∧ sizetOk
  | StructTy N None _ => True
  | StructTy N (Some els) _ =>
      Forall (fun c => is_Some (LTypes !! c)) els
      ∧ (String.eqb N ConstantSamplerName = true ->
         is_Some (LTypes !! SamplerType) ∧ (rank SamplerType < rank T)%nat)
      ∧ (String.eqb N ConstantPipeStorageName = true ->
         is_Some (LTypes !! PipeStorageType)
         ∧ (rank PipeStorageType < rank T)%nat)
  | FunctionTy Ret Ps =>
      Forall (fun c => is_Some (LTypes !! c) ∧ (rank c < rank T)%nat) (Ret :: Ps)
  end.

Definition wfLLVMTypes (rank : nat -> nat) (R : nat) : Prop :=
  ∀ T node, LTypes !! T = Some node ->
            (rank T <= R)%nat ∧ wfLLVMType rank T node.

Section WriterTermination.

Variable rank : nat -> nat.
Variable R : nat.
Hypothesis Hwf : wfLLVMTypes rank R.

Definition seenBound (Seen : gset nat) (r : nat) : nat :=
  (size (wstructIds ∖ Seen) * (R + 1) + r)%nat.

Lemma seenBound_mono Seen Seen' r :
  Seen ⊆ Seen' -> (seenBound Seen' r <= seenBound Seen r)%nat.
Proof.
  intros H. unfold seenBound.
  assert (size (wstructIds ∖ Seen') <= size (wstructIds ∖ Seen))%nat; [|nia].
  apply (subseteq_size (C := gset nat)). set_solver.
Qed.

Lemma seenBound_enter Seen Ty r r' :
  Ty ∈ wstructIds -> Ty ∉ Seen -> (r' <= R)%nat ->
  (seenBound ({[Ty]} ∪ Seen) r' + 1 <= seenBound Seen r)%nat.
Proof.
  intros H1 H2 Hr. unfold seenBound.
  assert (size (wstructIds ∖ ({[Ty]} ∪ Seen)) < size (wstructIds ∖ Seen))%nat;
    [|nia].
  apply (subset_size (C := gset nat)). set_solver.
Qed.

(** A run over a list of types, as [find_if] and [any_of] make it. *)
Lemma Run_list_total fuel ST :
  (∀ Seen Ty, is_Some (LTypes !! Ty) -> (seenBound Seen (rank Ty) < fuel)%nat ->
              ∃ b Seen', Run LTypes fuel ST Seen Ty = Ok (b, Seen') ∧ Seen ⊆ Seen') ->
  ∀ l Seen0 Seen r,
    Forall (fun c => is_Some (LTypes !! c) ∧ (rank c <= r)%nat) l ->
    Seen0 ⊆ Seen -> (seenBound Seen0 r < fuel)%nat ->
    ∃ b Seen',
      (fix find_if (l : list nat) (seen : gset nat) : Res (bool * gset nat) :=
         match l with
         | [] => Ok (false, seen)
         | E :: l' =>
             '(b, seen1) ← Run LTypes fuel ST seen E;
             if b : bool then Ok (true, seen1) else find_if l' seen1
         end) l Seen = Ok (b, Seen') ∧ Seen ⊆ Seen'.
Proof.
  intros IH. induction l as [|E l IHl]; intros Seen0 Seen r HF HS Hb.
  - eauto.
  - apply Forall_cons in HF as [[HE Hr] HF].
    destruct (IH Seen E HE) as (b & Seen1 & E1 & S1).
    { pose proof (seenBound_mono _ _ r HS). unfold seenBound in *. lia. }
    rewrite E1. cbn. destruct b; [eauto|].
    destruct (IHl Seen0 Seen1 r HF) as (b' & Seen2 & E2 & S2);
      [set_solver|assumption|].
    exists b', Seen2. split; [exact E2|set_solver].
Qed.

Lemma Run_total fuel ST :
  ∀ Seen Ty, is_Some (LTypes !! Ty) -> (seenBound Seen (rank Ty) < fuel)%nat ->
             ∃ b Seen', Run LTypes fuel ST Seen Ty = Ok (b, Seen') ∧ Seen ⊆ Seen'.
Proof.
  induction fuel as [|fuel IH]; intros Seen Ty [node EN] Hb; [lia|].
  cbn [Run]. rewrite EN. destruct (Hwf _ _ EN) as [HR Hn].
  destruct node as [ |w|w|ET AS|El n|El n|N Body P|Ret Ps]; try (now eauto).
  - cbn in Hn. destruct Hn as (ETnode & EET & Hr & Hf). rewrite EET.
    assert (Hplain : ∃ b Seen',
              Run LTypes fuel ST Seen ET = Ok (b, Seen') ∧ Seen ⊆ Seen').
    { apply IH; [eauto|]. unfold seenBound in *. lia. }
    destruct ETnode as [ | | | | | | |FRet FPs]; try exact Hplain.
    destruct (Hwf _ _ EET) as [_ HFn]. cbn in HFn.
    apply Forall_cons in HFn as [[HRet HrR] HPs].
    destruct (IH Seen FRet HRet) as (b & Seen1 & E1 & S1).
    { unfold seenBound in *. lia. }
    rewrite E1. cbn. destruct b; [eauto|].
    destruct (Run_list_total fuel ST IH FPs Seen Seen1 (rank ET))
      as (b' & Seen2 & E2 & S2); [|assumption| |].
    + eapply Forall_impl; [exact HPs|]. cbn. intros c [? ?]. split; [assumption|lia].
    + unfold seenBound in *. lia.
    + exists b', Seen2. split; [exact E2|set_solver].
  - cbn in Hn. destruct Hn as (_ & HEl & Hr & _).
    apply IH; [assumption|]. unfold seenBound in *. lia.
  - destruct (Nat.eqb Ty ST); [eauto|].
    destruct (bool_decide (Ty ∈ Seen)) eqn:ES; [eauto|].
    apply bool_decide_eq_false in ES.
    assert (HTy : Ty ∈ wstructIds) by (apply elem_of_wstructIds; eauto).
    assert (HF : Forall (fun c => is_Some (LTypes !! c) ∧ (rank c <= R)%nat)
                        (default [] Body)).
    { destruct Body as [els|]; [|constructor]. cbn in *. destruct Hn as [Hn _].
      eapply Forall_impl; [exact Hn|]. cbn. intros c [nc Hc].
      split; [eauto|]. now destruct (Hwf _ _ Hc). }
    destruct (Run_list_total fuel ST IH (default [] Body)
                ({[Ty]} ∪ Seen) ({[Ty]} ∪ Seen) R HF)
      as (b' & Seen2 & E2 & S2); [reflexivity| |].
    + pose proof (seenBound_enter Seen Ty (rank Ty) R HTy ES). lia.
    + exists b', Seen2. split; [exact E2|set_solver].
Qed.

Lemma recursiveType_total fuel ST Ty :
  is_Some (LTypes !! Ty) -> (size wstructIds * (R + 1) + R < fuel)%nat ->
  ∃ b, wrecursiveType fuel ST Ty = Ok b.
Proof.
  intros HTy Hb. destruct (Run_total fuel ST ∅ Ty HTy) as (b & Seen' & E & _).
  { destruct HTy as [n Hn]. destruct (Hwf _ _ Hn) as [Hr _].
    unfold seenBound.
    assert (size (wstructIds ∖ ∅) <= size wstructIds)%nat; [|nia].
    apply (subseteq_size (C := gset nat)). set_solver. }
  exists b. unfold Writer.recursiveType. rewrite E. reflexivity.
Qed.

Definition wbound (st : State) (r : nat) : nat :=
  ((wopenCount st + size wstructIds) * (R + 1) + r)%nat.

Lemma wbound_mono st st' r :
  TypeMap st ⊆ TypeMap st' -> (wbound st' r <= wbound st r)%nat.
Proof. intros H. pose proof (wopenCount_mono _ _ H). unfold wbound. nia. Qed.

Lemma emitted {A B} (p : A * B) : ∃ a b, Ok p = Ok (a, b).
Proof. destruct p. eauto. Qed.

(** An integer type the target has is translated at once. *)
Lemma wtransType_sizet_total fuel st :
  sizetOk -> ∃ id st', wtransType (S fuel) SizetType st = Ok (id, st').
Proof.
  intros (w & Hw & Hv). rewrite wtransType_eq.
  destruct (TypeMap st !! SizetType); [eauto|]. rewrite Hw.
  destruct (isAllowedToUseExtension SPV_INTEL_arbitrary_precision_integers);
    destruct Hv as [-> | ->]; cbn; apply emitted.
Qed.

Section WriterTotalStep.

Variable fuel : nat.
Hypothesis IHt : ∀ T st,
  WInv st -> is_Some (LTypes !! T) -> (wbound st (rank T) < fuel)%nat ->
  ∃ id st', wtransType fuel T st = Ok (id, st').

Lemma wtransTypes_total_of :
  ∀ l st n, WInv st ->
    Forall (fun m => is_Some (LTypes !! m) ∧ (rank m <= n)%nat) l ->
    (wbound st n < fuel)%nat ->
    ∃ ids st', wtransTypes fuel l st = Ok (ids, st').
Proof.
  induction l as [|m l IHl]; intros st n HI HF Hb.
  - cbn. eauto.
  - apply Forall_cons in HF as [[Hm Hr] HF].
    destruct (IHt m st HI Hm) as (t & s1 & E1); [unfold wbound in *; lia|].
    destruct (wtransType_spec _ _ _ _ _ HI E1) as (I1 & X1 & _).
    destruct (IHl s1 n I1 HF) as (ts & s2 & E2).
    { pose proof (wbound_mono st s1 n (proj1 X1)). lia. }
    cbn. rewrite E1. cbn. rewrite E2. cbn. eauto.
Qed.

Lemma wtransConstantInt_total v st :
  sizetOk -> (1 <= fuel)%nat ->
  ∃ id st', wtransConstantInt (wtransType fuel) SizetType v st = Ok (id, st').
Proof.
  intros HS Hf. unfold Writer.transConstantInt.
  destruct (ValueMap st !! ConstantIntId SizetType v); [eauto|].
  destruct fuel as [|f]; [lia|].
  destruct (wtransType_sizet_total f st HS) as (id & s1 & E).
  destruct HS as (w & Hw & Hv). rewrite Hw.
  assert ((64 <? w) = false) as -> by (destruct Hv as [-> | ->]; reflexivity).
  cbn -[Writer.transType]. rewrite E. cbn. eauto.
Qed.

Section StructLoopsTotal.

Variables (T sid : nat) (N : string) (els : list nat) (P : bool).
Hypothesis HT : realStruct T N els P.
Hypothesis Hels : Forall (fun c => is_Some (LTypes !! c)) els.
Hypothesis Hfuel : (size wstructIds * (R + 1) + R < fuel)%nat.

Lemma member_total st I el :
  WInv st -> TypeMap st !! T = Some sid -> els !! I = Some el ->
  (wbound st R < fuel)%nat ->
  ∃ BT st1, wtransType fuel el st = Ok (BT, st1)
            ∧ WInv (setMemberType sid I BT st1)
            ∧ TypeMap st ⊆ TypeMap (setMemberType sid I BT st1).
Proof.
  intros HI HM Hel Hb.
  assert (HE : is_Some (LTypes !! el)).
  { rewrite Forall_forall in Hels. apply Hels. eapply list_elem_of_lookup_2; eauto. }
  destruct (IHt el st HI HE) as (BT & s1 & E1).
  { destruct HE as [n Hn]. destruct (Hwf _ _ Hn) as [Hr _].
    unfold wbound in *. lia. }
  destruct (wtransType_spec _ _ _ _ _ HI E1) as (I1 & X1 & G1 & _).
  exists BT, s1. split; [assumption|]. split; [|now destruct X1].
  eapply WInv_setMemberType; eauto.
  destruct X1 as (A & _). eapply lookup_weaken; eauto.
Qed.

Lemma wtransMembers1_total :
  ∀ l I st,
    WInv st -> TypeMap st !! T = Some sid -> drop I els = l ->
    (wbound st R < fuel)%nat ->
    ∃ FR st', wtransMembers1 (wtransType fuel) fuel T sid els I l st
              = Ok (FR, st').
Proof.
  induction l as [|ElemTy l IHl]; intros I st HI HM Hd Hb; cbn.
  - eauto.
  - assert (Hel : els !! I = Some ElemTy).
    { rewrite <- (Nat.add_0_r I), <- lookup_drop, Hd. reflexivity. }
    assert (Hd' : drop (S I) els = l).
    { rewrite <- (Nat.add_1_l I), Nat.add_comm, <- drop_drop, Hd. reflexivity. }
    assert (HE : is_Some (LTypes !! ElemTy)).
    { rewrite Forall_forall in Hels. apply Hels.
      eapply list_elem_of_lookup_2; eauto. }
    assert (HD : ∃ b, (match LTypes !! ElemTy with
                       | None => Fault NullDeref
                       | Some node =>
                           if isComposite node || isPointerTy node
                           then wrecursiveType fuel T ElemTy
                           else Ok false
                       end) = Ok b).
    { destruct HE as [node Hn]. rewrite Hn.
      destruct (isComposite node || isPointerTy node); [|eauto].
      apply recursiveType_total; eauto. }
    destruct HD as [b ->]. cbn. destruct b.
    + destruct (IHl (S I) st HI HM Hd' Hb) as (FR & s' & E). rewrite E. cbn. eauto.
    + destruct (member_total st I ElemTy HI HM Hel Hb) as (BT & s1 & E1 & I1 & S1).
      rewrite E1. cbn. apply IHl; auto.
      * eapply lookup_weaken; eauto.
      * pose proof (wbound_mono _ _ R S1). lia.
Qed.

Lemma wtransMembers2_total :
  ∀ FR st,
    WInv st -> TypeMap st !! T = Some sid ->
    Forall (fun k => (k < length els)%nat) FR ->
    (wbound st R < fuel)%nat ->
    ∃ st', transMembers2 (wtransType fuel) sid els FR st = Ok st'.
Proof.
  induction FR as [|I FR IHl]; intros st HI HM HF Hb; cbn.
  - eauto.
  - apply Forall_cons in HF as [HI' HF].
    destruct (lookup_lt_is_Some_2 els I HI') as [ElemTy Hel]. rewrite Hel.
    destruct (member_total st I ElemTy HI HM Hel Hb) as (BT & s1 & E1 & I1 & S1).
    rewrite E1. cbn. apply IHl; auto.
    + eapply lookup_weaken; eauto.
    + pose proof (wbound_mono _ _ R S1). lia.
Qed.

End StructLoopsTotal.

End WriterTotalStep.

Lemma wtransType_total fuel :
  ∀ T st, WInv st -> is_Some (LTypes !! T) ->
          (wbound st (rank T) < fuel)%nat ->
          ∃ id st', wtransType fuel T st = Ok (id, st').
Proof.
  induction fuel as [|fuel IH]; intros T st HI [node EN] Hb; [lia|].
  rewrite wtransType_eq.
  destruct (TypeMap st !! T) as [BT|] eqn:EM; [eauto|].
  rewrite EN. destruct (Hwf _ _ EN) as [HR Hn].
  assert (Hchild : ∀ E, is_Some (LTypes !! E) -> (rank E < rank T)%nat ->
            ∃ BE st1, wtransType fuel E st = Ok (BE, st1)).
  { intros E HE Hr. apply IH; auto. unfold wbound in *. lia. }
  destruct node as [ |w|w|ET AS|El n|El n|N [els|] P|Ret Ps];
    try apply emitted.
  - cbn in Hn. destruct (w =? 1) eqn:Ew; [apply emitted|].
    destruct (isAllowedToUseExtension SPV_INTEL_arbitrary_precision_integers);
      [cbn; apply emitted|].
    destruct Hn as [->|[Hn|[->|[->|[->| ->]]]]];
      [discriminate Ew|discriminate Hn|..]; cbn; apply emitted.
  - cbn in Hn. destruct Hn as (ETnode & EET & Hr & Hf). rewrite EET.
    destruct (Hchild ET) as (BE & s1 & E1); [eauto|assumption|].
    destruct ETnode as [ | | | | | |STN [b|] STP|FRet FPs];
      cbn -[Writer.transType]; try (rewrite E1; cbn; apply emitted).
    + destruct (specialOpaque STN); [apply emitted|].
      rewrite E1; cbn; apply emitted.
    + rewrite Hf by reflexivity. cbn -[Writer.transType].
      rewrite E1; cbn; apply emitted.
  - cbn in Hn. destruct Hn as [HE Hr].
    destruct (Hchild El HE Hr) as (BE & s1 & E1). rewrite E1. cbn. apply emitted.
  - cbn in Hn. destruct Hn as (Hnum & HE & Hr & HS).
    apply Z.leb_le in Hnum. rewrite Hnum. cbn -[Writer.transType].
    destruct (Hchild El HE Hr) as (BE & s1 & E1). rewrite E1.
    cbn -[Writer.transType].
    destruct (wtransConstantInt_total fuel IH n s1 HS) as (Len & s2 & E2).
    { unfold wbound in *. lia. }
    rewrite E2. cbn. apply emitted.
  - cbn in Hn. destruct Hn as (Hels & HSa & HPi).
    destruct (String.eqb N ConstantSamplerName) eqn:EqS.
    { destruct (HSa eq_refl). now apply Hchild. }
    destruct (String.eqb N ConstantPipeStorageName) eqn:EqP.
    { destruct (HPi eq_refl). now apply Hchild. }
    assert (HT : realStruct T N els P) by (split; [assumption|split; assumption]).
    cbv zeta. unfold mapType, addEntry, setTypeMap. cbn -[Writer.transType].
    match goal with |- context [ addContinuedInstructions _ _ _ ?s ] =>
      destruct (addContinuedInstructions_opened (TypeMap s) (ValueMap s)
                  (Entries st) (NextId s) (FPContractMap s) (NextId st) N
                  (length els))
        as [C EC] end.
    cbn in EC. rewrite EC. clear EC.
    destruct (opened_spec st T N els P C HI HT EM) as (I2 & X2 & H2).
    cbv zeta in I2, X2, H2.
    match goal with |- context [ transMembers1 _ _ _ _ _ _ _ _ ?s ] =>
      set (st2 := s) in * end.
    assert (M2 : TypeMap st2 !! T = Some (NextId st)) by apply lookup_insert_eq.
    assert (HTs : T ∈ wstructIds) by (apply elem_of_wstructIds; eauto).
    assert (Hoc : (wopenCount st2 < wopenCount st)%nat).
    { eapply wopenCount_lt; eauto. now destruct X2. }
    assert (Hf1 : (size wstructIds * (R + 1) + R < fuel)%nat).
    { unfold wbound in *. nia. }
    assert (Hb2 : (wbound st2 R < fuel)%nat).
    { unfold wbound in *. nia. }
    destruct (wtransMembers1_total fuel IH T (NextId st) N els P HT Hels Hf1
                els 0%nat st2 I2 M2 eq_refl Hb2) as (FR & st3 & E1).
    rewrite E1. cbn -[Writer.transType].
    destruct (wtransMembers1_spec fuel (wtransType_spec fuel)
                T (NextId st) N els P HT
                _ _ _ _ _ _ _ _ _ I2 M2 eq_refl H2 E1)
      as (I3 & X3 & C3 & H3 & F3).
    assert (M3 : TypeMap st3 !! T = Some (NextId st)).
    { destruct X3 as (A & _). exact (lookup_weaken _ _ _ _ M2 A). }
    pose proof (WInv_closeStructType _ _ _ _ _ _ I3 HT M3) as I4.
    destruct (wtransMembers2_total fuel IH T (NextId st) N els P HT Hels Hf1
                FR (closeStructType (NextId st) P st3) I4 M3) as (st5 & E2).
    + eapply Forall_impl; [exact F3|]. cbn. intros; lia.
    + pose proof (wbound_mono st2 st3 R (proj1 X3)).
      change (wbound (closeStructType (NextId st) P st3) R) with (wbound st3 R).
      lia.
    + rewrite E2. cbn. eauto.
  - cbn in Hn. apply Forall_cons in Hn as [[HRet HrR] HPs].
    destruct (Hchild Ret HRet HrR) as (RT & s1 & E1). rewrite E1.
    cbn -[Writer.transType Writer.transTypes].
    destruct (wtransType_spec _ _ _ _ _ HI E1) as (I1 & X1 & _).
    destruct (wtransTypes_total_of fuel IH Ps s1 (rank T - 1)%nat I1)
      as (PT & s2 & E2).
    + eapply Forall_impl; [exact HPs|]. cbn. intros c [? ?]. split; [assumption|lia].
    + pose proof (wbound_mono st s1 (rank T - 1) (proj1 X1)).
      unfold wbound in *. lia.
    + rewrite E2. cbn. apply emitted.
Qed.

End WriterTermination.

(** *** Structs that refer to themselves *)

(** Every struct with a table entry is finished. *)
Definition structsComplete (st : State) : Prop :=
  ∀ T N els P sid,
    realStruct T N els P -> TypeMap st !! T = Some sid ->
    completeAt st sid N els P.

Lemma structsComplete_post st T id st' :
  structsComplete st -> WPost st T id st' -> structsComplete st'.
Proof.
  intros HC (HI & HE & _ & HN) T' N els P sid HT HM.
  destruct (TypeMap st !! T') as [sid0|] eqn:E0; [|eauto].
  assert (sid0 = sid) as ->.
  { destruct HE as (A & _). pose proof (lookup_weaken _ _ _ _ E0 A). congruence. }
  eapply completeAt_mono; [exact HE|discriminate|eauto].
Qed.

Lemma Img_struct_inv st T N els P id :
  realStruct T N els P -> Img st T id -> TypeMap st !! T = Some id.
Proof.
  intros (HT & HS & HP) H.
  destruct H as [T id H1 H2|T id H1 H2|T id w H1 H2|T id w H1 H2
                |T id ET' AS' e H1 H2 H3|T id ET' AS' N' P' k H1 H2 H3 H4
                |T id El n e H1 H2 H3|T id El n e len H1 H2 H3
                |T id N' P' H1 H2|T id N' els' P' H1 H2
                |T id N' els' P' H1 H2 H3|T id N' els' P' H1 H2 H3 H4
                |T id Rt Ps r ps H1 H2];
    try destruct H1 as (H1 & _); rewrite HT in H1; try discriminate H1;
    try assumption; injection H1 as <- <- <-; congruence.
Qed.

Lemma Img_pointer_inv st Pt ET AS N els P m :
  LTypes !! Pt = Some (PointerTy ET AS) -> realStruct ET N els P ->
  Img st Pt m ->
  ∃ e, Entries st !! m = Some (EPointer (mapAddrSpace AS) e)
       ∧ TypeMap st !! ET = Some e.
Proof.
  intros HP HT H. pose proof HT as (HT0 & _).
  destruct H as [T id H1 H2|T id H1 H2|T id w H1 H2|T id w H1 H2
                |T id ET' AS' e H1 H2 H3|T id ET' AS' N' P' k H1 H2 H3 H4
                |T id El n e H1 H2 H3|T id El n e len H1 H2 H3
                |T id N' P' H1 H2|T id N' els' P' H1 H2
                |T id N' els' P' H1 H2 H3|T id N' els' P' H1 H2 H3 H4
                |T id Rt Ps r ps H1 H2];
    try destruct H1 as (H1 & _); rewrite HP in H1; try discriminate H1.
  - injection H1 as <- <-. exists e. split; [assumption|].
    eapply Img_struct_inv; eauto.
  - injection H1 as <- <-. rewrite HT0 in H2. discriminate H2.
Qed.

Lemma Img_array_inv st A El n m :
  LTypes !! A = Some (ArrayTy El n) -> Img st A m ->
  ∃ e len, Entries st !! m = Some (EArray e len) ∧ Img st El e.
Proof.
  intros HA H.
  destruct H as [T id H1 H2|T id H1 H2|T id w H1 H2|T id w H1 H2
                |T id ET' AS' e H1 H2 H3|T id ET' AS' N' P' k H1 H2 H3 H4
                |T id El' n' e H1 H2 H3|T id El' n' e len H1 H2 H3
                |T id N' P' H1 H2|T id N' els' P' H1 H2
                |T id N' els' P' H1 H2 H3|T id N' els' P' H1 H2 H3 H4
                |T id Rt Ps r ps H1 H2];
    try destruct H1 as (H1 & _); rewrite HA in H1; try discriminate H1.
  injection H1 as <- <-. eauto.
Qed.

(** The struct case registers the struct, with every slot still empty,
    before any member type is translated. *)
Lemma wtransType_struct_registers_first fuel T st N els P :
  realStruct T N els P -> TypeMap st !! T = None ->
  ∃ st2 C,
    TypeMap st2 !! T = Some (NextId st)
    ∧ Entries st2 !! NextId st
      = Some (EStruct N (replicate (length els) None) C false false)
    ∧ wtransType (S fuel) T st
      = ('(ForwardRefs, st3) ←
           wtransMembers1 (wtransType fuel) fuel T (NextId st) els 0%nat els st2;
         st5 ← transMembers2 (wtransType fuel) (NextId st) els ForwardRefs
                 (closeStructType (NextId st) P st3);
         Ok (NextId st, st5)).
Proof.
  intros (HT & HS & HP) HM. rewrite wtransType_eq, HM, HT, HS, HP.
  cbv zeta. unfold mapType, addEntry, setTypeMap. cbn -[Writer.transType].
  match goal with |- context [ addContinuedInstructions _ _ _ ?s ] =>
    destruct (addContinuedInstructions_opened (TypeMap s) (ValueMap s)
                (Entries st) (NextId s) (FPContractMap s) (NextId st) N
                (length els))
      as [C EC] end.
  cbn in EC. rewrite EC. clear EC.
  eexists _, C. split; [|split; [|reflexivity]]; cbn; apply lookup_insert_eq.
Qed.

Section WriterSelfReference.

Variable rank : nat -> nat.
Variable R : nat.
Hypothesis Hwf : wfLLVMTypes rank R.

Lemma writer_struct_translation (fuel : nat) (st : State) T N els P :
  WInv st -> structsComplete st -> realStruct T N els P ->
  (wbound R st R < fuel)%nat ->
  ∃ sid st' ms C,
    wtransType fuel T st = Ok (sid, st')
    ∧ WInv st' ∧ structsComplete st'
    ∧ TypeMap st' !! T = Some sid
    ∧ Entries st' !! sid = Some (EStruct N (map Some ms) C P true)
    ∧ Forall2 (Img st') els ms
    (* a member that points to the struct *)
    ∧ (∀ k Pt AS,
         els !! k = Some Pt -> LTypes !! Pt = Some (PointerTy T AS) ->
         ∃ m, ms !! k = Some m
              ∧ Entries st' !! m = Some (EPointer (mapAddrSpace AS) sid))
    (* a member that is an array of pointers to the struct *)
    ∧ (∀ k A Pt n AS,
         els !! k = Some A -> LTypes !! A = Some (ArrayTy Pt n) ->
         LTypes !! Pt = Some (PointerTy T AS) ->
         ∃ m pm len,
           ms !! k = Some m ∧ Entries st' !! m = Some (EArray pm len)
           ∧ Entries st' !! pm = Some (EPointer (mapAddrSpace AS) sid))
    (* a member struct with a member that points to the struct *)
    ∧ (∀ k T' N' els' P' j Pt AS,
         els !! k = Some T' -> realStruct T' N' els' P' ->
         els' !! j = Some Pt -> LTypes !! Pt = Some (PointerTy T AS) ->
         ∃ m ms' C' pm,
           ms !! k = Some m
           ∧ Entries st' !! m = Some (EStruct N' (map Some ms') C' P' true)
           ∧ ms' !! j = Some pm
           ∧ Entries st' !! pm = Some (EPointer (mapAddrSpace AS) sid)).
Proof.
  intros HI HC HT Hb. pose proof HT as (HT0 & _).
  destruct (wtransType_total rank R Hwf fuel T st HI) as (sid & st' & E);
    [eauto| |].
  { pose proof (proj1 (Hwf _ _ HT0)). unfold wbound in *. lia. }
  pose proof (wtransType_spec _ _ _ _ _ HI E) as HP.
  pose proof (structsComplete_post _ _ _ _ HC HP) as HC'.
  destruct HP as (HI' & HE' & HG & _).
  pose proof (Img_struct_inv _ _ _ _ _ _ HT HG) as HM.
  destruct (HC' _ _ _ _ _ HT HM) as (ms & C & He & HF).
  assert (Hptr : ∀ Pt AS m, LTypes !! Pt = Some (PointerTy T AS) ->
            Img st' Pt m ->
            Entries st' !! m = Some (EPointer (mapAddrSpace AS) sid)).
  { intros Pt AS m HPt Hm.
    destruct (Img_pointer_inv _ _ _ _ _ _ _ _ HPt HT Hm) as (e & H1 & H2).
    congruence. }
  exists sid, st', ms, C.
  split; [assumption|]. split; [assumption|]. split; [assumption|].
  split; [assumption|]. split; [assumption|]. split; [assumption|].
  split; [|split].
  - intros k Pt AS Hk HPt.
    destruct (Forall2_lookup_l _ _ _ _ _ HF Hk) as (m & Hm & Him). eauto.
  - intros k A Pt n AS Hk HA HPt.
    destruct (Forall2_lookup_l _ _ _ _ _ HF Hk) as (m & Hm & Him).
    destruct (Img_array_inv _ _ _ _ _ HA Him) as (pm & len & H1 & H2).
    exists m, pm, len. eauto.
  - intros k T' N' els' P' j Pt AS Hk HT' Hj HPt.
    destruct (Forall2_lookup_l _ _ _ _ _ HF Hk) as (m & Hm & Him).
    pose proof (Img_struct_inv _ _ _ _ _ _ HT' Him) as HM'.
    destruct (HC' _ _ _ _ _ HT' HM') as (ms' & C' & He' & HF').
    destruct (Forall2_lookup_l _ _ _ _ _ HF' Hj) as (pm & Hpm & Hipm).
    exists m, ms', C', pm. eauto.
Qed.

End WriterSelfReference.

(** *** Memoization, and what the translation of a type leaves alone *)

Lemma Res_bind_Ok {A B} (m : Res A) (k : A -> Res B) r :
  m ≫= k = Ok r -> ∃ a, m = Ok a ∧ k a = Ok r.
Proof. destruct m; cbn; try discriminate. eauto. Qed.

Lemma mapType_lookup T e s id st' :
  Ok (mapType T (addEntry e s)) = Ok (id, st') -> TypeMap st' !! T = Some id.
Proof.
  intros H. apply Res_Ok_inj in H. unfold mapType in H.
  injection H as <- <-. cbn. apply lookup_insert_eq.
Qed.

(** The translation of a type ends with its entry in the table, unless
    the type is a struct with the name of the sampler or pipe storage
    constants, which is translated as another type. *)
Lemma wtransType_result_mapped fuel T st id st' :
  WInv st -> wtransType fuel T st = Ok (id, st') ->
  TypeMap st' !! T = Some id
  ∨ ∃ N els P, LTypes !! T = Some (StructTy N (Some els) P)
               ∧ (String.eqb N ConstantSamplerName = true
                  ∨ String.eqb N ConstantPipeStorageName = true).
Proof.
  intros HI H. pose proof (wtransType_spec fuel T st id st' HI H) as HP.
  destruct fuel as [|fuel]; [discriminate|].
  rewrite wtransType_eq in H.
  destruct (TypeMap st !! T) as [BT|] eqn:EM.
  { injection H as <- <-. now left. }
  destruct (LTypes !! T) as [node|] eqn:EN; [|discriminate].
  destruct node as [|w|w|ET AS|El n|El n|N [els|] P|R Ps].
  - left. eapply mapType_lookup; eauto.
  - left. destruct (w =? 1); [eapply mapType_lookup; eauto|].
    apply Res_bind_Ok in H as (? & _ & H). eapply mapType_lookup; eauto.
  - left. eapply mapType_lookup; eauto.
  - left. destruct (LTypes !! ET) as [ETnode|]; [|discriminate].
    apply Res_bind_Ok in H as (? & _ & H).
    destruct ETnode as [| | | | | |N' [els'|] P'|];
      try (apply Res_bind_Ok in H as ([? ?] & _ & H);
           eapply mapType_lookup; eauto).
    destruct (specialOpaque N'); [eapply mapType_lookup; eauto|].
    apply Res_bind_Ok in H as ([? ?] & _ & H). eapply mapType_lookup; eauto.
  - left. apply Res_bind_Ok in H as ([? ?] & _ & H).
    eapply mapType_lookup; eauto.
  - left. apply Res_bind_Ok in H as (? & _ & H).
    apply Res_bind_Ok in H as ([? ?] & _ & H).
    apply Res_bind_Ok in H as ([? ?] & _ & H).
    eapply mapType_lookup; eauto.
  - destruct (String.eqb N ConstantSamplerName) eqn:E1; [right; eauto 10|].
    destruct (String.eqb N ConstantPipeStorageName) eqn:E2; [right; eauto 10|].
    left. destruct HP as (_ & _ & HImg & _).
    apply (Img_struct_inv st' T N els P id); [|exact HImg].
    split; [exact EN|]. split; assumption.
  - left. eapply mapType_lookup; eauto.
  - left. apply Res_bind_Ok in H as ([? ?] & _ & H).
    apply Res_bind_Ok in H as ([? ?] & _ & H).
    eapply mapType_lookup; eauto.
Qed.

Lemma wtransType_mapped fuel T st id :
  TypeMap st !! T = Some id -> wtransType (S fuel) T st = Ok (id, st).
Proof. intros H. now rewrite wtransType_eq, H. Qed.

(** *** The structs with the name of the sampler or pipe storage
    constants *)

(** A struct that is translated as the sampler or the pipe storage
    type. *)
Definition namedConstant (T : nat) : Prop :=
  ∃ N els P, LTypes !! T = Some (StructTy N (Some els) P)
             ∧ (String.eqb N ConstantSamplerName = true
                ∨ String.eqb N ConstantPipeStorageName = true).

(** The table of types has for these structs what it had. *)
Definition keepsNamed (st st' : State) : Prop :=
  ∀ T, namedConstant T -> TypeMap st' !! T = TypeMap st !! T.

Lemma keepsNamed_refl st : keepsNamed st st.
Proof. now intros T _. Qed.

Lemma keepsNamed_trans a b c :
  keepsNamed a b -> keepsNamed b c -> keepsNamed a c.
Proof. intros H1 H2 T HT. now rewrite (H2 T HT), (H1 T HT). Qed.

Lemma keepsNamed_same st st' : TypeMap st' = TypeMap st -> keepsNamed st st'.
Proof. intros E T _. now rewrite E. Qed.

Lemma keepsNamed_mapType T e st id st' :
  ¬ namedConstant T -> mapType T (addEntry e st) = (id, st') ->
  keepsNamed st st'.
Proof.
  intros HT H. unfold mapType in H. injection H as _ <-. intros T' HT'. cbn.
  apply lookup_insert_ne. intros ->. contradiction.
Qed.

Lemma TypeMap_iter_addContinued Struct n k st :
  TypeMap (Nat.iter k (addContinued Struct n) st) = TypeMap st.
Proof. induction k as [|k IH]; [reflexivity|exact IH]. Qed.

Lemma TypeMap_addContinuedInstructions Struct n st :
  TypeMap (addContinuedInstructions isAllowedToUseExtension Struct n st)
  = TypeMap st.
Proof.
  unfold addContinuedInstructions.
  destruct (_ && _); [|reflexivity]. cbv zeta.
  destruct (0 <? _); cbn; apply TypeMap_iter_addContinued.
Qed.

Section KeepsNamed.

Variable tt : nat -> State -> Res (nat * State).
Hypothesis Htt : ∀ T s id s', tt T s = Ok (id, s') -> keepsNamed s s'.

Lemma transTypes_keeps (params : list nat -> State -> Res (list nat * State)) :
  (∀ l s, params l s
          = match l with
            | [] => Ok ([], s)
            | P :: l' =>
                '(t, s1) ← tt P s; '(ts, s2) ← params l' s1; Ok (t :: ts, s2)
            end) ->
  ∀ l st ids st', params l st = Ok (ids, st') -> keepsNamed st st'.
Proof.
  intros Hp. induction l as [|P l IH]; intros st ids st' H; rewrite Hp in H.
  - injection H as _ <-. apply keepsNamed_refl.
  - apply Res_bind_Ok in H as ([t s1] & E1 & H).
    apply Res_bind_Ok in H as ([ts s2] & E2 & H). injection H as _ <-.
    eapply keepsNamed_trans; eauto.
Qed.

Lemma transConstantInt_keeps Ty v st id st' :
  wtransConstantInt tt Ty v st = Ok (id, st') -> keepsNamed st st'.
Proof.
  intros H. unfold Writer.transConstantInt in H.
  destruct (ValueMap st !! ConstantIntId Ty v).
  { injection H as _ <-. apply keepsNamed_refl. }
  destruct (LTypes !! Ty) as [[]|]; try discriminate.
  apply Res_bind_Ok in H as (? & _ & H).
  apply Res_bind_Ok in H as ([BT s1] & E1 & H).
  injection H as _ <-.
  eapply keepsNamed_trans; [eapply Htt; eauto|]. now apply keepsNamed_same.
Qed.

Lemma transMembers1_keeps fuel T Struct Elements :
  ∀ l Idx st r st',
    wtransMembers1 tt fuel T Struct Elements Idx l st = Ok (r, st') ->
    keepsNamed st st'.
Proof.
  induction l as [|ElemTy l IH]; intros Idx st r st' H; cbn in H.
  - injection H as _ <-. apply keepsNamed_refl.
  - apply Res_bind_Ok in H as (deferred & _ & H). destruct deferred.
    + apply Res_bind_Ok in H as ([fr s1] & E1 & H). injection H as _ <-.
      eauto.
    + apply Res_bind_Ok in H as ([BT s1] & E1 & H).
      eapply keepsNamed_trans; [eapply Htt; eauto|].
      eapply keepsNamed_trans; [|eapply IH; eauto].
      now apply keepsNamed_same.
Qed.

Lemma transMembers2_keeps Struct Elements :
  ∀ l st st',
    transMembers2 tt Struct Elements l st = Ok st' -> keepsNamed st st'.
Proof.
  induction l as [|Idx l IH]; intros st st' H; cbn in H.
  - injection H as <-. apply keepsNamed_refl.
  - destruct (Elements !! Idx) as [ElemTy|]; [|discriminate].
    apply Res_bind_Ok in H as ([BT s1] & E1 & H).
    eapply keepsNamed_trans; [eapply Htt; eauto|].
    eapply keepsNamed_trans; [|eapply IH; eauto].
    now apply keepsNamed_same.
Qed.

End KeepsNamed.

(** The translation of a type enters no struct with the name of the
    sampler or pipe storage constants in the table. *)
Lemma wtransType_keepsNamed fuel :
  ∀ T st id st', wtransType fuel T st = Ok (id, st') -> keepsNamed st st'.
Proof.
  induction fuel as [|fuel IH]; intros T st id st' H; [discriminate|].
  rewrite wtransType_eq in H.
  destruct (TypeMap st !! T) as [BT|] eqn:EM.
  { injection H as _ <-. apply keepsNamed_refl. }
  destruct (LTypes !! T) as [node|] eqn:EN; [|discriminate].
  assert (Hleaf : ∀ e, (∀ N els P, node ≠ StructTy N (Some els) P) ->
                       ∀ s, keepsNamed st s ->
                            Ok (mapType T (addEntry e s)) = Ok (id, st') ->
                            keepsNamed st st').
  { intros e Hn s Hs H'. apply Res_Ok_inj in H'.
    eapply keepsNamed_trans; [exact Hs|].
    eapply keepsNamed_mapType; [|exact H'].
    intros (N & els & P & EN' & _). rewrite EN in EN'.
    injection EN' as ->. now apply (Hn N els P). }
  destruct node as [|w|w|ET AS|El n|El n|N [els|] P|R Ps].
  - eapply Hleaf; [discriminate|apply keepsNamed_refl|exact H].
  - destruct (w =? 1).
    + eapply Hleaf; [discriminate|apply keepsNamed_refl|exact H].
    + apply Res_bind_Ok in H as (? & _ & H).
      eapply Hleaf; [discriminate|apply keepsNamed_refl|exact H].
  - eapply Hleaf; [discriminate|apply keepsNamed_refl|exact H].
  - destruct (LTypes !! ET) as [ETnode|]; [|discriminate].
    apply Res_bind_Ok in H as (? & _ & H).
    destruct ETnode as [| | | | | |N' [els'|] P'|];
      try (apply Res_bind_Ok in H as ([? ?] & E1 & H);
           eapply Hleaf; [discriminate|eapply IH; eauto|exact H]).
    destruct (specialOpaque N').
    + eapply Hleaf; [discriminate|apply keepsNamed_refl|exact H].
    + apply Res_bind_Ok in H as ([? ?] & E1 & H).
      eapply Hleaf; [discriminate|eapply IH; eauto|exact H].
  - apply Res_bind_Ok in H as ([? ?] & E1 & H).
    eapply Hleaf; [discriminate|eapply IH; eauto|exact H].
  - apply Res_bind_Ok in H as (? & _ & H).
    apply Res_bind_Ok in H as ([? s1] & E1 & H).
    apply Res_bind_Ok in H as ([? s2] & E2 & H).
    eapply Hleaf; [discriminate| |exact H].
    eapply keepsNamed_trans; [eapply IH; eauto|].
    eapply transConstantInt_keeps; [exact IH|exact E2].
  - destruct (String.eqb N ConstantSamplerName) eqn:E1; [eapply IH; eauto|].
    destruct (String.eqb N ConstantPipeStorageName) eqn:E2;
      [eapply IH; eauto|].
    cbv zeta in H.
    match type of H with context [ mapType T (addEntry ?e st) ] =>
      destruct (mapType T (addEntry e st)) as [Struct st1] eqn:EMap end.
    apply Res_bind_Ok in H as ([fr s3] & E3 & H).
    apply Res_bind_Ok in H as (s5 & E5 & H). injection H as _ <-.
    assert (S1 : keepsNamed st st1).
    { eapply keepsNamed_mapType; [|exact EMap].
      intros (N' & els' & P' & EN' & HN'). rewrite EN in EN'.
      injection EN' as <- <- <-. destruct HN'; congruence. }
    eapply keepsNamed_trans; [exact S1|].
    eapply keepsNamed_trans;
      [apply keepsNamed_same, TypeMap_addContinuedInstructions|].
    eapply keepsNamed_trans;
      [eapply transMembers1_keeps; [exact IH|exact E3]|].
    eapply keepsNamed_trans; [|eapply transMembers2_keeps; [exact IH|exact E5]].
    now apply keepsNamed_same.
  - eapply Hleaf; [discriminate|apply keepsNamed_refl|exact H].
  - apply Res_bind_Ok in H as ([? s1] & E1 & H).
    apply Res_bind_Ok in H as ([? s2] & E2 & H).
    eapply Hleaf; [discriminate| |exact H].
    eapply keepsNamed_trans; [eapply IH; eauto|].
    eapply (transTypes_keeps (wtransType fuel) IH (wtransTypes fuel));
      [|exact E2].
    intros l0 s0. now destruct l0.
Qed.

(** A second request for a type that has been translated returns what
    the first request returned and changes nothing, when it has at least
    the fuel of the first. *)
Lemma wtransType_again fuel :
  ∀ T st id st' k,
    WInv st -> wtransType fuel T st = Ok (id, st') ->
    wtransType (fuel + k) T st' = Ok (id, st').
Proof.
  induction fuel as [|fuel IH]; intros T st id st' k HI H; [discriminate|].
  destruct (wtransType_result_mapped (S fuel) T st id st' HI H)
    as [HM|(N & els & P & EN & HN)].
  { now apply wtransType_mapped. }
  pose proof (wtransType_keepsNamed (S fuel) T st id st' H) as HK.
  assert (HT : namedConstant T) by (exists N, els, P; auto).
  rewrite wtransType_eq in H.
  change (S fuel + k)%nat with (S (fuel + k)). rewrite wtransType_eq.
  rewrite (HK T HT).
  destruct (TypeMap st !! T) as [BT|] eqn:EM.
  { injection H as <- <-. reflexivity. }
  rewrite EN in *.
  destruct (String.eqb N ConstantSamplerName);
    [now apply (IH _ st)|].
  destruct (String.eqb N ConstantPipeStorageName);
    [now apply (IH _ st)|].
  destruct HN; discriminate.
Qed.

(** A type that is translated under its own entry of the table. *)
Definition ownEntry (T : nat) : Prop :=
  ∀ N els P, LTypes !! T = Some (StructTy N (Some els) P) ->
             String.eqb N ConstantSamplerName = false
             ∧ String.eqb N ConstantPipeStorageName = false.

(** X8.  A type that has been translated - other than a struct with
    the name of the sampler or the pipe storage constants, which is
    translated as the sampler or pipe storage type - is in the table of
    types: the next request for it, and any request after further types
    have been translated, returns the identical SPIR-V type and changes
    nothing. *)
Theorem writer_transType_memoized fuel T st id st' fuel2 T2 id2 st2 k :
  WInv st -> ownEntry T ->
  wtransType fuel T st = Ok (id, st') ->
  wtransType fuel2 T2 st' = Ok (id2, st2) ->
  wtransType (S k) T st' = Ok (id, st')
  ∧ wtransType (S k) T st2 = Ok (id, st2).
Proof.
  intros HI HT H1 H2.
  destruct (wtransType_result_mapped fuel T st id st' HI H1)
    as [M1|(N & els & P & EN & HN)].
  2:{ destruct (HT N els P EN) as [E1 E2]. destruct HN; congruence. }
  destruct (wtransType_spec fuel T st id st' HI H1) as (I1 & _).
  destruct (wtransType_spec fuel2 T2 st' id2 st2 I1 H2) as (_ & X2 & _).
  split; apply wtransType_mapped; [exact M1|].
  destruct X2 as (S2 & _). eapply lookup_weaken; eauto.
Qed.

(** X9.  The translation of a type changes no entry the module has and
    no entry of the tables of types and values, and it leaves the
    contraction status of the functions alone: it only adds entries,
    which are types or integer constants (the lengths of arrays), and
    what it adds to the table of values are such constants. *)
Theorem writer_transType_only_adds_entries fuel T st id st' :
  WInv st ->
  wtransType fuel T st = Ok (id, st') ->
  (∀ i e, Entries st !! i = Some e -> Entries st' !! i = Some e)
  ∧ (∀ i e, Entries st' !! i = Some e ->
            Entries st !! i = Some e ∨ isTypeEntry e = true
            ∨ ∃ BT ws, e = EConstant BT ws)
  ∧ TypeMap st ⊆ TypeMap st' ∧ ValueMap st ⊆ ValueMap st'
  ∧ (∀ V b, ValueMap st' !! V = Some b ->
            ValueMap st !! V = Some b
            ∨ ∃ BT ws, Entries st' !! b = Some (EConstant BT ws))
  ∧ FPContractMap st' = FPContractMap st
  ∧ (NextId st <= NextId st')%nat.
Proof.
  intros HI H.
  destruct (wtransType_spec fuel T st id st' HI H) as (_ & X & _).
  destruct X as (A & B & C & D & E & F & G).
  split; [intros i e Hi; apply D; auto|].
  split; [exact G|]. split; [exact A|]. split; [exact B|].
  split; [|split; assumption].
  intros V b HV. destruct (F V b HV) as [?|[_ ?]]; auto.
Qed.

End WriterTypeFacts.

(** ** Struct types in both directions *)

Section StructTranslation.

(** The module to decode, with a rank of its types. *)
Variable BM : Reader.SPIRVModule.
Variable rmapAddrSpace : nat -> nat.
Variable rrank : nat -> nat.
Variable rR : nat.

(** The types to encode, the options of the translation, and a rank of the
    types. *)
Variable LTypes : gmap nat Writer.LLVMType.
Variable isAllowedToUseExtension : Writer.ExtensionID -> bool.
Variable mapAddrSpace : nat -> nat.
Variable specialOpaque : string -> option nat.
Variable ConstantSamplerName ConstantPipeStorageName : string.
Variable SamplerType PipeStorageType SizetType : nat.
Variable ConstantIntId : nat -> Z -> nat.
Variable wrank : nat -> nat.
Variable wR : nat.

Abbreviation rTypes := (Reader.Types BM).
Abbreviation rtransType := (Reader.transType BM rmapAddrSpace).
Abbreviation rtransTypes := (Reader.transTypes BM rmapAddrSpace).
Abbreviation wtransType' :=
  (Writer.transType LTypes isAllowedToUseExtension mapAddrSpace specialOpaque
     ConstantSamplerName ConstantPipeStorageName SamplerType PipeStorageType
     SizetType ConstantIntId).
Abbreviation wrealStruct :=
  (realStruct LTypes ConstantSamplerName ConstantPipeStorageName).

(** Decoding registers the struct [S], still without a body, and only then
    translates the members. *)
Definition readerRegistersFirst (S : nat) (ms : list nat)
    (c : list (list nat)) (p : bool) : Prop :=
  ∀ fuel st, Reader.TypeMap st !! S = None ->
    ∃ sid st2 info,
      Reader.TypeMap st2 !! S = Some (LStruct sid)
      ∧ Reader.Structs st2 !! sid = Some info ∧ sbody info = None
      ∧ rtransType (Datatypes.S fuel) S st
        = ('(MT, st3) ← rtransTypes fuel (ms ++ concat c) st2;
           Ok (LStruct sid, Reader.setBody sid MT p st3)).

(** Decoding the struct [S] returns a struct whose body holds the
    translations of the members, and in it the struct itself wherever a
    member refers to [S]: as a pointer, as an array of pointers, or as a
    member struct with a pointer. *)
Definition readerTranslates (fuel : nat) (st : Reader.State) (S : nat)
    (ms : list nat) (c : list (list nat)) (p : bool) : Prop :=
  ∃ s st' MT i,
    rtransType fuel S st = Ok (LStruct s, st')
    ∧ Reader.TypeMap st' !! S = Some (LStruct s)
    ∧ Reader.Structs st' !! s = Some i ∧ sbody i = Some (MT, p)
    ∧ Forall2 (fun m t => Reader.TypeMap st' !! m = Some t) (ms ++ concat c) MT
    ∧ (∀ k P SC,
         (ms ++ concat c) !! k = Some P ->
         rTypes !! P = Some (Reader.OpTypePointer SC S) ->
         MT !! k = Some (LPointer (LStruct s) (rmapAddrSpace SC)))
    ∧ (∀ k A P L SC,
         (ms ++ concat c) !! k = Some A ->
         rTypes !! A = Some (Reader.OpTypeArray P L) ->
         rTypes !! P = Some (Reader.OpTypePointer SC S) ->
         ∃ n, MT !! k = Some (LArray (LPointer (LStruct s) (rmapAddrSpace SC)) n))
    ∧ (∀ k T' N' ms' c' p' j P SC,
         (ms ++ concat c) !! k = Some T' ->
         rTypes !! T' = Some (Reader.OpTypeStruct N' ms' c' p') ->
         (ms' ++ concat c') !! j = Some P ->
         rTypes !! P = Some (Reader.OpTypePointer SC S) ->
         ∃ s' i' MT',
           MT !! k = Some (LStruct s') ∧ Reader.Structs st' !! s' = Some i'
           ∧ sbody i' = Some (MT', p')
           ∧ MT' !! j = Some (LPointer (LStruct s) (rmapAddrSpace SC))).

(** Encoding registers the struct [T], with every slot still empty, and
    only then translates the members. *)
Definition writerRegistersFirst (T : nat) (N : string) (els : list nat)
    (P : bool) : Prop :=
  ∀ fuel st, Writer.TypeMap st !! T = None ->
    ∃ st2 C,
      Writer.TypeMap st2 !! T = Some (Writer.NextId st)
      ∧ Writer.Entries st2 !! Writer.NextId st
        = Some (Writer.EStruct N (replicate (length els) None) C false false)
      ∧ wtransType' (S fuel) T st
        = ('(ForwardRefs, st3) ←
             Writer.transMembers1 LTypes (wtransType' fuel) fuel T
               (Writer.NextId st) els 0%nat els st2;
           st5 ← Writer.transMembers2 (wtransType' fuel) (Writer.NextId st)
                   els ForwardRefs
                   (Writer.closeStructType (Writer.NextId st) P st3);
           Ok (Writer.NextId st, st5)).

(** Encoding the struct [T] returns a sealed struct whose slots hold
    translations of the members, and in it the struct itself wherever a
    member refers to [T]. *)
Definition writerTranslates (fuel : nat) (st : Writer.State) (T : nat)
    (N : string) (els : list nat) (P : bool) : Prop :=
  ∃ sid st' ms C,
    wtransType' fuel T st = Ok (sid, st')
    ∧ Writer.TypeMap st' !! T = Some sid
    ∧ Writer.Entries st' !! sid = Some (Writer.EStruct N (map Some ms) C P true)
    ∧ length ms = length els
    ∧ (∀ k Pt AS,
         els !! k = Some Pt -> LTypes !! Pt = Some (Writer.PointerTy T AS) ->
         ∃ m, ms !! k = Some m
              ∧ Writer.Entries st' !! m
                = Some (Writer.EPointer (mapAddrSpace AS) sid))
    ∧ (∀ k A Pt n AS,
         els !! k = Some A -> LTypes !! A = Some (Writer.ArrayTy Pt n) ->
         LTypes !! Pt = Some (Writer.PointerTy T AS) ->
         ∃ m pm len,
           ms !! k = Some m
           ∧ Writer.Entries st' !! m = Some (Writer.EArray pm len)
           ∧ Writer.Entries st' !! pm
             = Some (Writer.EPointer (mapAddrSpace AS) sid))
    ∧ (∀ k T' N' els' P' j Pt AS,
         els !! k = Some T' -> wrealStruct T' N' els' P' ->
         els' !! j = Some Pt -> LTypes !! Pt = Some (Writer.PointerTy T AS) ->
         ∃ m ms' C' pm,
           ms !! k = Some m
           ∧ Writer.Entries st' !! m
             = Some (Writer.EStruct N' (map Some ms') C' P' true)
           ∧ ms' !! j = Some pm
           ∧ Writer.Entries st' !! pm
             = Some (Writer.EPointer (mapAddrSpace AS) sid)).

(** C5.  In both directions the translation of a struct type enters the
    struct in the table of types before it translates the member types.
    Where the types are well formed (every cycle of types passes through
    the members of a struct) and the tables satisfy the invariant of the
    translation, the translation of a struct returns as soon as the fuel
    exceeds a bound that the types and the table give; and in the struct
    it returns, a member that is a pointer to the struct, an array of such
    pointers, or a struct with such a pointer, refers to the returned
    struct itself. *)
Theorem struct_translation_terminates_with_self_reference
    (rfuel : nat) (rst : Reader.State) (S : nat) (N : string) (ms : list nat)
    (c : list (list nat)) (p : bool)
    (wfuel : nat) (wst : Writer.State) (T : nat) (WN : string)
    (els : list nat) (P : bool) :
  wfTypeGraph BM rrank rR ->
  TInv BM rmapAddrSpace rst -> lengthsOk BM rst -> structsClosed BM rst ->
  rTypes !! S = Some (Reader.OpTypeStruct N ms c p) ->
  (bound BM rR rst rR < rfuel)%nat ->
  wfLLVMTypes LTypes isAllowedToUseExtension ConstantSamplerName
    ConstantPipeStorageName SamplerType PipeStorageType SizetType wrank wR ->
  WInv LTypes mapAddrSpace specialOpaque ConstantSamplerName
    ConstantPipeStorageName SamplerType PipeStorageType wst ->
  structsComplete LTypes mapAddrSpace specialOpaque ConstantSamplerName
    ConstantPipeStorageName SamplerType PipeStorageType wst ->
  wrealStruct T WN els P ->
  (wbound LTypes wR wst wR < wfuel)%nat ->
  readerRegistersFirst S ms c p
  ∧ readerTranslates rfuel rst S ms c p
  ∧ writerRegistersFirst T WN els P
  ∧ writerTranslates wfuel wst T WN els P.
Proof.
  intros Hrwf HrI HrL HrC HS Hrb Hwwf HwI HwC HT Hwb.
  split; [|split; [|split]].
  - intros fuel st HM.
    exact (transType_struct_registers_first BM rmapAddrSpace fuel S st
             N ms c p HS HM).
  - destruct (reader_struct_translation BM rmapAddrSpace rrank rR Hrwf
                rfuel rst S N ms c p HrI HrL HrC HS Hrb)
      as (s & st' & MT & i & H1 & _ & _ & _ & H2 & H3 & H4 & H5 & H6 & H7 & H8).
    exists s, st', MT, i. auto 10.
  - intros fuel st HM.
    exact (wtransType_struct_registers_first LTypes isAllowedToUseExtension
             mapAddrSpace specialOpaque ConstantSamplerName
             ConstantPipeStorageName SamplerType PipeStorageType SizetType
             ConstantIntId fuel T st WN els P HT HM).
  - destruct (writer_struct_translation LTypes isAllowedToUseExtension
                mapAddrSpace specialOpaque ConstantSamplerName
                ConstantPipeStorageName SamplerType PipeStorageType SizetType
                ConstantIntId wrank wR Hwwf wfuel wst T WN els P
                HwI HwC HT Hwb)
      as (sid & st' & ms' & C & H1 & _ & _ & H2 & H3 & H4 & H5 & H6 & H7).
    exists sid, st', ms', C.
    split; [assumption|]. split; [assumption|]. split; [assumption|].
    split; [symmetry; eapply Forall2_length; eauto|]. auto.
Qed.

End StructTranslation.

(** A linked list in both forms: [S = { i32, S* }]. *)
Definition listNodeSPIRV : Reader.SPIRVModule :=
  Reader.mkSPIRVModule
    (<[1%nat := Reader.OpTypeInt 32 false]>
       (<[2%nat := Reader.OpTypeStruct "S" [1%nat; 3%nat] [] false]>
          (<[3%nat := Reader.OpTypePointer 7 2]> ∅)))
    ∅ ∅.

Definition listNodeLLVM : gmap nat Writer.LLVMType :=
  <[1%nat := Writer.IntegerTy 32]>
    (<[2%nat := Writer.StructTy "S" (Some [1%nat; 3%nat]) false]>
       (<[3%nat := Writer.PointerTy 2 0]> ∅)).

(** The pointer ranks above the struct it points to. *)
Definition listNodeRank (T : nat) : nat :=
  match T with 3%nat => 1%nat | _ => 0%nat end.

Ltac lookup_cases H :=
  repeat (apply lookup_insert_Some in H as [[<- <-]|[_ H]]);
  [..|now rewrite lookup_empty in H].

Lemma listNodeSPIRV_wf : wfTypeGraph listNodeSPIRV listNodeRank 1.
Proof.
  intros T node H. cbn in H. lookup_cases H; cbn.
  - split; [lia|exact I].
  - split; [lia|]. repeat constructor; eexists; reflexivity.
  - split; [lia|]. split; [eexists; reflexivity|lia].
Defined.

Lemma reader_initState_inv rmapAddrSpace :
  TInv listNodeSPIRV rmapAddrSpace Reader.initState
  ∧ lengthsOk listNodeSPIRV Reader.initState
  ∧ structsClosed listNodeSPIRV Reader.initState.
Proof.
  split; [split|split].
  - intros T LT H. cbn in H. now rewrite lookup_empty in H.
  - intros s [i H]. cbn in H. now rewrite lookup_empty in H.
  - intros T E L v _ H. cbn in H. now rewrite lookup_empty in H.
  - intros T N ms c p LT _ H. cbn in H. now rewrite lookup_empty in H.
Defined.

Lemma listNodeLLVM_wf :
  wfLLVMTypes listNodeLLVM (fun _ => false) "spirv.ConstantSampler"
    "spirv.ConstantPipeStorage" 0 0 1 listNodeRank 1.
Proof.
  intros T node H. unfold listNodeLLVM in H. lookup_cases H; cbn.
  - split; [lia|]. do 4 right. now left.
  - split; [lia|]. split; [|split; discriminate].
    repeat constructor; eexists; reflexivity.
  - split; [lia|]. eexists. split; [reflexivity|]. split; [lia|discriminate].
Defined.

Lemma writer_initState_inv LTypes mapAddrSpace specialOpaque CS CP ST PT :
  WInv LTypes mapAddrSpace specialOpaque CS CP ST PT Writer.initState
  ∧ structsComplete LTypes mapAddrSpace specialOpaque CS CP ST PT
      Writer.initState.
Proof.
  split; [split; [|split; [|split; [|split]]]|].
  - intros T id H. cbn in H. now rewrite lookup_empty in H.
  - intros T N els P sid _ H. cbn in H. now rewrite lookup_empty in H.
  - intros id [e H]. cbn in H. now rewrite lookup_empty in H.
  - intros T id H. cbn in H. now rewrite lookup_empty in H.
  - intros T T' N els P N' els' P' sid _ _ H. cbn in H.
    now rewrite lookup_empty in H.
  - intros T N els P sid _ H. cbn in H. now rewrite lookup_empty in H.
Defined.

Lemma struct_translation_terminates_with_self_reference_witness :
  readerRegistersFirst listNodeSPIRV (fun SC => SC) 2 [1%nat; 3%nat] [] false
  ∧ readerTranslates listNodeSPIRV (fun SC => SC) 4 Reader.initState
      2 [1%nat; 3%nat] [] false
  ∧ writerRegistersFirst listNodeLLVM (fun _ => false) (fun AS => AS)
      (fun _ => None) "spirv.ConstantSampler" "spirv.ConstantPipeStorage"
      0 0 1 (fun _ v => Z.to_nat v) 2 "S" [1%nat; 3%nat] false
  ∧ writerTranslates listNodeLLVM (fun _ => false) (fun AS => AS)
      (fun _ => None) "spirv.ConstantSampler" "spirv.ConstantPipeStorage"
      0 0 1 (fun _ v => Z.to_nat v) 6 Writer.initState
      2 "S" [1%nat; 3%nat] false.
Proof.
  apply (struct_translation_terminates_with_self_reference
           listNodeSPIRV (fun SC => SC) listNodeRank 1
           listNodeLLVM (fun _ => false) (fun AS => AS) (fun _ => None)
           "spirv.ConstantSampler" "spirv.ConstantPipeStorage" 0 0 1
           (fun _ v => Z.to_nat v) listNodeRank 1
           4 Reader.initState 2 "S" [1%nat; 3%nat] [] false
           6 Writer.initState 2 "S" [1%nat; 3%nat] false).
  - exact listNodeSPIRV_wf.
  - exact (proj1 (reader_initState_inv _)).
  - exact (proj1 (proj2 (reader_initState_inv (fun SC => SC)))).
  - exact (proj2 (proj2 (reader_initState_inv (fun SC => SC)))).
  - reflexivity.
  - vm_compute. lia.
  - exact listNodeLLVM_wf.
  - exact (proj1 (writer_initState_inv _ _ _ _ _ _ _)).
  - exact (proj2 (writer_initState_inv _ _ _ _ _ _ _)).
  - split; [reflexivity|split; reflexivity].
  - vm_compute. lia.
Defined.

(** ** Decoding of values *)

Lemma LType_eqb_eq : ∀ a b, LType_eqb a b = true ↔ a = b.
Proof.
  fix IH 1. intros a b.
  destruct a as [ |w| | | |e n|e n|e s|r ps|s],
           b as [ |w'| | | |e' n'|e' n'|e' s'|r' ps'|s'];
    cbn; try (split; [discriminate|discriminate]); try (split; reflexivity).
  - rewrite Z.eqb_eq. split; congruence.
  - rewrite andb_true_iff, Z.eqb_eq, IH. split; [intros [-> ->]|intros [=]]; auto.
  - rewrite andb_true_iff, Z.eqb_eq, IH. split; [intros [-> ->]|intros [=]]; auto.
  - rewrite andb_true_iff, Nat.eqb_eq, IH. split; [intros [-> ->]|intros [=]]; auto.
  - rewrite andb_true_iff, IH.
    assert (Hl : (fix all2 (l l' : list LType) : bool :=
                    match l, l' with
                    | [], [] => true
                    | x :: l, y :: l' => LType_eqb x y && all2 l l'
                    | _, _ => false
                    end) ps ps' = true ↔ ps = ps').
    { revert ps'. induction ps as [|x ps IHps]; intros [|y ps'];
        try (split; [discriminate|discriminate]); [split; reflexivity|].
      rewrite andb_true_iff, IH, IHps. split; [intros [-> ->]|intros [=]]; auto. }
    rewrite Hl. split; [intros [-> ->]|intros [=]]; auto.
  - rewrite Nat.eqb_eq. split; congruence.
Qed.

Lemma Value_eqb_eq a b : Value_eqb a b = true ↔ a = b.
Proof.
  destruct a as [c|i|g|f n|bk|f], b as [c'|i'|g'|f' n'|bk'|f'];
    cbn; try (split; [discriminate|discriminate]);
    try (rewrite Nat.eqb_eq; split; congruence).
  - destruct c as [w v|w v|t|t], c' as [w' v'|w' v'|t'|t'];
      cbn; try (split; [discriminate|discriminate]);
      try (rewrite andb_true_iff, !Z.eqb_eq;
           split; [intros [-> ->]|intros [=]]; auto);
      rewrite LType_eqb_eq; split; congruence.
  - rewrite andb_true_iff, !Nat.eqb_eq. split; [intros [-> ->]|intros [=]]; auto.
Qed.

Lemma Value_eqb_refl a : Value_eqb a a = true.
Proof. now apply Value_eqb_eq. Qed.

Lemma Value_eqb_neq a b : a ≠ b -> Value_eqb a b = false.
Proof.
  intros H. destruct (Value_eqb a b) eqn:E; [|reflexivity].
  now apply Value_eqb_eq in E.
Qed.

(** *** The table of values *)

(** [v] is a load instruction. *)
Definition isLoad (st : Reader.State) (v : Value) : Prop :=
  ∃ LD inst, v = VInst LD ∧ Reader.Insts st !! LD = Some inst
             ∧ Reader.Kind inst = Reader.LoadInst.

(** [v] is a load instruction that reads a global variable whose name
    starts with the placeholder prefix. *)
Definition isPlaceholderLoad (st : Reader.State) (v : Value) : Prop :=
  ∃ LD inst g ops gv,
    v = VInst LD ∧ Reader.Insts st !! LD = Some inst
    ∧ Reader.Kind inst = Reader.LoadInst
    ∧ Reader.Operands inst = VGlobal g :: ops
    ∧ Reader.Globals st !! g = Some gv
    ∧ String.prefix Reader.KPlaceholderPrefix (Reader.GName gv) = true.

(** What [mapValue] requires of the table: no entry for [BV], or the
    entry [V] itself, or a placeholder load. *)
Definition mapValuePre (BV : nat) (V : Value) (st : Reader.State) : Prop :=
  ∀ Old, Reader.ValueMap st !! BV = Some Old ->
         Old = V ∨ isPlaceholderLoad st Old.

Lemma placeholderOf_Ok st Old LD g :
  Reader.placeholderOf st Old = Ok (LD, g) ->
  Old = VInst LD
  ∧ ∃ inst ops gv,
      Reader.Insts st !! LD = Some inst
      ∧ Reader.Kind inst = Reader.LoadInst
      ∧ Reader.Operands inst = VGlobal g :: ops
      ∧ Reader.Globals st !! g = Some gv
      ∧ String.prefix Reader.KPlaceholderPrefix (Reader.GName gv) = true.
Proof.
  unfold Reader.placeholderOf. intros H.
  destruct Old as [c|i|g0|f n|bk|f]; try discriminate.
  destruct (Reader.Insts st !! i) as [[k ops nm par]|] eqn:Ei; [|discriminate].
  cbn in H. destruct k; try discriminate.
  destruct ops as [|ptr ops]; [discriminate|].
  destruct ptr as [c|i0|g0|f n|bk|f]; try discriminate.
  destruct (Reader.Globals st !! g0) as [gv|] eqn:Eg; [|discriminate].
  destruct (String.prefix _ _) eqn:Ep; [|discriminate].
  injection H as <- <-. split; [reflexivity|].
  exists (Reader.mkInstruction Reader.LoadInst (VGlobal g0 :: ops) nm par), ops, gv.
  auto 10.
Qed.

Lemma placeholderOf_placeholder st Old :
  isPlaceholderLoad st Old -> ∃ LD g, Reader.placeholderOf st Old = Ok (LD, g).
Proof.
  intros (LD & [k ops nm par] & g & ops' & gv & -> & Hi & Hk & Ho & Hg & Hp).
  cbn in Hk, Ho. subst k ops. unfold Reader.placeholderOf.
  rewrite Hi. cbn. rewrite Hg, Hp. eauto.
Qed.

Lemma placeholderOf_result st Old :
  (∃ LD g, Reader.placeholderOf st Old = Ok (LD, g))
  ∨ (∃ k, Reader.placeholderOf st Old = Fault k).
Proof.
  unfold Reader.placeholderOf.
  destruct Old as [c|i|g0|f n|bk|f]; eauto.
  destruct (Reader.Insts st !! i) as [[k ops nm par]|]; [|eauto].
  cbn. destruct k; eauto.
  destruct ops as [|ptr ops]; [eauto|].
  destruct ptr as [c|i0|g0|f n|bk|f]; eauto.
  destruct (Reader.Globals st !! g0) as [gv|]; [|eauto].
  destruct (String.prefix _ _); eauto.
Qed.

(** C10.  The decoder's [mapValue] returns exactly when the table has no
    entry for the value, or has the very entry that is asked for, or has a
    load of a global variable with the placeholder prefix.  In every other
    case it faults and never ends in a reported error: an old entry that
    is no load instruction is dereferenced as a load before the assertion
    is reached, an old entry that is a load of something else fails the
    assertion.  So after a first [mapValue], a second one for the same
    value with another target faults unless the first target is such a
    load. *)
Theorem mapValue_requires_placeholder_load (BV : nat) (V : Value)
    (st : Reader.State) :
  (mapValuePre BV V st ↔ ∃ st', Reader.mapValue BV V st = Ok (V, st'))
  ∧ (¬ mapValuePre BV V st -> ∃ k, Reader.mapValue BV V st = Fault k)
  ∧ (∀ Old, Reader.ValueMap st !! BV = Some Old -> Old ≠ V ->
       (∀ i, Old ≠ VInst i) ∨ (∃ i inst, Old = VInst i
                                 ∧ Reader.Insts st !! i = Some inst
                                 ∧ Reader.Kind inst ≠ Reader.LoadInst) ->
       Reader.mapValue BV V st = Fault NullDeref)
  ∧ (∀ Old, Reader.ValueMap st !! BV = Some Old -> Old ≠ V ->
       isLoad st Old -> ¬ isPlaceholderLoad st Old ->
       Reader.mapValue BV V st = Fault AssertionFailure
       ∨ Reader.mapValue BV V st = Fault DanglingPointer)
  ∧ (∀ code, Reader.mapValue BV V st ≠ Error code)
  ∧ (∀ st1 V', Reader.mapValue BV V st = Ok (V, st1) -> V' ≠ V ->
       ¬ isPlaceholderLoad st1 V ->
       ∃ k, Reader.mapValue BV V' st1 = Fault k).
Proof.
  assert (Hchar : ∀ BV V st,
            (mapValuePre BV V st ↔ ∃ st', Reader.mapValue BV V st = Ok (V, st'))
            ∧ (¬ mapValuePre BV V st -> ∃ k, Reader.mapValue BV V st = Fault k)).
  { clear. intros BV V st. unfold mapValuePre, Reader.mapValue.
    destruct (Reader.ValueMap st !! BV) as [Old|] eqn:EM.
    - destruct (Value_eqb Old V) eqn:Eq.
      + apply Value_eqb_eq in Eq. subst Old. split.
        * split; [eauto|]. intros _ Old [= <-]. now left.
        * intros Hn. exfalso. apply Hn. intros Old [= <-]. now left.
      + assert (Hne : Old ≠ V).
        { intros ->. now rewrite Value_eqb_refl in Eq. }
        destruct (placeholderOf_result st Old) as [(LD & g & E)|[k E]];
          rewrite E; cbn.
        * split; [split; [eauto|]|].
          -- intros _ Old' [= <-]. right.
             destruct (placeholderOf_Ok _ _ _ _ E)
               as (-> & inst & ops & gv & ? & ? & ? & ? & ?).
             exists LD, inst, g, ops, gv. auto 10.
          -- intros Hn. exfalso. apply Hn. intros Old' [= <-]. right.
             destruct (placeholderOf_Ok _ _ _ _ E)
               as (-> & inst & ops & gv & ? & ? & ? & ? & ?).
             exists LD, inst, g, ops, gv. auto 10.
        * split; [split|eauto].
          -- intros H. destruct (H Old eq_refl) as [?|Hp]; [contradiction|].
             destruct (placeholderOf_placeholder _ _ Hp) as (LD & g & E').
             congruence.
          -- intros [st' H]. discriminate.
    - split; [split; [eauto|]|].
      + intros _ Old [=].
      + intros Hn. exfalso. apply Hn. intros Old [=]. }
  split; [apply Hchar|]. split; [apply Hchar|].
  split; [|split; [|split]].
  - intros Old EM Hne Hk. unfold Reader.mapValue. rewrite EM.
    rewrite (Value_eqb_neq _ _ Hne).
    destruct Hk as [Hk|(i & inst & -> & Hi & Hk)].
    + destruct Old; try reflexivity. now destruct (Hk i).
    + unfold Reader.placeholderOf. rewrite Hi.
      destruct inst as [k ops nm par]. cbn in *.
      destruct k; try reflexivity. contradiction.
  - intros Old EM Hne (LD & inst & -> & Hi & Hk) Hnp.
    unfold Reader.mapValue. rewrite EM, (Value_eqb_neq _ _ Hne).
    destruct (placeholderOf_result st (VInst LD)) as [(LD' & g & E)|[k E]].
    + exfalso. apply Hnp.
      destruct (placeholderOf_Ok _ _ _ _ E)
        as ([= <-] & inst' & ops & gv & ? & ? & ? & ? & ?).
      exists LD, inst', g, ops, gv. auto 10.
    + rewrite E. cbn. revert E. unfold Reader.placeholderOf. rewrite Hi.
      destruct inst as [k0 ops nm par]. cbn in *. subst k0.
      destruct ops as [|ptr ops]; [intros [= <-]; now left|].
      destruct ptr as [c|i0|g0|f n|bk|f]; try (intros [= <-]; now left).
      destruct (Reader.Globals st !! g0) as [gv|]; [|intros [= <-]; now right].
      destruct (String.prefix _ _); [discriminate|intros [= <-]; now left].
  - intros code. unfold Reader.mapValue.
    destruct (Reader.ValueMap st !! BV) as [Old|]; [|discriminate].
    destruct (Value_eqb Old V); [discriminate|].
    destruct (placeholderOf_result st Old) as [(LD & g & E)|[k E]];
      rewrite E; discriminate.
  - intros st1 V' H Hne Hnp.
    apply (proj2 (Hchar BV V' st1)). intros Hpre.
    assert (EM : Reader.ValueMap st1 !! BV = Some V).
    { revert H. unfold Reader.mapValue.
      destruct (Reader.ValueMap st !! BV) as [Old|] eqn:EM.
      - destruct (Value_eqb Old V) eqn:Eq.
        + apply Value_eqb_eq in Eq. subst Old. intros [= <-]. assumption.
        + destruct (Reader.placeholderOf st Old) as [[LD g]| | |];
            try discriminate.
          cbn. intros [= <-]. cbn. apply lookup_insert_eq.
      - intros [= <-]. cbn. apply lookup_insert_eq. }
    destruct (Hpre V EM) as [->|Hp]; [now apply Hne|now apply Hnp].
Qed.

(** ** Integer widths and wide constants *)

Lemma lor_shiftl_word hi lo :
  0 <= hi -> 0 <= lo < 2 ^ 32 ->
  Z.lor (Z.shiftl hi 32) lo = hi * 2 ^ 32 + lo.
Proof.
  intros Hhi Hlo.
  assert (Hd : Z.land (Z.shiftl hi 32) lo = 0).
  { apply Z.bits_inj'. intros n Hn.
    rewrite Z.land_spec, Z.bits_0.
    destruct (Z.ltb_spec n 32).
    - rewrite Z.shiftl_spec_low by lia. reflexivity.
    - rewrite <- (Z.mod_small lo (2 ^ 32)) by lia.
      rewrite Z.mod_pow2_bits_high by lia. apply andb_false_r. }
  rewrite <- Z.lxor_lor by assumption.
  rewrite <- Z.add_nocarry_lxor by assumption.
  now rewrite Z.shiftl_mul_pow2 by lia.
Qed.

(** The words the encoder writes are read back by the decoder as the
    value, as far as the words hold it. *)
Lemma packWords_wordsOf n :
  ∀ v, 0 <= v ->
    Reader.APInt_of_words64 (Reader.packWords (Writer.wordsOf n v))
    = v mod 2 ^ (32 * Z.of_nat n).
Proof.
  induction n as [n IH] using lt_wf_ind. intros v Hv.
  destruct n as [|[|n]].
  - cbn. now rewrite Z.mod_1_r.
  - change (32 * Z.of_nat 1) with 32.
    cbn [Writer.wordsOf Reader.packWords Reader.APInt_of_words64].
    unfold to_word, SpirvWordBitWidth. now rewrite Z.mul_0_r, Z.add_0_r.
  - change (Writer.wordsOf (S (S n)) v)
      with (to_word v :: to_word (Z.shiftr v SpirvWordBitWidth)
              :: Writer.wordsOf n (Z.shiftr (Z.shiftr v SpirvWordBitWidth)
                                            SpirvWordBitWidth)).
    cbn [Reader.packWords Reader.APInt_of_words64].
    unfold to_word, to_u64, SpirvWordBitWidth.
    rewrite IH; [|lia|].
    2:{ rewrite !Z.shiftr_div_pow2 by lia.
        apply Z.div_pos; [apply Z.div_pos|]; lia. }
    rewrite !Z.shiftr_div_pow2 by lia.
    pose proof (Z.mod_pos_bound v (2 ^ 32) ltac:(lia)) as H0.
    pose proof (Z.mod_pos_bound (v / 2 ^ 32) (2 ^ 32) ltac:(lia)) as H1.
    rewrite (Z.mod_small (Z.shiftl _ _)).
    2:{ rewrite Z.shiftl_mul_pow2 by lia. lia. }
    rewrite lor_shiftl_word by lia.
    replace (32 * Z.of_nat (S (S n))) with (64 + 32 * Z.of_nat n) by lia.
    rewrite Z.pow_add_r by lia.
    rewrite Z.div_div by lia. change (2 ^ 32 * 2 ^ 32) with (2 ^ 64).
    rewrite (Z.rem_mul_r v (2 ^ 64) (2 ^ (32 * Z.of_nat n))) by lia.
    change (2 ^ 64) with (2 ^ 32 * 2 ^ 32) at 3.
    rewrite (Z.rem_mul_r v (2 ^ 32) (2 ^ 32)) by lia. lia.
Qed.

Lemma transIntConstant_wordsOf w s LT v :
  64 < w -> 0 <= v < 2 ^ w ->
  Reader.transIntConstant (Reader.OpTypeInt w s) LT
    (Writer.wordsOf (Writer.numWordsOf w) v) = CInt w v.
Proof.
  intros Hw Hv. unfold Reader.transIntConstant. cbn [Reader.getBitWidth].
  assert ((64 <? w) = true) as -> by (apply Z.ltb_lt; lia).
  f_equal. unfold Reader.APInt. rewrite packWords_wordsOf by lia.
  unfold Writer.numWordsOf. rewrite Z2Nat.id by (apply Z.div_pos; lia).
  assert (w <= 32 * ((w + 31) / 32)).
  { pose proof (Z.div_mod (w + 31) 32 ltac:(lia)).
    pose proof (Z.mod_pos_bound (w + 31) 32 ltac:(lia)). lia. }
  rewrite (Z.mod_small v (2 ^ (32 * ((w + 31) / 32)))).
  - apply Z.mod_small. lia.
  - split; [lia|]. eapply Z.lt_le_trans; [apply Hv|].
    apply Z.pow_le_mono_r; lia.
Qed.

Section IntegerWidths.

(** The encoder's types and options, and the module the decoder reads. *)
Variable LTypes : gmap nat Writer.LLVMType.
Variable isAllowedToUseExtension : Writer.ExtensionID -> bool.
Variable mapAddrSpace : nat -> nat.
Variable specialOpaque : string -> option nat.
Variable ConstantSamplerName ConstantPipeStorageName : string.
Variable SamplerType PipeStorageType SizetType : nat.
Variable ConstantIntId : nat -> Z -> nat.

Variable BM : Reader.SPIRVModule.
Variable rmapAddrSpace : nat -> nat.
Variable isSPIRVSamplerType : LType -> bool.
Variable SAMPLER_INIT : string.
Variable SamplerInitTy : LType.
Variable loopHeaders : Reader.State -> nat -> list nat.

Abbreviation encType :=
  (Writer.transType LTypes isAllowedToUseExtension mapAddrSpace specialOpaque
     ConstantSamplerName ConstantPipeStorageName SamplerType PipeStorageType
     SizetType ConstantIntId).
Abbreviation encConstantInt :=
  (Writer.transConstantInt LTypes isAllowedToUseExtension ConstantIntId).
Abbreviation decValue :=
  (Reader.transValue BM rmapAddrSpace isSPIRVSamplerType SAMPLER_INIT
     SamplerInitTy loopHeaders).
Abbreviation arbitraryPrecision :=
  (isAllowedToUseExtension Writer.SPV_INTEL_arbitrary_precision_integers).

(** The widths the target has without an extension. *)
Definition nativeWidth (w : Z) : Prop :=
  w = 1 ∨ w = 8 ∨ w = 16 ∨ w = 32 ∨ w = 64.

Lemma encType_integer fuel T w st :
  LTypes !! T = Some (Writer.IntegerTy w) -> Writer.TypeMap st !! T = None ->
  (arbitraryPrecision = false -> ¬ nativeWidth w ->
   encType (S fuel) T st = Error SPIRVEC_InvalidBitWidth)
  ∧ (arbitraryPrecision = true ∨ nativeWidth w ->
     ∃ st', encType (S fuel) T st = Ok (Writer.NextId st, st')
            ∧ Writer.Entries st' !! Writer.NextId st
              = Some (if w =? 1 then Writer.EBool else Writer.EInt w)
            ∧ Writer.TypeMap st' !! T = Some (Writer.NextId st)
            ∧ Writer.ValueMap st' = Writer.ValueMap st
            ∧ Writer.NextId st' = S (Writer.NextId st)).
Proof.
  intros HT HM. cbn [Writer.transType]. rewrite HM, HT.
  split.
  - intros Hext Hn. destruct (Z.eqb_spec w 1) as [->|H1].
    { exfalso. apply Hn. now left. }
    rewrite Hext.
    destruct (Z.eqb_spec w 8) as [->|H8]; [exfalso; apply Hn; unfold nativeWidth; auto|].
    destruct (Z.eqb_spec w 16) as [->|H16]; [exfalso; apply Hn; unfold nativeWidth; auto|].
    destruct (Z.eqb_spec w 32) as [->|H32]; [exfalso; apply Hn; unfold nativeWidth; auto 6|].
    destruct (Z.eqb_spec w 64) as [->|H64]; [exfalso; apply Hn; unfold nativeWidth; auto 6|].
    reflexivity.
  - intros Hok. destruct (Z.eqb_spec w 1) as [->|H1].
    { eexists. split; [reflexivity|]. cbn.
      rewrite !lookup_insert_eq. auto. }
    assert (Hc : (if arbitraryPrecision
                  then Ok tt
                  else checkError ((w =? 8) || (w =? 16) || (w =? 32) || (w =? 64))
                                  SPIRVEC_InvalidBitWidth) = Ok tt).
    { destruct arbitraryPrecision; [reflexivity|].
      destruct Hok as [?|[?|[->|[->|[->| ->]]]]];
        [discriminate|contradiction|reflexivity..]. }
    rewrite Hc. cbn. eexists. split; [reflexivity|]. cbn.
    rewrite !lookup_insert_eq. auto.
Qed.

(** C9.  The encoder refuses an integer type whose width the target does
    not have with the invalid-bit-width error, unless the extension for
    arbitrary precision is allowed.  A constant of an integer type of more
    than 64 bits (of 128 bits, for one) is refused with the same error
    without the extension; with it the constant is written as the 32-bit
    words of its value, and the decoder reads those words back as the
    integer constant of that width and that value. *)
Theorem wide_integer_constants_round_trip
    (fuel rfuel : nat) (wst : Writer.State) (rst : Reader.State)
    (T BT BV : nat) (w v : Z) (s : bool) (nm : string)
    (F BB : option nat) (CreatePlaceHolder : bool) :
  LTypes !! T = Some (Writer.IntegerTy w) ->
  Writer.TypeMap wst !! T = None ->
  Writer.ValueMap wst !! ConstantIntId T v = None ->
  64 < w -> 0 <= v < 2 ^ w ->
  Reader.Types BM !! BT = Some (Reader.OpTypeInt w s) ->
  Reader.Values BM !! BV
  = Some (Reader.mkSPIRVValue
            (Reader.OpConstant (Writer.wordsOf (Writer.numWordsOf w) v)) BT nm) ->
  Reader.ValueMap rst !! BV = None ->
  (* integer types of any width *)
  (∀ T' w', LTypes !! T' = Some (Writer.IntegerTy w') ->
            Writer.TypeMap wst !! T' = None ->
     (arbitraryPrecision = false -> ¬ nativeWidth w' ->
      encType (S fuel) T' wst = Error SPIRVEC_InvalidBitWidth)
     ∧ (arbitraryPrecision = true ∨ nativeWidth w' ->
        ∃ st', encType (S fuel) T' wst = Ok (Writer.NextId wst, st')))
  (* the wide constant without the extension *)
  ∧ (arbitraryPrecision = false ->
     encConstantInt (encType (S fuel)) T v wst = Error SPIRVEC_InvalidBitWidth)
  (* the wide constant with the extension *)
  ∧ (arbitraryPrecision = true ->
     ∃ st', encConstantInt (encType (S fuel)) T v wst
            = Ok (S (Writer.NextId wst), st')
            ∧ Writer.Entries st' !! Writer.NextId wst = Some (Writer.EInt w)
            ∧ Writer.Entries st' !! S (Writer.NextId wst)
              = Some (Writer.EConstant (Writer.NextId wst)
                        (Writer.wordsOf (Writer.numWordsOf w) v))
            ∧ (1 < length (Writer.wordsOf (Writer.numWordsOf w) v))%nat)
  (* the words read back *)
  ∧ (∃ rst', decValue (S (S rfuel)) BV F BB CreatePlaceHolder rst
             = Ok (Some (VConst (CInt w v)), rst')
             ∧ Reader.ValueMap rst' !! BV = Some (VConst (CInt w v))).
Proof.
  intros HT HM HV Hw Hv HBT HBV HRM.
  split; [|split; [|split]].
  - intros T' w' HT' HM'.
    destruct (encType_integer fuel T' w' wst HT' HM') as [H1 H2].
    split; [assumption|]. intros Hok.
    destruct (H2 Hok) as (st' & E & _). eauto.
  - intros Hext. unfold Writer.transConstantInt. rewrite HV, HT.
    assert ((64 <? w) = true) as -> by (apply Z.ltb_lt; lia).
    rewrite Hext. reflexivity.
  - intros Hext. unfold Writer.transConstantInt. rewrite HV, HT.
    assert ((64 <? w) = true) as -> by (apply Z.ltb_lt; lia).
    rewrite Hext.
    destruct (encType_integer fuel T w wst HT HM) as [_ H2].
    destruct (H2 (or_introl Hext)) as (st1 & E & He & Hm & Hvm & Hn).
    assert ((w =? 1) = false) as Hw1 by (apply Z.eqb_neq; lia).
    rewrite Hw1 in He.
    cbn -[Writer.transType]. rewrite E. cbn -[Writer.transType].
    unfold Writer.addEntry. cbn. rewrite Hn.
    eexists. split; [reflexivity|]. cbn.
    split; [|split].
    + rewrite lookup_insert_ne by lia. assumption.
    + apply lookup_insert_eq.
    + assert (Hlen : ∀ n x, length (Writer.wordsOf n x) = n).
      { induction n as [|n IHn]; intros x; cbn; [reflexivity|now rewrite IHn]. }
      rewrite Hlen. unfold Writer.numWordsOf.
      assert (2 <= (w + 31) / 32) by (apply Z.div_le_lower_bound; lia).
      lia.
  - assert (HTy : ∃ LT st1, Reader.transType BM rmapAddrSpace (S rfuel) BT rst
                            = Ok (LT, st1)
                            ∧ Reader.ValueMap st1 = Reader.ValueMap rst).
    { cbn [Reader.transType].
      destruct (Reader.TypeMap rst !! BT); [eauto|]. rewrite HBT.
      eexists _, _. split; [reflexivity|reflexivity]. }
    destruct HTy as (LT & st1 & ETy & EVM).
    change (decValue (S (S rfuel))) with
      (Reader.transValueStep BM isSPIRVSamplerType SAMPLER_INIT SamplerInitTy
         (Reader.transType BM rmapAddrSpace (S rfuel))
         (decValue (S rfuel))
         (Reader.transFunction BM rmapAddrSpace isSPIRVSamplerType SAMPLER_INIT
            SamplerInitTy loopHeaders (S rfuel))).
    unfold Reader.transValueStep. rewrite HRM.
    unfold Reader.transValueWithoutDecoration. rewrite HBV.
    cbn [Reader.Op Reader.TypeId Reader.ValueName]. rewrite HBT, ETy.
    cbn -[Reader.transIntConstant].
    rewrite transIntConstant_wordsOf by assumption.
    unfold Reader.mapValue. rewrite EVM, HRM. cbn.
    eexists. split; [reflexivity|].
    unfold Reader.setName.
    destruct (String.eqb nm EmptyString); cbn; apply lookup_insert_eq.
Qed.

End IntegerWidths.

(** A constant of 128 bits above [2 ^ 127]. *)
Definition wideValue : Z := 2 ^ 127 + 12345678901234567890.

Definition wideConstantSPIRV : Reader.SPIRVModule :=
  Reader.mkSPIRVModule
    (<[1%nat := Reader.OpTypeInt 128 false]> ∅)
    (<[5%nat := Reader.mkSPIRVValue
                  (Reader.OpConstant
                     (Writer.wordsOf (Writer.numWordsOf 128) wideValue))
                  1 "c"]> ∅)
    ∅.

Lemma wide_integer_constants_round_trip_witness :
  (∃ st', Writer.transConstantInt (<[1%nat := Writer.IntegerTy 128]> ∅)
            (fun _ => true) (fun _ x => Z.to_nat x)
            (Writer.transType (<[1%nat := Writer.IntegerTy 128]> ∅)
               (fun _ => true) (fun AS => AS) (fun _ => None)
               "spirv.ConstantSampler" "spirv.ConstantPipeStorage"
               0 0 1 (fun _ x => Z.to_nat x) 1)
            1 wideValue Writer.initState
          = Ok (2%nat, st')
          ∧ Writer.Entries st' !! 2%nat
            = Some (Writer.EConstant 1
                      (Writer.wordsOf (Writer.numWordsOf 128) wideValue)))
  ∧ (∃ rst',
       Reader.transValue wideConstantSPIRV (fun SC => SC) (fun _ => false)
         "init" LVoid (fun _ _ => []) 2%nat 5%nat None None true Reader.initState
       = Ok (Some (VConst (CInt 128 wideValue)), rst')
       ∧ Reader.ValueMap rst' !! 5%nat = Some (VConst (CInt 128 wideValue))).
Proof.
  pose proof (wide_integer_constants_round_trip
           (<[1%nat := Writer.IntegerTy 128]> ∅) (fun _ => true) (fun AS => AS)
           (fun _ => None) "spirv.ConstantSampler" "spirv.ConstantPipeStorage"
           0 0 1 (fun _ x => Z.to_nat x)
           wideConstantSPIRV (fun SC => SC) (fun _ => false) "init" LVoid
           (fun _ _ => [])
           0 0 Writer.initState Reader.initState 1 1 5 128 wideValue false "c"
           None None true
           eq_refl eq_refl eq_refl ltac:(lia)
           ltac:(unfold wideValue; lia) eq_refl eq_refl eq_refl)
    as (_ & _ & H3 & H4).
  split; [|exact H4].
  destruct (H3 eq_refl) as (st' & E1 & _ & E2 & _). exists st'. auto.
Defined.

(** ** Encoding of values *)

Section WriterValueFacts.
Import Writer.

Variable LTypes : gmap nat LLVMType.
Variable isAllowedToUseExtension : ExtensionID -> bool.
Variable mapAddrSpace : nat -> nat.
Variable specialOpaque : string -> option nat.
Variable ConstantSamplerName ConstantPipeStorageName : string.
Variable SamplerType PipeStorageType : nat.
Variable SizetType : nat.
Variable ConstantIntId : nat -> Z -> nat.
Variable LValues : gmap nat LLVMValue.
Variable ModuleFunctions : list nat.
Variable getAdaptedType : nat -> nat.
Variable isKnownIntrinsic : string -> bool.
Variable builtinOp : string -> option Z.
Variable intrinsicCase : string -> IntrinsicCase.
Variable OpCodeMap : nat -> Z.
Variable isSkippedFunction : string -> bool.
Variable SPV_INTEL_inline_assembly_allowed : bool.
Variable SPIRVAllowUnknownIntrinsics : bool.

Abbreviation vtransType :=
  (Writer.transType LTypes isAllowedToUseExtension mapAddrSpace specialOpaque
     ConstantSamplerName ConstantPipeStorageName SamplerType PipeStorageType
     SizetType ConstantIntId).
Abbreviation vtransValue :=
  (Writer.transValue LTypes isAllowedToUseExtension mapAddrSpace specialOpaque
     ConstantSamplerName ConstantPipeStorageName SamplerType PipeStorageType
     SizetType ConstantIntId LValues getAdaptedType isKnownIntrinsic
     builtinOp intrinsicCase OpCodeMap SPV_INTEL_inline_assembly_allowed
     SPIRVAllowUnknownIntrinsics).
Abbreviation vInv :=
  (WInv LTypes mapAddrSpace specialOpaque ConstantSamplerName
     ConstantPipeStorageName SamplerType PipeStorageType).
Abbreviation vImgExt :=
  (ImgExt LTypes ConstantSamplerName ConstantPipeStorageName).
Abbreviation vWExt := (WExtX ConstantIntId None).
Abbreviation vtransFunctionDecl :=
  (Writer.transFunctionDecl LValues getAdaptedType isKnownIntrinsic
     SPIRVAllowUnknownIntrinsics).
Abbreviation vtransDirectCallInst :=
  (Writer.transDirectCallInst LValues getAdaptedType isKnownIntrinsic
     builtinOp SPIRVAllowUnknownIntrinsics).
Abbreviation vtransCallInst :=
  (Writer.transCallInst isAllowedToUseExtension LValues getAdaptedType
     isKnownIntrinsic builtinOp SPV_INTEL_inline_assembly_allowed
     SPIRVAllowUnknownIntrinsics).
Abbreviation vtransValueStep :=
  (Writer.transValueStep LTypes isAllowedToUseExtension LValues getAdaptedType
     isKnownIntrinsic builtinOp intrinsicCase OpCodeMap
     SPV_INTEL_inline_assembly_allowed SPIRVAllowUnknownIntrinsics).
Abbreviation vtransValueWithoutDecoration :=
  (Writer.transValueWithoutDecoration LTypes isAllowedToUseExtension LValues
     getAdaptedType isKnownIntrinsic builtinOp intrinsicCase OpCodeMap
     SPV_INTEL_inline_assembly_allowed SPIRVAllowUnknownIntrinsics).
Abbreviation vtransFunction :=
  (Writer.transFunction LTypes isAllowedToUseExtension mapAddrSpace
     specialOpaque ConstantSamplerName ConstantPipeStorageName SamplerType
     PipeStorageType SizetType ConstantIntId LValues getAdaptedType
     isKnownIntrinsic builtinOp intrinsicCase OpCodeMap
     SPV_INTEL_inline_assembly_allowed SPIRVAllowUnknownIntrinsics).
Abbreviation vtransFunctions :=
  (Writer.transFunctions LTypes isAllowedToUseExtension mapAddrSpace
     specialOpaque ConstantSamplerName ConstantPipeStorageName SamplerType
     PipeStorageType SizetType ConstantIntId LValues getAdaptedType
     isKnownIntrinsic builtinOp intrinsicCase OpCodeMap
     SPV_INTEL_inline_assembly_allowed SPIRVAllowUnknownIntrinsics).
Abbreviation vtransFunctionDecls :=
  (Writer.transFunctionDecls LTypes isAllowedToUseExtension mapAddrSpace
     specialOpaque ConstantSamplerName ConstantPipeStorageName SamplerType
     PipeStorageType SizetType ConstantIntId LValues getAdaptedType
     isKnownIntrinsic SPIRVAllowUnknownIntrinsics).
Abbreviation vtranslateFunctions :=
  (Writer.translateFunctions LTypes isAllowedToUseExtension mapAddrSpace
     specialOpaque ConstantSamplerName ConstantPipeStorageName SamplerType
     PipeStorageType SizetType ConstantIntId LValues ModuleFunctions
     getAdaptedType isKnownIntrinsic builtinOp intrinsicCase OpCodeMap
     isSkippedFunction SPV_INTEL_inline_assembly_allowed
     SPIRVAllowUnknownIntrinsics).
Abbreviation vDefs := (Writer.Defs LValues ModuleFunctions isSkippedFunction).
Abbreviation vDecls := (Writer.Decls LValues ModuleFunctions isSkippedFunction).
Abbreviation vusersOf := (Writer.usersOf LValues).
Abbreviation vnameOf := (Writer.nameOf LValues).
Abbreviation visDeclaration := (Writer.isDeclaration LValues).

(** *** The contraction status *)

(** The order in which [joinFPContract] moves a status. *)
Definition fpLe (a b : FPContract) : Prop :=
  match a, b with
  | UNDEF, _ | ENABLED, ENABLED | ENABLED, DISABLED | DISABLED, DISABLED => True
  | _, _ => False
  end.

Lemma fpLe_refl a : fpLe a a.
Proof. now destruct a. Qed.

Lemma fpLe_trans a b c : fpLe a b -> fpLe b c -> fpLe a c.
Proof. now destruct a, b, c. Qed.

Lemma fpLe_DISABLED a : fpLe DISABLED a -> a = DISABLED.
Proof. now destruct a. Qed.

Lemma joinFPContract_frame F C st :
  let st' := snd (joinFPContract F C st) in
  TypeMap st' = TypeMap st ∧ ValueMap st' = ValueMap st
  ∧ Entries st' = Entries st ∧ NextId st' = NextId st.
Proof.
  unfold joinFPContract. destruct (getFPContract F st), C; cbn; auto.
Qed.

Lemma joinFPContract_get F C st F' :
  getFPContract F' (snd (joinFPContract F C st))
  = if decide (F' = F)
    then match getFPContract F st, C with
         | UNDEF, _ => C
         | ENABLED, DISABLED => DISABLED
         | e, _ => e
         end
    else getFPContract F' st.
Proof.
  unfold joinFPContract.
  destruct (decide (F' = F)) as [->|Hd].
  - destruct (getFPContract F st) eqn:E, C; cbn; unfold getFPContract; cbn;
      rewrite lookup_insert_eq; reflexivity.
  - destruct (getFPContract F st) eqn:E, C; cbn; unfold getFPContract; cbn;
      rewrite lookup_insert_ne by congruence; reflexivity.
Qed.

Lemma joinFPContract_le F C st F' :
  fpLe (getFPContract F' st) (getFPContract F' (snd (joinFPContract F C st))).
Proof.
  rewrite joinFPContract_get. destruct (decide (F' = F)) as [->|Hd];
    [|apply fpLe_refl].
  now destruct (getFPContract F st), C.
Qed.

Lemma joinFPContract_DISABLED F st :
  getFPContract F (snd (joinFPContract F DISABLED st)) = DISABLED.
Proof.
  rewrite joinFPContract_get, decide_True by reflexivity.
  now destruct (getFPContract F st).
Qed.

Lemma joinFPContract_other F C st F' :
  F' ≠ F ->
  getFPContract F' (snd (joinFPContract F C st)) = getFPContract F' st.
Proof. intros H. now rewrite joinFPContract_get, decide_False. Qed.

(** The status is updated exactly when it changes. *)
Lemma joinFPContract_updated F C st :
  fst (joinFPContract F C st) = false ->
  getFPContract F (snd (joinFPContract F C st)) = getFPContract F st
  ∧ (C = DISABLED -> getFPContract F st = DISABLED).
Proof.
  intros H. rewrite joinFPContract_get, decide_True by reflexivity.
  revert H. unfold joinFPContract.
  destruct (getFPContract F st), C; cbn; intros H; try discriminate H;
    (split; [reflexivity|congruence]).
Qed.

Lemma joinFPContract_updated_true F C st :
  fst (joinFPContract F C st) = true ->
  getFPContract F (snd (joinFPContract F C st)) = C.
Proof.
  intros H. rewrite joinFPContract_get, decide_True by reflexivity.
  revert H. unfold joinFPContract.
  destruct (getFPContract F st), C; cbn; intros; try discriminate; auto.
Qed.

(** *** Propagation along the users *)

Definition isFunctionV (V : nat) : Prop :=
  ∃ N PT NA Bs, LValues !! V = Some (FunctionV N PT NA Bs).

Definition isConstantV (V : nat) : Prop :=
  (∃ Ty v, LValues !! V = Some (ConstantIntV Ty v))
  ∨ (∃ Ty Ops, LValues !! V = Some (ConstantExprV Ty Ops)).

(** [reaches U F]: the user [U] belongs to the function [F]: it is an
    instruction of [F], or [F] itself, or a constant with a user that
    belongs to [F]. *)
Inductive reaches : nat -> nat -> Prop :=
| reaches_inst U P Ty I :
    LValues !! U = Some (InstructionV P Ty I) -> isFunctionV P -> reaches U P
| reaches_func U : isFunctionV U -> reaches U U
| reaches_const U u F :
    isConstantV U -> u ∈ vusersOf U -> reaches u F -> reaches U F.

(** The disabled functions are closed under use: whatever uses a function
    without contraction is without contraction. *)
Definition closedUnder (st : State) : Prop :=
  ∀ F, getFPContract F st = DISABLED ->
  ∀ u, u ∈ vusersOf F -> ∀ f, reaches u f -> getFPContract f st = DISABLED.

(** The same with a queue of users that are still to be visited. *)
Definition closedUpTo (Q : list nat) (st : State) : Prop :=
  ∀ F, getFPContract F st = DISABLED ->
  ∀ u, u ∈ vusersOf F -> ∀ f, reaches u f ->
    getFPContract f st = DISABLED ∨ ∃ q, q ∈ Q ∧ reaches q f.

(** What the propagation leaves as it is. *)
Definition sameButFPContract (st st' : State) : Prop :=
  TypeMap st' = TypeMap st ∧ ValueMap st' = ValueMap st
  ∧ Entries st' = Entries st ∧ NextId st' = NextId st
  ∧ ∀ f, fpLe (getFPContract f st) (getFPContract f st').

Lemma sameButFPContract_refl st : sameButFPContract st st.
Proof. unfold sameButFPContract. auto using fpLe_refl. Qed.

Lemma sameButFPContract_trans a b c :
  sameButFPContract a b -> sameButFPContract b c -> sameButFPContract a c.
Proof.
  intros (A1 & B1 & C1 & D1 & E1) (A2 & B2 & C2 & D2 & E2).
  unfold sameButFPContract.
  split; [congruence|]. split; [congruence|]. split; [congruence|].
  split; [congruence|]. intros f. eapply fpLe_trans; eauto.
Qed.

Lemma sameButFPContract_join F C st :
  sameButFPContract st (snd (joinFPContract F C st)).
Proof.
  destruct (joinFPContract_frame F C st) as (A & B & C' & D).
  unfold sameButFPContract. auto using joinFPContract_le.
Qed.

Lemma reaches_of_function U f : isFunctionV U -> reaches U f -> f = U.
Proof.
  intros (N & PT & NA & Bs & HU) H.
  destruct H as [U P Ty I H1 H2|U H1|U u F [(Ty & v & H1)|(Ty & Ops & H1)] H2 H3];
    congruence.
Qed.

Lemma fpContractLoop_DISABLED fuel :
  ∀ Q st st',
    Writer.fpContractLoop LValues fuel Q DISABLED st = Ok st' ->
    closedUpTo Q st -> closedUnder st' ∧ sameButFPContract st st'.
Proof.
  induction fuel as [|fuel IH]; intros Q st st' H HQ.
  - destruct Q; [|discriminate]. injection H as <-.
    split; [|apply sameButFPContract_refl].
    intros F HF u Hu f Hr.
    destruct (HQ F HF u Hu f Hr) as [?|(q & Hq & _)]; [assumption|].
    now apply not_elem_of_nil in Hq.
  - destruct Q as [|U Q'].
    { injection H as <-. split; [|apply sameButFPContract_refl].
      intros F HF u Hu f Hr.
      destruct (HQ F HF u Hu f Hr) as [?|(q & Hq & _)]; [assumption|].
      now apply not_elem_of_nil in Hq. }
    cbn [Writer.fpContractLoop] in H.
    destruct (LValues !! U) as [[N PT NA Bs|P0 Is|P0 k|Ty v|Ty Ops|P Ty I]|] eqn:EU;
      try discriminate.
    + (* a function *)
      assert (HFU : isFunctionV U) by (repeat eexists; eauto).
      destruct (joinFPContract U DISABLED st) as [updated st1] eqn:EJ.
      assert (E1 : st1 = snd (joinFPContract U DISABLED st)) by now rewrite EJ.
      assert (Eb : updated = fst (joinFPContract U DISABLED st)) by now rewrite EJ.
      pose proof (sameButFPContract_join U DISABLED st) as HS. rewrite <- E1 in HS.
      assert (HU1 : getFPContract U st1 = DISABLED).
      { subst st1. apply joinFPContract_DISABLED. }
      assert (Hold : ∀ F, F ≠ U -> getFPContract F st1 = getFPContract F st).
      { intros F HF. subst st1. now apply joinFPContract_other. }
      assert (Hmono : ∀ f, getFPContract f st = DISABLED ->
                              getFPContract f st1 = DISABLED).
      { intros f Hf. destruct HS as (_ & _ & _ & _ & HS).
        specialize (HS f). rewrite Hf in HS. now apply fpLe_DISABLED. }
      destruct updated.
      * destruct (IH _ _ _ H) as [HC HS']; [|split; [assumption|]].
        -- intros F HF u Hu f Hr.
           destruct (decide (F = U)) as [->|Hd].
           ++ right. exists u. split; [|assumption].
              apply elem_of_app. now right.
           ++ rewrite Hold in HF by assumption.
              destruct (HQ F HF u Hu f Hr) as [?|(q & Hq & Hrq)]; [auto|].
              apply elem_of_cons in Hq as [->|Hq].
              ** left. now rewrite (reaches_of_function _ _ HFU Hrq).
              ** right. exists q. split; [|assumption].
                 apply elem_of_app. now left.
        -- eapply sameButFPContract_trans; eauto.
      * destruct (joinFPContract_updated U DISABLED st) as [_ HD];
          [now rewrite <- Eb|].
        specialize (HD eq_refl).
        destruct (IH _ _ _ H) as [HC HS']; [|split; [assumption|]].
        -- intros F HF u Hu f Hr.
           assert (HF0 : getFPContract F st = DISABLED).
           { destruct (decide (F = U)) as [->|Hd]; [assumption|].
             now rewrite <- Hold. }
           destruct (HQ F HF0 u Hu f Hr) as [?|(q & Hq & Hrq)]; [auto|].
           apply elem_of_cons in Hq as [->|Hq]; [|eauto].
           left. now rewrite (reaches_of_function _ _ HFU Hrq).
        -- eapply sameButFPContract_trans; eauto.
    + (* an integer constant *)
      apply IH in H; [assumption|].
      intros F HF u Hu f Hr.
      destruct (HQ F HF u Hu f Hr) as [?|(q & Hq & Hrq)]; [auto|].
      right. apply elem_of_cons in Hq as [->|Hq].
      * destruct Hrq as [U P Ty' I H1 H2|U [? [? [? [? H1]]]]|U u' F' Hc H2 H3];
          try congruence.
        exists u'. split; [|assumption]. apply elem_of_app. now right.
      * exists q. split; [|assumption]. apply elem_of_app. now left.
    + (* a constant expression *)
      apply IH in H; [assumption|].
      intros F HF u Hu f Hr.
      destruct (HQ F HF u Hu f Hr) as [?|(q & Hq & Hrq)]; [auto|].
      right. apply elem_of_cons in Hq as [->|Hq].
      * destruct Hrq as [U P Ty' I H1 H2|U [? [? [? [? H1]]]]|U u' F' Hc H2 H3];
          try congruence.
        exists u'. split; [|assumption]. apply elem_of_app. now right.
      * exists q. split; [|assumption]. apply elem_of_app. now left.
    + (* an instruction *)
      apply IH in H; [assumption|].
      intros F HF u Hu f Hr.
      destruct (HQ F HF u Hu f Hr) as [?|(q & Hq & Hrq)]; [auto|].
      right. apply elem_of_cons in Hq as [->|Hq].
      * destruct Hrq as [U P' Ty' I' H1 H2|U [? [? [? [? H1]]]]
                        |U u' F' [(? & ? & Hc)|(? & ? & Hc)] H2 H3];
          try congruence.
        rewrite EU in H1. injection H1 as <- <- <-.
        exists P. split; [apply elem_of_app; right; now apply list_elem_of_singleton|].
        now apply reaches_func.
      * exists q. split; [|assumption]. apply elem_of_app. now left.
Qed.

(** *** The invariant of the table of values *)

Definition isInstructionV (V : nat) : Prop :=
  ∃ P Ty I, LValues !! V = Some (InstructionV P Ty I).

(** A value is pending while its entry in the table is a forward
    reference, and resolved from the moment it is another entry. *)
Definition pending (st : State) (V : nat) : Prop :=
  ∃ b, ValueMap st !! V = Some b ∧ isForward st b = true.

Definition resolved (st : State) (V : nat) : Prop :=
  ∃ b, ValueMap st !! V = Some b ∧ isForward st b = false.

(** The calls behind which the translator sees no body: inline assembly,
    a call through a pointer, and a call of a declaration that
    [transDirectCallInst] translates as a call: the callee is no
    intrinsic, whatever becomes of its call, and no sampler cast, builtin
    or extended instruction. *)
Definition opaqueCallee (Called : CalledOperand) : bool :=
  match Called with
  | CalledInlineAsm => SPV_INTEL_inline_assembly_allowed
  | CalledValue _ => true
  | CalledFunction Callee =>
      negb (isIntrinsic (vnameOf Callee))
      && match builtinOp (vnameOf Callee) with
         | None => visDeclaration Callee
         | Some _ => false
         end
  end.

(** The calls that [transIntrinsicInst] answers with [nullptr]: they get
    no entry in the table of values. *)
Definition droppedCall (I : Instruction) : bool :=
  match I with
  | CallInst (CalledFunction Callee) _ =>
      isIntrinsic (vnameOf Callee)
      && match intrinsicCase (vnameOf Callee) with
         | IntrinsicDropped | IntrinsicNeedsExtension => true
         | _ => false
         end
  | _ => false
  end.

Definition isDroppedV (V : nat) : Prop :=
  ∃ P Ty I, LValues !! V = Some (InstructionV P Ty I) ∧ droppedCall I = true.

(** The instructions whose translation disables contraction for their
    function. *)
Definition disablesContraction (I : Instruction) : bool :=
  match I with
  | CallInst Called _ => opaqueCallee Called
  | BinaryOperator _ _ _ UnfusedMulAdd => UnfusedMulAdd
  | OtherInstruction _ _ => false
  end.

Record VInv (st : State) : Prop := mkVInv {
  vinv_types : vInv st;
  vinv_ids : ∀ V b, ValueMap st !! V = Some b -> (b < NextId st)%nat;
  vinv_forward_inj :
    ∀ V V' b, ValueMap st !! V = Some b -> ValueMap st !! V' = Some b ->
              isForward st b = true -> V = V';
  vinv_forward_inst :
    ∀ V b, ValueMap st !! V = Some b -> isForward st b = true ->
           isInstructionV V;
  vinv_forward_mapped :
    ∀ id BT, Entries st !! id = Some (EForward BT) ->
             ∃ V, ValueMap st !! V = Some id;
  vinv_disabled :
    ∀ i b P Ty I, ValueMap st !! i = Some b -> isForward st b = false ->
                  LValues !! i = Some (InstructionV P Ty I) ->
                  disablesContraction I = true ->
                  getFPContract P st = DISABLED;
  vinv_params :
    ∀ id BT Ps p, Entries st !! id = Some (EFunctionV BT Ps) -> p ∈ Ps ->
                  ∃ F k, Entries st !! p = Some (EFunctionParameter F k)
}.

Record VExt (st st' : State) : Prop := mkVExt {
  vext_types : TypeMap st ⊆ TypeMap st';
  vext_values : ValueMap st ⊆ ValueMap st';
  vext_next : (NextId st <= NextId st')%nat;
  vext_forward :
    ∀ id BT, Entries st' !! id = Some (EForward BT) ->
             Entries st !! id = Some (EForward BT) ∨ (NextId st <= id)%nat;
  vext_fp : ∀ f, fpLe (getFPContract f st) (getFPContract f st')
}.

Lemma VExt_refl st : VExt st st.
Proof. split; auto using fpLe_refl. Qed.

Lemma VExt_trans a b c : VExt a b -> VExt b c -> VExt a c.
Proof.
  intros [A1 B1 C1 D1 E1] [A2 B2 C2 D2 E2]. split.
  - etrans; eauto.
  - etrans; eauto.
  - lia.
  - intros id BT H. destruct (D2 _ _ H) as [H'|H']; [|right; lia].
    destruct (D1 _ _ H') as [?|?]; [now left|right; lia].
  - intros f. eapply fpLe_trans; eauto.
Qed.

Lemma isForward_true st b :
  isForward st b = true ↔ ∃ BT, Entries st !! b = Some (EForward BT).
Proof.
  unfold isForward. destruct (Entries st !! b) as [[]|]; split;
    try discriminate; eauto; intros [BT H]; discriminate.
Qed.

Lemma isForward_same st st' b :
  Entries st' !! b = Entries st !! b -> isForward st' b = isForward st b.
Proof. unfold isForward. now intros ->. Qed.

Lemma pending_or_resolved st V b :
  ValueMap st !! V = Some b -> pending st V ∨ resolved st V.
Proof.
  intros H. destruct (isForward st b) eqn:E; [left|right]; exists b; auto.
Qed.

Lemma pending_not_resolved st V : pending st V -> resolved st V -> False.
Proof. intros (b & H1 & H2) (b' & H3 & H4). congruence. Qed.

(** Resolved values stay resolved. *)
Lemma resolved_mono st st' V :
  VInv st -> VExt st st' -> resolved st V -> resolved st' V.
Proof.
  intros HI HE (b & Hb & Hf). exists b.
  split; [eapply lookup_weaken; eauto using vext_values|].
  destruct (isForward st' b) eqn:E; [|reflexivity].
  apply isForward_true in E as [BT E].
  destruct (vext_forward _ _ HE _ _ E) as [H|H].
  - assert (isForward st b = true) by (apply isForward_true; eauto). congruence.
  - pose proof (vinv_ids _ HI _ _ Hb). lia.
Qed.

(** The invariant of the types needs the types only. *)
Lemma WInv_frame st st' :
  vInv st -> TypeMap st' = TypeMap st -> (NextId st <= NextId st')%nat ->
  (∀ id e, Entries st !! id = Some e -> isTypeEntry e = true ->
           Entries st' !! id = Some e) ->
  (∀ id, is_Some (Entries st' !! id) -> (id < NextId st')%nat) ->
  vInv st'.
Proof.
  intros (I1 & I2 & I3 & I4 & I5) HT HN HE Hid.
  assert (HX : vImgExt st st').
  { split.
    - intros T N els P id _ H. now rewrite HT.
    - intros id e H Ht _. now apply HE. }
  split; [|split; [|split; [|split]]].
  - intros T id H. rewrite HT in H.
    eapply Img_mono; eauto.
  - intros T N els P sid HR H. rewrite HT in H.
    destruct (I2 _ _ _ _ _ HR H) as (Ms & C & P' & Cl & E1 & E2 & E3).
    exists Ms, C, P', Cl. split; [now apply HE|]. split; [assumption|].
    intros k m Hk. destruct (E3 _ _ Hk) as (el & ? & ?).
    exists el. split; [assumption|]. eapply Img_mono; eauto.
  - assumption.
  - intros T id H. rewrite HT in H. specialize (I4 _ _ H). lia.
  - intros T T' N els P N' els' P' sid H1 H2 L1 L2. rewrite HT in L1, L2.
    eapply I5; eauto.
Qed.

(** A change of the contraction statuses that disables no less. *)
Lemma VInv_fp st st' :
  VInv st -> sameButFPContract st st' -> VInv st' ∧ VExt st st'.
Proof.
  intros [I1 I2 I3 I4 I5 I6 I7] (A & B & C & D & E).
  assert (HF : ∀ b, isForward st' b = isForward st b).
  { intros b. apply isForward_same. now rewrite C. }
  split; [split|split].
  - eapply WInv_frame; eauto; [lia|now rewrite C|].
    intros id H. rewrite C in H. rewrite D.
    destruct I1 as (_ & _ & J & _). now apply J.
  - intros V b H. rewrite B in H. rewrite D. eauto.
  - intros V V' b H1 H2 H3. rewrite B in H1, H2. rewrite HF in H3. eauto.
  - intros V b H1 H2. rewrite B in H1. rewrite HF in H2. eauto.
  - intros id BT H. rewrite C in H. rewrite B. eauto.
  - intros i b P Ty I H1 H2 H3 H4. rewrite B in H1. rewrite HF in H2.
    specialize (I6 _ _ _ _ _ H1 H2 H3 H4). specialize (E P).
    rewrite I6 in E. now apply fpLe_DISABLED.
  - intros id BT Ps p H Hp. rewrite C in *. eauto.
  - now rewrite A.
  - now rewrite B.
  - lia.
  - intros id BT H. rewrite C in H. now left.
  - exact E.
Qed.

Lemma VInv_join F C st :
  VInv st ->
  VInv (snd (joinFPContract F C st)) ∧ VExt st (snd (joinFPContract F C st)).
Proof. intros H. apply VInv_fp; [assumption|apply sameButFPContract_join]. Qed.

(** The constants that the types of arrays need are no instructions. *)
Hypothesis HconstId : ∀ T v, ¬ isInstructionV (ConstantIntId T v).

(** The translation of a type leaves the values as they are, but for the
    constants it adds. *)
Lemma transType_VInv fuel T st id st' :
  VInv st -> vtransType fuel T st = Ok (id, st') ->
  VInv st' ∧ VExt st st'
  ∧ FPContractMap st' = FPContractMap st
  ∧ (∀ V, pending st' V -> pending st V)
  ∧ (∀ V, isInstructionV V -> ValueMap st' !! V = ValueMap st !! V).
Proof.
  intros [I1 I2 I3 I4 I5 I6 I7] H.
  destruct (wtransType_spec _ _ _ _ _ _ _ _ _ _ _ _ _ _ _ I1 H)
    as (J1 & (A & B & C & D & E & F & G) & _ & _).
  assert (HD : ∀ i e, Entries st !! i = Some e -> Entries st' !! i = Some e).
  { intros i e Hi. apply D; [assumption|]. left. discriminate. }
  assert (Hfw : ∀ b, isForward st' b = true -> isForward st b = true).
  { intros b Hb. apply isForward_true in Hb as [BT Hb]. apply isForward_true.
    destruct (G _ _ Hb) as [?|[Ht|(BT' & ws & Hc)]]; [eauto|discriminate..]. }
  assert (Hfw' : ∀ b, isForward st b = true -> isForward st' b = true).
  { intros b Hb. apply isForward_true in Hb as [BT Hb]. apply isForward_true.
    eauto. }
  assert (Hold : ∀ V b, ValueMap st' !! V = Some b -> isForward st' b = true ->
                        ValueMap st !! V = Some b).
  { intros V b HV Hb. destruct (F _ _ HV) as [?|(_ & BT & ws & Hc)];
      [assumption|].
    apply isForward_true in Hb as [BT' Hb]. congruence. }
  assert (Hinst : ∀ V, isInstructionV V ->
                       ValueMap st' !! V = ValueMap st !! V).
  { intros V HV. destruct (ValueMap st' !! V) as [b|] eqn:E1.
    - destruct (F _ _ E1) as [?|((T0 & v & ->) & _)]; [congruence|].
      now apply HconstId in HV.
    - destruct (ValueMap st !! V) as [b|] eqn:E2; [|reflexivity].
      rewrite (lookup_weaken _ _ _ _ E2 B) in E1. discriminate. }
  split; [split|split; [split|]].
  - assumption.
  - intros V b HV. destruct (F _ _ HV) as [HV'|(_ & BT & ws & Hc)].
    + specialize (I2 _ _ HV'). lia.
    + destruct J1 as (_ & _ & J3 & _). apply J3. eauto.
  - intros V V' b H1 H2 H3. eapply I3; eauto.
  - intros V b H1 H2. eapply I4; eauto.
  - intros i BT Hi.
    destruct (G _ _ Hi) as [Hi'|[Ht|(BT' & ws & Hc)]]; [|discriminate..].
    destruct (I5 _ _ Hi') as [V HV]. exists V. eapply lookup_weaken; eauto.
  - intros i b P Ty I H1 H2 H3 H4.
    assert (HV : isInstructionV i) by (repeat eexists; eauto).
    rewrite (Hinst _ HV) in H1.
    unfold getFPContract. rewrite E. eapply I6; eauto.
    destruct (isForward st b) eqn:Eb; [|reflexivity].
    rewrite (Hfw' _ Eb) in H2. discriminate.
  - intros i BT Ps p Hi Hp.
    destruct (G _ _ Hi) as [Hi'|[Ht|(BT' & ws & Hc)]]; [|discriminate..].
    destruct (I7 _ _ _ _ Hi' Hp) as (F0 & k & Hk). eauto.
  - assumption.
  - assumption.
  - assumption.
  - intros i BT Hi.
    destruct (G _ _ Hi) as [Hi'|[Ht|(BT' & ws & Hc)]]; [|discriminate..].
    now left.
  - intros f. unfold getFPContract. rewrite E. apply fpLe_refl.
  - split; [assumption|]. split; [|assumption].
    intros V (b & HV & Hb). exists b. split; [eapply Hold; eauto|auto].
Qed.

Definition isForwardEntry (e : SPIRVEntry) : bool :=
  match e with EForward _ => true | _ => false end.

(** The entries that stand for values, the functions apart. *)
Definition isValueEntry (e : SPIRVEntry) : bool :=
  negb (isTypeEntry e)
  && match e with EFunctionV _ _ => false | _ => true end.

(** What is asked of the instruction behind a new entry that is no
    forward reference. *)
Definition disabledFor (st : State) (V : nat) : Prop :=
  ∀ P Ty I, LValues !! V = Some (InstructionV P Ty I) ->
            disablesContraction I = true -> getFPContract P st = DISABLED.

Lemma VInv_fresh st : VInv st -> Entries st !! NextId st = None.
Proof.
  intros [I1 _ _ _ _ _ _]. destruct I1 as (_ & _ & J & _).
  destruct (Entries st !! NextId st) eqn:E; [|reflexivity].
  assert (NextId st < NextId st)%nat by (apply J; eauto). lia.
Qed.

(** A new entry for a value that has none. *)
Lemma VInv_new st e V :
  VInv st -> isValueEntry e = true -> ValueMap st !! V = None ->
  (isForwardEntry e = true -> isInstructionV V) ->
  (isForwardEntry e = false -> disabledFor st V) ->
  let st' := mkState (TypeMap st) (<[V := NextId st]> (ValueMap st))
               (<[NextId st := e]> (Entries st)) (S (NextId st))
               (FPContractMap st) in
  VInv st' ∧ VExt st st'
  ∧ (∀ V', pending st' V' ->
           (V' ≠ V ∧ pending st V') ∨ (V' = V ∧ isForwardEntry e = true)).
Proof.
  intros HI He HV Hfi Hdis st'.
  pose proof (VInv_fresh _ HI) as Hfresh.
  destruct HI as [I1 I2 I3 I4 I5 I6 I7].
  assert (Hother : ∀ b, b ≠ NextId st -> isForward st' b = isForward st b).
  { intros b Hb. apply isForward_same. cbn. now rewrite lookup_insert_ne. }
  assert (Hnew : isForward st' (NextId st) = isForwardEntry e).
  { unfold isForward. cbn. rewrite lookup_insert_eq. now destruct e. }
  assert (Hmap : ∀ V0 b, ValueMap st' !! V0 = Some b ->
            (V0 = V ∧ b = NextId st)
            ∨ (V0 ≠ V ∧ b ≠ NextId st ∧ ValueMap st !! V0 = Some b)).
  { intros V0 b H. cbn in H. destruct (decide (V0 = V)) as [->|Hd].
    - rewrite lookup_insert_eq in H. injection H as <-. now left.
    - rewrite lookup_insert_ne in H by congruence. right.
      split; [assumption|]. split; [|assumption].
      specialize (I2 _ _ H). lia. }
  split; [split|split; [split|]].
  - apply (WInv_frame st st' I1); [reflexivity|cbn; lia| |].
    + intros i e' Hi _. cbn. rewrite lookup_insert_ne; [assumption|congruence].
    + intros i Hi. cbn in *. destruct (decide (i = NextId st)) as [->|Hd]; [lia|].
      rewrite lookup_insert_ne in Hi by congruence.
      destruct I1 as (_ & _ & J & _). specialize (J _ Hi). lia.
  - intros V0 b H. cbn.
    destruct (Hmap _ _ H) as [[-> ->]|(_ & _ & H')]; [lia|].
    specialize (I2 _ _ H'). lia.
  - intros V1 V2 b H1 H2 H3.
    destruct (Hmap _ _ H1) as [[-> ->]|(? & ? & H1')],
             (Hmap _ _ H2) as [[-> E2]|(? & ? & H2')]; try congruence.
    rewrite Hother in H3 by assumption. eauto.
  - intros V0 b H1 H2.
    destruct (Hmap _ _ H1) as [[-> ->]|(? & ? & H1')].
    + apply Hfi. now rewrite <- Hnew.
    + rewrite Hother in H2 by assumption. eauto.
  - intros i BT Hi. cbn in Hi. destruct (decide (i = NextId st)) as [->|Hd].
    + exists V. cbn. apply lookup_insert_eq.
    + rewrite lookup_insert_ne in Hi by congruence.
      destruct (I5 _ _ Hi) as [V0 H0]. exists V0. cbn.
      rewrite lookup_insert_ne; [assumption|congruence].
  - intros i b P Ty I H1 H2 H3 H4.
    change (getFPContract P st') with (getFPContract P st).
    destruct (Hmap _ _ H1) as [[-> ->]|(? & ? & H1')].
    + rewrite Hnew in H2. eapply Hdis; eauto.
    + rewrite Hother in H2 by assumption. eauto.
  - intros i BT Ps p Hi Hp. cbn in Hi. destruct (decide (i = NextId st)) as [->|Hd].
    + rewrite lookup_insert_eq in Hi. injection Hi as ->.
      apply andb_prop in He as [_ He]. discriminate.
    + rewrite lookup_insert_ne in Hi by congruence.
      destruct (I7 _ _ _ _ Hi Hp) as (F0 & k & Hk). exists F0, k. cbn.
      rewrite lookup_insert_ne; [assumption|congruence].
  - reflexivity.
  - cbn. now apply insert_subseteq.
  - cbn. lia.
  - intros i BT Hi. cbn in Hi. destruct (decide (i = NextId st)) as [->|Hd].
    + now right.
    + rewrite lookup_insert_ne in Hi by congruence. now left.
  - intros f. apply fpLe_refl.
  - intros V' (b & H1 & H2).
    destruct (Hmap _ _ H1) as [[-> ->]|(? & ? & H1')].
    + right. split; [reflexivity|]. now rewrite <- Hnew.
    + left. split; [assumption|]. exists b. split; [assumption|].
      now rewrite <- Hother.
Qed.

(** The entry that takes the place of the forward reference to a value. *)
Lemma VInv_resolve st e V b BT :
  VInv st -> isValueEntry e = true -> isForwardEntry e = false ->
  ValueMap st !! V = Some b -> Entries st !! b = Some (EForward BT) ->
  disabledFor st V ->
  let st' := mkState (TypeMap st) (ValueMap st) (<[b := e]> (Entries st))
               (S (NextId st)) (FPContractMap st) in
  VInv st' ∧ VExt st st'
  ∧ (∀ V', pending st' V' -> V' ≠ V ∧ pending st V').
Proof.
  intros HI He Hnf HV Hb Hdis st'.
  destruct HI as [I1 I2 I3 I4 I5 I6 I7].
  assert (Hfb : isForward st b = true) by (apply isForward_true; eauto).
  assert (Hother : ∀ b0, b0 ≠ b -> isForward st' b0 = isForward st b0).
  { intros b0 Hb0. apply isForward_same. cbn. now rewrite lookup_insert_ne. }
  assert (Hnew : isForward st' b = false).
  { unfold isForward. cbn. rewrite lookup_insert_eq. now destruct e. }
  assert (Hfw : ∀ b0, isForward st' b0 = true ->
                      b0 ≠ b ∧ isForward st b0 = true).
  { intros b0 H0. destruct (decide (b0 = b)) as [->|Hd]; [congruence|].
    split; [assumption|]. now rewrite <- Hother. }
  split; [split|split; [split|]].
  - apply (WInv_frame st st' I1); [reflexivity|cbn; lia| |].
    + intros i e' Hi Ht. cbn. rewrite lookup_insert_ne; [assumption|].
      intros <-. rewrite Hb in Hi. injection Hi as <-. discriminate.
    + intros i Hi. cbn in *. destruct (decide (i = b)) as [->|Hd].
      * specialize (I2 _ _ HV). lia.
      * rewrite lookup_insert_ne in Hi by congruence.
        destruct I1 as (_ & _ & J & _). specialize (J _ Hi). lia.
  - intros V0 b0 H. cbn in *. specialize (I2 _ _ H). lia.
  - intros V1 V2 b0 H1 H2 H3. apply Hfw in H3 as [_ H3]. cbn in *. eauto.
  - intros V0 b0 H1 H2. apply Hfw in H2 as [_ H2]. cbn in *. eauto.
  - intros i BT' Hi. cbn in *. destruct (decide (i = b)) as [->|Hd].
    + eauto.
    + rewrite lookup_insert_ne in Hi by congruence. eauto.
  - intros i b0 P Ty I H1 H2 H3 H4. cbn in H1.
    change (getFPContract P st') with (getFPContract P st).
    destruct (decide (b0 = b)) as [->|Hd].
    + assert (i = V) as -> by (eapply I3; eauto). eapply Hdis; eauto.
    + rewrite Hother in H2 by assumption. eauto.
  - intros i BT' Ps p Hi Hp. cbn in Hi. destruct (decide (i = b)) as [->|Hd].
    + rewrite lookup_insert_eq in Hi. injection Hi as ->.
      apply andb_prop in He as [_ He]. discriminate.
    + rewrite lookup_insert_ne in Hi by congruence.
      destruct (I7 _ _ _ _ Hi Hp) as (F0 & k & Hk). exists F0, k. cbn.
      rewrite lookup_insert_ne; [assumption|congruence].
  - reflexivity.
  - reflexivity.
  - cbn. lia.
  - intros i BT' Hi. cbn in Hi. destruct (decide (i = b)) as [->|Hd].
    + rewrite lookup_insert_eq in Hi. injection Hi as ->. discriminate.
    + rewrite lookup_insert_ne in Hi by congruence. now left.
  - intros f. apply fpLe_refl.
  - intros V' (b0 & H1 & H2). apply Hfw in H2 as [Hd H2]. cbn in H1.
    split; [intros ->; congruence|]. exists b0. auto.
Qed.

(** [mapValue] of an entry that has just been added. *)
Lemma mapValue_addEntry st e V b st' :
  VInv st ->
  mapValue V (NextId st) (snd (addEntry e st)) = Ok (b, st') ->
  (ValueMap st !! V = None ∧ b = NextId st
   ∧ st' = mkState (TypeMap st) (<[V := NextId st]> (ValueMap st))
             (<[NextId st := e]> (Entries st)) (S (NextId st))
             (FPContractMap st))
  ∨ (∃ BT, ValueMap st !! V = Some b
           ∧ Entries st !! b = Some (EForward BT)
           ∧ st' = mkState (TypeMap st) (ValueMap st)
                     (<[b := e]> (Entries st)) (S (NextId st))
                     (FPContractMap st)).
Proof.
  intros HI H. pose proof (VInv_fresh _ HI) as Hfresh.
  unfold mapValue, addEntry in H. cbn in H.
  destruct (ValueMap st !! V) as [Old|] eqn:EV.
  - pose proof (vinv_ids _ HI _ _ EV) as Hlt.
    destruct (Nat.eqb_spec Old (NextId st)) as [->|Hne]; [lia|].
    unfold isForward in H. cbn in H.
    rewrite lookup_insert_ne in H by congruence.
    destruct (Entries st !! Old) as [[]|] eqn:EO; try discriminate.
    unfold replaceForward, setValueMap, setEntries in H. cbn in H.
    rewrite lookup_insert_eq in H. cbn in H. injection H as <- <-.
    right. eexists. split; [reflexivity|]. split; [exact EO|].
    rewrite delete_insert_id by assumption.
    now rewrite (insert_id (ValueMap st)) by assumption.
  - injection H as <- <-. left. auto.
Qed.

Lemma mapNew_spec st e V b st' :
  VInv st -> isValueEntry e = true ->
  (isForwardEntry e = true -> isInstructionV V ∧ ValueMap st !! V = None) ->
  (isForwardEntry e = false -> disabledFor st V) ->
  mapValue V (NextId st) (snd (addEntry e st)) = Ok (b, st') ->
  VInv st' ∧ VExt st st'
  ∧ ValueMap st' !! V = Some b ∧ Entries st' !! b = Some e
  ∧ FPContractMap st' = FPContractMap st
  ∧ (∀ V', pending st' V' ->
           (V' ≠ V ∧ pending st V') ∨ (V' = V ∧ isForwardEntry e = true)).
Proof.
  intros HI He Hf Hd H.
  destruct (mapValue_addEntry _ _ _ _ _ HI H)
    as [(HV & -> & ->)|(BT & HV & Hb & ->)].
  - destruct (VInv_new st e V HI He HV) as (J & X & Pn); [tauto|assumption|].
    split; [assumption|]. split; [assumption|].
    split; [cbn; apply lookup_insert_eq|].
    split; [cbn; apply lookup_insert_eq|]. split; [reflexivity|assumption].
  - destruct (isForwardEntry e) eqn:Ef.
    { destruct (Hf eq_refl) as [_ Hn]. congruence. }
    destruct (VInv_resolve st e V b BT HI He Ef HV Hb (Hd eq_refl))
      as (J & X & Pn).
    split; [assumption|]. split; [assumption|].
    split; [assumption|]. split; [cbn; apply lookup_insert_eq|].
    split; [reflexivity|]. intros V' HV'. left. now apply Pn.
Qed.

Lemma lookup_foldr_insert (g : nat -> SPIRVEntry) Ps
    (m : gmap nat SPIRVEntry) i :
  foldr (fun p m => <[p := g p]> m) m Ps !! i
  = if decide (i ∈ Ps) then Some (g i) else m !! i.
Proof.
  induction Ps as [|p Ps IH]; cbn.
  - destruct (decide (i ∈ [])) as [H|H]; [|reflexivity].
    now apply not_elem_of_nil in H.
  - destruct (decide (i = p)) as [->|Hd].
    + rewrite lookup_insert_eq. rewrite decide_True; [reflexivity|].
      apply elem_of_cons. now left.
    + rewrite lookup_insert_ne by congruence. rewrite IH.
      destruct (decide (i ∈ Ps)) as [H|H].
      * rewrite decide_True; [reflexivity|]. apply elem_of_cons. now right.
      * rewrite decide_False; [reflexivity|].
        intros [?|?]%elem_of_cons; congruence.
Qed.

(** A function and its parameters are added. *)
Lemma VInv_addFunction st BFT k :
  VInv st ->
  let st' := snd (addFunction BFT k st) in
  VInv st' ∧ VExt st st'
  ∧ ValueMap st' = ValueMap st ∧ FPContractMap st' = FPContractMap st
  ∧ fst (addFunction BFT k st) = NextId st
  ∧ (NextId st < NextId st')%nat
  ∧ isForward st' (NextId st) = false
  ∧ (∀ V, pending st' V -> pending st V).
Proof.
  intros HI st'. pose proof (VInv_fresh _ HI) as Hfresh.
  destruct HI as [I1 I2 I3 I4 I5 I6 I7].
  assert (Hlt : ∀ i, is_Some (Entries st !! i) -> (i < NextId st)%nat).
  { destruct I1 as (_ & _ & J & _). exact J. }
  set (F := NextId st) in *.
  set (g := fun p => EFunctionParameter F (p - S F)).
  assert (Hent : ∀ i, Entries st' !! i =
            if decide (i ∈ seq (S F) k) then Some (g i)
            else if decide (i = F) then Some (EFunctionV BFT (seq (S F) k))
            else Entries st !! i).
  { intros i.
    change (Entries st' !! i) with
      (foldr (fun p m => <[p := g p]> m)
             (<[F := EFunctionV BFT (seq (S F) k)]> (Entries st))
             (seq (S F) k) !! i).
    rewrite (lookup_foldr_insert g). destruct (decide (i ∈ seq (S F) k));
      [reflexivity|].
    destruct (decide (i = F)) as [->|Hd].
    - now rewrite lookup_insert_eq.
    - now rewrite lookup_insert_ne by congruence. }
  assert (Hold : ∀ i, (i < F)%nat -> Entries st' !! i = Entries st !! i).
  { intros i Hi. rewrite Hent.
    rewrite decide_False by (rewrite elem_of_seq; lia).
    rewrite decide_False by lia. reflexivity. }
  assert (Hfw : ∀ b, isForward st' b = true ->
                     (b < F)%nat ∧ isForward st b = true).
  { intros b Hb. apply isForward_true in Hb as [BT Hb].
    rewrite Hent in Hb. destruct (decide (b ∈ seq (S F) k)); [discriminate|].
    destruct (decide (b = F)); [discriminate|].
    split; [apply Hlt; eauto|]. apply isForward_true. eauto. }
  assert (Hfw' : ∀ b, (b < F)%nat -> isForward st' b = isForward st b).
  { intros b Hb. apply isForward_same. now apply Hold. }
  split; [split|split; [split|]].
  - apply (WInv_frame st st' I1); [reflexivity|cbn; lia| |].
    + intros i e Hi _. rewrite Hold; [assumption|]. apply Hlt. eauto.
    + intros i Hi. rewrite Hent in Hi. cbn.
      destruct (decide (i ∈ seq (S F) k)) as [Hs|Hs].
      { apply elem_of_seq in Hs. fold F. lia. }
      destruct (decide (i = F)) as [->|Hd]; [fold F; lia|].
      specialize (Hlt _ Hi). fold F. lia.
  - intros V b H. cbn in *. specialize (I2 _ _ H). fold F in I2 |- *. lia.
  - intros V1 V2 b H1 H2 H3. apply Hfw in H3 as [_ H3]. cbn in *. eauto.
  - intros V b H1 H2. apply Hfw in H2 as [_ H2]. cbn in *. eauto.
  - intros i BT' Hi. rewrite Hent in Hi.
    destruct (decide (i ∈ seq (S F) k)); [discriminate|].
    destruct (decide (i = F)); [discriminate|]. cbn. eauto.
  - intros i b P Ty I H1 H2 H3 H4. cbn in H1.
    change (getFPContract P st') with (getFPContract P st).
    rewrite Hfw' in H2 by (now apply (I2 _ _ H1)). eauto.
  - intros i BT' Ps p Hi Hp. rewrite Hent in Hi.
    destruct (decide (i ∈ seq (S F) k)); [discriminate|].
    destruct (decide (i = F)) as [->|Hd].
    + injection Hi as <- <-. exists F, (p - S F)%nat.
      rewrite Hent. now rewrite decide_True.
    + destruct (I7 _ _ _ _ Hi Hp) as (F0 & k0 & Hk). exists F0, k0.
      rewrite Hold; [assumption|]. apply Hlt. eauto.
  - reflexivity.
  - reflexivity.
  - cbn. lia.
  - intros i BT' Hi. rewrite Hent in Hi.
    destruct (decide (i ∈ seq (S F) k)); [discriminate|].
    destruct (decide (i = F)); [discriminate|]. now left.
  - intros f. apply fpLe_refl.
  - split; [reflexivity|]. split; [reflexivity|]. split; [reflexivity|].
    split; [cbn; fold F; lia|]. split.
    + destruct (isForward st' F) eqn:E; [|reflexivity].
      apply Hfw in E as [E _]. lia.
    + intros V (b & H1 & H2). apply Hfw in H2 as [_ H2]. exists b. auto.
Qed.

(** A value that is no pending instruction gets an entry that exists. *)
Lemma VInv_mapped st V b :
  VInv st -> ValueMap st !! V = None -> disabledFor st V ->
  (b < NextId st)%nat -> isForward st b = false ->
  let st' := setValueMap <[V := b]> st in
  VInv st' ∧ VExt st st' ∧ (∀ V', pending st' V' -> V' ≠ V ∧ pending st V').
Proof.
  intros [I1 I2 I3 I4 I5 I6 I7] HV Hdis Hb Hnf st'.
  assert (Hmap : ∀ V0 b0, ValueMap st' !! V0 = Some b0 ->
            (V0 = V ∧ b0 = b) ∨ (V0 ≠ V ∧ ValueMap st !! V0 = Some b0)).
  { intros V0 b0 H. cbn in H. destruct (decide (V0 = V)) as [->|Hd].
    - rewrite lookup_insert_eq in H. injection H as <-. now left.
    - rewrite lookup_insert_ne in H by congruence. now right. }
  split; [split|split; [split|]].
  - apply (WInv_frame st st' I1); [reflexivity|cbn; lia|intros; assumption|].
    destruct I1 as (_ & _ & J & _). exact J.
  - intros V0 b0 H. destruct (Hmap _ _ H) as [[-> ->]|[_ H']]; cbn; eauto.
  - intros V1 V2 b0 H1 H2 H3. change (isForward st b0 = true) in H3.
    destruct (Hmap _ _ H1) as [[-> ->]|[? H1']],
             (Hmap _ _ H2) as [[-> E2]|[? H2']]; try congruence.
    eauto.
  - intros V0 b0 H1 H2. change (isForward st b0 = true) in H2.
    destruct (Hmap _ _ H1) as [[-> ->]|[? H1']]; [congruence|eauto].
  - intros i BT Hi. cbn in Hi. destruct (I5 _ _ Hi) as [V0 H0]. exists V0.
    cbn. rewrite lookup_insert_ne; [assumption|congruence].
  - intros i b0 P Ty I H1 H2 H3 H4. change (isForward st b0 = false) in H2.
    change (getFPContract P st') with (getFPContract P st).
    destruct (Hmap _ _ H1) as [[-> ->]|[? H1']]; [eapply Hdis; eauto|eauto].
  - exact I7.
  - reflexivity.
  - cbn. now apply insert_subseteq.
  - reflexivity.
  - intros i BT Hi. now left.
  - intros f. apply fpLe_refl.
  - intros V' (b0 & H1 & H2). change (isForward st b0 = true) in H2.
    destruct (Hmap _ _ H1) as [[-> ->]|[? H1']]; [congruence|].
    split; [assumption|]. exists b0. auto.
Qed.

(** [mapValue] of a value that is no instruction. *)
Lemma mapValue_other st V b r st' :
  VInv st -> ¬ isInstructionV V ->
  mapValue V b st = Ok (r, st') ->
  r = b ∧ ((ValueMap st !! V = None ∧ st' = setValueMap <[V := b]> st)
           ∨ (ValueMap st !! V = Some b ∧ st' = st)).
Proof.
  intros HI HV H. unfold mapValue in H.
  destruct (ValueMap st !! V) as [Old|] eqn:EV.
  - destruct (Nat.eqb_spec Old b) as [->|Hne].
    + injection H as <- <-. auto.
    + destruct (isForward st Old) eqn:EF; [|discriminate].
      destruct HV. eapply vinv_forward_inst; eauto.
  - injection H as <- <-. auto.
Qed.

Lemma disabledFor_other st V : ¬ isInstructionV V -> disabledFor st V.
Proof. intros HV P Ty I H _. destruct HV. repeat eexists; eauto. Qed.

Lemma mapOther_spec st V b r st' :
  VInv st -> ¬ isInstructionV V ->
  (b < NextId st)%nat -> isForward st b = false ->
  mapValue V b st = Ok (r, st') ->
  r = b ∧ VInv st' ∧ VExt st st' ∧ ValueMap st' !! V = Some b
  ∧ FPContractMap st' = FPContractMap st
  ∧ (∀ V', pending st' V' -> pending st V').
Proof.
  intros HI HV Hb Hnf H.
  destruct (mapValue_other _ _ _ _ _ HI HV H) as [-> [[Hn ->]|[Hs ->]]].
  - destruct (VInv_mapped st V b HI Hn (disabledFor_other st V HV) Hb Hnf)
      as (J & X & Pn).
    split; [reflexivity|]. split; [assumption|]. split; [assumption|].
    split; [cbn; apply lookup_insert_eq|]. split; [reflexivity|].
    intros V' HV'. now apply Pn.
  - split; [reflexivity|]. split; [assumption|]. split; [apply VExt_refl|].
    auto.
Qed.

Lemma bind_Ok {A B} (m : Res A) (k : A -> Res B) r :
  m ≫= k = Ok r -> ∃ a, m = Ok a ∧ k a = Ok r.
Proof. destruct m; cbn; try discriminate. eauto. Qed.

Tactic Notation "res_bind" hyp(H) "as" simple_intropattern(p) ident(E) :=
  apply bind_Ok in H as (p & E & H); cbv beta iota in H.

Lemma if_Ok {A} (c : bool) (x y : Res A) r :
  (if c then x else y) = Ok r ->
  (c = true ∧ x = Ok r) ∨ (c = false ∧ y = Ok r).
Proof. destruct c; auto. Qed.

Lemma getFPContract_eq st st' f :
  FPContractMap st' = FPContractMap st ->
  getFPContract f st' = getFPContract f st.
Proof. unfold getFPContract. now intros ->. Qed.

(** An entry that no value is mapped to. *)
Lemma VInv_addEntry st e :
  VInv st -> isValueEntry e = true -> isForwardEntry e = false ->
  let st' := snd (addEntry e st) in
  VInv st' ∧ VExt st st' ∧ (∀ V, pending st' V -> pending st V).
Proof.
  intros HI He Hnf st'.
  pose proof (VInv_fresh _ HI) as Hfresh.
  destruct HI as [I1 I2 I3 I4 I5 I6 I7].
  assert (Hother : ∀ b, b ≠ NextId st -> isForward st' b = isForward st b).
  { intros b Hb. apply isForward_same. cbn. now rewrite lookup_insert_ne. }
  assert (Hm : ∀ V b, ValueMap st !! V = Some b -> b ≠ NextId st).
  { intros V b H. specialize (I2 _ _ H). lia. }
  split; [split|split; [split|]].
  - apply (WInv_frame st st' I1); [reflexivity|cbn; lia| |].
    + intros i e' Hi _. cbn. rewrite lookup_insert_ne; [assumption|congruence].
    + intros i Hi. cbn in *. destruct (decide (i = NextId st)) as [->|Hd]; [lia|].
      rewrite lookup_insert_ne in Hi by congruence.
      destruct I1 as (_ & _ & J & _). specialize (J _ Hi). lia.
  - intros V b H. cbn in *. specialize (I2 _ _ H). lia.
  - intros V1 V2 b H1 H2 H3. cbn in H1, H2.
    rewrite Hother in H3 by eauto. eauto.
  - intros V b H1 H2. cbn in H1. rewrite Hother in H2 by eauto. eauto.
  - intros i BT Hi. cbn in *. destruct (decide (i = NextId st)) as [->|Hd].
    + rewrite lookup_insert_eq in Hi. injection Hi as ->. discriminate.
    + rewrite lookup_insert_ne in Hi by congruence. eauto.
  - intros i b P Ty I H1 H2 H3 H4. cbn in H1.
    change (getFPContract P st') with (getFPContract P st).
    rewrite Hother in H2 by eauto. eauto.
  - intros i BT Ps p Hi Hp. cbn in Hi. destruct (decide (i = NextId st)) as [->|Hd].
    + rewrite lookup_insert_eq in Hi. injection Hi as ->.
      apply andb_prop in He as [_ He]. discriminate.
    + rewrite lookup_insert_ne in Hi by congruence.
      destruct (I7 _ _ _ _ Hi Hp) as (F0 & k & Hk). exists F0, k. cbn.
      rewrite lookup_insert_ne; [assumption|congruence].
  - reflexivity.
  - reflexivity.
  - cbn. lia.
  - intros i BT Hi. cbn in Hi. destruct (decide (i = NextId st)) as [->|Hd].
    + now right.
    + rewrite lookup_insert_ne in Hi by congruence. now left.
  - intros f. apply fpLe_refl.
  - intros V (b & H1 & H2). cbn in H1. exists b. split; [assumption|].
    rewrite <- Hother; eauto.
Qed.

(** *** The translation of a value, step by step *)

Definition valueOperands (V : nat) : list nat :=
  match LValues !! V with Some val => operandsOf val | None => [] end.

(** What a call of [transValue] for [V] ensures. *)
Definition VPost (V : nat) (BB : option nat) (CF : bool) (FT : FuncTransMode)
    (st : State) (r : option nat) (st' : State) : Prop :=
  VInv st' ∧ VExt st st'
  ∧ (∀ b, r = Some b ->
          (FT = Pointer ∧ isFunction LValues V = true)
          ∨ ValueMap st' !! V = Some b)
  ∧ (∀ V', pending st' V' ->
           pending st V'
           ∨ (CF = true ∧ V' = V ∧ BB ≠ None)
           ∨ (CF = false ∧ isInstructionV V ∧ V' ∈ valueOperands V))
  ∧ (CF = false -> isInstructionV V -> resolved st' V ∨ isDroppedV V)
  ∧ (∀ f, (CF = false ∧ ∃ Ty I, LValues !! V = Some (InstructionV f Ty I))
          ∨ getFPContract f st' = getFPContract f st).

(** A step on the way: the operands [Us] may have become pending, and the
    status of [Ps] may have changed. *)
Record VStep (Ps : option nat) (Us : list nat) (BB : option nat)
    (st st' : State) : Prop := mkVStep {
  vstep_inv : VInv st';
  vstep_ext : VExt st st';
  vstep_pending :
    ∀ V', pending st' V' -> pending st V' ∨ (V' ∈ Us ∧ BB ≠ None);
  vstep_fp : ∀ f, Ps = Some f ∨ getFPContract f st' = getFPContract f st
}.

Lemma VStep_refl Ps Us BB st : VInv st -> VStep Ps Us BB st st.
Proof. intros H. split; auto using VExt_refl. Qed.

Lemma VStep_trans Ps Us BB a b c :
  VStep Ps Us BB a b -> VStep Ps Us BB b c -> VStep Ps Us BB a c.
Proof.
  intros [A1 B1 C1 D1] [A2 B2 C2 D2]. split.
  - assumption.
  - eapply VExt_trans; eauto.
  - intros V' H. destruct (C2 _ H) as [H'|?]; [|now right]. now apply C1.
  - intros f. destruct (D1 f) as [?|E1]; [now left|].
    destruct (D2 f) as [?|E2]; [now left|]. right. congruence.
Qed.

Lemma VStep_weaken Ps Us Ps' Us' BB st st' :
  VStep Ps Us BB st st' -> (∀ x, x ∈ Us -> x ∈ Us') ->
  (Ps = None ∨ Ps = Ps') -> VStep Ps' Us' BB st st'.
Proof.
  intros [A B C D] HU HP. split; [assumption..| |].
  - intros V' H. destruct (C _ H) as [?|[? ?]]; [now left|right; auto].
  - intros f. destruct (D f) as [E|?]; [|now right].
    left. destruct HP as [->| ->]; [discriminate|assumption].
Qed.

Lemma VStep_type Ps Us BB fuel T st id st' :
  VInv st -> vtransType fuel T st = Ok (id, st') -> VStep Ps Us BB st st'.
Proof.
  intros HI H. destruct (transType_VInv _ _ _ _ _ HI H) as (J & X & E & Pn & _).
  split; [assumption..| |].
  - intros V' HV. left. now apply Pn.
  - intros f. right. now apply getFPContract_eq.
Qed.

Lemma VStep_addEntry Ps Us BB st e :
  VInv st -> isValueEntry e = true -> isForwardEntry e = false ->
  VStep Ps Us BB st (snd (addEntry e st)).
Proof.
  intros HI He Hnf. destruct (VInv_addEntry st e HI He Hnf) as (J & X & Pn).
  split; [assumption..| |]; [intros V' HV; left; now apply Pn|].
  intros f. now right.
Qed.

Lemma VStep_join Us BB F C st :
  VInv st -> VStep (Some F) Us BB st (snd (joinFPContract F C st)).
Proof.
  intros HI. destruct (VInv_join F C st HI) as [J X].
  destruct (joinFPContract_frame F C st) as (A & B & C' & D).
  split; [assumption..| |].
  - intros V' (b & H1 & H2). left. exists b. rewrite B in H1.
    split; [assumption|]. rewrite <- H2. symmetry. apply isForward_same.
    now rewrite C'.
  - intros f. destruct (decide (f = F)) as [->|Hd]; [now left|right].
    now apply joinFPContract_other.
Qed.

Lemma transFunctionDecl_spec Ps Us BB fuel F st r st' :
  VInv st -> vtransFunctionDecl (vtransType fuel) F st = Ok (r, st') ->
  VStep Ps Us BB st st' ∧ (∀ b, r = Some b -> ValueMap st' !! F = Some b).
Proof.
  intros HI H. unfold Writer.transFunctionDecl in H.
  destruct (ValueMap st !! F) as [BF|] eqn:EV.
  { injection H as <- <-. split; [now apply VStep_refl|].
    intros b [= <-]. assumption. }
  destruct (LValues !! F) as [[Name PtrTy NumArgs Blocks| | | | |]|] eqn:EF;
    try discriminate.
  destruct (Writer.isUntranslatedIntrinsic _ _ Name).
  { injection H as <- <-. split; [now apply VStep_refl|]. discriminate. }
  res_bind H as [BFT st1] E1.
  pose proof (VStep_type Ps Us BB _ _ _ _ _ HI E1) as S1.
  destruct (VInv_addFunction st1 BFT NumArgs (vstep_inv _ _ _ _ _ S1))
    as (J2 & X2 & EV2 & EF2 & Efst & Hlt & Hnf & Pn2).
  destruct (addFunction BFT NumArgs st1) as [BF st2] eqn:EA.
  cbn in J2, X2, EV2, EF2, Efst, Hlt, Hnf, Pn2. subst BF.
  res_bind H as [BF' st3] E3. injection H as <- <-.
  assert (HF : ¬ isInstructionV F).
  { intros (P & Ty & I & HF). congruence. }
  destruct (mapOther_spec _ _ _ _ _ J2 HF Hlt Hnf E3)
    as (-> & J3 & X3 & M3 & EF3 & Pn3).
  split; [|intros b [= <-]; assumption].
  eapply VStep_trans; [exact S1|]. split; [assumption| | |].
  - eapply VExt_trans; eauto.
  - intros V' HV. left. auto.
  - intros f. right. unfold getFPContract. now rewrite EF3, EF2.
Qed.

Lemma addEntry_join F C e st :
  addEntry e (snd (joinFPContract F C st))
  = (fst (addEntry e st), snd (joinFPContract F C (snd (addEntry e st)))).
Proof.
  unfold joinFPContract.
  change (getFPContract F (snd (addEntry e st))) with (getFPContract F st).
  destruct (getFPContract F st), C; reflexivity.
Qed.

Lemma isInstructionV_intro V P Ty I :
  LValues !! V = Some (InstructionV P Ty I) -> isInstructionV V.
Proof. intros H. now exists P, Ty, I. Qed.

(** The end of the translation of an instruction: its entry is added and
    takes the place of the forward reference, if there is one. *)
Lemma inst_close V P Ty I BB FT st stk e BI st3 r st' :
  LValues !! V = Some (InstructionV P Ty I) ->
  VStep (Some P) (instOperands I) BB st stk ->
  (disablesContraction I = true -> getFPContract P stk = DISABLED) ->
  isValueEntry e = true -> isForwardEntry e = false ->
  addEntry e stk = (BI, st3) ->
  returnMapped (mapValue V BI st3) = Ok (r, st') ->
  VPost V BB false FT st r st'.
Proof.
  intros HV [J X Pn Hfp] Hdis He Hnf EA H.
  unfold returnMapped in H. res_bind H as [b s] E. injection H as <- <-.
  unfold addEntry in EA. injection EA as <- <-.
  destruct (mapNew_spec stk e V b s J He) as (J' & X' & M & Ee & EF & Pn');
    [rewrite Hnf; discriminate| |exact E|].
  { intros _ P' Ty' I' H1 H2. rewrite HV in H1. injection H1 as <- <- <-. auto. }
  split; [assumption|]. split; [eapply VExt_trans; eauto|].
  split; [intros b' [= <-]; now right|]. split; [|split].
  - intros V' HV'. destruct (Pn' _ HV') as [[_ Hp]|[_ Hp]]; [|congruence].
    destruct (Pn _ Hp) as [?|[Hin _]]; [now left|].
    right; right. split; [reflexivity|].
    split; [eapply isInstructionV_intro; eauto|].
    unfold valueOperands. now rewrite HV.
  - intros _ _. left. exists b. split; [assumption|].
    unfold isForward. rewrite Ee. now destruct e.
  - intros f. destruct (Hfp f) as [[= <-]|Ef].
    + left. eauto.
    + right. rewrite <- Ef. now apply getFPContract_eq.
Qed.

(** A call that is dropped changes nothing. *)
Lemma dropped_close V P Ty I BB FT st :
  VInv st -> LValues !! V = Some (InstructionV P Ty I) ->
  droppedCall I = true -> VPost V BB false FT st None st.
Proof.
  intros HI HV Hd.
  split; [assumption|]. split; [apply VExt_refl|].
  split; [discriminate|]. split; [intros V' ?; now left|].
  split; [|intros f; now right].
  intros _ _. right. now exists P, Ty, I.
Qed.

Lemma disablesContraction_intrinsic Callee Args :
  isIntrinsic (vnameOf Callee) = true ->
  disablesContraction (CallInst (CalledFunction Callee) Args) = false.
Proof. intros H. cbn. now rewrite H. Qed.

Lemma droppedCall_not_disabling I :
  droppedCall I = true -> disablesContraction I = false.
Proof.
  destruct I as [[Callee| |CV] Args|OpCode Op0 Op1 U|OpCode Ops];
    try discriminate.
  intros [H _]%andb_prop. now apply disablesContraction_intrinsic.
Qed.

Lemma getArgOperands_subset Args ArgNos Ops x :
  getArgOperands Args ArgNos = Some Ops -> x ∈ Ops -> x ∈ Args.
Proof.
  unfold getArgOperands. intros H%mapM_Some_1 Hx. revert x Hx.
  induction H as [|n a Nos Ops' Hn _ IH]; intros x Hx.
  - now apply not_elem_of_nil in Hx.
  - apply elem_of_cons in Hx as [->|Hx]; [|auto].
    eapply list_elem_of_lookup_2; eauto.
Qed.

(** What suffices for a value that is no instruction. *)
Lemma VStep_VPost_other V BB CF FT Us st st' r :
  ¬ isInstructionV V -> VStep None Us None st st' ->
  (∀ b, r = Some b ->
        (FT = Pointer ∧ isFunction LValues V = true)
        ∨ ValueMap st' !! V = Some b) ->
  VPost V BB CF FT st r st'.
Proof.
  intros HV [J X Pn Hfp] Hr.
  split; [assumption|]. split; [assumption|]. split; [assumption|].
  split; [|split].
  - intros V' H. destruct (Pn _ H) as [?|[_ ?]]; [now left|congruence].
  - intros _ H. contradiction.
  - intros f. destruct (Hfp f) as [?|?]; [discriminate|now right].
Qed.

Lemma other_close V BB CF FT Us st stk e BI st3 r st' :
  ¬ isInstructionV V -> VStep None Us None st stk ->
  isValueEntry e = true -> isForwardEntry e = false ->
  addEntry e stk = (BI, st3) ->
  returnMapped (mapValue V BI st3) = Ok (r, st') ->
  VPost V BB CF FT st r st'.
Proof.
  intros HV S He Hnf EA H.
  unfold returnMapped in H. res_bind H as [b s] E. injection H as <- <-.
  unfold addEntry in EA. injection EA as <- <-.
  destruct (mapNew_spec stk e V b s (vstep_inv _ _ _ _ _ S) He)
    as (J' & X' & M & Ee & EF & Pn');
    [rewrite Hnf; discriminate|intros _; now apply disabledFor_other|exact E|].
  apply (VStep_VPost_other V BB CF FT Us); [assumption| |].
  - eapply VStep_trans; [exact S|]. split; [assumption..| |].
    + intros V' HV'. destruct (Pn' _ HV') as [[_ Hp]|[_ Hp]]; [|congruence].
      now left.
    + intros f. right. now apply getFPContract_eq.
  - intros b' [= <-]. now right.
Qed.

Ltac call_done H :=
  apply Res_Ok_inj in H;
  match type of H with addEntry ?e ?s = _ => exists s, e end.

Section WriterValueStep.

Variable fuel : nat.
Hypothesis IH : ∀ V BB CF FT st r st',
  VInv st -> vtransValue fuel V BB CF FT st = Ok (r, st') ->
  VPost V BB CF FT st r st'.

Lemma operandValue_spec Ps Us V BB FT st bv st' :
  VInv st -> V ∈ Us ->
  Writer.operandValue (vtransValue fuel) V BB FT st = Ok (bv, st') ->
  VStep Ps Us BB st st'.
Proof.
  intros HI HU H. unfold Writer.operandValue in H.
  res_bind H as [r st1] E. destruct r as [b|]; [|discriminate].
  injection H as <- <-.
  destruct (IH _ _ _ _ _ _ _ HI E) as (J & X & _ & Pn & _ & Hfp).
  split; [assumption..| |].
  - intros V' HV'.
    destruct (Pn _ HV') as [?|[(_ & -> & ?)|(? & _)]];
      [now left|now right|discriminate].
  - intros f. destruct (Hfp f) as [[? _]|?]; [discriminate|now right].
Qed.

Lemma transValues_spec Ps Us BB FT :
  ∀ Vs st bvs st',
    VInv st -> (∀ x, x ∈ Vs -> x ∈ Us) ->
    Writer.transValues (vtransValue fuel) Vs BB FT st = Ok (bvs, st') ->
    VStep Ps Us BB st st'.
Proof.
  induction Vs as [|V Vs IHVs]; intros st bvs st' HI HU H; cbn in H.
  - injection H as <- <-. now apply VStep_refl.
  - res_bind H as [bv st1] E1. res_bind H as [bs st2] E2.
    injection H as <- <-.
    assert (S1 : VStep Ps Us BB st st1).
    { eapply operandValue_spec; eauto. apply HU, elem_of_cons. now left. }
    eapply VStep_trans; [exact S1|].
    eapply IHVs; eauto using vstep_inv.
    intros x Hx. apply HU, elem_of_cons. now right.
Qed.

Lemma transCallInst_spec F Ty Called Args BB st BV st1 :
  VInv st ->
  vtransCallInst (vtransType fuel) (vtransValue fuel) F Ty Called Args BB st
    = Ok (BV, st1) ->
  ∃ st0 e,
    VStep (Some F) (instOperands (CallInst Called Args)) BB st st0
    ∧ isValueEntry e = true ∧ isForwardEntry e = false
    ∧ addEntry e st0 = (BV, st1)
    ∧ (opaqueCallee Called = true -> getFPContract F st0 = DISABLED).
Proof.
  intros HI H.
  set (Us := instOperands (CallInst Called Args)).
  assert (HArgs : ∀ x, x ∈ Args -> x ∈ Us).
  { intros x Hx. unfold Us. destruct Called; cbn; [|assumption|];
      apply elem_of_cons; now right. }
  assert (Hmono : ∀ sa sb, VStep (Some F) Us BB sa sb ->
            getFPContract F sa = DISABLED -> getFPContract F sb = DISABLED).
  { intros sa sb Hs Ha. pose proof (vext_fp _ _ (vstep_ext _ _ _ _ _ Hs) F) as Hle.
    rewrite Ha in Hle. now apply fpLe_DISABLED. }
  destruct Called as [Callee| |CV]; cbn in H.
  - (* a direct call *)
    unfold Writer.transDirectCallInst in H.
    destruct (builtinOp (vnameOf Callee)) as [OC|] eqn:EB.
    + res_bind H as [BArgs s1] E1.
      pose proof (transValues_spec (Some F) Us BB _ _ _ _ _ HI HArgs E1) as S1.
      call_done H. split; [exact S1|]. split; [reflexivity|].
      split; [reflexivity|]. split; [exact H|].
      cbn. rewrite EB. now rewrite andb_false_r.
    + set (sj := if visDeclaration Callee
                 then snd (joinFPContract F DISABLED st)
                 else snd (joinFPContract F (getFPContract Callee st) st)) in H.
      assert (Sj : VStep (Some F) Us BB st sj).
      { unfold sj. destruct (visDeclaration Callee); now apply VStep_join. }
      res_bind H as [BF s2] E2.
      destruct (transFunctionDecl_spec (Some F) Us BB _ _ _ _ _
                  (vstep_inv _ _ _ _ _ Sj) E2) as [S2 _].
      res_bind H as [BArgs s3] E3.
      pose proof (transValues_spec (Some F) Us BB _ _ _ _ _
                    (vstep_inv _ _ _ _ _ S2) HArgs E3) as S3.
      destruct BF as [bf|]; [|discriminate].
      call_done H. split; [|split; [reflexivity|split; [reflexivity|]]].
      * eapply VStep_trans; [exact Sj|]. eapply VStep_trans; eauto.
      * split; [exact H|]. cbn. rewrite EB.
        intros [_ Hd]%andb_prop. apply (Hmono s2 s3 S3), (Hmono sj s2 S2).
        unfold sj. rewrite Hd. apply joinFPContract_DISABLED.
  - (* inline assembly *)
    apply if_Ok in H as [[Ea H]|[_ H]]; [|discriminate].
    pose proof (VStep_join Us BB F DISABLED st HI) as Sj.
    res_bind H as [BArgs s2] E2.
    pose proof (transValues_spec (Some F) Us BB _ _ _ _ _
                  (vstep_inv _ _ _ _ _ Sj) HArgs E2) as S2.
    call_done H. split; [eapply VStep_trans; eauto|].
    split; [reflexivity|]. split; [reflexivity|]. split; [exact H|].
    intros _. apply (Hmono _ _ S2), joinFPContract_DISABLED.
  - (* a call through a pointer *)
    pose proof (VStep_join Us BB F DISABLED st HI) as Sj.
    res_bind H as [] E0.
    res_bind H as [BCalled s2] E2.
    assert (S2 : VStep (Some F) Us BB (snd (joinFPContract F DISABLED st)) s2).
    { eapply operandValue_spec; eauto using vstep_inv.
      unfold Us. cbn. apply elem_of_cons. now left. }
    res_bind H as [BT s3] E3.
    pose proof (VStep_type (Some F) Us BB _ _ _ _ _
                  (vstep_inv _ _ _ _ _ S2) E3) as S3.
    res_bind H as [BArgs s4] E4.
    pose proof (transValues_spec (Some F) Us BB _ _ _ _ _
                  (vstep_inv _ _ _ _ _ S3) HArgs E4) as S4.
    call_done H. split.
    { eapply VStep_trans; [exact Sj|]. eapply VStep_trans; [exact S2|].
      eapply VStep_trans; eauto. }
    split; [reflexivity|]. split; [reflexivity|]. split; [exact H|].
    intros _. apply (Hmono _ _ S4), (Hmono _ _ S3), (Hmono _ _ S2).
    apply joinFPContract_DISABLED.
Qed.

Ltac destruct_addEntry H BI s EA :=
  match type of H with
  | context [ addEntry ?e ?st ] => destruct (addEntry e st) as [BI s] eqn:EA
  end.

(** The call of an intrinsic is dropped, and nothing changes, or it becomes
    one instruction; the status of no function changes. *)
Lemma transIntrinsicInst_spec F Ty Callee Args BB st BV st1 :
  VInv st ->
  Writer.transIntrinsicInst LValues getAdaptedType isKnownIntrinsic
    intrinsicCase SPIRVAllowUnknownIntrinsics (vtransType fuel)
    (vtransValue fuel) Ty Callee Args BB st = Ok (BV, st1) ->
  (BV = None ∧ st1 = st
   ∧ match intrinsicCase (vnameOf Callee) with
     | IntrinsicDropped | IntrinsicNeedsExtension => true
     | _ => false
     end = true)
  ∨ ∃ bv st0 e,
      BV = Some bv
      ∧ VStep (Some F) (instOperands (CallInst (CalledFunction Callee) Args))
              BB st st0
      ∧ isValueEntry e = true ∧ isForwardEntry e = false
      ∧ addEntry e st0 = (bv, st1).
Proof.
  intros HI H. unfold Writer.transIntrinsicInst in H.
  set (Us := instOperands (CallInst (CalledFunction Callee) Args)).
  assert (HArgs : ∀ x, x ∈ Args -> x ∈ Us).
  { intros x Hx. unfold Us. cbn. apply elem_of_cons. now right. }
  destruct (intrinsicCase (vnameOf Callee)) as [OpCode Typed ArgNos| | |].
  - (* one instruction *)
    destruct (getArgOperands Args ArgNos) as [Ops|] eqn:EO; [|discriminate].
    assert (HOps : ∀ x, x ∈ Ops -> x ∈ Us).
    { intros x Hx. apply HArgs. eapply getArgOperands_subset; eauto. }
    right. destruct Typed.
    + res_bind H as [BT s1] E1.
      pose proof (VStep_type (Some F) Us BB _ _ _ _ _ HI E1) as S1.
      res_bind H as [BOps s2] E2.
      pose proof (transValues_spec (Some F) Us BB _ _ _ _ _
                    (vstep_inv _ _ _ _ _ S1) HOps E2) as S2.
      destruct_addEntry H BI s3 EA. injection H as <- <-.
      eexists BI, s2, _. split; [reflexivity|].
      split; [eapply VStep_trans; eauto|].
      split; [|split; [|exact EA]]; reflexivity.
    + res_bind H as [BOps s1] E1.
      pose proof (transValues_spec (Some F) Us BB _ _ _ _ _ HI HOps E1) as S1.
      destruct_addEntry H BI s2 EA. injection H as <- <-.
      eexists BI, s1, _. split; [reflexivity|]. split; [exact S1|].
      split; [|split; [|exact EA]]; reflexivity.
  - injection H as <- <-. left. auto.
  - res_bind H as [] E0. injection H as <- <-. left. auto.
  - (* the default case *)
    apply if_Ok in H as [[Ea H]|[_ H]]; [|discriminate].
    res_bind H as [BF s1] E1.
    destruct (transFunctionDecl_spec (Some F) Us BB _ _ _ _ _ HI E1) as [S1 _].
    res_bind H as [BArgs s2] E2.
    pose proof (transValues_spec (Some F) Us BB _ _ _ _ _
                  (vstep_inv _ _ _ _ _ S1) HArgs E2) as S2.
    destruct BF as [bf|]; [|discriminate].
    destruct_addEntry H BI s3 EA. injection H as <- <-.
    right. eexists BI, s2, _. split; [reflexivity|].
    split; [eapply VStep_trans; eauto|].
    split; [|split; [|exact EA]]; reflexivity.
Qed.

Lemma translate_spec V BB CF FT st r st' :
  VInv st ->
  (ValueMap st !! V = None ∨ (pending st V ∧ CF = false)
   ∨ (FT = Pointer ∧ isFunction LValues V = true)) ->
  (∀ P Ty I, LValues !! V = Some (InstructionV P Ty I) -> BB ≠ None) ->
  vtransValueWithoutDecoration (vtransType fuel) (vtransValue fuel)
    V BB CF FT st = Ok (r, st') ->
  VPost V BB CF FT st r st'.
Proof.
  intros HI Hentry HBB H. unfold Writer.transValueWithoutDecoration in H.
  destruct (LValues !! V)
    as [[Name PtrTy NumArgs Blocks|Parent Insts|Parent ArgNo|Ty v|Ty Ops
        |Parent Ty Inst]|] eqn:EV; [..|discriminate].
  - (* a function *)
    assert (HV : ¬ isInstructionV V) by (intros (? & ? & ? & ?); congruence).
    destruct FT.
    + destruct (transFunctionDecl_spec None [] None _ _ _ _ _ HI H) as [S Hr].
      apply (VStep_VPost_other V BB CF Decl []); [assumption..|].
      intros b Hb. right. auto.
    + res_bind H as [] E0. res_bind H as [BT st1] E1.
      res_bind H as [BF st2] E2.
      pose proof (VStep_type None [V] None _ _ _ _ _ HI E1) as S1.
      assert (S2 : VStep None [V] None st1 st2).
      { eapply operandValue_spec; eauto using vstep_inv.
        apply elem_of_cons. now left. }
      destruct_addEntry H C st3 EA. injection H as <- <-.
      unfold addEntry in EA. injection EA as <- <-.
      apply (VStep_VPost_other V BB CF Pointer [V]); [assumption| |].
      * eapply VStep_trans; [exact S1|]. eapply VStep_trans; [exact S2|].
        apply (VStep_addEntry None [V] None st2 (EConstFunctionPointer BT BF));
          eauto using vstep_inv.
      * intros b _. left. split; [reflexivity|].
        unfold isFunction. now rewrite EV.
  - (* a basic block *)
    assert (HV : ¬ isInstructionV V) by (intros (? & ? & ? & ?); congruence).
    destruct (ValueMap st !! Parent) as [BF|]; [|discriminate].
    destruct_addEntry H B st1 EA.
    eapply (other_close V BB CF FT []);
      [exact HV|apply VStep_refl; exact HI| | |exact EA|exact H]; reflexivity.
  - (* an argument *)
    assert (HV : ¬ isInstructionV V) by (intros (? & ? & ? & ?); congruence).
    destruct BB as [b|]; [|discriminate].
    destruct (Entries st !! b) as [[]|] eqn:Eb; try discriminate.
    match type of H with context [ Entries st !! ?x ] =>
      destruct (Entries st !! x) as [[]|] eqn:EF; try discriminate end.
    match type of H with context [ ?l !! ArgNo ] =>
      destruct (l !! ArgNo) as [BA|] eqn:EP; [|discriminate] end.
    unfold returnMapped in H. res_bind H as [b' s] E. injection H as <- <-.
    destruct (vinv_params _ HI _ _ _ BA EF (list_elem_of_lookup_2 _ _ _ EP))
      as (F0 & k & Hk).
    assert (Hlt : (BA < NextId st)%nat).
    { pose proof (vinv_types _ HI) as (_ & _ & J & _). apply J. eauto. }
    assert (Hnf : isForward st BA = false).
    { unfold isForward. now rewrite Hk. }
    destruct (mapOther_spec _ _ _ _ _ HI HV Hlt Hnf E)
      as (-> & J & X & M & EFp & Pn).
    apply (VStep_VPost_other V (Some b) CF FT []); [assumption| |].
    * split; [assumption..| |]; [intros V' HV'; left; auto|].
      intros f. right. now apply getFPContract_eq.
    * intros b0 [= <-]. now right.
  - (* an integer constant *)
    assert (HV : ¬ isInstructionV V) by (intros (? & ? & ? & ?); congruence).
    destruct (LTypes !! Ty) as [[ |w| | | | | | ]|]; try discriminate.
    res_bind H as [] E0. res_bind H as [BT st1] E1.
    destruct_addEntry H BV st2 EA.
    eapply (other_close V BB CF FT []);
      [exact HV|eapply VStep_type; eauto| | |exact EA|exact H]; reflexivity.
  - (* a constant expression *)
    assert (HV : ¬ isInstructionV V) by (intros (? & ? & ? & ?); congruence).
    res_bind H as [BOps st1] E1. res_bind H as [BT st2] E2.
    assert (S1 : VStep None Ops None st st1).
    { eapply transValues_spec; eauto. }
    destruct_addEntry H BV st3 EA.
    eapply (other_close V BB CF FT Ops);
      [exact HV| | | |exact EA|exact H]; [|reflexivity..].
    eapply VStep_trans; [exact S1|]. eapply VStep_type; eauto using vstep_inv.
  - (* an instruction *)
    assert (HV : isInstructionV V) by (eapply isInstructionV_intro; eauto).
    assert (HB : BB ≠ None) by eauto.
    destruct CF.
    + (* the forward reference *)
      assert (HVn : ValueMap st !! V = None).
      { destruct Hentry as [?|[[_ ?]|[_ Hf]]]; [assumption|discriminate|].
        unfold isFunction in Hf. rewrite EV in Hf. discriminate. }
      res_bind H as [BT st1] E1.
      destruct (transType_VInv _ _ _ _ _ HI E1) as (J1 & X1 & EF1 & Pn1 & Hi1).
      destruct_addEntry H Fw st2 EA. unfold addEntry in EA.
      injection EA as <- <-.
      unfold returnMapped in H. res_bind H as [b s] E. injection H as <- <-.
      destruct (mapNew_spec st1 (EForward BT) V b s J1 eq_refl)
        as (J' & X' & M & Ee & EF & Pn'); [|discriminate|exact E|].
      { intros _. split; [assumption|]. now rewrite Hi1. }
      split; [assumption|]. split; [eapply VExt_trans; eauto|].
      split; [intros b' [= <-]; now right|]. split; [|split].
      * intros V' HV'. destruct (Pn' _ HV') as [[_ Hp]|[-> _]]; [left; auto|].
        right; left. auto.
      * discriminate.
      * intros f. right. rewrite <- (getFPContract_eq _ _ f EF1).
        now apply getFPContract_eq.
    + assert (Hcall : ∀ Called Args BV st1,
                Inst = CallInst Called Args ->
                vtransCallInst (vtransType fuel) (vtransValue fuel)
                  Parent Ty Called Args BB st = Ok (BV, st1) ->
                returnMapped (mapValue V BV st1) = Ok (r, st') ->
                VPost V BB false FT st r st').
      { intros Called Args BV st1 -> E1 H1.
        destruct (transCallInst_spec _ _ _ _ _ _ _ _ HI E1)
          as (st0 & e & S0 & He & Hnf & EA & Hd).
        eapply inst_close; eauto. }
      destruct Inst as [Called Args|OpCode Op0 Op1 U|OpCode Ops].
      * destruct Called as [Callee| |CV].
        -- destruct (isIntrinsic (vnameOf Callee)) eqn:EI.
           ++ res_bind H as [BV st1] E1.
              destruct (transIntrinsicInst_spec Parent _ _ _ _ _ _ _ HI E1)
                as [(-> & -> & Hdr)|(bv & st0 & e & -> & S0 & He & Hnf & EA)].
              ** injection H as <- <-.
                 eapply dropped_close; [exact HI|exact EV|].
                 cbn. now rewrite EI, Hdr.
              ** eapply inst_close; [exact EV|exact S0| | | |exact EA|exact H];
                   [|assumption..].
                 rewrite disablesContraction_intrinsic by assumption.
                 discriminate.
           ++ res_bind H as [BV st1] E1. eapply Hcall; eauto.
        -- res_bind H as [BV st1] E1. eapply Hcall; eauto.
        -- res_bind H as [BV st1] E1. eapply Hcall; eauto.
      * res_bind H as [BOp0 st1] E1. res_bind H as [BT st2] E2.
        res_bind H as [BOp1 st3] E3.
        set (Us := instOperands (BinaryOperator OpCode Op0 Op1 U)).
        assert (S1 : VStep (Some Parent) Us BB st st1).
        { eapply operandValue_spec; eauto. apply elem_of_cons. now left. }
        pose proof (VStep_type (Some Parent) Us BB _ _ _ _ _
                      (vstep_inv _ _ _ _ _ S1) E2) as S2.
        assert (S3 : VStep (Some Parent) Us BB st2 st3).
        { eapply operandValue_spec; eauto using vstep_inv.
          apply elem_of_cons. right. apply elem_of_cons. now left. }
        assert (S13 : VStep (Some Parent) Us BB st st3).
        { eapply VStep_trans; [exact S1|]. eapply VStep_trans; eauto. }
        destruct_addEntry H BI st4 EA. cbv zeta in H.
        destruct U.
        -- match type of EA with addEntry ?e _ = _ => set (e0 := e) in * end.
           assert (EA' : addEntry e0 (snd (joinFPContract Parent DISABLED st3))
                         = (BI, snd (joinFPContract Parent DISABLED st4))).
           { rewrite addEntry_join, EA. reflexivity. }
           pose proof (VStep_join Us BB Parent DISABLED st3
                         (vstep_inv _ _ _ _ _ S13)) as Sj.
           eapply (inst_close V Parent Ty _ BB FT st
                     (snd (joinFPContract Parent DISABLED st3)) e0);
             [exact EV|eapply VStep_trans; [exact S13|exact Sj]| | |
              |exact EA'|exact H]; [|reflexivity..].
           intros _. apply joinFPContract_DISABLED.
        -- eapply inst_close; [exact EV|exact S13| | | |exact EA|exact H];
             [discriminate|reflexivity..].
      * res_bind H as [BOps st1] E1. res_bind H as [BT st2] E2.
        assert (S1 : VStep (Some Parent) (instOperands (OtherInstruction OpCode Ops))
                       BB st st1).
        { eapply transValues_spec; eauto. }
        pose proof (VStep_type (Some Parent)
                      (instOperands (OtherInstruction OpCode Ops)) BB _ _ _ _ _
                      (vstep_inv _ _ _ _ _ S1) E2) as S2.
        destruct_addEntry H BI st3 EA.
        eapply inst_close;
          [exact EV|eapply VStep_trans; [exact S1|exact S2]| | |
           |exact EA|exact H]; [discriminate|reflexivity..].
Qed.

Lemma guard_Ok (x : Res (option nat * State)) V (BB : option nat) r st' :
  match LValues !! V, BB with
  | Some (InstructionV _ _ _), None => Fault AssertionFailure
  | _, _ => x
  end = Ok (r, st') ->
  x = Ok (r, st')
  ∧ (∀ P Ty I, LValues !! V = Some (InstructionV P Ty I) -> BB ≠ None).
Proof.
  destruct (LValues !! V) as [[]|], BB; intros H; try discriminate;
    (split; [exact H|]); intros; discriminate.
Qed.

Lemma transValueStep_spec V BB CF FT st r st' :
  VInv st ->
  vtransValueStep (vtransType fuel) (vtransValue fuel) V BB CF FT st
    = Ok (r, st') ->
  VPost V BB CF FT st r st'.
Proof.
  intros HI H. unfold Writer.transValueStep in H. cbv zeta in H.
  destruct (ValueMap st !! V) as [BV|] eqn:EM.
  - match type of H with (if ?c then _ else _) = _ =>
      destruct c eqn:ET end.
    + injection H as <- <-.
      split; [assumption|]. split; [apply VExt_refl|].
      split; [intros b [= <-]; now right|].
      split; [intros V' ?; now left|]. split; [|intros f; now right].
      intros -> _. left. exists BV. split; [assumption|].
      apply andb_prop in ET as [ET _]. rewrite orb_false_r in ET.
      now apply negb_true_iff in ET.
    + apply guard_Ok in H as [H HBB].
      apply translate_spec; [assumption| |assumption..].
      apply andb_false_iff in ET as [ET|ET].
      * apply orb_false_iff in ET as [ET ->]. apply negb_false_iff in ET.
        right; left. split; [|reflexivity]. exists BV. auto.
      * apply negb_false_iff, andb_prop in ET as [ET1 ET2].
        right; right. split; [|assumption]. now destruct FT.
  - apply guard_Ok in H as [H HBB].
    apply translate_spec; auto.
Qed.

End WriterValueStep.

Lemma transValue_spec fuel :
  ∀ V BB CF FT st r st',
    VInv st -> vtransValue fuel V BB CF FT st = Ok (r, st') ->
    VPost V BB CF FT st r st'.
Proof.
  induction fuel as [|fuel IH]; intros V BB CF FT st r st' HI H;
    [discriminate|].
  eapply transValueStep_spec; eauto.
Qed.

(** *** The translation of a function *)

Definition blocksOf (Fn : nat) : list nat :=
  match LValues !! Fn with
  | Some (FunctionV _ _ _ Blocks) => Blocks
  | _ => []
  end.

Definition instsOf (FI : nat) : list nat :=
  match LValues !! FI with
  | Some (BasicBlockV _ Insts) => Insts
  | _ => []
  end.

Definition instructionsOf (Fn : nat) : list nat := blocksOf Fn ≫= instsOf.

(** The instructions in the blocks of a function are instructions of that
    function. *)
Definition wfBody (Fn : nat) : Prop :=
  ∀ FI i, FI ∈ blocksOf Fn -> i ∈ instsOf FI ->
          ∃ Ty I, LValues !! i = Some (InstructionV Fn Ty I).

(** The instructions [Is] of [Fn] have been translated. *)
Record BStep (Fn : nat) (Is : list nat) (st st' : State) : Prop := mkBStep {
  bstep_inv : VInv st';
  bstep_ext : VExt st st';
  bstep_resolved : ∀ i, i ∈ Is -> resolved st' i ∨ isDroppedV i;
  bstep_pending :
    ∀ V', pending st' V' ->
          pending st V' ∨ ∃ i, i ∈ Is ∧ V' ∈ valueOperands i;
  bstep_fp : ∀ f, f ≠ Fn -> getFPContract f st' = getFPContract f st
}.

Lemma BStep_of_VStep Fn st st' :
  VStep None [] None st st' -> BStep Fn [] st st'.
Proof.
  intros [J X Pn Hfp]. split; [assumption..| | |].
  - intros i Hi. now apply not_elem_of_nil in Hi.
  - intros V' H. destruct (Pn _ H) as [?|[_ ?]]; [now left|congruence].
  - intros f _. destruct (Hfp f) as [?|?]; [discriminate|assumption].
Qed.

Lemma BStep_app Fn Is Js a b c :
  VInv a -> BStep Fn Is a b -> BStep Fn Js b c -> BStep Fn (Is ++ Js) a c.
Proof.
  intros HI [A1 B1 C1 D1 E1] [A2 B2 C2 D2 E2]. split.
  - assumption.
  - eapply VExt_trans; eauto.
  - intros i [Hi|Hi]%elem_of_app; [|auto].
    destruct (C1 i Hi) as [Hr|?]; [left|now right].
    apply (resolved_mono b c i A1 B2 Hr).
  - intros V' H. destruct (D2 _ H) as [H'|(i & Hi & Ho)].
    + destruct (D1 _ H') as [?|(i & Hi & Ho)]; [now left|].
      right. exists i. split; [apply elem_of_app; now left|assumption].
    + right. exists i. split; [apply elem_of_app; now right|assumption].
  - intros f Hf. rewrite E2, E1 by assumption. reflexivity.
Qed.

Lemma transLabels_spec fuel :
  ∀ Blocks st st',
    VInv st ->
    Writer.transLabels LTypes isAllowedToUseExtension mapAddrSpace
      specialOpaque ConstantSamplerName ConstantPipeStorageName SamplerType
      PipeStorageType SizetType ConstantIntId LValues getAdaptedType
      isKnownIntrinsic builtinOp intrinsicCase OpCodeMap
      SPV_INTEL_inline_assembly_allowed SPIRVAllowUnknownIntrinsics
      fuel Blocks st = Ok st' ->
    VStep None [] None st st'.
Proof.
  induction Blocks as [|FI Blocks IHB]; intros st st' HI H; cbn in H.
  - injection H as <-. now apply VStep_refl.
  - res_bind H as [r st1] E1.
    destruct (transValue_spec _ _ _ _ _ _ _ _ HI E1)
      as (J & X & _ & Pn & _ & Hfp).
    eapply VStep_trans; [|eapply IHB; eauto].
    split; [assumption..| |].
    + intros V' HV'.
      destruct (Pn _ HV') as [?|[(_ & _ & ?)|(? & _)]];
        [now left|congruence|discriminate].
    + intros f. destruct (Hfp f) as [[? _]|?]; [discriminate|now right].
Qed.

Lemma transInsts_spec fuel Fn BB :
  ∀ Is st st',
    VInv st ->
    (∀ i, i ∈ Is -> ∃ Ty I, LValues !! i = Some (InstructionV Fn Ty I)) ->
    Writer.transInsts LTypes isAllowedToUseExtension mapAddrSpace
      specialOpaque ConstantSamplerName ConstantPipeStorageName SamplerType
      PipeStorageType SizetType ConstantIntId LValues getAdaptedType
      isKnownIntrinsic builtinOp intrinsicCase OpCodeMap
      SPV_INTEL_inline_assembly_allowed SPIRVAllowUnknownIntrinsics
      fuel BB Is st = Ok st' ->
    BStep Fn Is st st'.
Proof.
  induction Is as [|i Is IHI]; intros st st' HI Hwf H; cbn in H.
  - injection H as <-. apply BStep_of_VStep. now apply VStep_refl.
  - res_bind H as [r st1] E1.
    destruct (Hwf i) as (Ty & I & Hi); [apply elem_of_cons; now left|].
    destruct (transValue_spec _ _ _ _ _ _ _ _ HI E1)
      as (J & X & _ & Pn & Hres & Hfp).
    assert (S1 : BStep Fn [i] st st1).
    { split; [assumption..| | |].
      - intros j ->%list_elem_of_singleton.
        apply Hres; [reflexivity|eapply isInstructionV_intro; eauto].
      - intros V' HV'.
        destruct (Pn _ HV') as [?|[(? & _)|(_ & _ & Ho)]];
          [now left|discriminate|].
        right. exists i. split; [now apply list_elem_of_singleton|assumption].
      - intros f Hf. destruct (Hfp f) as [(_ & Ty' & I' & Hi')|?];
          [congruence|assumption]. }
    apply (BStep_app Fn [i] Is st st1 st' HI S1).
    apply IHI; [assumption| |assumption].
    intros j Hj. apply Hwf, elem_of_cons. now right.
Qed.

Lemma transBlocks_spec fuel Fn :
  ∀ Blocks st st',
    VInv st ->
    (∀ FI i, FI ∈ Blocks -> i ∈ instsOf FI ->
             ∃ Ty I, LValues !! i = Some (InstructionV Fn Ty I)) ->
    Writer.transBlocks LTypes isAllowedToUseExtension mapAddrSpace
      specialOpaque ConstantSamplerName ConstantPipeStorageName SamplerType
      PipeStorageType SizetType ConstantIntId LValues getAdaptedType
      isKnownIntrinsic builtinOp intrinsicCase OpCodeMap
      SPV_INTEL_inline_assembly_allowed SPIRVAllowUnknownIntrinsics
      fuel Blocks st = Ok st' ->
    BStep Fn (Blocks ≫= instsOf) st st'.
Proof.
  induction Blocks as [|FI Blocks IHB]; intros st st' HI Hwf H; cbn in H.
  - injection H as <-. apply BStep_of_VStep. now apply VStep_refl.
  - res_bind H as [BB st1] E1. res_bind H as st2 E2.
    assert (S1 : BStep Fn [] st st1).
    { apply BStep_of_VStep.
      apply (transLabels_spec fuel [FI] st st1 HI). cbn. now rewrite E1. }
    assert (S2 : BStep Fn (instsOf FI) st1 st2).
    { eapply transInsts_spec; [eapply bstep_inv; eauto| |exact E2].
      intros i Hi. eapply Hwf; [apply elem_of_cons; now left|assumption]. }
    assert (S3 : BStep Fn (Blocks ≫= instsOf) st2 st').
    { apply IHB; [eapply bstep_inv; eauto| |assumption].
      intros FI' i HFI. apply Hwf, elem_of_cons. now right. }
    pose proof (BStep_app Fn [] _ st st1 st2 HI S1 S2) as S12.
    apply (BStep_app Fn _ _ st st2 st' HI S12 S3).
Qed.

(** The propagation of a status that is not [DISABLED] disables
    nothing. *)
Lemma joinFPContract_not_DISABLED F C st f :
  C ≠ DISABLED ->
  getFPContract f (snd (joinFPContract F C st)) = DISABLED ->
  getFPContract f st = DISABLED.
Proof.
  intros HC. rewrite joinFPContract_get.
  destruct (decide (f = F)) as [->|Hd]; [|auto].
  destruct (getFPContract F st), C; congruence.
Qed.

Lemma fpContractLoop_other fuel FPC :
  FPC ≠ DISABLED ->
  ∀ Q st st',
    Writer.fpContractLoop LValues fuel Q FPC st = Ok st' ->
    sameButFPContract st st'
    ∧ ∀ f, getFPContract f st' = DISABLED -> getFPContract f st = DISABLED.
Proof.
  intros HC. induction fuel as [|fuel IH]; intros Q st st' H.
  - destruct Q; [|discriminate]. injection H as <-.
    split; [apply sameButFPContract_refl|auto].
  - destruct Q as [|U Q'].
    { injection H as <-. split; [apply sameButFPContract_refl|auto]. }
    cbn [Writer.fpContractLoop] in H.
    destruct (LValues !! U) as [[N PT NA Bs|P0 Is|P0 k|Ty v|Ty Ops|P Ty I]|];
      try discriminate; try (now apply IH in H).
    destruct (joinFPContract U FPC st) as [updated st1] eqn:EJ.
    assert (E1 : st1 = snd (joinFPContract U FPC st)) by now rewrite EJ.
    assert (H1 : sameButFPContract st st1 ∧
                 ∀ f, getFPContract f st1 = DISABLED ->
                      getFPContract f st = DISABLED).
    { subst st1. split; [apply sameButFPContract_join|].
      intros f. now apply joinFPContract_not_DISABLED. }
    destruct H1 as [HS1 HD1].
    destruct updated; apply IH in H as [HS2 HD2];
      (split; [eapply sameButFPContract_trans; eauto|auto]).
Qed.

(** The statuses after the translation of a function. *)
Lemma propagate_spec fuel Fn st0 st st' :
  closedUnder st0 ->
  (∀ f, f ≠ Fn -> getFPContract f st = getFPContract f st0) ->
  (∀ f, fpLe (getFPContract f st0) (getFPContract f st)) ->
  Writer.fpContractUpdateRecursive LValues fuel Fn
    (getFPContract Fn (snd (joinFPContract Fn ENABLED st)))
    (snd (joinFPContract Fn ENABLED st)) = Ok st' ->
  closedUnder st' ∧ sameButFPContract st st'.
Proof.
  intros HC Hoth Hle H. unfold Writer.fpContractUpdateRecursive in H.
  set (st4 := snd (joinFPContract Fn ENABLED st)) in *.
  assert (HS4 : sameButFPContract st st4) by apply sameButFPContract_join.
  assert (Hoth4 : ∀ f, f ≠ Fn -> getFPContract f st4 = getFPContract f st0).
  { intros f Hf. unfold st4. rewrite joinFPContract_other by assumption. auto. }
  assert (Hle4 : ∀ f, fpLe (getFPContract f st0) (getFPContract f st4)).
  { intros f. eapply fpLe_trans; [apply Hle|]. apply joinFPContract_le. }
  assert (Hmono : ∀ f, getFPContract f st0 = DISABLED ->
                       getFPContract f st4 = DISABLED).
  { intros f Hf. specialize (Hle4 f). rewrite Hf in Hle4.
    now apply fpLe_DISABLED. }
  destruct (getFPContract Fn st4) eqn:EFn.
  - (* no status: the propagation disables nothing *)
    destruct (fpContractLoop_other fuel UNDEF ltac:(discriminate) _ _ _ H)
      as [HS HD].
    split; [|eapply sameButFPContract_trans; eauto].
    intros F HF u Hu f Hr. apply HD in HF.
    assert (F ≠ Fn) by congruence.
    rewrite Hoth4 in HF by assumption.
    specialize (HC _ HF _ Hu _ Hr). apply Hmono in HC.
    destruct HS as (_ & _ & _ & _ & HS). specialize (HS f).
    rewrite HC in HS. now apply fpLe_DISABLED.
  - (* the users of the function are disabled in turn *)
    destruct (fpContractLoop_DISABLED fuel _ _ _ H) as [HC' HS].
    + intros F HF u Hu f Hr. destruct (decide (F = Fn)) as [->|Hd].
      * right. eauto.
      * left. rewrite Hoth4 in HF by assumption. eauto.
    + split; [assumption|eapply sameButFPContract_trans; eauto].
  - destruct (fpContractLoop_other fuel ENABLED ltac:(discriminate) _ _ _ H)
      as [HS HD].
    split; [|eapply sameButFPContract_trans; eauto].
    intros F HF u Hu f Hr. apply HD in HF.
    assert (F ≠ Fn) by congruence.
    rewrite Hoth4 in HF by assumption.
    specialize (HC _ HF _ Hu _ Hr). apply Hmono in HC.
    destruct HS as (_ & _ & _ & _ & HS). specialize (HS f).
    rewrite HC in HS. now apply fpLe_DISABLED.
Qed.

(** The functions [Fns] have been translated. *)
Record FStep (Fns : list nat) (st st' : State) : Prop := mkFStep {
  fstep_inv : VInv st';
  fstep_ext : VExt st st';
  fstep_closed : closedUnder st';
  fstep_resolved :
    ∀ Fn i, Fn ∈ Fns -> i ∈ instructionsOf Fn ->
            resolved st' i ∨ isDroppedV i;
  fstep_pending :
    ∀ V', pending st' V' ->
          pending st V'
          ∨ ∃ Fn i, Fn ∈ Fns ∧ i ∈ instructionsOf Fn ∧ V' ∈ valueOperands i
}.

Lemma pending_same st st' V :
  ValueMap st' = ValueMap st -> Entries st' = Entries st ->
  pending st' V -> pending st V.
Proof.
  intros EV EE (b & H1 & H2). exists b. rewrite <- EV. split; [assumption|].
  rewrite <- H2. apply isForward_same. now rewrite EE.
Qed.

Lemma transFunction_spec fuel Fn st st' :
  VInv st -> closedUnder st -> wfBody Fn ->
  vtransFunction fuel Fn st = Ok st' -> FStep [Fn] st st'.
Proof.
  intros HI HC Hwf H. unfold Writer.transFunction in H.
  res_bind H as [r st1] E1.
  destruct (transFunctionDecl_spec None [] None _ _ _ _ _ HI E1) as [S1 _].
  apply BStep_of_VStep with (Fn := Fn) in S1.
  res_bind H as st2 E2.
  pose proof (transLabels_spec _ _ _ _ (bstep_inv _ _ _ _ S1) E2) as S2.
  apply BStep_of_VStep with (Fn := Fn) in S2.
  res_bind H as st3 E3.
  pose proof (transBlocks_spec fuel Fn (blocksOf Fn) st2 st3
                (bstep_inv _ _ _ _ S2) Hwf E3) as S3.
  pose proof (BStep_app Fn _ _ _ _ _ HI
                (BStep_app Fn _ _ _ _ _ HI S1 S2) S3) as [J X Hres Pn Hfp].
  cbn [app] in Hres, Pn. cbv zeta in H.
  destruct (propagate_spec fuel Fn st st3 st' HC Hfp (vext_fp _ _ X) H)
    as [HC' HS].
  destruct (VInv_fp _ _ J HS) as [J' X'].
  split.
  - assumption.
  - eapply VExt_trans; eauto.
  - assumption.
  - intros Fn' i ->%list_elem_of_singleton Hi.
    destruct (Hres i Hi) as [Hr|?]; [left|now right].
    apply (resolved_mono st3 st' i J X' Hr).
  - intros V' HV'. destruct HS as (_ & EV & EE & _).
    apply (pending_same st3 st' V' EV EE) in HV'.
    destruct (Pn _ HV') as [?|(i & Hi & Ho)]; [now left|].
    right. exists Fn, i. split; [now apply list_elem_of_singleton|auto].
Qed.

Lemma FStep_nil st st' :
  closedUnder st -> VStep None [] None st st' -> FStep [] st st'.
Proof.
  intros HC [J X Pn Hfp].
  assert (Hget : ∀ f, getFPContract f st' = getFPContract f st).
  { intros f. destruct (Hfp f) as [?|?]; [discriminate|assumption]. }
  split; [assumption..| | |].
  - intros F HF u Hu f Hr. rewrite Hget in *. eauto.
  - intros Fn i HFn. now apply not_elem_of_nil in HFn.
  - intros V' H. destruct (Pn _ H) as [?|[_ ?]]; [now left|congruence].
Qed.

Lemma FStep_app Fs Gs a b c :
  VInv a -> FStep Fs a b -> FStep Gs b c -> FStep (Fs ++ Gs) a c.
Proof.
  intros HI [A1 B1 C1 D1 E1] [A2 B2 C2 D2 E2]. split.
  - assumption.
  - eapply VExt_trans; eauto.
  - assumption.
  - intros Fn i [HF|HF]%elem_of_app Hi; [|eauto].
    destruct (D1 Fn i HF Hi) as [Hr|?]; [left|now right].
    apply (resolved_mono b c i A1 B2 Hr).
  - intros V' H. destruct (E2 _ H) as [H'|(Fn & i & HF & Hi & Ho)].
    + destruct (E1 _ H') as [?|(Fn & i & HF & Hi & Ho)]; [now left|].
      right. exists Fn, i. split; [apply elem_of_app; now left|auto].
    + right. exists Fn, i. split; [apply elem_of_app; now right|auto].
Qed.

Lemma transFunctionDecls_spec fuel :
  ∀ Fs st st',
    VInv st -> vtransFunctionDecls fuel Fs st = Ok st' ->
    VStep None [] None st st'.
Proof.
  induction Fs as [|F Fs IHF]; intros st st' HI H; cbn in H.
  - injection H as <-. now apply VStep_refl.
  - res_bind H as [r st1] E1.
    destruct (transFunctionDecl_spec None [] None _ _ _ _ _ HI E1) as [S1 _].
    eapply VStep_trans; [exact S1|]. eapply IHF; eauto using vstep_inv.
Qed.

Lemma transFunctions_spec fuel :
  ∀ Fs st st',
    VInv st -> closedUnder st -> (∀ F, F ∈ Fs -> wfBody F) ->
    vtransFunctions fuel Fs st = Ok st' -> FStep Fs st st'.
Proof.
  induction Fs as [|F Fs IHF]; intros st st' HI HC Hwf H; cbn in H.
  - injection H as <-. apply FStep_nil; [assumption|now apply VStep_refl].
  - res_bind H as st1 E1.
    assert (S1 : FStep [F] st st1).
    { apply (transFunction_spec fuel); auto. apply Hwf, elem_of_cons. now left. }
    apply (FStep_app [F] Fs st st1 st' HI S1).
    apply IHF; [eapply fstep_inv; eauto|eapply fstep_closed; eauto| |assumption].
    intros G HG. apply Hwf, elem_of_cons. now right.
Qed.

Lemma translateFunctions_spec fuel st st' :
  VInv st -> closedUnder st -> (∀ F, F ∈ vDefs -> wfBody F) ->
  vtranslateFunctions fuel st = Ok st' -> FStep vDefs st st'.
Proof.
  intros HI HC Hwf H. unfold Writer.translateFunctions in H.
  res_bind H as st1 E1.
  pose proof (transFunctionDecls_spec _ _ _ _ HI E1) as S1.
  apply (FStep_nil _ _ HC) in S1.
  apply (FStep_app [] vDefs st st1 st' HI S1).
  apply (transFunctions_spec fuel);
    [eapply fstep_inv; eauto|eapply fstep_closed; eauto|assumption..].
Qed.

Lemma VInv_initState : VInv initState.
Proof.
  split; try (intros; cbn in *; rewrite ?lookup_empty in *; discriminate).
  apply writer_initState_inv.
Qed.

Lemma closedUnder_initState : closedUnder initState.
Proof. intros F HF. discriminate. Qed.

(** *** Calls and the closure under use *)

Lemma elem_of_usersOf u V :
  u ∈ vusersOf V ↔ ∃ val, LValues !! u = Some val ∧ V ∈ operandsOf val.
Proof.
  unfold Writer.usersOf. rewrite list_elem_of_fmap. split.
  - intros ([u' val] & -> & [Hin Hl]%list_elem_of_filter).
    apply elem_of_map_to_list in Hl. eauto.
  - intros (val & Hl & Hin). exists (u, val). split; [reflexivity|].
    apply list_elem_of_filter. split; [assumption|].
    now apply elem_of_map_to_list.
Qed.

(** [calls C A]: an instruction of the function [C] calls [A]. *)
Definition calls (C A : nat) : Prop :=
  isFunctionV C
  ∧ ∃ u Ty Args,
      LValues !! u = Some (InstructionV C Ty (CallInst (CalledFunction A) Args)).

Lemma closedUnder_calls st C A :
  closedUnder st -> tc calls C A ->
  getFPContract A st = DISABLED -> getFPContract C st = DISABLED.
Proof.
  intros HC Htc. induction Htc as [C A Hc|C B A Hc Htc IH]; intros HA.
  - destruct Hc as (HF & u & Ty & Args & Hu).
    apply (HC A HA u); [|eapply reaches_inst; eauto].
    apply elem_of_usersOf. eexists. split; [exact Hu|].
    cbn. apply elem_of_cons. now left.
  - specialize (IH HA).
    destruct Hc as (HF & u & Ty & Args & Hu).
    apply (HC B IH u); [|eapply reaches_inst; eauto].
    apply elem_of_usersOf. eexists. split; [exact Hu|].
    cbn. apply elem_of_cons. now left.
Qed.

(** *** Forward references *)

Lemma fpContractLoop_same fuel FPC :
  ∀ Q st st',
    Writer.fpContractLoop LValues fuel Q FPC st = Ok st' ->
    sameButFPContract st st'.
Proof.
  induction fuel as [|fuel IH]; intros Q st st' H.
  - destruct Q; [|discriminate]. injection H as <-.
    apply sameButFPContract_refl.
  - destruct Q as [|U Q'].
    { injection H as <-. apply sameButFPContract_refl. }
    cbn [Writer.fpContractLoop] in H.
    destruct (LValues !! U) as [[N PT NA Bs|P0 Is|P0 k|Ty v|Ty Ops|P Ty I]|];
      try discriminate; try (now apply IH in H).
    destruct (joinFPContract U FPC st) as [updated st1] eqn:EJ.
    assert (E1 : st1 = snd (joinFPContract U FPC st)) by now rewrite EJ.
    assert (HS1 : sameButFPContract st st1).
    { subst st1. apply sameButFPContract_join. }
    destruct updated; apply IH in H;
      eapply sameButFPContract_trans; eauto.
Qed.

(** The translation of a function resolves its instructions, but for the
    calls that are dropped, and what is pending afterwards was pending
    before or is an operand of one of its instructions. *)
Lemma transFunction_values fuel Fn st st' :
  VInv st -> wfBody Fn ->
  vtransFunction fuel Fn st = Ok st' ->
  VInv st' ∧ VExt st st'
  ∧ (∀ i, i ∈ instructionsOf Fn -> resolved st' i ∨ isDroppedV i)
  ∧ (∀ V', pending st' V' ->
           pending st V'
           ∨ ∃ i, i ∈ instructionsOf Fn ∧ V' ∈ valueOperands i).
Proof.
  intros HI Hwf H. unfold Writer.transFunction in H.
  res_bind H as [r st1] E1.
  destruct (transFunctionDecl_spec None [] None _ _ _ _ _ HI E1) as [S1 _].
  apply BStep_of_VStep with (Fn := Fn) in S1.
  res_bind H as st2 E2.
  pose proof (transLabels_spec _ _ _ _ (bstep_inv _ _ _ _ S1) E2) as S2.
  apply BStep_of_VStep with (Fn := Fn) in S2.
  res_bind H as st3 E3.
  pose proof (transBlocks_spec fuel Fn (blocksOf Fn) st2 st3
                (bstep_inv _ _ _ _ S2) Hwf E3) as S3.
  pose proof (BStep_app Fn _ _ _ _ _ HI
                (BStep_app Fn _ _ _ _ _ HI S1 S2) S3) as [J X Hres Pn Hfp].
  cbn [app] in Hres, Pn. cbv zeta in H.
  unfold Writer.fpContractUpdateRecursive in H.
  apply fpContractLoop_same in H.
  assert (HS : sameButFPContract st3 st').
  { eapply sameButFPContract_trans; [apply sameButFPContract_join|exact H]. }
  destruct (VInv_fp _ _ J HS) as [J' X'].
  split; [assumption|]. split; [eapply VExt_trans; eauto|]. split.
  - intros i Hi. destruct (Hres i Hi) as [Hr|?]; [left|now right].
    apply (resolved_mono st3 st' i J X' Hr).
  - intros V' HV'. destruct HS as (_ & EV & EE & _).
    apply (pending_same st3 st' V' EV EE) in HV'. now apply Pn.
Qed.

(** The instructions that the instructions of a function use are
    instructions of that function. *)
Definition closedOperands (Fn : nat) : Prop :=
  ∀ i V', i ∈ instructionsOf Fn -> V' ∈ valueOperands i ->
          isInstructionV V' -> V' ∈ instructionsOf Fn.

(** No instruction of the function uses a call that is dropped. *)
Definition noDroppedOperand (Fn : nat) : Prop :=
  ∀ i V', i ∈ instructionsOf Fn -> V' ∈ valueOperands i -> ¬ isDroppedV V'.

Definition noForward (st : State) : Prop :=
  ∀ id BT, Entries st !! id ≠ Some (EForward BT).

Lemma noForward_not_pending st V : noForward st -> ¬ pending st V.
Proof.
  intros H (b & _ & Hb). apply isForward_true in Hb as [BT Hb].
  now apply H in Hb.
Qed.

Lemma transFunction_no_forward fuel Fn st st' :
  VInv st -> wfBody Fn -> closedOperands Fn -> noDroppedOperand Fn ->
  noForward st ->
  vtransFunction fuel Fn st = Ok st' ->
  VInv st' ∧ noForward st'
  ∧ ∀ i, i ∈ instructionsOf Fn -> resolved st' i ∨ isDroppedV i.
Proof.
  intros HI Hwf Hcl Hnd Hno H.
  destruct (transFunction_values fuel Fn st st' HI Hwf H)
    as (J & X & Hres & Pn).
  split; [assumption|]. split; [|assumption].
  intros id BT Hid.
  destruct (vinv_forward_mapped _ J _ _ Hid) as [V HV].
  assert (HP : pending st' V).
  { exists id. split; [assumption|]. apply isForward_true. eauto. }
  destruct (Pn _ HP) as [Hp|(i & Hi & Ho)].
  - now apply (noForward_not_pending st V Hno).
  - destruct (Hres V) as [Hr|Hd].
    + apply (Hcl i V Hi Ho).
      eapply vinv_forward_inst; eauto. apply isForward_true. eauto.
    + apply (pending_not_resolved st' V HP Hr).
    + apply (Hnd i V Hi Ho Hd).
Qed.

(** [mapValue] when the value has a forward reference: the entry takes
    the id of the forward reference, so that what referred to the forward
    reference refers to the entry; the forward reference is no more. *)
Lemma mapValue_replaces_forward V BV Fw BT e st :
  ValueMap st !! V = Some Fw -> Entries st !! Fw = Some (EForward BT) ->
  Entries st !! BV = Some e -> Fw ≠ BV ->
  ∃ st', mapValue V BV st = Ok (Fw, st')
         ∧ ValueMap st' !! V = Some Fw
         ∧ Entries st' !! Fw = Some e
         ∧ Entries st' !! BV = None
         ∧ (∀ id, id ≠ Fw -> id ≠ BV -> Entries st' !! id = Entries st !! id)
         ∧ (∀ V', V' ≠ V -> ValueMap st' !! V' = ValueMap st !! V').
Proof.
  intros HV HF HB Hne. unfold mapValue. rewrite HV.
  destruct (Nat.eqb_spec Fw BV) as [?|_]; [contradiction|].
  unfold isForward. rewrite HF. eexists. split; [reflexivity|].
  unfold replaceForward. rewrite HB. cbn.
  split; [apply lookup_insert_eq|]. split; [apply lookup_insert_eq|].
  split; [|split].
  - rewrite lookup_insert_ne by assumption. apply lookup_delete_eq.
  - intros id H1 H2. rewrite lookup_insert_ne by congruence.
    now rewrite lookup_delete_ne by congruence.
  - intros V' HV'. now rewrite lookup_insert_ne by congruence.
Qed.

(** *** Memoization *)

(** A value that has been translated is in the table, and the next
    request gets what the table has. *)
Lemma transValue_memo fuel V BB CF FT st b st' :
  VInv st -> vtransValue fuel V BB CF FT st = Ok (Some b, st') ->
  (FT = Pointer ∧ isFunction LValues V = true)
  ∨ ValueMap st' !! V = Some b.
Proof.
  intros HI H.
  destruct (transValue_spec _ _ _ _ _ _ _ _ HI H) as (_ & _ & Hr & _).
  now apply Hr.
Qed.

Lemma transValue_mapped fuel V BB CF FT st b :
  ValueMap st !! V = Some b ->
  CF = true ∨ isForward st b = false ->
  FT = Decl ∨ isFunction LValues V = false ->
  vtransValue (S fuel) V BB CF FT st = Ok (Some b, st).
Proof.
  intros HV HC HF. cbn. unfold Writer.transValueStep. rewrite HV.
  assert (E1 : negb (isForward st b) || CF = true).
  { destruct HC as [->| ->]; [apply orb_true_r|reflexivity]. }
  assert (E2 : negb (FuncTransMode_eqb FT Pointer && isFunction LValues V)
               = true).
  { destruct HF as [->| ->]; [reflexivity|].
    now rewrite andb_false_r. }
  now rewrite E1, E2.
Qed.

(** After the functions of the module: the instructions of the
    definitions are resolved, and the disabled functions are closed under
    use. *)
Lemma translateFunctions_disabled fuel st' A i Ty I :
  (∀ F, F ∈ vDefs -> wfBody F) ->
  vtranslateFunctions fuel initState = Ok st' ->
  A ∈ vDefs -> i ∈ instructionsOf A ->
  LValues !! i = Some (InstructionV A Ty I) ->
  disablesContraction I = true ->
  getFPContract A st' = DISABLED ∧ closedUnder st'.
Proof.
  intros Hwf H HA Hi HL Hd.
  destruct (translateFunctions_spec fuel _ _ VInv_initState
              closedUnder_initState Hwf H) as [J X HC Hres Pn].
  split; [|assumption].
  destruct (Hres A i HA Hi) as [(b & Hb & Hnf)|(P' & Ty' & I' & HL' & Hdr)].
  - eapply vinv_disabled; eauto.
  - rewrite HL in HL'. injection HL' as <- <- <-.
    apply droppedCall_not_disabling in Hdr. congruence.
Qed.

(** C6 (amended): contraction status propagates through the call graph.
    If an instruction of a function [A] that the module defines is a call
    through a pointer, a call of inline assembly, or a direct call of a
    declaration that is no intrinsic and that is translated as a call
    (not as the instruction of a sampler cast, a builtin or an extended
    instruction), then after the translation of the functions of the
    module [A] is contraction-disabled, and so is every function that
    calls [A] directly or through other functions. *)
Theorem contraction_disabled_propagates_to_callers fuel st' A i Ty Called Args :
  (∀ F, F ∈ vDefs -> wfBody F) ->
  vtranslateFunctions fuel initState = Ok st' ->
  A ∈ vDefs -> i ∈ instructionsOf A ->
  LValues !! i = Some (InstructionV A Ty (CallInst Called Args)) ->
  opaqueCallee Called = true ->
  getFPContract A st' = DISABLED
  ∧ ∀ C, tc calls C A -> getFPContract C st' = DISABLED.
Proof.
  intros Hwf H HA Hi HL Hd.
  destruct (translateFunctions_disabled fuel st' A i Ty _ Hwf H HA Hi HL Hd)
    as [HD HC].
  split; [assumption|]. intros C HCA. eapply closedUnder_calls; eauto.
Qed.

(** *** What a translation has established *)

(** X10.  A value that [transValue] has translated is in the table of
    values under the id that was returned, and the next request returns
    that id and changes nothing.  Excepted are, as in the code, a function
    that is asked for as a pointer (the constant is made anew) and, when
    no forward reference is wanted, a value whose entry is still a
    forward reference. *)
Theorem writer_transValue_memoized fuel V BB CF FT st b st' k BB' CF' :
  VInv st ->
  vtransValue fuel V BB CF FT st = Ok (Some b, st') ->
  FT = Decl ∨ isFunction LValues V = false ->
  CF' = true ∨ isForward st' b = false ->
  ValueMap st' !! V = Some b
  ∧ vtransValue (S k) V BB' CF' FT st' = Ok (Some b, st').
Proof.
  intros HI H HF HC.
  destruct (transValue_memo fuel V BB CF FT st b st' HI H) as [[-> HV]|HV].
  - destruct HF as [?|?]; congruence.
  - split; [exact HV|]. now apply transValue_mapped.
Qed.

(** The instructions that the definitions of the module use are
    instructions of the definitions. *)
Definition closedModule : Prop :=
  ∀ F i V', F ∈ vDefs -> i ∈ instructionsOf F -> V' ∈ valueOperands i ->
            isInstructionV V' -> ∃ G, G ∈ vDefs ∧ V' ∈ instructionsOf G.

(** No instruction of a definition uses a call that is dropped. *)
Definition noDroppedOperands : Prop :=
  ∀ F i V', F ∈ vDefs -> i ∈ instructionsOf F -> V' ∈ valueOperands i ->
            ¬ isDroppedV V'.

(** X11.  When the functions of the module have been translated, every
    instruction of a definition has an entry that is no forward
    reference, unless it is a call of an intrinsic that
    [transIntrinsicInst] drops, which is given no entry.  A value whose
    entry is still a forward reference is such a dropped call, and an
    operand of an instruction of a definition.  Where no instruction uses
    a dropped call, no forward reference is left in the module: each one
    that was made for an operand has been replaced when the instruction
    itself was translated. *)
Theorem writer_translation_leaves_no_forward fuel st' :
  (∀ F, F ∈ vDefs -> wfBody F) -> closedModule ->
  vtranslateFunctions fuel initState = Ok st' ->
  (∀ F i, F ∈ vDefs -> i ∈ instructionsOf F ->
          resolved st' i ∨ isDroppedV i)
  ∧ (∀ V, pending st' V ->
          isDroppedV V
          ∧ ∃ F i, F ∈ vDefs ∧ i ∈ instructionsOf F ∧ V ∈ valueOperands i)
  ∧ (noDroppedOperands -> noForward st' ∧ ∀ V, ¬ pending st' V).
Proof.
  intros Hwf Hcl H.
  destruct (translateFunctions_spec fuel _ _ VInv_initState
              closedUnder_initState Hwf H) as [J X HC Hres Pn].
  assert (Hp : ∀ V, pending st' V ->
                 isDroppedV V
                 ∧ ∃ F i, F ∈ vDefs ∧ i ∈ instructionsOf F
                          ∧ V ∈ valueOperands i).
  { intros V HP. destruct (Pn _ HP) as [(b & Hb & _)|(F & i & HF & Hi & Ho)].
    { cbn in Hb. now rewrite lookup_empty in Hb. }
    split; [|eauto].
    destruct HP as (b & Hb & Hf).
    destruct (Hcl F i V HF Hi Ho (vinv_forward_inst _ J _ _ Hb Hf))
      as (G & HG & HV).
    destruct (Hres G V HG HV) as [Hr|Hd]; [|assumption].
    exfalso. apply (pending_not_resolved st' V); [exists b; auto|exact Hr]. }
  split; [exact Hres|]. split; [exact Hp|].
  intros Hnd.
  assert (Hnp : ∀ V, ¬ pending st' V).
  { intros V HP. destruct (Hp V HP) as (Hd & F & i & HF & Hi & Ho).
    apply (Hnd F i V HF Hi Ho Hd). }
  split; [|exact Hnp].
  intros id BT Hid.
  destruct (vinv_forward_mapped _ J _ _ Hid) as [V HV].
  apply (Hnp V). exists id. split; [assumption|].
  apply isForward_true. eauto.
Qed.

Lemma transFunction_status fuel Fn st st' :
  vtransFunction fuel Fn st = Ok st' -> getFPContract Fn st' ≠ UNDEF.
Proof.
  intros H. unfold Writer.transFunction in H.
  res_bind H as [r st1] E1. res_bind H as st2 E2. res_bind H as st3 E3.
  cbv zeta in H. unfold Writer.fpContractUpdateRecursive in H.
  apply fpContractLoop_same in H. destruct H as (_ & _ & _ & _ & Hle).
  specialize (Hle Fn).
  rewrite joinFPContract_get, decide_True in Hle by reflexivity.
  destruct (getFPContract Fn st3), (getFPContract Fn st');
    try discriminate; now cbn in Hle.
Qed.

Lemma transFunctions_status fuel :
  ∀ Fs st st',
    VInv st -> closedUnder st -> (∀ F, F ∈ Fs -> wfBody F) ->
    vtransFunctions fuel Fs st = Ok st' ->
    ∀ F, F ∈ Fs -> getFPContract F st' ≠ UNDEF.
Proof.
  induction Fs as [|G Fs IHF]; intros st st' HI HC Hwf H F HF.
  - now apply not_elem_of_nil in HF.
  - cbn in H. res_bind H as st1 E1.
    assert (S1 : FStep [G] st st1).
    { apply (transFunction_spec fuel); auto. apply Hwf, elem_of_cons. now left. }
    assert (Hwf' : ∀ F, F ∈ Fs -> wfBody F).
    { intros F' HF'. apply Hwf, elem_of_cons. now right. }
    pose proof (transFunctions_spec fuel Fs st1 st' (fstep_inv _ _ _ S1)
                  (fstep_closed _ _ _ S1) Hwf' H) as S2.
    apply elem_of_cons in HF as [->|HF].
    + pose proof (transFunction_status fuel G st st1 E1) as HG.
      pose proof (vext_fp _ _ (fstep_ext _ _ _ S2) G) as Hle.
      destruct (getFPContract G st1), (getFPContract G st');
        try discriminate; try congruence; now cbn in Hle.
    + apply (IHF st1 st' (fstep_inv _ _ _ S1) (fstep_closed _ _ _ S1) Hwf' H).
      exact HF.
Qed.

(** X12.  When the functions of the module have been translated, every
    definition has a contraction status: it is disabled when one of its
    instructions is a multiplication and addition that may not be fused,
    and it is enabled only when none of its instructions disables
    contraction.  The call of an intrinsic is no such instruction,
    whether it is dropped, becomes an instruction or is emitted as a call
    of the declaration. *)
Theorem writer_definitions_get_contraction_status fuel st' F :
  (∀ F, F ∈ vDefs -> wfBody F) ->
  vtranslateFunctions fuel initState = Ok st' -> F ∈ vDefs ->
  getFPContract F st' ≠ UNDEF
  ∧ (∀ i Ty OpCode Op0 Op1,
       i ∈ instructionsOf F ->
       LValues !! i
       = Some (InstructionV F Ty (BinaryOperator OpCode Op0 Op1 true)) ->
       getFPContract F st' = DISABLED)
  ∧ (getFPContract F st' = ENABLED ->
     ∀ i Ty I, i ∈ instructionsOf F ->
               LValues !! i = Some (InstructionV F Ty I) ->
               disablesContraction I = false).
Proof.
  intros Hwf H HF.
  destruct (translateFunctions_spec fuel _ _ VInv_initState
              closedUnder_initState Hwf H) as [J X HC Hres Pn].
  assert (HD : ∀ i Ty I, i ∈ instructionsOf F ->
                 LValues !! i = Some (InstructionV F Ty I) ->
                 disablesContraction I = true ->
                 getFPContract F st' = DISABLED).
  { intros i Ty I Hi HL Hd.
    destruct (Hres F i HF Hi) as [(b & Hb & Hnf)|(P' & Ty' & I' & HL' & Hdr)].
    - eapply vinv_disabled; eauto.
    - rewrite HL in HL'. injection HL' as <- <- <-.
      apply droppedCall_not_disabling in Hdr. congruence. }
  split; [|split].
  - unfold Writer.translateFunctions in H. res_bind H as st1 E1.
    pose proof (transFunctionDecls_spec _ _ _ _ VInv_initState E1) as S1.
    apply (FStep_nil _ _ closedUnder_initState) in S1.
    apply (transFunctions_status fuel vDefs st1 st' (fstep_inv _ _ _ S1)
             (fstep_closed _ _ _ S1) Hwf H F HF).
  - intros i Ty OpCode Op0 Op1 Hi HL. eapply HD; eauto.
  - intros HE i Ty I Hi HL.
    destruct (disablesContraction I) eqn:Ed; [|reflexivity].
    rewrite (HD i Ty I Hi HL Ed) in HE. discriminate.
Qed.

(** X13.  [joinFPContract] moves the status of a function up in the
    order undefined, enabled, disabled and never down: joining two
    statuses gives the same status in either order, joining a status a
    second time changes nothing, the status of no other function
    changes, and the answer is [true] exactly when the status has
    changed. *)
Theorem joinFPContract_is_a_join F a b st f :
  getFPContract f (snd (joinFPContract F b (snd (joinFPContract F a st))))
  = getFPContract f (snd (joinFPContract F a (snd (joinFPContract F b st))))
  ∧ getFPContract f (snd (joinFPContract F a (snd (joinFPContract F a st))))
    = getFPContract f (snd (joinFPContract F a st))
  ∧ fpLe (getFPContract f st) (getFPContract f (snd (joinFPContract F a st)))
  ∧ (f ≠ F ->
     getFPContract f (snd (joinFPContract F a st)) = getFPContract f st)
  ∧ (fst (joinFPContract F a st) = true
     ↔ getFPContract F (snd (joinFPContract F a st)) ≠ getFPContract F st).
Proof.
  split; [|split; [|split; [|split]]].
  - rewrite !joinFPContract_get. destruct (decide (f = F)) as [->|Hd].
    + rewrite !decide_True by reflexivity.
      now destruct (getFPContract F st), a, b.
    + reflexivity.
  - rewrite !joinFPContract_get. destruct (decide (f = F)) as [->|Hd].
    + rewrite !decide_True by reflexivity.
      now destruct (getFPContract F st), a.
    + reflexivity.
  - apply joinFPContract_le.
  - apply joinFPContract_other.
  - split.
    + intros H. rewrite (joinFPContract_updated_true F a st H).
      revert H. unfold joinFPContract.
      destruct (getFPContract F st), a; cbn; intros; congruence.
    + intros H. destruct (fst (joinFPContract F a st)) eqn:E; [reflexivity|].
      destruct (joinFPContract_updated F a st E) as [E' _]. congruence.
Qed.

End WriterValueFacts.

(** A module with a chain of calls: [C] calls [A], and [A] calls the
    declaration [B]. *)
Definition callChainTypes : gmap nat Writer.LLVMType :=
  <[1%nat := Writer.VoidTy]>
    (<[2%nat := Writer.FunctionTy 1 []]> (<[3%nat := Writer.PointerTy 2 0]> ∅)).

Definition callChain : gmap nat Writer.LLVMValue :=
  <[100%nat := Writer.FunctionV "B" 3 0 []]>
  (<[101%nat := Writer.FunctionV "A" 3 0 [110%nat]]>
  (<[110%nat := Writer.BasicBlockV 101 [111%nat]]>
  (<[111%nat := Writer.InstructionV 101 1
                  (Writer.CallInst (Writer.CalledFunction 100) [])]>
  (<[102%nat := Writer.FunctionV "C" 3 0 [120%nat]]>
  (<[120%nat := Writer.BasicBlockV 102 [121%nat]]>
  (<[121%nat := Writer.InstructionV 102 1
                  (Writer.CallInst (Writer.CalledFunction 101) [])]> ∅)))))).

(** The translation of the functions of such a module, where the calls of
    the functions [isBuiltin] names are translated as instructions. *)
Definition translateCallChain (isBuiltin : string -> bool) : Res Writer.State :=
  Writer.translateFunctions callChainTypes (fun _ => false) (fun AS => AS)
    (fun _ => None) "spirv.ConstantSampler" "spirv.ConstantPipeStorage"
    0 0 0 (fun _ _ => 0%nat) callChain [102%nat; 101%nat; 100%nat]
    (fun _ => 2%nat) (fun _ => false)
    (fun N => if isBuiltin N then Some 12%Z else None)
    (fun _ => Writer.IntrinsicUnknown)
    (fun OC => Z.of_nat OC) isBuiltin false false 20 Writer.initState.

Ltac elem_cases H :=
  repeat (apply elem_of_cons in H as [->|H]);
  try (now apply not_elem_of_nil in H).

Lemma contraction_disabled_propagates_to_callers_witness :
  ∃ st', translateCallChain (fun _ => false) = Ok st'
         ∧ Writer.getFPContract 101 st' = Writer.DISABLED
         ∧ Writer.getFPContract 102 st' = Writer.DISABLED.
Proof.
  assert (E : ∃ st', translateCallChain (fun _ => false) = Ok st').
  { vm_compute. eexists. reflexivity. }
  destruct E as [st' E]. exists st'. split; [exact E|].
  destruct (contraction_disabled_propagates_to_callers
              callChainTypes (fun _ => false) (fun AS => AS) (fun _ => None)
              "spirv.ConstantSampler" "spirv.ConstantPipeStorage" 0 0 0
              (fun _ _ => 0%nat) callChain [102%nat; 101%nat; 100%nat]
              (fun _ => 2%nat) (fun _ => false) (fun _ => None) (fun _ => Writer.IntrinsicUnknown)
              (fun OC => Z.of_nat OC) (fun _ => false) false false)
    with (fuel := 20%nat) (st' := st') (A := 101%nat) (i := 111%nat)
         (Ty := 1%nat) (Called := Writer.CalledFunction 100) (Args := @nil nat)
    as [HA HC].
  - intros T v (P & Ty & I & H). vm_compute in H. discriminate.
  - intros F HF FI i HFI Hi. vm_compute in HF. elem_cases HF.
    + vm_compute in HFI. elem_cases HFI. vm_compute in Hi. elem_cases Hi.
      eexists _, _. reflexivity.
    + vm_compute in HFI. elem_cases HFI. vm_compute in Hi. elem_cases Hi.
      eexists _, _. reflexivity.
  - exact E.
  - vm_compute. apply elem_of_cons. right. apply elem_of_cons. now left.
  - vm_compute. apply elem_of_cons. now left.
  - reflexivity.
  - reflexivity.
  - split; [exact HA|]. apply HC. apply tc_once. split.
    + eexists _, _, _, _. reflexivity.
    + eexists 121%nat, _, _. reflexivity.
Defined.

(** The call of a declaration that is translated as an instruction leaves
    contraction enabled for the caller. *)
Lemma builtin_declaration_call_keeps_contraction :
  Writer.isDeclaration callChain 100 = true
  ∧ callChain !! 111%nat
    = Some (Writer.InstructionV 101 1
              (Writer.CallInst (Writer.CalledFunction 100) []))
  ∧ ∃ st', translateCallChain (fun N => String.eqb N "B") = Ok st'
           ∧ Writer.getFPContract 101 st' = Writer.ENABLED
           ∧ Writer.getFPContract 102 st' = Writer.ENABLED.
Proof.
  split; [reflexivity|]. split; [reflexivity|].
  vm_compute. eexists. split; [reflexivity|]. split; reflexivity.
Qed.

(** A function [g] that calls two intrinsics, [llvm.invariant.start],
    which the translator drops, and [llvm.foo], which it does not know,
    and that uses the result of the first call. *)
Definition intrinsicCalls : gmap nat Writer.LLVMValue :=
  <[300%nat := Writer.FunctionV "llvm.invariant.start" 3 0 []]>
  (<[301%nat := Writer.FunctionV "llvm.foo" 3 0 []]>
  (<[302%nat := Writer.FunctionV "g" 3 0 [310%nat]]>
  (<[310%nat := Writer.BasicBlockV 302 [311%nat; 312%nat; 313%nat]]>
  (<[311%nat := Writer.InstructionV 302 1
                  (Writer.CallInst (Writer.CalledFunction 300) [])]>
  (<[312%nat := Writer.InstructionV 302 1
                  (Writer.CallInst (Writer.CalledFunction 301) [])]>
  (<[313%nat := Writer.InstructionV 302 1
                  (Writer.OtherInstruction 2 [311%nat])]> ∅)))))).

(** Its translation, with unknown intrinsics allowed or not. *)
Definition translateIntrinsicCalls (Allow : bool) : Res Writer.State :=
  Writer.translateFunctions callChainTypes (fun _ => false) (fun AS => AS)
    (fun _ => None) "spirv.ConstantSampler" "spirv.ConstantPipeStorage"
    0 0 0 (fun _ _ => 0%nat) intrinsicCalls [300%nat; 301%nat; 302%nat]
    (fun _ => 2%nat)
    (fun N => String.eqb N "llvm.invariant.start") (fun _ => None)
    (fun N => if String.eqb N "llvm.invariant.start"
              then Writer.IntrinsicDropped else Writer.IntrinsicUnknown)
    (fun OC => Z.of_nat OC) (fun _ => false) false Allow 20
    Writer.initState.

(** The call of an intrinsic does not disable contraction, although the
    intrinsic is a declaration: with unknown intrinsics allowed the call
    of [llvm.foo] is an [OpFunctionCall] of its declaration and [g] ends
    contraction-enabled; without the option the translation ends with an
    error. *)
Lemma unknown_intrinsic_call_keeps_contraction :
  Writer.isDeclaration intrinsicCalls 301 = true
  ∧ (∃ st' b bf,
       translateIntrinsicCalls true = Ok st'
       ∧ Writer.ValueMap st' !! 312%nat = Some b
       ∧ Writer.ValueMap st' !! 301%nat = Some bf
       ∧ Writer.Entries st' !! b
         = Some (Writer.EInstruction Writer.OpFunctionCall [bf] (Some 5%nat))
       ∧ Writer.getFPContract 302 st' = Writer.ENABLED)
  ∧ translateIntrinsicCalls false = Error SPIRVEC_InvalidFunctionCall.
Proof.
  split; [reflexivity|]. split; [|reflexivity].
  eexists _, _, _. split; [vm_compute; reflexivity|].
  split; [vm_compute; reflexivity|]. split; [vm_compute; reflexivity|].
  split; vm_compute; reflexivity.
Qed.

(** ** Examples for the tables of types *)

(** The pointer of the list node is decoded, then the struct. *)
Lemma reader_transType_memoized_witness :
  ∃ LT st' LT2 st2,
    Reader.transType listNodeSPIRV (fun SC => SC) 4 3 Reader.initState
    = Ok (LT, st')
    ∧ Reader.transType listNodeSPIRV (fun SC => SC) 4 2 st' = Ok (LT2, st2)
    ∧ Reader.transType listNodeSPIRV (fun SC => SC) 1 3 st' = Ok (LT, st')
    ∧ Reader.transType listNodeSPIRV (fun SC => SC) 1 3 st2 = Ok (LT, st2).
Proof.
  eexists _, _, _, _.
  split; [vm_compute; reflexivity|]. split; [vm_compute; reflexivity|].
  eapply (reader_transType_memoized listNodeSPIRV (fun SC => SC)
           4 3 Reader.initState _ _ 4 2 _ _ 0).
  - exact (proj1 (reader_initState_inv _)).
  - vm_compute; reflexivity.
  - vm_compute; reflexivity.
Defined.

Lemma reader_transType_leaves_ir_untouched_witness :
  ∃ LT st',
    Reader.transType listNodeSPIRV (fun SC => SC) 4 2 Reader.initState
    = Ok (LT, st')
    ∧ Reader.Insts st' = ∅ ∧ Reader.BlockInsts st' = ∅
    ∧ Reader.Globals st' = ∅ ∧ Reader.LFunctions st' = ∅
    ∧ Reader.PlaceholderMap st' = ∅ ∧ Reader.FuncMap st' = ∅
    ∧ Reader.FuncLoopMetadataMap st' = ∅
    ∧ (∅ : gmap nat LType) ⊆ Reader.TypeMap st'
    ∧ (∅ : gmap nat Value) ⊆ Reader.ValueMap st'
    ∧ (∀ L v, Reader.ValueMap st' !! L = Some v ->
              (∅ : gmap nat Value) !! L = Some v
              ∨ ∃ w n, v = VConst (CInt w n)).
Proof.
  eexists _, _. split; [vm_compute; reflexivity|].
  eapply (reader_transType_leaves_ir_untouched listNodeSPIRV (fun SC => SC)
           4 2 Reader.initState).
  - exact (proj1 (reader_initState_inv _)).
  - vm_compute; reflexivity.
Defined.

(** The pointer of the list node is encoded, then the struct. *)
Lemma writer_transType_memoized_witness :
  ∃ id st' id2 st2,
    Writer.transType listNodeLLVM (fun _ => false) (fun AS => AS)
      (fun _ => None) "spirv.ConstantSampler" "spirv.ConstantPipeStorage"
      0 0 1 (fun _ v => Z.to_nat v) 6 3 Writer.initState = Ok (id, st')
    ∧ Writer.transType listNodeLLVM (fun _ => false) (fun AS => AS)
        (fun _ => None) "spirv.ConstantSampler" "spirv.ConstantPipeStorage"
        0 0 1 (fun _ v => Z.to_nat v) 6 2 st' = Ok (id2, st2)
    ∧ Writer.transType listNodeLLVM (fun _ => false) (fun AS => AS)
        (fun _ => None) "spirv.ConstantSampler" "spirv.ConstantPipeStorage"
        0 0 1 (fun _ v => Z.to_nat v) 1 3 st' = Ok (id, st')
    ∧ Writer.transType listNodeLLVM (fun _ => false) (fun AS => AS)
        (fun _ => None) "spirv.ConstantSampler" "spirv.ConstantPipeStorage"
        0 0 1 (fun _ v => Z.to_nat v) 1 3 st2 = Ok (id, st2).
Proof.
  eexists _, _, _, _.
  split; [vm_compute; reflexivity|]. split; [vm_compute; reflexivity|].
  eapply (writer_transType_memoized listNodeLLVM (fun _ => false)
           (fun AS => AS) (fun _ => None) "spirv.ConstantSampler"
           "spirv.ConstantPipeStorage" 0 0 1 (fun _ v => Z.to_nat v)
           6 3 Writer.initState _ _ 6 2 _ _ 0).
  - exact (proj1 (writer_initState_inv _ _ _ _ _ _ _)).
  - intros N els P H. vm_compute in H. discriminate.
  - vm_compute; reflexivity.
  - vm_compute; reflexivity.
Defined.

Lemma writer_transType_only_adds_entries_witness :
  ∃ id st',
    Writer.transType listNodeLLVM (fun _ => false) (fun AS => AS)
      (fun _ => None) "spirv.ConstantSampler" "spirv.ConstantPipeStorage"
      0 0 1 (fun _ v => Z.to_nat v) 6 2 Writer.initState = Ok (id, st')
    ∧ (∀ i e, Writer.Entries Writer.initState !! i = Some e ->
              Writer.Entries st' !! i = Some e)
    ∧ (Writer.NextId Writer.initState <= Writer.NextId st')%nat.
Proof.
  eexists _, _. split; [vm_compute; reflexivity|].
  destruct (writer_transType_only_adds_entries listNodeLLVM (fun _ => false)
              (fun AS => AS) (fun _ => None) "spirv.ConstantSampler"
              "spirv.ConstantPipeStorage" 0 0 1 (fun _ v => Z.to_nat v)
              6 2 Writer.initState _ _
              (proj1 (writer_initState_inv _ _ _ _ _ _ _)) eq_refl)
    as (A & _ & _ & _ & _ & _ & B).
  split; [exact A|exact B].
Defined.

(** ** Examples for the encoding of values *)

(** A function whose first instruction, a multiplication and addition
    that may not be fused, uses the instruction after it. *)
Definition forwardUseTypes : gmap nat Writer.LLVMType :=
  <[1%nat := Writer.VoidTy]>
    (<[2%nat := Writer.FunctionTy 1 []]>
       (<[3%nat := Writer.PointerTy 2 0]>
          (<[4%nat := Writer.FloatingPointTy 32]> ∅))).

Definition forwardUse : gmap nat Writer.LLVMValue :=
  <[200%nat := Writer.FunctionV "f" 3 0 [210%nat]]>
  (<[210%nat := Writer.BasicBlockV 200 [211%nat; 212%nat]]>
  (<[211%nat := Writer.InstructionV 200 4
                  (Writer.BinaryOperator 1 212 212 true)]>
  (<[212%nat := Writer.InstructionV 200 4
                  (Writer.OtherInstruction 2 [])]> ∅))).

Definition translateForwardUse : Res Writer.State :=
  Writer.translateFunctions forwardUseTypes (fun _ => false) (fun AS => AS)
    (fun _ => None) "spirv.ConstantSampler" "spirv.ConstantPipeStorage"
    0 0 0 (fun _ _ => 0%nat) forwardUse [200%nat]
    (fun _ => 2%nat) (fun _ => false) (fun _ => None) (fun _ => Writer.IntrinsicUnknown)
    (fun OC => Z.of_nat OC) (fun _ => false) false false 20 Writer.initState.

Lemma forwardUse_constId (T : nat) (v : Z) :
  ¬ isInstructionV forwardUse ((fun (_ : nat) (_ : Z) => 0%nat) T v).
Proof. intros (P & Ty & I & H). vm_compute in H. discriminate. Defined.

Lemma forwardUse_wfBody F :
  F ∈ Writer.Defs forwardUse [200%nat] (fun _ => false) ->
  wfBody forwardUse F.
Proof.
  intros HF FI i HFI Hi. vm_compute in HF. elem_cases HF.
  vm_compute in HFI. elem_cases HFI. vm_compute in Hi. elem_cases Hi;
    eexists _, _; reflexivity.
Defined.

Lemma writer_transValue_memoized_witness :
  ∃ b st',
    Writer.transValue forwardUseTypes (fun _ => false) (fun AS => AS)
      (fun _ => None) "spirv.ConstantSampler" "spirv.ConstantPipeStorage"
      0 0 0 (fun _ _ => 0%nat) forwardUse (fun _ => 2%nat) (fun _ => false)
      (fun _ => None) (fun _ => Writer.IntrinsicUnknown) (fun OC => Z.of_nat OC) false false
      20%nat 200%nat None false Writer.Decl Writer.initState
    = Ok (Some b, st')
    ∧ Writer.ValueMap st' !! 200%nat = Some b
    ∧ Writer.transValue forwardUseTypes (fun _ => false) (fun AS => AS)
        (fun _ => None) "spirv.ConstantSampler" "spirv.ConstantPipeStorage"
        0 0 0 (fun _ _ => 0%nat) forwardUse (fun _ => 2%nat) (fun _ => false)
        (fun _ => None) (fun _ => Writer.IntrinsicUnknown) (fun OC => Z.of_nat OC) false false
        1%nat 200%nat None false Writer.Decl st' = Ok (Some b, st').
Proof.
  eexists _, _. split; [vm_compute; reflexivity|].
  eapply (writer_transValue_memoized forwardUseTypes (fun _ => false)
            (fun AS => AS) (fun _ => None) "spirv.ConstantSampler"
            "spirv.ConstantPipeStorage" 0 0 0 (fun _ _ => 0%nat) forwardUse
            (fun _ => 2%nat) (fun _ => false) (fun _ => None) (fun _ => Writer.IntrinsicUnknown)
            (fun OC => Z.of_nat OC) (fun _ => false) false false
            forwardUse_constId 20%nat 200%nat None false Writer.Decl
            Writer.initState).
  - apply VInv_initState.
  - vm_compute; reflexivity.
  - now left.
  - right. vm_compute; reflexivity.
Defined.

Lemma writer_translation_leaves_no_forward_witness :
  ∃ st', translateForwardUse = Ok st'
         ∧ noForward st' ∧ resolved st' 211%nat ∧ resolved st' 212%nat.
Proof.
  assert (E : ∃ st', translateForwardUse = Ok st').
  { vm_compute. eexists. reflexivity. }
  destruct E as [st' E]. exists st'. split; [exact E|].
  destruct (writer_translation_leaves_no_forward forwardUseTypes
              (fun _ => false) (fun AS => AS) (fun _ => None)
              "spirv.ConstantSampler" "spirv.ConstantPipeStorage" 0 0 0
              (fun _ _ => 0%nat) forwardUse [200%nat] (fun _ => 2%nat)
              (fun _ => false) (fun _ => None) (fun _ => Writer.IntrinsicUnknown)
              (fun OC => Z.of_nat OC) (fun _ => false) false false
              forwardUse_constId 20%nat st' forwardUse_wfBody)
    as (A & _ & C).
  - intros F i V' HF Hi HV _. vm_compute in HF. elem_cases HF.
    exists 200%nat. split; [vm_compute; apply elem_of_cons; now left|].
    vm_compute in Hi. elem_cases Hi; vm_compute in HV; elem_cases HV;
      vm_compute; apply elem_of_cons; right; apply elem_of_cons; now left.
  - exact E.
  - assert (Hnd : ∀ V, ¬ isDroppedV forwardUse
                           (fun _ => Writer.IntrinsicUnknown) V).
    { intros V (P & Ty & I & HV & Hd).
      destruct I as [[Callee| |CV] Args| |]; try discriminate.
      apply andb_prop in Hd as [_ Hd]. discriminate. }
    split; [apply C; intros F i V' _ _ _; apply Hnd|].
    split.
    + destruct (A 200%nat 211%nat) as [Hr|Hd];
        [vm_compute; apply elem_of_cons; now left
        |vm_compute; apply elem_of_cons; now left
        |exact Hr|now apply Hnd in Hd].
    + destruct (A 200%nat 212%nat) as [Hr|Hd];
        [vm_compute; apply elem_of_cons; now left
        |vm_compute; apply elem_of_cons; right; apply elem_of_cons; now left
        |exact Hr|now apply Hnd in Hd].
Defined.

(** The call that is dropped gets no entry, and the forward reference
    that was made for its user stays in the module. *)
Lemma dropped_call_keeps_forward :
  ∃ st', translateIntrinsicCalls true = Ok st'
         ∧ Writer.ValueMap st' !! 311%nat = Some 7%nat
         ∧ Writer.Entries st' !! 7%nat = Some (Writer.EForward 1)
         ∧ pending st' 311 ∧ resolved st' 312 ∧ resolved st' 313
         ∧ ¬ noForward st'.
Proof.
  eexists. split; [vm_compute; reflexivity|].
  split; [vm_compute; reflexivity|]. split; [vm_compute; reflexivity|].
  split; [eexists; split; vm_compute; reflexivity|].
  split; [eexists; split; vm_compute; reflexivity|].
  split; [eexists; split; vm_compute; reflexivity|].
  intros H. apply (H 7%nat 1%nat). vm_compute. reflexivity.
Qed.

Lemma writer_definitions_get_contraction_status_witness :
  ∃ st', translateForwardUse = Ok st'
         ∧ Writer.getFPContract 200%nat st' = Writer.DISABLED.
Proof.
  assert (E : ∃ st', translateForwardUse = Ok st').
  { vm_compute. eexists. reflexivity. }
  destruct E as [st' E]. exists st'. split; [exact E|].
  destruct (writer_definitions_get_contraction_status forwardUseTypes
              (fun _ => false) (fun AS => AS) (fun _ => None)
              "spirv.ConstantSampler" "spirv.ConstantPipeStorage" 0 0 0
              (fun _ _ => 0%nat) forwardUse [200%nat] (fun _ => 2%nat)
              (fun _ => false) (fun _ => None) (fun _ => Writer.IntrinsicUnknown)
              (fun OC => Z.of_nat OC) (fun _ => false) false false
              forwardUse_constId 20%nat st' 200%nat forwardUse_wfBody E)
    as (_ & B & _).
  - vm_compute. apply elem_of_cons. now left.
  - apply (B 211%nat 4%nat 1%nat 212%nat 212%nat); [|reflexivity].
    vm_compute. apply elem_of_cons. now left.
Defined.

(** ** Sampler constants in both directions *)

Section SamplerFacts.
Import Reader Samplers.

Variable SAMPLER_INIT : string.
Variable SamplerInitTy : LType.

Abbreviation oclTransConstantSampler :=
  (Reader.oclTransConstantSampler SAMPLER_INIT SamplerInitTy).

(** The literal of the call that the decoder makes for a sampler
    constant. *)
Definition samplerLiteral (AddrMode Normalized FilterMode : Z) : Z :=
  Z.lor (Z.lor (to_word (Z.shiftl AddrMode 1)) Normalized)
        (to_word (Z.shiftl (to_word (FilterMode + 1)) 4)).

(** The call of the sampler initializer with the literal [Lit] in
    [BB]. *)
Definition samplerCall (st : State) (v : Value) (Lit : Z) (BB : option nat)
    : Prop :=
  ∃ CI Func,
    v = VInst CI
    ∧ Insts st !! CI
      = Some (mkInstruction CallInstK [VFunc Func; VConst (CInt 32 Lit)]
                            EmptyString BB).

Lemma oclTransConstantSampler_call AddrMode Normalized FilterMode BB st :
  samplerCall (snd (oclTransConstantSampler AddrMode Normalized FilterMode
                                            BB st))
              (fst (oclTransConstantSampler AddrMode Normalized FilterMode
                                            BB st))
              (samplerLiteral AddrMode Normalized FilterMode) BB.
Proof.
  unfold Reader.oclTransConstantSampler.
  destruct (getOrInsertFunction SAMPLER_INIT SamplerInitTy st)
    as [Func st1].
  unfold addInst, fresh. cbn. exists (NextId st1), Func.
  split; [reflexivity|]. apply lookup_insert_eq.
Qed.

Lemma samplerLiteral_of_GetSamplerConstant v :
  16 <= v < 64 ->
  let '(A, N, F) := GetSamplerConstant v in samplerLiteral A N F = v.
Proof.
  intros H.
  assert (E : v = Z.of_nat (Z.to_nat (v - 16)) + 16) by lia.
  assert (Hn : (Z.to_nat (v - 16) < 48)%nat) by lia.
  rewrite E. generalize dependent (Z.to_nat (v - 16)). clear.
  intros n _ Hn.
  do 48 (destruct n as [|n]; [vm_compute; reflexivity|]). lia.
Qed.

Lemma GetSamplerConstant_of_samplerLiteral A N F :
  0 <= A < 5 -> 0 <= N < 2 -> 0 <= F < 2 ->
  GetSamplerConstant (samplerLiteral A N F) = (A, N, F).
Proof.
  intros HA HN HF.
  assert (EA : A = 0 ∨ A = 1 ∨ A = 2 ∨ A = 3 ∨ A = 4) by lia.
  assert (EN : N = 0 ∨ N = 1) by lia.
  assert (EF : F = 0 ∨ F = 1) by lia.
  destruct EA as [->|[->|[->|[->| ->]]]], EN as [->| ->], EF as [->| ->];
    reflexivity.
Qed.

(** X14.  A sampler literal with a filter mode (16 to 63) that the
    encoder turns into a sampler constant is the literal of the call of
    the sampler initializer that the decoder makes for that constant;
    the literal 0 comes back as 16, the decoder adding one to the filter
    mode. *)
Theorem sampler_literal_round_trip (v : Z) (BB : option nat) (st : State) :
  16 <= v < 64 ∨ v = 0 ->
  let '(AddrMode, Normalized, FilterMode) := GetSamplerConstant v in
  let r := oclTransConstantSampler AddrMode Normalized FilterMode BB st in
  samplerCall (snd r) (fst r) (if v =? 0 then 16 else v) BB.
Proof.
  intros [H| ->].
  - pose proof (samplerLiteral_of_GetSamplerConstant v H) as E.
    destruct (GetSamplerConstant v) as [[A N] F]. cbv zeta.
    replace (v =? 0) with false by (symmetry; apply Z.eqb_neq; lia).
    rewrite <- E. apply oclTransConstantSampler_call.
  - apply (oclTransConstantSampler_call 0 0 0 BB st).
Qed.

(** X15.  The operands of a sampler constant within the bounds the
    encoder asserts (addressing mode below 5, normalized and filter mode
    below 2) are accepted by the encoder, and they are what the encoder
    reads off the literal of the call of the sampler initializer that
    the decoder makes for the constant. *)
Theorem sampler_constant_round_trip (A N F : Z) (BB : option nat)
    (st : State) :
  0 <= A < 5 -> 0 <= N < 2 -> 0 <= F < 2 ->
  transConstantSampler A N F = Ok (A, N, F)
  ∧ ∃ Lit,
      (let r := oclTransConstantSampler A N F BB st in
       samplerCall (snd r) (fst r) Lit BB)
      ∧ GetSamplerConstant Lit = (A, N, F).
Proof.
  intros HA HN HF. split.
  - assert (EA : A = 0 ∨ A = 1 ∨ A = 2 ∨ A = 3 ∨ A = 4) by lia.
    assert (EN : N = 0 ∨ N = 1) by lia.
    assert (EF : F = 0 ∨ F = 1) by lia.
    destruct EA as [->|[->|[->|[->| ->]]]], EN as [->| ->], EF as [->| ->];
      reflexivity.
  - exists (samplerLiteral A N F).
    split; [apply oclTransConstantSampler_call|].
    now apply GetSamplerConstant_of_samplerLiteral.
Qed.

End SamplerFacts.

Lemma sampler_literal_round_trip_witness :
  let r := Reader.oclTransConstantSampler "__translate_sampler_initializer"
             LVoid 1 1 1 None Reader.initState in
  samplerCall (snd r) (fst r) 35 None.
Proof.
  apply (sampler_literal_round_trip "__translate_sampler_initializer" LVoid
           35 None Reader.initState).
  left. lia.
Defined.


Lemma sampler_constant_round_trip_witness :
  Samplers.transConstantSampler 2 1 0 = Ok (2, 1, 0)
  ∧ ∃ Lit,
      (let r := Reader.oclTransConstantSampler
                  "__translate_sampler_initializer" LVoid 2 1 0 None
                  Reader.initState in
       samplerCall (snd r) (fst r) Lit None)
      ∧ Samplers.GetSamplerConstant Lit = (2, 1, 0).
Proof.
  apply (sampler_constant_round_trip "__translate_sampler_initializer" LVoid
           2 1 0 None Reader.initState); lia.
Defined.

(** ** Reachability in the call graph *)

Section CallGraphFacts.
Import CallGraphReach.

Variable CG : gmap nat (list (option nat)).
Variable begin : gset nat -> option nat.

(** What an [unordered_set] ensures of its first element. *)
Hypothesis begin_elem : ∀ S F, begin S = Some F -> F ∈ S.
Hypothesis begin_nonempty : ∀ S, S ≠ ∅ -> is_Some (begin S).

Abbreviation reachLoop := (CallGraphReach.reachLoop CG begin).

(** [F] calls [G]. *)
Definition callsFn (F G : nat) : Prop :=
  ∃ FN, CG !! F = Some FN ∧ Some G ∈ FN.

Lemma elem_of_insertCallees FN Done :
  ∀ ToDo x,
    x ∈ insertCallees FN Done ToDo ↔ x ∈ ToDo ∨ (Some x ∈ FN ∧ x ∉ Done).
Proof.
  unfold insertCallees.
  induction FN as [|[NNF|] FN IH]; intros ToDo x; cbn [foldl].
  - split; [auto|]. intros [?|[H _]]; [assumption|].
    now apply not_elem_of_nil in H.
  - rewrite IH, elem_of_cons. destruct (decide (NNF ∈ Done)) as [Hd|Hd].
    + split; [intros [?|[? ?]]; auto|].
      intros [?|[[E|?] ?]]; auto. injection E as ->. contradiction.
    + rewrite elem_of_union, elem_of_singleton.
      split; [intros [[->|?]|[? ?]]; auto|].
      intros [?|[[E|?] ?]]; auto. injection E as ->. auto.
  - rewrite IH, elem_of_cons.
    split; [intros [?|[? ?]]; auto|].
    intros [?|[[E|?] ?]]; auto. discriminate.
Qed.

(** The invariant of the loop. *)
Record ReachInv (FS : nat) (Funcs Done ToDo : gset nat) : Prop := mkReachInv {
  reach_seen : ∀ x, x ∈ Done ∪ ToDo -> rtc callsFn FS x;
  reach_disjoint : Done ∩ ToDo = ∅;
  reach_done : ∀ x, x ∈ Done -> (x ∉ Funcs) ∧ (x ∈ dom CG);
  reach_closed : ∀ x y, x ∈ Done -> callsFn x y -> y ∈ Done ∪ ToDo;
  reach_start : FS ∈ Done ∪ ToDo
}.

Lemma ReachInv_closed FS Funcs Done :
  ReachInv FS Funcs Done ∅ -> ∀ G, rtc callsFn FS G -> G ∈ Done.
Proof.
  intros [_ _ _ Hc Hs].
  assert (HFS : FS ∈ Done) by set_solver.
  clear Hs. intros G HG. revert HFS.
  induction HG as [x|x y z Hxy _ IH]; intros Hx; [assumption|].
  apply IH. specialize (Hc x y Hx Hxy). set_solver.
Qed.

Lemma ReachInv_step FS Funcs Done ToDo F FN :
  ReachInv FS Funcs Done ToDo -> F ∈ ToDo -> F ∉ Funcs ->
  CG !! F = Some FN ->
  ReachInv FS Funcs (Done ∪ {[F]})
           (insertCallees FN (Done ∪ {[F]}) (ToDo ∖ {[F]})).
Proof.
  intros [H1 H2 H3 H4 H5] HF HnF HFN.
  assert (HrF : rtc callsFn FS F) by (apply H1; set_solver).
  split.
  - intros x Hx. apply elem_of_union in Hx as [Hx|Hx].
    + apply H1. set_solver.
    + apply elem_of_insertCallees in Hx as [Hx|[Hx _]].
      * apply H1. set_solver.
      * eapply rtc_r; [exact HrF|]. exists FN. auto.
  - apply elem_of_equiv_empty_L. intros x Hx.
    apply elem_of_intersection in Hx as [Hd Ht].
    apply elem_of_insertCallees in Ht as [Ht|[_ Ht]]; [|contradiction].
    set_solver.
  - intros x Hx. apply elem_of_union in Hx as [Hx|Hx]; [auto|].
    apply elem_of_singleton in Hx as ->. split; [assumption|].
    apply elem_of_dom. eauto.
  - intros x y Hx Hxy. destruct (decide (y ∈ Done ∪ {[F]})) as [?|Hy].
    { set_solver. }
    apply elem_of_union. right. apply elem_of_insertCallees.
    apply elem_of_union in Hx as [Hx|Hx].
    + left. specialize (H4 x y Hx Hxy). set_solver.
    + apply elem_of_singleton in Hx as ->. right.
      destruct Hxy as (FN' & E & Hin). split; [congruence|assumption].
  - destruct (decide (FS = F)) as [->|Hd]; [set_solver|].
    apply elem_of_union in H5 as [?|?]; [set_solver|].
    apply elem_of_union. right. apply elem_of_insertCallees. left.
    set_solver.
Qed.

Lemma reachLoop_spec FS Funcs :
  (∀ G, rtc callsFn FS G -> G ∈ dom CG) ->
  ∀ fuel Done ToDo,
    ReachInv FS Funcs Done ToDo ->
    (size (dom CG ∖ Done) < fuel)%nat ->
    ∃ b, reachLoop fuel Funcs Done ToDo = Ok b
         ∧ (b = true ↔ ∃ G, G ∈ Funcs ∧ rtc callsFn FS G).
Proof.
  intros Hdom. induction fuel as [|fuel IH]; intros Done ToDo HI Hsz; [lia|].
  cbn [CallGraphReach.reachLoop].
  destruct (decide (ToDo = ∅)) as [->|Hne].
  { exists false. split; [reflexivity|]. split; [discriminate|].
    intros (G & HG & Hr). apply (ReachInv_closed FS Funcs Done HI) in Hr.
    now destruct (reach_done _ _ _ _ HI G Hr). }
  destruct (begin_nonempty ToDo Hne) as [F HF]. rewrite HF.
  apply begin_elem in HF.
  destruct (decide (F ∈ Funcs)) as [HFu|HFu].
  { exists true. split; [reflexivity|]. split; [|reflexivity].
    intros _. exists F. split; [assumption|].
    apply (reach_seen _ _ _ _ HI). set_solver. }
  assert (HFd : F ∈ dom CG).
  { apply Hdom, (reach_seen _ _ _ _ HI). set_solver. }
  destruct (proj1 (elem_of_dom CG F) HFd) as [FN HFN]. rewrite HFN.
  apply IH; [now apply ReachInv_step|].
  assert (HnD : F ∉ Done).
  { pose proof (reach_disjoint _ _ _ _ HI). set_solver. }
  assert (Hsub : dom CG ∖ (Done ∪ {[F]}) ⊂ dom CG ∖ Done).
  { split; [set_solver|]. intros Hs. specialize (Hs F). set_solver. }
  apply subset_size in Hsub. lia.
Qed.

(** X16.  When every function that can be reached from [FS] through
    calls has a node in the call graph,
    [isAnyFunctionReachableFromFunction] returns after at most as many
    rounds as the graph has nodes, whatever order the set of functions to
    visit lists them in, and it answers [true] exactly when a function of
    [Funcs] is [FS] itself or can be reached from [FS] through calls. *)
Theorem reachability_is_decided (FS : nat) (Funcs : gset nat) (fuel : nat) :
  (∀ G, rtc callsFn FS G -> G ∈ dom CG) ->
  (size (dom CG) < fuel)%nat ->
  ∃ b, isAnyFunctionReachableFromFunction CG begin fuel FS Funcs = Ok b
       ∧ (b = true ↔ ∃ G, G ∈ Funcs ∧ rtc callsFn FS G).
Proof.
  intros Hdom Hsz. unfold isAnyFunctionReachableFromFunction.
  apply reachLoop_spec; [assumption| |].
  - split; set_solver.
  - replace (dom CG ∖ ∅) with (dom CG) by set_solver. exact Hsz.
Qed.

End CallGraphFacts.

(** A call graph in which 1 and 2 call each other, 2 calls 3, and 4
    calls 1; the set of functions to visit lists the least one first. *)
Definition callCycle : gmap nat (list (option nat)) :=
  <[1%nat := [Some 2%nat; None]]>
    (<[2%nat := [Some 3%nat; Some 1%nat]]>
       (<[3%nat := []]> (<[4%nat := [Some 1%nat]]> ∅))).

Definition leastFirst (S : gset nat) : option nat := head (elements S).

Lemma leastFirst_elem (S : gset nat) (F : nat) :
  leastFirst S = Some F -> F ∈ S.
Proof.
  unfold leastFirst. intros H. apply elem_of_elements.
  destruct (elements S) as [|x l]; [discriminate|].
  injection H as ->. apply elem_of_cons. now left.
Defined.

Lemma leastFirst_nonempty (S : gset nat) : S ≠ ∅ -> is_Some (leastFirst S).
Proof.
  unfold leastFirst. intros H.
  destruct (elements S) as [|x l] eqn:E; [|eauto].
  now apply elements_empty_inv, leibniz_equiv in E.
Defined.

Lemma callCycle_closed (x G : nat) :
  rtc (callsFn callCycle) x G -> x ∈ dom callCycle -> G ∈ dom callCycle.
Proof.
  induction 1 as [x|x y z Hxy _ IH]; [auto|]. intros _. apply IH.
  destruct Hxy as (FN & HFN & Hy). unfold callCycle in HFN.
  lookup_cases HFN;
    repeat (apply elem_of_cons in Hy as [Hy|Hy];
            [try discriminate;
             try (injection Hy as ->; apply elem_of_dom; eexists; reflexivity)
            |]);
    now apply not_elem_of_nil in Hy.
Defined.

Lemma reachability_is_decided_witness :
  ∃ b, CallGraphReach.isAnyFunctionReachableFromFunction callCycle leastFirst
         5 1 {[3%nat]} = Ok b
       ∧ (b = true ↔ ∃ G, G ∈ ({[3%nat]} : gset nat)
                          ∧ rtc (callsFn callCycle) 1%nat G).
Proof.
  apply (reachability_is_decided callCycle leastFirst leastFirst_elem
           leastFirst_nonempty 1 {[3%nat]} 5).
  - intros G HG. apply (callCycle_closed 1 G HG).
    apply elem_of_dom. eexists. reflexivity.
  - vm_compute. lia.
Defined.

(** ** The type names of kernel arguments in both directions *)

Section KernelArgTypeFacts.
Import LoopHints KernelArgTypes.
Import Stdlib.Strings.Ascii.

Variable EntrypointPrefix : string.
Variable SPIR_MD_KERNEL_ARG_TYPE : string.

#[local] Arguments String.append : simpl nomatch.

Lemma string_app_assoc (a b c : string) :
  ((a ++ b) ++ c)%string = (a ++ (b ++ c))%string.
Proof.
  induction a as [|x a IH]; cbn [String.append]; [reflexivity|].
  f_equal. exact IH.
Qed.

Lemma string_app_nil_r (a : string) : (a ++ "")%string = a.
Proof.
  induction a as [|x a IH]; cbn [String.append]; [reflexivity|].
  f_equal. exact IH.
Qed.

Lemma string_length_app (a b : string) :
  String.length (a ++ b) = (String.length a + String.length b)%nat.
Proof.
  induction a as [|x a IH]; cbn [String.append String.length];
    [reflexivity|].
  cbn. f_equal. exact IH.
Qed.

Lemma string_get_app (a : string) (c : ascii) (b : string) :
  String.get (String.length a) (a ++ String c b) = Some c.
Proof. induction a as [|x a IH]; cbn; [reflexivity|exact IH]. Qed.

Lemma string_get_end (a : string) : String.get (String.length a) a = None.
Proof. induction a as [|x a IH]; cbn; [reflexivity|exact IH]. Qed.

Lemma substring_0_app (b c : string) :
  String.substring 0 (String.length b) (b ++ c) = b.
Proof.
  induction b as [|x b IH]; cbn; [now destruct c|]. now rewrite IH.
Qed.

Lemma substring_app (a b c : string) :
  String.substring (String.length a) (String.length b) (a ++ b ++ c) = b.
Proof.
  induction a as [|x a IH]; cbn; [apply substring_0_app|exact IH].
Qed.

Lemma substring_drop (a b : string) :
  String.substring (String.length a) (String.length (a ++ b) - String.length a)
            (a ++ b) = b.
Proof.
  rewrite string_length_app.
  replace (String.length a + String.length b - String.length a)%nat
    with (String.length b) by lia.
  rewrite <- (string_app_nil_r b) at 2.
  rewrite (substring_app a b ""). reflexivity.
Qed.

Lemma prefix_app (a b : string) : String.prefix a (a ++ b) = true.
Proof.
  induction a as [|x a IH]; cbn; [now destruct b|].
  destruct (Ascii.ascii_dec x x); [exact IH|contradiction].
Qed.

Lemma index_0_prefix (p s : string) :
  match String.index 0 p s with Some 0%nat => true | _ => false end
  = String.prefix p s.
Proof.
  destruct s as [|c s].
  - now destruct p.
  - cbn [String.index].
    destruct (String.prefix p (String c s)); [reflexivity|].
    now destruct (String.index 0 p s).
Qed.

(** The depth of angle brackets behind a type name that has no comma
    outside angle brackets. *)
Fixpoint depthBehind (s : string) (d : Z) : option Z :=
  match s with
  | EmptyString => Some d
  | String c s' =>
      if Ascii.eqb c "<"%char then depthBehind s' (d + 1)
      else if Ascii.eqb c ">"%char then depthBehind s' (d - 1)
      else if Ascii.eqb c ","%char then
        if d =? 0 then None else depthBehind s' d
      else depthBehind s' d
  end.

(** A type name whose angle brackets match and whose commas are all
    inside angle brackets. *)
Definition plainTypeName (s : string) : Prop := depthBehind s 0 = Some 0.

(** The loop passes over such a name without cutting it. *)
Lemma splitArgTypes_name (done cur : string) (acc : list string) :
  ∀ (ty rest : string) (seen : string) (d d' : Z) (fuel : nat),
    depthBehind ty d = Some d' ->
    (String.length ty + String.length rest <= fuel)%nat ->
    splitArgTypes (done ++ cur ++ seen ++ ty ++ rest) fuel
      (String.length done + String.length cur + String.length seen) d
      (String.length done) acc
    = splitArgTypes (done ++ cur ++ (seen ++ ty) ++ rest)
        (fuel - String.length ty)
        (String.length done + String.length cur + String.length (seen ++ ty))
        d' (String.length done) acc.
Proof.
  induction ty as [|c ty IH]; intros rest seen d d' fuel Hd Hf.
  - cbn in Hd. injection Hd as <-. rewrite string_app_nil_r. cbn.
    now rewrite Nat.sub_0_r.
  - cbn in Hd, Hf. destruct fuel as [|fuel]; [lia|].
    assert (Eg : String.get
                   (String.length done + String.length cur
                    + String.length seen)
                   (done ++ cur ++ seen ++ String c ty ++ rest) = Some c).
    { rewrite <- !string_app_assoc.
      rewrite <- !string_length_app.
      rewrite string_app_assoc with (c := rest).
      apply string_get_app. }
    assert (Es : (done ++ cur ++ seen ++ String c ty ++ rest)%string
                 = (done ++ cur ++ (seen ++ String c "") ++ ty ++ rest)%string).
    { rewrite (string_app_assoc seen). reflexivity. }
    assert (El : S (String.length done + String.length cur
                    + String.length seen)
                 = (String.length done + String.length cur
                    + String.length (seen ++ String c ""))%nat).
    { rewrite string_length_app. cbn. lia. }
    assert (Et : (seen ++ String c ty)%string
                 = ((seen ++ String c "") ++ ty)%string).
    { now rewrite string_app_assoc. }
    cbn [splitArgTypes]. rewrite Eg.
    change (S fuel - String.length (String c ty))%nat
      with (fuel - String.length ty)%nat.
    destruct (Ascii.eqb c "<"%char).
    { rewrite Es, El, Et. apply IH; [assumption|lia]. }
    destruct (Ascii.eqb c ">"%char).
    { rewrite Es, El, Et. apply IH; [assumption|lia]. }
    destruct (Ascii.eqb c ","%char).
    { destruct (d =? 0); [discriminate|].
      rewrite Es, El, Et. apply IH; [assumption|lia]. }
    rewrite Es, El, Et. apply IH; [assumption|lia].
Qed.

(** The string that is made of type names, each with a comma behind
    it. *)
Definition commaTerminated (tys : list string) : string :=
  foldr (fun ty s => (ty ++ "," ++ s)%string) EmptyString tys.

Lemma splitArgTypes_names (last : string) (dl : Z) :
  depthBehind last 0 = Some dl ->
  ∀ (tys : list string) (done : string) (acc : list string) (fuel : nat),
    Forall plainTypeName tys ->
    (String.length (commaTerminated tys ++ last) <= fuel)%nat ->
    splitArgTypes (done ++ commaTerminated tys ++ last) fuel
      (String.length done) 0 (String.length done) acc
    = acc ++ tys.
Proof.
  intros Hl. induction tys as [|ty tys IH]; intros done acc fuel Hp Hf.
  - cbn [commaTerminated foldr] in *. cbn [String.append] in *.
    rewrite app_nil_r.
    pose proof (splitArgTypes_name done "" acc last "" "" 0 dl fuel Hl) as E.
    cbn [String.append String.length] in E.
    rewrite !string_app_nil_r, !Nat.add_0_r in E.
    rewrite E by exact Hf.
    assert (Eg : String.get (String.length done + String.length last)
                            (done ++ last) = None).
    { rewrite <- string_length_app. apply string_get_end. }
    destruct (fuel - String.length last)%nat; cbn [splitArgTypes];
      [reflexivity|]. now rewrite Eg.
  - apply Forall_cons in Hp as [Hty Hp].
    cbn [commaTerminated foldr] in *. fold (commaTerminated tys) in *.
    rewrite !string_app_assoc in *. cbn [String.append] in *.
    rewrite !string_length_app in Hf. cbn [String.length] in Hf.
    pose proof (splitArgTypes_name done "" acc ty
                  (String "," (commaTerminated tys ++ last)) "" 0 0 fuel Hty)
      as E.
    cbn [String.append String.length] in E.
    rewrite !Nat.add_0_r in E. rewrite E by lia. clear E.
    destruct (fuel - String.length ty)%nat as [|fuel'] eqn:Ef; [lia|].
    cbn [splitArgTypes].
    assert (Eg : String.get (String.length done + String.length ty)
                   (done ++ ty ++ String "," (commaTerminated tys ++ last))
                 = Some ","%char).
    { rewrite <- string_app_assoc, <- string_length_app.
      apply string_get_app. }
    rewrite Eg. cbn [Ascii.eqb Bool.eqb]. cbn [Z.eqb].
    assert (Esub : String.substring (String.length done)
                     (String.length done + String.length ty
                      - String.length done)
                     (done ++ ty ++ String "," (commaTerminated tys ++ last))
                   = ty).
    { replace (String.length done + String.length ty
               - String.length done)%nat with (String.length ty) by lia.
      apply substring_app. }
    rewrite Esub.
    assert (Es : (done ++ ty ++ String "," (commaTerminated tys ++ last))%string
                 = ((done ++ ty ++ ",") ++ commaTerminated tys ++ last)%string).
    { rewrite !string_app_assoc. reflexivity. }
    assert (El : S (String.length done + String.length ty)
                 = String.length (done ++ ty ++ ",")).
    { rewrite !string_length_app. cbn. lia. }
    rewrite Es, El. rewrite IH; [|assumption|].
    + now rewrite <- app_assoc.
    + lia.
Qed.

Lemma commaTerminated_fold (tys : list string) (s : string) :
  foldl (fun acc TyOp =>
           match acc, TyOp with
           | Some KernelArgTypesMDStr, MDString Ty =>
               Some (KernelArgTypesMDStr ++ Ty ++ ",")%string
           | _, _ => None
           end) (Some s) (map MDString tys)
  = Some (s ++ commaTerminated tys)%string.
Proof.
  revert s. induction tys as [|ty tys IH]; intros s; cbn [map foldl].
  - cbn. now rewrite string_app_nil_r.
  - rewrite IH. cbn [commaTerminated foldr]. fold (commaTerminated tys).
    now rewrite !string_app_assoc.
Qed.

(** X17.  The type names of the arguments of a kernel come back from the
    string in which the encoder stores them: when each name has matching
    angle brackets and commas only inside them, the string that
    [transKernelArgTypeMD] makes for the entry point of the kernel [K] is
    [kernel_arg_type.K.] followed by the names, each with a comma behind
    it, and from a module in which it is the first string with that
    prefix [transKernelArgTypeMedataFromString] reads the same names in
    the same order. *)
Theorem kernel_arg_type_names_round_trip (K : string) (tys : list string)
    (before after : list string) :
  Forall plainTypeName tys ->
  Forall (fun Str =>
            String.prefix (SPIR_MD_KERNEL_ARG_TYPE ++ "." ++ K ++ ".") Str
            = false) before ->
  ∃ Str,
    transKernelArgTypeMD EntrypointPrefix (EntrypointPrefix ++ K)
                         (map MDString tys) SPIR_MD_KERNEL_ARG_TYPE
    = Some Str
    ∧ Str = (SPIR_MD_KERNEL_ARG_TYPE ++ "." ++ K ++ "."
             ++ commaTerminated tys)%string
    ∧ transKernelArgTypeMedataFromString SPIR_MD_KERNEL_ARG_TYPE
        (before ++ Str :: after) K
      = Some tys.
Proof.
  intros Hp Hb. eexists. split; [|split; [reflexivity|]].
  - unfold transKernelArgTypeMD.
    rewrite (proj2 (Nat.ltb_ge _ _))
      by (rewrite string_length_app; lia).
    cbv zeta. rewrite substring_drop, commaTerminated_fold.
    now rewrite !string_app_assoc.
  - unfold transKernelArgTypeMedataFromString. cbv zeta.
    set (P := (SPIR_MD_KERNEL_ARG_TYPE ++ "." ++ K ++ ".")%string) in *.
    set (Str := (SPIR_MD_KERNEL_ARG_TYPE ++ "." ++ K ++ "."
                 ++ commaTerminated tys)%string).
    assert (EStr : Str = (P ++ commaTerminated tys)%string).
    { unfold Str, P. now rewrite !string_app_assoc. }
    assert (Ef : find (fun Str0 =>
                         match String.index 0 P Str0 with
                         | Some 0%nat => true
                         | _ => false
                         end) (before ++ Str :: after) = Some Str).
    { induction Hb as [|x before Hx Hb IH]; cbn [app find].
      - now rewrite index_0_prefix, EStr, prefix_app.
      - now rewrite index_0_prefix, Hx. }
    rewrite Ef, EStr, substring_drop.
    pose proof (splitArgTypes_names "" 0 eq_refl tys "" [] 
                  (String.length (commaTerminated tys)) Hp) as E.
    cbn [String.append String.length app] in E.
    rewrite string_app_nil_r in E. rewrite E; [reflexivity|lia].
Qed.

(** X18.  What follows the last comma that is outside angle brackets is
    no type name for [transKernelArgTypeMedataFromString]: of a string
    that lists type names with commas between them, but none behind the
    last, the last name is dropped. *)
Theorem kernel_arg_type_last_name_needs_comma (K : string)
    (tys : list string) (last : string) (d : Z) :
  Forall plainTypeName tys -> depthBehind last 0 = Some d ->
  transKernelArgTypeMedataFromString SPIR_MD_KERNEL_ARG_TYPE
    [(SPIR_MD_KERNEL_ARG_TYPE ++ "." ++ K ++ "."
      ++ commaTerminated tys ++ last)%string] K
  = Some tys.
Proof.
  intros Hp Hl. unfold transKernelArgTypeMedataFromString. cbv zeta.
  set (P := (SPIR_MD_KERNEL_ARG_TYPE ++ "." ++ K ++ ".")%string) in *.
  assert (EStr : (SPIR_MD_KERNEL_ARG_TYPE ++ "." ++ K ++ "."
                  ++ commaTerminated tys ++ last)%string
                 = (P ++ commaTerminated tys ++ last)%string).
  { unfold P. now rewrite !string_app_assoc. }
  rewrite EStr. cbn [find]. rewrite index_0_prefix, prefix_app.
  rewrite substring_drop.
  pose proof (splitArgTypes_names last d Hl tys "" []
                (String.length (commaTerminated tys ++ last)) Hp) as E.
  cbn [String.append String.length app] in E. now rewrite E.
Qed.

End KernelArgTypeFacts.

Lemma kernel_arg_type_names_round_trip_witness :
  ∃ Str,
    KernelArgTypes.transKernelArgTypeMD "__spirv_entry_" "__spirv_entry_foo"
      [LoopHints.MDString "int"; LoopHints.MDString "vec<int,4>"]
      "kernel_arg_type" = Some Str
    ∧ Str = "kernel_arg_type.foo.int,vec<int,4>,"
    ∧ KernelArgTypes.transKernelArgTypeMedataFromString "kernel_arg_type"
        ["kernel_arg_name.foo.a,b,"; Str] "foo"
      = Some ["int"; "vec<int,4>"].
Proof.
  apply (kernel_arg_type_names_round_trip "__spirv_entry_" "kernel_arg_type"
           "foo" ["int"; "vec<int,4>"] ["kernel_arg_name.foo.a,b,"] []).
  - repeat constructor.
  - repeat constructor.
Defined.

Lemma kernel_arg_type_last_name_needs_comma_witness :
  KernelArgTypes.transKernelArgTypeMedataFromString "kernel_arg_type"
    ["kernel_arg_type.foo.int,float"] "foo"
  = Some ["int"].
Proof.
  apply (kernel_arg_type_last_name_needs_comma "kernel_arg_type" "foo"
           ["int"] "float" 0).
  - repeat constructor.
  - reflexivity.
Defined.

(** ** Decoding of values: placeholders *)

Section ReaderValueFacts.
Import Reader.

Variable BM : SPIRVModule.
Variable rmapAddrSpace : nat -> nat.
Variable isSPIRVSamplerType : LType -> bool.
Variable SAMPLER_INIT : string.
Variable SamplerInitTy : LType.
Variable loopHeaders : State -> nat -> list nat.

Abbreviation rtransType := (Reader.transType BM rmapAddrSpace).
Abbreviation rtransValue :=
  (Reader.transValue BM rmapAddrSpace isSPIRVSamplerType SAMPLER_INIT
     SamplerInitTy loopHeaders).
Abbreviation rtransFunction :=
  (Reader.transFunction BM rmapAddrSpace isSPIRVSamplerType SAMPLER_INIT
     SamplerInitTy loopHeaders).
Abbreviation rTInv := (TInv BM rmapAddrSpace).

(** *** The module that is decoded *)

Definition opOf (BV : nat) : option SPIRVOp := Op <$> Values BM !! BV.

(** The instructions that have a result. *)
Definition valueProducing (BV : nat) : Prop :=
  match opOf BV with
  | Some (OpPhi _) | Some (OpLoad _) | Some (OpFunctionCall _ _)
  | Some (OpInst _ _) => True
  | _ => False
  end.

(** The values that are translated as instructions, and for which a
    placeholder is made when they are asked for too early. *)
Definition instKind (BV : nat) : Prop :=
  match opOf BV with
  | Some (OpPhi _) | Some (OpLoad _) | Some (OpFunctionCall _ _)
  | Some (OpInst _ _) | Some OpLoopMerge | Some OpLine => True
  | _ => False
  end.

(** The operands that are translated as values. *)
Definition opOperands (op : SPIRVOp) : list nat :=
  match op with
  | OpPhi Pairs => Pairs ≫= (fun p => [fst p; snd p])
  | OpLoad Src => [Src]
  | OpFunctionCall _ Args => Args
  | OpInst _ Ops => Ops
  | _ => []
  end.

Definition operandsOfValue (BV : nat) : list nat :=
  match opOf BV with Some op => opOperands op | None => [] end.

Definition bodyOf (Fn : SPIRVFunction) : list nat := BBVec Fn ≫= InstVec.

(** *** Placeholders *)

(** [BV] is pending: its entry in the table is the placeholder that was
    made for it. *)
Definition pendingR (st : State) (BV LD : nat) : Prop :=
  PlaceholderMap st !! BV = Some (VInst LD)
  ∧ ValueMap st !! BV = Some (VInst LD).

Definition placeholderGlobal (st : State) (g : nat) : Prop :=
  ∃ G, Globals st !! g = Some G
       ∧ String.prefix KPlaceholderPrefix (GName G) = true.

(** A value that an instruction may have as an operand: an instruction
    that exists, a global variable that exists and is no placeholder. *)
Definition properV (st : State) (v : Value) : Prop :=
  match v with
  | VInst i => is_Some (Insts st !! i)
  | VGlobal g =>
      ∃ G, Globals st !! g = Some G
           ∧ String.prefix KPlaceholderPrefix (GName G) = false
  | _ => True
  end.

(** What the operands of the instructions are at least: instructions that
    exist, global variables that have been made. *)
Definition liveV (st : State) (v : Value) : Prop :=
  match v with
  | VInst i => is_Some (Insts st !! i)
  | VGlobal g => (g < NextId st)%nat
  | _ => True
  end.

(** [BV] is an instruction of a function whose translation has begun. *)
Definition inStartedBody (st : State) (BV : nat) : Prop :=
  ∃ BF Fn, FunctionsOf BM !! BF = Some Fn ∧ BV ∈ bodyOf Fn
           ∧ is_Some (FuncMap st !! BF).

(** The load of a placeholder: a load of a global variable with the
    placeholder prefix. *)
Definition loadOf (st : State) (LD g : nat) : Prop :=
  ∃ I, Insts st !! LD = Some I ∧ Kind I = LoadInst
       ∧ ∃ rest, Operands I = VGlobal g :: rest.

Record RInv (st : State) : Prop := mkRInv {
  rinv_types : rTInv st;
  rinv_insts_fresh : ∀ i, is_Some (Insts st !! i) -> (i < NextId st)%nat;
  rinv_globals_fresh : ∀ g, is_Some (Globals st !! g) -> (g < NextId st)%nat;
  rinv_values_proper : ∀ BV v, ValueMap st !! BV = Some v -> properV st v;
  rinv_operands_live :
    ∀ i I v, Insts st !! i = Some I -> v ∈ Operands I -> liveV st v;
  rinv_blocks_live :
    ∀ b l i, BlockInsts st !! b = Some l -> i ∈ l -> is_Some (Insts st !! i);
  rinv_placeholder :
    ∀ BV v, PlaceholderMap st !! BV = Some v ->
            ∃ LD, v = VInst LD ∧ (LD < NextId st)%nat
                  ∧ is_Some (ValueMap st !! BV);
  rinv_pending :
    ∀ BV LD, pendingR st BV LD ->
             inStartedBody st BV ∧ valueProducing BV
             ∧ ∃ g, loadOf st LD g ∧ placeholderGlobal st g;
  rinv_resolved :
    ∀ BV LD, PlaceholderMap st !! BV = Some (VInst LD) ->
             ValueMap st !! BV ≠ Some (VInst LD) -> Insts st !! LD = None;
  rinv_inj :
    ∀ BV BV' i, ValueMap st !! BV = Some (VInst i) ->
                ValueMap st !! BV' = Some (VInst i) -> BV = BV';
  rinv_pglobal :
    ∀ g, placeholderGlobal st g ->
         ∃ BV LD, pendingR st BV LD ∧ loadOf st LD g;
  rinv_pload :
    ∀ i g, loadOf st i g -> placeholderGlobal st g -> ∃ BV, pendingR st BV i;
  rinv_pload_uniq :
    ∀ i i' g, loadOf st i g -> loadOf st i' g -> placeholderGlobal st g ->
              i = i'
}.

Lemma properV_liveV st v : RInv st -> properV st v -> liveV st v.
Proof.
  intros HI. destruct v; cbn; auto.
  intros (G & HG & _). apply (rinv_globals_fresh _ HI). eauto.
Qed.

(** A resolved value: it has an entry that is no placeholder of its
    own. *)
Definition resolvedR (st : State) (BV : nat) : Prop :=
  ∃ v, ValueMap st !! BV = Some v ∧ PlaceholderMap st !! BV ≠ Some v.

Record RExt (st st' : State) : Prop := mkRExt {
  rext_next : (NextId st <= NextId st')%nat;
  rext_types : TypeMap st ⊆ TypeMap st';
  rext_funcmap : FuncMap st ⊆ FuncMap st';
  rext_placeholders : PlaceholderMap st ⊆ PlaceholderMap st';
  rext_values :
    ∀ BV v, ValueMap st !! BV = Some v ->
            PlaceholderMap st !! BV ≠ Some v ->
            ValueMap st' !! BV = Some v;
  rext_mapped :
    ∀ BV, is_Some (ValueMap st !! BV) -> is_Some (ValueMap st' !! BV);
  rext_new_placeholder :
    ∀ BV LD, PlaceholderMap st' !! BV = Some (VInst LD) ->
             PlaceholderMap st !! BV = None ->
             ValueMap st !! BV = None ∧ (NextId st <= LD)%nat
}.

Lemma RExt_refl st : RExt st st.
Proof.
  split; auto. intros BV LD H1 H2. congruence.
Qed.

Lemma RExt_trans a b c : RInv b -> RExt a b -> RExt b c -> RExt a c.
Proof.
  intros Hb [A1 B1 C1 D1 E1 F1 G1] [A2 B2 C2 D2 E2 F2 G2]. split.
  - lia.
  - etrans; eauto.
  - etrans; eauto.
  - etrans; eauto.
  - intros BV v H1 H2. apply E2; [now apply E1|].
    intros H3. destruct (PlaceholderMap a !! BV) as [p|] eqn:EP.
    + rewrite (lookup_weaken _ _ _ _ EP D1) in H3. congruence.
    + destruct (rinv_placeholder _ Hb _ _ H3) as (LD & -> & _).
      destruct (G1 _ _ H3 EP) as [Hn _]. congruence.
  - auto.
  - intros BV LD H1 H2.
    destruct (PlaceholderMap b !! BV) as [p|] eqn:EP.
    + rewrite (lookup_weaken _ _ _ _ EP D2) in H1. injection H1 as ->.
      destruct (G1 _ _ EP H2) as [? ?]. split; [assumption|lia].
    + destruct (G2 _ _ H1 EP) as [Hn Hlt]. split; [|lia].
      destruct (ValueMap a !! BV) as [v|] eqn:EV; [|reflexivity].
      destruct (F1 BV) as [v' Hv']; [eauto|]. congruence.
Qed.

Lemma resolvedR_mono st st' BV :
  RInv st' -> RExt st st' -> resolvedR st BV -> resolvedR st' BV.
Proof.
  intros HI [A B C D E F G] (v & Hv & Hp). exists v.
  split; [now apply E|]. intros H3.
  destruct (PlaceholderMap st !! BV) as [p|] eqn:EP.
  - rewrite (lookup_weaken _ _ _ _ EP D) in H3. congruence.
  - destruct (rinv_placeholder _ HI _ _ H3) as (LD & -> & _).
    destruct (G _ _ H3 EP) as [Hn _]. congruence.
Qed.

Lemma pending_not_resolvedR st BV LD :
  pendingR st BV LD -> resolvedR st BV -> False.
Proof. intros [H1 H2] (v & Hv & Hp). congruence. Qed.

Lemma inStartedBody_mono st st' BV :
  FuncMap st ⊆ FuncMap st' -> inStartedBody st BV -> inStartedBody st' BV.
Proof.
  intros HF (BF & Fn & H1 & H2 & [F H3]). exists BF, Fn.
  split; [assumption|]. split; [assumption|]. exists F.
  eapply lookup_weaken; eauto.
Qed.

(** The invariant of the types needs the constants of the table only. *)
Lemma agrees_keep st st' T LT :
  TypeMap st ⊆ TypeMap st' ->
  (∀ L c, ValueMap st !! L = Some (VConst c) ->
          ValueMap st' !! L = Some (VConst c)) ->
  agrees BM rmapAddrSpace st T LT -> agrees BM rmapAddrSpace st' T LT.
Proof.
  intros HT HV. unfold agrees.
  destruct (Types BM !! T) as [[]|]; auto.
  - intros (ET & w & n & H1 & H2 & H3). exists ET, w, n.
    repeat split; eauto using lookup_weaken.
  - intros (ET & H1 & H2). exists ET. eauto using lookup_weaken.
  - intros (ET & H1 & H2). exists ET. eauto using lookup_weaken.
  - intros (ET & H1 & H2). exists ET. eauto using lookup_weaken.
  - intros (RT & PT & H1 & H2 & H3). exists RT, PT.
    repeat split; eauto using lookup_weaken.
    eapply Forall2_impl; [exact H2|]. cbn. eauto using lookup_weaken.
Qed.

Lemma TInv_keep st st' :
  rTInv st -> TypeMap st' = TypeMap st -> Structs st' = Structs st ->
  (NextId st <= NextId st')%nat ->
  (∀ L c, ValueMap st !! L = Some (VConst c) ->
          ValueMap st' !! L = Some (VConst c)) ->
  rTInv st'.
Proof.
  intros [Hag Hfr] HT HS HN HV. split.
  - intros T LT H. rewrite HT in H.
    apply (agrees_keep st st'); [now rewrite HT|exact HV|auto].
  - intros s Hs. rewrite HS in Hs. specialize (Hfr _ Hs). lia.
Qed.

(** A step that erases nothing: the values that could be operands
    still can, and the values that are pending afterwards were pending or
    are among [New]. *)
Record RStep (New : nat -> Prop) (st st' : State) : Prop := mkRStep {
  rstep_inv : RInv st';
  rstep_ext : RExt st st';
  rstep_keeps : ∀ v, properV st v -> properV st' v;
  rstep_pending :
    ∀ BV LD, pendingR st' BV LD -> pendingR st BV LD ∨ New BV
}.

Definition none : nat -> Prop := fun _ => False.

Lemma RStep_refl New st : RInv st -> RStep New st st.
Proof. intros H. split; auto using RExt_refl. Qed.

Lemma RStep_trans New a b c :
  RStep New a b -> RStep New b c -> RStep New a c.
Proof.
  intros [A1 B1 C1 D1] [A2 B2 C2 D2]. split.
  - assumption.
  - apply (RExt_trans a b c A1 B1 B2).
  - auto.
  - intros BV LD H. destruct (D2 _ _ H) as [H'|?]; [|now right]. auto.
Qed.

Lemma RStep_weaken (New New' : nat -> Prop) st st' :
  RStep New st st' -> (∀ x, New x -> New' x) -> RStep New' st st'.
Proof.
  intros [A B C D] H. split; [assumption..|].
  intros BV LD HP. destruct (D _ _ HP) as [?|?]; [now left|right; auto].
Qed.

Lemma loadOf_same st st' LD g :
  Insts st' !! LD = Insts st !! LD -> loadOf st LD g -> loadOf st' LD g.
Proof. unfold loadOf. now intros ->. Qed.

Lemma placeholderGlobal_same st st' g :
  Globals st' !! g = Globals st !! g ->
  placeholderGlobal st g -> placeholderGlobal st' g.
Proof. unfold placeholderGlobal. now intros ->. Qed.

(** A change of what the invariant does not speak of. *)
Lemma RInv_frame New st st' :
  RInv st ->
  TypeMap st' = TypeMap st -> Structs st' = Structs st ->
  ValueMap st' = ValueMap st -> PlaceholderMap st' = PlaceholderMap st ->
  Insts st' = Insts st -> Globals st' = Globals st ->
  (∀ b l i, BlockInsts st' !! b = Some l -> i ∈ l ->
            ∃ b0 l0, BlockInsts st !! b0 = Some l0 ∧ i ∈ l0) ->
  (NextId st <= NextId st')%nat -> FuncMap st ⊆ FuncMap st' ->
  RStep New st st'.
Proof.
  intros [I1 I2 I3 I4 I5 I6 I7 I8 I9 I10 I11 I12 I13] ET ES EV EP EI EG HB HN HF.
  assert (HP : ∀ BV LD, pendingR st' BV LD ↔ pendingR st BV LD).
  { intros BV LD. unfold pendingR. now rewrite EP, EV. }
  assert (HL : ∀ LD g, loadOf st' LD g ↔ loadOf st LD g).
  { intros LD g. unfold loadOf. now rewrite EI. }
  assert (HG : ∀ g, placeholderGlobal st' g ↔ placeholderGlobal st g).
  { intros g. unfold placeholderGlobal. now rewrite EG. }
  assert (HPr : ∀ v, properV st' v ↔ properV st v).
  { intros [ | | | | | ]; cbn; rewrite ?EI, ?EG; tauto. }
  assert (HLv : ∀ v, liveV st v -> liveV st' v).
  { intros [ | | | | | ]; cbn; rewrite ?EI; auto. lia. }
  split; [split|split| |].
  - eapply TInv_keep; eauto. intros L c. now rewrite EV.
  - intros i Hi. rewrite EI in Hi. specialize (I2 _ Hi). lia.
  - intros g Hg. rewrite EG in Hg. specialize (I3 _ Hg). lia.
  - intros BV v H. rewrite EV in H. apply HPr. eauto.
  - intros i I v H Hv. rewrite EI in H. apply HLv. eauto.
  - intros b l i H Hi. rewrite EI.
    destruct (HB _ _ _ H Hi) as (b0 & l0 & H0 & Hi0). eauto.
  - intros BV v H. rewrite EP in H. rewrite EV.
    destruct (I7 _ _ H) as (LD & -> & Hlt & Hm). exists LD.
    split; [reflexivity|]. split; [lia|assumption].
  - intros BV LD H. apply HP in H. destruct (I8 _ _ H) as (Hs & Hv & g & Hl & Hg).
    split; [eapply inStartedBody_mono; eauto|]. split; [assumption|].
    exists g. split; [now apply HL|now apply HG].
  - intros BV LD H1 H2. rewrite EP in H1. rewrite EV in H2. rewrite EI. eauto.
  - intros BV BV' i H1 H2. rewrite EV in H1, H2. eauto.
  - intros g Hg. apply HG in Hg. destruct (I11 _ Hg) as (BV & LD & H1 & H2).
    exists BV, LD. split; [now apply HP|now apply HL].
  - intros i g H1 H2. apply HL in H1. apply HG in H2.
    destruct (I12 _ _ H1 H2) as [BV H]. exists BV. now apply HP.
  - intros i i' g H1 H2 H3. apply HL in H1, H2. apply HG in H3. eauto.
  - assumption.
  - now rewrite ET.
  - assumption.
  - now rewrite EP.
  - intros BV v H _. now rewrite EV.
  - intros BV. now rewrite EV.
  - intros BV LD H1 H2. rewrite EP in H1. congruence.
  - intros v. apply HPr.
  - intros BV LD H. left. now apply HP.
Qed.

(** The translation of a type leaves the values as they are, but for
    the lengths of arrays it adds to the table. *)
Lemma RStep_type New fuel T st LT st' :
  RInv st -> rtransType fuel T st = Ok (LT, st') -> RStep New st st'.
Proof.
  intros HI H.
  destruct (transType_spec _ _ _ _ _ _ _ (rinv_types _ HI) H)
    as [(J & X & _) _].
  destruct HI as [I1 I2 I3 I4 I5 I6 I7 I8 I9 I10 I11 I12 I13].
  destruct X as (A & B & C & D & EP & EF & EL & EI & EB & EG & ELF & HV).
  assert (Hold : ∀ BV i, ValueMap st' !! BV = Some (VInst i) ->
                         ValueMap st !! BV = Some (VInst i)).
  { intros BV i HBV. destruct (HV _ _ HBV) as [?|(w & n & ?)];
      [assumption|discriminate]. }
  assert (HP : ∀ BV LD, pendingR st' BV LD ↔ pendingR st BV LD).
  { intros BV LD. unfold pendingR. rewrite EP. split; intros [H1 H2].
    - split; [assumption|]. now apply Hold.
    - split; [assumption|]. eapply lookup_weaken; eauto. }
  assert (HL : ∀ LD g, loadOf st' LD g ↔ loadOf st LD g).
  { intros LD g. unfold loadOf. now rewrite EI. }
  assert (HG : ∀ g, placeholderGlobal st' g ↔ placeholderGlobal st g).
  { intros g. unfold placeholderGlobal. now rewrite EG. }
  assert (HPr : ∀ v, properV st' v ↔ properV st v).
  { intros [ | | | | | ]; cbn; rewrite ?EI, ?EG; tauto. }
  assert (HLv : ∀ v, liveV st v -> liveV st' v).
  { intros [ | | | | | ]; cbn; rewrite ?EI; auto. lia. }
  split; [split|split| |].
  - assumption.
  - intros i Hi. rewrite EI in Hi. specialize (I2 _ Hi). lia.
  - intros g Hg. rewrite EG in Hg. specialize (I3 _ Hg). lia.
  - intros BV v HBV. apply HPr.
    destruct (HV _ _ HBV) as [?|(w & n & ->)]; [eauto|exact Logic.I].
  - intros i I v Hi Hv. rewrite EI in Hi. apply HLv. eauto.
  - intros b l i Hb Hi. rewrite EB in Hb. rewrite EI. eauto.
  - intros BV v HBV. rewrite EP in HBV.
    destruct (I7 _ _ HBV) as (LD & -> & Hlt & [v0 Hm]). exists LD.
    split; [reflexivity|]. split; [lia|]. exists v0.
    eapply lookup_weaken; eauto.
  - intros BV LD HBV. apply HP in HBV.
    destruct (I8 _ _ HBV) as (Hs & Hv & g & Hl & Hg).
    split; [eapply inStartedBody_mono; [|exact Hs]; now rewrite EF|].
    split; [assumption|].
    exists g. split; [now apply HL|now apply HG].
  - intros BV LD H1 H2. rewrite EP in H1. rewrite EI.
    apply (I9 _ _ H1). intros H3. apply H2. eapply lookup_weaken; eauto.
  - intros BV BV' i H1 H2. apply Hold in H1, H2. eauto.
  - intros g Hg. apply HG in Hg. destruct (I11 _ Hg) as (BV & LD & H1 & H2).
    exists BV, LD. split; [now apply HP|now apply HL].
  - intros i g H1 H2. apply HL in H1. apply HG in H2.
    destruct (I12 _ _ H1 H2) as [BV HBV]. exists BV. now apply HP.
  - intros i i' g H1 H2 H3. apply HL in H1, H2. apply HG in H3. eauto.
  - assumption.
  - assumption.
  - now rewrite EF.
  - now rewrite EP.
  - intros BV v HBV _. eapply lookup_weaken; eauto.
  - intros BV [v HBV]. exists v. eapply lookup_weaken; eauto.
  - intros BV LD H1 H2. rewrite EP in H1. congruence.
  - intros v. apply HPr.
  - intros BV LD HBV. left. now apply HP.
Qed.

(** A change of the instructions, the blocks and the global variables
    that leaves the tables and the placeholders as they are. *)
Lemma RStep_conservative New st st' :
  RInv st ->
  TypeMap st' = TypeMap st -> Structs st' = Structs st ->
  ValueMap st' = ValueMap st -> PlaceholderMap st' = PlaceholderMap st ->
  FuncMap st' = FuncMap st -> (NextId st <= NextId st')%nat ->
  (∀ i, is_Some (Insts st' !! i) -> (i < NextId st')%nat) ->
  (∀ g, is_Some (Globals st' !! g) -> (g < NextId st')%nat) ->
  (∀ i I v, Insts st' !! i = Some I -> v ∈ Operands I -> liveV st' v) ->
  (∀ b l i, BlockInsts st' !! b = Some l -> i ∈ l -> is_Some (Insts st' !! i)) ->
  (∀ v, properV st v -> properV st' v) ->
  (∀ LD, (LD < NextId st)%nat -> Insts st !! LD = None ->
         Insts st' !! LD = None) ->
  (∀ LD g, loadOf st LD g -> loadOf st' LD g) ->
  (∀ i g, loadOf st' i g -> placeholderGlobal st' g -> loadOf st i g) ->
  (∀ g, placeholderGlobal st' g ↔ placeholderGlobal st g) ->
  RStep New st st'.
Proof.
  intros [I1 I2 I3 I4 I5 I6 I7 I8 I9 I10 I11 I12 I13]
         ET ES EV EP EF HN H2 H3 H5 H6 HPr Hdead HL HL' HG.
  assert (HP : ∀ BV LD, pendingR st' BV LD ↔ pendingR st BV LD).
  { intros BV LD. unfold pendingR. now rewrite EP, EV. }
  split; [split|split| |].
  - eapply TInv_keep; eauto. intros L c. now rewrite EV.
  - assumption.
  - assumption.
  - intros BV v H. rewrite EV in H. eauto.
  - assumption.
  - assumption.
  - intros BV v H. rewrite EP in H. rewrite EV.
    destruct (I7 _ _ H) as (LD & -> & Hlt & Hm). exists LD.
    split; [reflexivity|]. split; [lia|assumption].
  - intros BV LD H. apply HP in H. destruct (I8 _ _ H) as (Hs & Hv & g & Hl & Hg).
    split; [eapply inStartedBody_mono; [|exact Hs]; now rewrite EF|].
    split; [assumption|].
    exists g. split; [now apply HL|now apply HG].
  - intros BV LD H1 H2'. rewrite EP in H1. rewrite EV in H2'.
    apply Hdead; [|eauto]. destruct (I7 _ _ H1) as (LD' & [= <-] & Hlt & _).
    assumption.
  - intros BV BV' i H1 H2'. rewrite EV in H1, H2'. eauto.
  - intros g Hg. apply HG in Hg. destruct (I11 _ Hg) as (BV & LD & H1 & H2').
    exists BV, LD. split; [now apply HP|now apply HL].
  - intros i g H1 H2'. pose proof (HL' _ _ H1 H2') as H1'. apply HG in H2'.
    destruct (I12 _ _ H1' H2') as [BV H]. exists BV. now apply HP.
  - intros i i' g H1 H2' H3'.
    pose proof (HL' _ _ H1 H3') as H1'. pose proof (HL' _ _ H2' H3') as H2''.
    apply HG in H3'. eauto.
  - assumption.
  - now rewrite ET.
  - now rewrite EF.
  - now rewrite EP.
  - intros BV v H _. now rewrite EV.
  - intros BV. now rewrite EV.
  - intros BV LD H1 H2'. rewrite EP in H1. congruence.
  - assumption.
  - intros BV LD H. left. now apply HP.
Qed.

Lemma properV_grow st st' v :
  (∀ i, is_Some (Insts st !! i) -> is_Some (Insts st' !! i)) ->
  (∀ g G, Globals st !! g = Some G ->
          String.prefix KPlaceholderPrefix (GName G) = false ->
          ∃ G', Globals st' !! g = Some G'
                ∧ String.prefix KPlaceholderPrefix (GName G') = false) ->
  properV st v -> properV st' v.
Proof.
  intros HI HG. destruct v; cbn; auto. intros (G & H1 & H2). eauto.
Qed.

(** A new instruction whose operands are proper. *)
Lemma RStep_addInst New K Ops Name BB st :
  RInv st -> (∀ v, v ∈ Ops -> properV st v) ->
  RStep New st (snd (addInst K Ops Name BB st))
  ∧ is_Some (Insts (snd (addInst K Ops Name BB st)) !! NextId st)
  ∧ fst (addInst K Ops Name BB st) = NextId st.
Proof.
  intros HI HOps. split; [|split; [cbn; rewrite lookup_insert_eq; eauto|reflexivity]].
  pose proof HI as [I1 I2 I3 I4 I5 I6 I7 I8 I9 I10 I11 I12 I13].
  assert (Hfresh : Insts st !! (NextId st) = None).
  { destruct (Insts st !! (NextId st)) eqn:E; [|reflexivity].
    assert ((NextId st) < NextId st)%nat by (apply I2; eauto). lia. }
  assert (Hgrow : ∀ i, is_Some (Insts st !! i) ->
            is_Some (Insts (snd (addInst K Ops Name BB st)) !! i)).
  { intros i Hi. cbn. rewrite lookup_insert_ne; [assumption|].
    intros <-. rewrite Hfresh in Hi. now destruct Hi. }
  assert (HPr : ∀ v, properV st v ->
                     properV (snd (addInst K Ops Name BB st)) v).
  { intros v. apply properV_grow; [exact Hgrow|]. intros g G H1 H2.
    exists G. split; [exact H1|exact H2]. }
  apply RStep_conservative; try reflexivity; try assumption.
  - cbn. lia.
  - intros i Hi. cbn in *. destruct (decide (i = (NextId st))) as [->|Hd]; [lia|].
    rewrite lookup_insert_ne in Hi by congruence. specialize (I2 _ Hi). lia.
  - intros g Hg. cbn in *. specialize (I3 _ Hg). lia.
  - intros i I v Hi Hv. cbn in Hi.
    assert (HL : liveV st v).
    { destruct (decide (i = (NextId st))) as [->|Hd].
      - rewrite lookup_insert_eq in Hi. injection Hi as <-.
        cbn in Hv. apply properV_liveV; auto.
      - rewrite lookup_insert_ne in Hi by congruence. eauto. }
    destruct v; cbn in *; auto; lia.
  - intros b l i Hb Hi. cbn in Hb.
    destruct (decide (i = (NextId st))) as [->|Hd].
    { cbn. rewrite lookup_insert_eq. eauto. }
    apply Hgrow. destruct BB as [b0|].
    + destruct (decide (b = b0)) as [->|Hb0].
      * rewrite lookup_alter_eq in Hb.
        destruct (BlockInsts st !! b0) as [l0|] eqn:E0; [|discriminate].
        cbn in Hb. injection Hb as <-.
        apply elem_of_app in Hi as [Hi|Hi]; [eauto|].
        apply list_elem_of_singleton in Hi. congruence.
      * rewrite lookup_alter_ne in Hb by congruence. eauto.
    + eauto.
  - intros LD Hlt Hn. cbn. rewrite lookup_insert_ne; [assumption|]. lia.
  - intros LD g (I & H1 & H2 & H3). exists I. split; [|auto].
    cbn. rewrite lookup_insert_ne; [assumption|].
    intros <-. congruence.
  - intros i g (I & H1 & H2 & rest & H3) (G & HG1 & HG2). cbn in H1.
    destruct (decide (i = (NextId st))) as [->|Hd].
    + rewrite lookup_insert_eq in H1. injection H1 as <-.
      cbn in H3. subst Ops.
      destruct (HOps (VGlobal g)) as (G' & HG1' & HG2');
        [apply elem_of_cons; now left|].
      cbn in HG1. congruence.
    + rewrite lookup_insert_ne in H1 by congruence.
      exists I. eauto.
Qed.

(** A new global variable that is no placeholder. *)
Lemma RStep_addGlobal New Name Ty Init st :
  RInv st -> String.prefix KPlaceholderPrefix Name = false ->
  RStep New st (snd (addGlobal Name Ty Init st))
  ∧ properV (snd (addGlobal Name Ty Init st)) (VGlobal (NextId st))
  ∧ fst (addGlobal Name Ty Init st) = NextId st.
Proof.
  intros HI HN.
  pose proof HI as [I1 I2 I3 I4 I5 I6 I7 I8 I9 I10 I11 I12 I13].
  assert (Hfresh : Globals st !! (NextId st) = None).
  { destruct (Globals st !! (NextId st)) eqn:E; [|reflexivity].
    assert ((NextId st) < NextId st)%nat by (apply I3; eauto). lia. }
  split; [|split; [|reflexivity]].
  2:{ cbn. rewrite lookup_insert_eq. eauto. }
  assert (HPr : ∀ v, properV st v ->
                     properV (snd (addGlobal Name Ty Init st)) v).
  { intros v. apply properV_grow; [auto|]. intros g G H1 H2.
    exists G. split; [|exact H2]. cbn. rewrite lookup_insert_ne; [assumption|].
    intros <-. congruence. }
  apply RStep_conservative; try reflexivity; try assumption.
  - cbn. lia.
  - intros i Hi. cbn in *. specialize (I2 _ Hi). lia.
  - intros g Hg. cbn in *. destruct (decide (g = (NextId st))) as [->|Hd]; [lia|].
    rewrite lookup_insert_ne in Hg by congruence.
    specialize (I3 _ Hg). lia.
  - intros i I v Hi Hv. cbn in Hi. specialize (I5 _ _ _ Hi Hv).
    destruct v; cbn in *; auto; lia.
  - intros LD Hlt Hn. exact Hn.
  - intros LD g H. exact H.
  - intros i g H _. exact H.
  - intros g. unfold placeholderGlobal. cbn.
    destruct (decide (g = (NextId st))) as [->|Hd].
    + rewrite lookup_insert_eq, Hfresh. split.
      * intros (G & [= <-] & HG). cbn in HG. congruence.
      * intros (G & [=] & _).
    + now rewrite lookup_insert_ne by congruence.
Qed.

Lemma RStep_frame New st st' :
  RInv st ->
  TypeMap st' = TypeMap st -> Structs st' = Structs st ->
  ValueMap st' = ValueMap st -> PlaceholderMap st' = PlaceholderMap st ->
  Insts st' = Insts st -> Globals st' = Globals st ->
  (∀ b l i, BlockInsts st' !! b = Some l -> i ∈ l ->
            ∃ b0 l0, BlockInsts st !! b0 = Some l0 ∧ i ∈ l0) ->
  (NextId st <= NextId st')%nat -> FuncMap st ⊆ FuncMap st' ->
  RStep New st st'.
Proof. apply RInv_frame. Qed.

Lemma RStep_fresh New st : RInv st -> RStep New st (snd (fresh st)).
Proof.
  intros HI. apply RStep_frame; try reflexivity; auto; [|cbn; lia].
  intros b l i Hb Hi. eauto.
Qed.

Lemma RStep_addBlock New F st :
  RInv st -> RStep New st (snd (addBlock F st)).
Proof.
  intros HI. apply RStep_frame; try reflexivity; auto; [|cbn; lia].
  intros b l i Hb Hi. cbn in Hb.
  destruct (decide (b = NextId st)) as [->|Hd].
  - rewrite lookup_insert_eq in Hb. injection Hb as <-.
    now apply not_elem_of_nil in Hi.
  - rewrite lookup_insert_ne in Hb by congruence. eauto.
Qed.

Lemma RStep_addFunction New Name FT st :
  RInv st -> RStep New st (snd (addFunction Name FT st)).
Proof.
  intros HI. apply RStep_frame; try reflexivity; auto; [|cbn; lia].
  intros b l i Hb Hi. eauto.
Qed.

Lemma RStep_getOrInsertFunction New Name FT st :
  RInv st -> RStep New st (snd (getOrInsertFunction Name FT st)).
Proof.
  intros HI. unfold getOrInsertFunction.
  destruct (find _ _) as [[f ?]|]; [now apply RStep_refl|].
  now apply RStep_addFunction.
Qed.

Lemma RStep_mapFunction New BF F st :
  RInv st -> FuncMap st !! BF = None -> RStep New st (mapFunction BF F st).
Proof.
  intros HI HF. apply RStep_frame; try reflexivity; auto.
  - intros b l i Hb Hi. eauto.
  - cbn. now apply insert_subseteq.
Qed.

Lemma RStep_loopMetadata New f st :
  RInv st -> RStep New st (setFuncLoopMetadataMap f st).
Proof.
  intros HI. apply RStep_frame; try reflexivity; auto.
  intros b l i Hb Hi. eauto.
Qed.

(** [setName] with a name that has not the placeholder prefix. *)
Lemma RStep_setName New v Name st :
  RInv st -> properV st v -> String.prefix KPlaceholderPrefix Name = false ->
  RStep New st (setName v Name st)
  ∧ (FuncMap (setName v Name st) = FuncMap st).
Proof.
  intros HI Hv HN. unfold setName.
  destruct (String.eqb Name EmptyString); [split; [now apply RStep_refl|reflexivity]|].
  pose proof HI as [I1 I2 I3 I4 I5 I6 I7 I8 I9 I10 I11 I12 I13].
  destruct v as [c|i|g|f n|bk|f];
    try (split; [now apply RStep_refl|reflexivity]).
  - (* an instruction *)
    split; [|reflexivity].
    set (f := fun x => mkInstruction (Kind x) (Operands x) Name (Parent x)).
    assert (HL : ∀ j, Insts (setInsts (alter f i) st) !! j
                      = f <$> Insts st !! j
                      ∨ Insts (setInsts (alter f i) st) !! j = Insts st !! j).
    { intros j. cbn. destruct (decide (j = i)) as [->|Hd].
      - left. apply lookup_alter_eq.
      - right. now apply lookup_alter_ne. }
    assert (Hsome : ∀ j, is_Some (Insts (setInsts (alter f i) st) !! j)
                         ↔ is_Some (Insts st !! j)).
    { intros j. destruct (HL j) as [-> | ->]; [|tauto].
      now rewrite fmap_is_Some. }
    assert (Hload : ∀ j g, loadOf (setInsts (alter f i) st) j g ↔ loadOf st j g).
    { intros j g. unfold loadOf. destruct (HL j) as [-> | ->]; [|tauto].
      destruct (Insts st !! j) as [I|]; cbn.
      - split; intros (I' & [= <-] & H); cbn in H; eauto.
      - split; intros (I' & [=] & _). }
    apply RStep_conservative; try reflexivity; try assumption.
    + intros j Hj. apply Hsome in Hj. now apply I2.
    + intros j I v Hj Hv'.
      assert (liveV st v) as HLv.
      { destruct (HL j) as [E|E]; rewrite E in Hj.
        - destruct (Insts st !! j) as [I0|] eqn:E0; [|discriminate].
          cbn in Hj. injection Hj as <-. cbn in Hv'. eauto.
        - eauto. }
      destruct v; cbn in *; auto. now apply Hsome.
    + intros b l j Hb Hj. apply Hsome. eauto.
    + intros v. apply properV_grow; [intros j; apply Hsome|eauto].
    + intros LD _ Hn. destruct (HL LD) as [-> | ->]; [|assumption].
      now rewrite Hn.
    + intros LD g. apply Hload.
    + intros j g H _. now apply Hload.
  - (* a global variable *)
    split; [|reflexivity].
    destruct Hv as (G & HG & HGn).
    set (f := fun x => mkGlobalVariable Name (GType x) (GInitializer x)).
    assert (HPG : ∀ g', placeholderGlobal (setGlobals (alter f g) st) g'
                        ↔ placeholderGlobal st g').
    { intros g'. unfold placeholderGlobal. cbn.
      destruct (decide (g' = g)) as [->|Hd].
      - rewrite lookup_alter_eq, HG. cbn. split.
        + intros (G' & [= <-] & H). cbn in H. congruence.
        + intros (G' & [= <-] & H). congruence.
      - now rewrite lookup_alter_ne by congruence. }
    apply RStep_conservative; try reflexivity; try assumption.
    + intros g' Hg'. cbn in Hg'. apply I3.
      destruct (decide (g' = g)) as [->|Hd]; [eauto|].
      now rewrite lookup_alter_ne in Hg' by congruence.
    + intros v. apply properV_grow; [auto|]. intros g' G' H1 H2. cbn.
      destruct (decide (g' = g)) as [->|Hd].
      * rewrite lookup_alter_eq, HG. cbn. eexists. split; [reflexivity|].
        exact HN.
      * rewrite lookup_alter_ne by congruence. eauto.
    + intros LD _ Hn. exact Hn.
    + intros LD g' H. exact H.
    + intros j g' H _. exact H.
  - (* a function *)
    split; [|reflexivity]. apply RStep_frame; try reflexivity; auto.
    intros b l i Hb Hi. eauto.
Qed.

(** [addIncoming] of proper values. *)
Lemma RStep_addIncoming New Phi V B st :
  RInv st -> properV st V -> properV st B ->
  RStep New st (addIncoming Phi V B st).
Proof.
  intros HI HV HB.
  pose proof HI as [I1 I2 I3 I4 I5 I6 I7 I8 I9 I10 I11 I12 I13].
  set (f := fun x => mkInstruction (Kind x) (Operands x ++ [V; B])
                                   (IName x) (Parent x)).
  assert (HL : ∀ j, (j = Phi ∧ Insts (addIncoming Phi V B st) !! j
                               = f <$> Insts st !! j)
                    ∨ Insts (addIncoming Phi V B st) !! j = Insts st !! j).
  { intros j. cbn. destruct (decide (j = Phi)) as [->|Hd].
    - left. split; [reflexivity|]. apply lookup_alter_eq.
    - right. now apply lookup_alter_ne. }
  assert (Hsome : ∀ j, is_Some (Insts (addIncoming Phi V B st) !! j)
                       ↔ is_Some (Insts st !! j)).
  { intros j. destruct (HL j) as [[_ ->] | ->]; [|tauto].
    now rewrite fmap_is_Some. }
  apply RStep_conservative; try reflexivity; try assumption.
  - intros j Hj. apply Hsome in Hj. now apply I2.
  - intros j I v Hj Hv'.
    assert (liveV st v) as HLv.
    { destruct (HL j) as [[_ E]|E]; rewrite E in Hj.
      - destruct (Insts st !! j) as [I0|] eqn:E0; [|discriminate].
        cbn in Hj. injection Hj as <-. cbn in Hv'.
        apply elem_of_app in Hv' as [Hv'|Hv']; [eauto|].
        apply elem_of_cons in Hv' as [->|Hv']; [now apply properV_liveV|].
        apply list_elem_of_singleton in Hv' as ->. now apply properV_liveV.
      - eauto. }
    destruct v; cbn in *; auto. now apply Hsome.
  - intros b l j Hb Hj. apply Hsome. eauto.
  - intros v. apply properV_grow; [intros j; apply Hsome|eauto].
  - intros LD _ Hn. destruct (HL LD) as [[_ ->] | ->]; [|assumption].
    now rewrite Hn.
  - intros LD g (I & H1 & H2 & rest & H3). unfold loadOf.
    destruct (HL LD) as [[_ ->] | ->]; [|eauto].
    rewrite H1. cbn. eexists. split; [reflexivity|]. cbn.
    split; [assumption|]. rewrite H3. cbn. eauto.
  - intros j g (I & H1 & H2 & rest & H3) (G & HG1 & HG2). unfold loadOf.
    destruct (HL j) as [[_ E]|E]; rewrite E in H1; [|eauto].
    destruct (Insts st !! j) as [I0|] eqn:E0; [|discriminate].
    cbn in H1. injection H1 as <-. cbn in H2, H3.
    exists I0. split; [reflexivity|]. split; [assumption|].
    destruct (Operands I0) as [|o os]; cbn in H3.
    + injection H3 as -> _. destruct HV as (G' & HG1' & HG2').
      cbn in HG1. congruence.
    + injection H3 as -> _. eauto.
Qed.

(** [mapValue] of a value that has no entry. *)
Lemma RStep_mapNew New BV V st :
  RInv st -> ValueMap st !! BV = None -> properV st V ->
  (∀ i BV', V = VInst i -> ValueMap st !! BV' ≠ Some (VInst i)) ->
  RStep New st (setValueMap <[BV := V]> st).
Proof.
  intros HI HBV HV Hnew.
  pose proof HI as [I1 I2 I3 I4 I5 I6 I7 I8 I9 I10 I11 I12 I13].
  set (st' := setValueMap <[BV := V]> st).
  assert (HPn : PlaceholderMap st !! BV = None).
  { destruct (PlaceholderMap st !! BV) as [p|] eqn:E; [|reflexivity].
    destruct (I7 _ _ E) as (_ & _ & _ & [v Hv]). congruence. }
  assert (Hmap : ∀ BV' v, ValueMap st' !! BV' = Some v ->
            (BV' = BV ∧ v = V) ∨ (BV' ≠ BV ∧ ValueMap st !! BV' = Some v)).
  { intros BV' v H. cbn in H. destruct (decide (BV' = BV)) as [->|Hd].
    - rewrite lookup_insert_eq in H. injection H as <-. now left.
    - rewrite lookup_insert_ne in H by congruence. now right. }
  assert (HP : ∀ BV' LD, pendingR st' BV' LD ↔ pendingR st BV' LD).
  { intros BV' LD. unfold pendingR. cbn. destruct (decide (BV' = BV)) as [->|Hd].
    - rewrite HPn, HBV. split; intros [[=] _].
    - now rewrite lookup_insert_ne by congruence. }
  split; [split|split| |].
  - eapply TInv_keep; eauto. intros L c H. cbn.
    rewrite lookup_insert_ne; [assumption|congruence].
  - exact I2.
  - exact I3.
  - intros BV' v H. destruct (Hmap _ _ H) as [[-> ->]|[_ H']];
      [exact HV|exact (I4 _ _ H')].
  - exact I5.
  - exact I6.
  - intros BV' v H. cbn in H. destruct (I7 _ _ H) as (LD & -> & Hlt & [w Hm]).
    exists LD. split; [reflexivity|]. split; [assumption|]. cbn.
    destruct (decide (BV' = BV)) as [->|Hd]; [congruence|].
    rewrite lookup_insert_ne by congruence. eauto.
  - intros BV' LD H. apply HP in H. exact (I8 _ _ H).
  - intros BV' LD H1 H2. cbn in H1.
    destruct (decide (BV' = BV)) as [->|Hd]; [congruence|].
    apply (I9 _ _ H1). cbn in H2. now rewrite lookup_insert_ne in H2 by congruence.
  - intros B1 B2 i H1 H2.
    destruct (Hmap _ _ H1) as [[-> E1]|[? H1']],
             (Hmap _ _ H2) as [[-> E2]|[? H2']]; try reflexivity.
    + now destruct (Hnew i B2 (eq_sym E1)).
    + now destruct (Hnew i B1 (eq_sym E2)).
    + eauto.
  - intros g Hg. destruct (I11 _ Hg) as (BV' & LD & H1 & H2).
    exists BV', LD. split; [now apply HP|exact H2].
  - intros i g H1 H2. destruct (I12 _ _ H1 H2) as [BV' H]. exists BV'.
    now apply HP.
  - exact I13.
  - cbn. lia.
  - reflexivity.
  - reflexivity.
  - reflexivity.
  - intros BV' v H _. cbn. rewrite lookup_insert_ne; [assumption|congruence].
  - intros BV' [v H]. cbn. destruct (decide (BV' = BV)) as [->|Hd].
    + rewrite lookup_insert_eq. eauto.
    + rewrite lookup_insert_ne by congruence. eauto.
  - intros BV' LD H1 H2. cbn in H1. congruence.
  - auto.
  - intros BV' LD H. left. now apply HP.
Qed.

Ltac unlia :=
  repeat match goal with x := _ |- _ => subst x end; cbn in *; lia.

Lemma prefix_placeholder Name :
  String.prefix KPlaceholderPrefix (KPlaceholderPrefix ++ Name) = true.
Proof. cbn. now destruct Name. Qed.

(** The placeholder of a value that has no entry: a global variable with
    the placeholder prefix and a load of it, which the tables record. *)
Lemma RStep_placeholder BV Name Ty BB st :
  RInv st -> ValueMap st !! BV = None ->
  inStartedBody st BV -> valueProducing BV ->
  let st2 := snd (addGlobal (KPlaceholderPrefix ++ Name) Ty None st) in
  let LD := S (NextId st) in
  let st3 := snd (addInst LoadInst [VGlobal (NextId st)] Name BB st2) in
  let st4 := setValueMap <[BV := VInst LD]>
               (setPlaceholderMap <[BV := VInst LD]> st3) in
  RStep (eq BV) st st4 ∧ pendingR st4 BV LD ∧ properV st4 (VInst LD).
Proof.
  intros HI HBV Hbody Hvp st2 LD st3 st4.
  pose proof HI as [I1 I2 I3 I4 I5 I6 I7 I8 I9 I10 I11 I12 I13].
  set (n := NextId st) in *.
  set (G := mkGlobalVariable (KPlaceholderPrefix ++ Name) Ty None).
  set (I := mkInstruction LoadInst [VGlobal n] Name BB).
  assert (HPn : PlaceholderMap st !! BV = None).
  { destruct (PlaceholderMap st !! BV) as [p|] eqn:E; [|reflexivity].
    destruct (I7 _ _ E) as (_ & _ & _ & [v Hv]). congruence. }
  assert (HfI : ∀ i, (n <= i)%nat -> Insts st !! i = None).
  { intros i Hi. destruct (Insts st !! i) eqn:E; [|reflexivity].
    assert (i < NextId st)%nat by (apply I2; eauto). unlia. }
  assert (HfG : ∀ g, (n <= g)%nat -> Globals st !! g = None).
  { intros g Hg. destruct (Globals st !! g) eqn:E; [|reflexivity].
    assert (g < NextId st)%nat by (apply I3; eauto). unlia. }
  assert (EI : ∀ i, Insts st4 !! i = if decide (i = LD) then Some I
                                     else Insts st !! i).
  { intros i. cbn. destruct (decide (i = LD)) as [->|Hd].
    - apply lookup_insert_eq.
    - apply lookup_insert_ne. intros E. apply Hd. now rewrite <- E. }
  assert (EG : ∀ g, Globals st4 !! g = if decide (g = n) then Some G
                                       else Globals st !! g).
  { intros g. cbn. destruct (decide (g = n)) as [->|Hd].
    - apply lookup_insert_eq.
    - apply lookup_insert_ne. intros E. apply Hd. now rewrite <- E. }
  assert (EV : ∀ B v, ValueMap st4 !! B = Some v ->
            (B = BV ∧ v = VInst LD) ∨ (B ≠ BV ∧ ValueMap st !! B = Some v)).
  { intros B v H. cbn in H. destruct (decide (B = BV)) as [->|Hd].
    - rewrite lookup_insert_eq in H. injection H as <-. now left.
    - rewrite lookup_insert_ne in H by congruence. now right. }
  assert (EP : ∀ B v, PlaceholderMap st4 !! B = Some v ->
            (B = BV ∧ v = VInst LD) ∨ (B ≠ BV ∧ PlaceholderMap st !! B = Some v)).
  { intros B v H. cbn in H. destruct (decide (B = BV)) as [->|Hd].
    - rewrite lookup_insert_eq in H. injection H as <-. now left.
    - rewrite lookup_insert_ne in H by congruence. now right. }
  assert (HIold : ∀ i, is_Some (Insts st !! i) -> Insts st4 !! i = Insts st !! i).
  { intros i Hi. rewrite EI. rewrite decide_False; [reflexivity|].
    intros ->. rewrite HfI in Hi by unlia. now destruct Hi. }
  assert (HGold : ∀ g, is_Some (Globals st !! g) ->
                       Globals st4 !! g = Globals st !! g).
  { intros g Hg. rewrite EG. rewrite decide_False; [reflexivity|].
    intros ->. rewrite HfG in Hg by lia. now destruct Hg. }
  assert (HPr : ∀ v, properV st v -> properV st4 v).
  { intros v. apply properV_grow.
    - intros i Hi. now rewrite HIold.
    - intros g G' H1 H2. exists G'. split; [|exact H2].
      rewrite HGold; eauto. }
  assert (HLo : ∀ i g, loadOf st i g -> loadOf st4 i g).
  { intros i g (I0 & H1 & H2). exists I0. split; [|exact H2].
    rewrite HIold; eauto. }
  assert (HLn : ∀ i g, loadOf st4 i g ->
                       (i = LD ∧ g = n) ∨ (i ≠ LD ∧ loadOf st i g)).
  { intros i g (I0 & H1 & H2 & rest & H3). rewrite EI in H1.
    destruct (decide (i = LD)) as [->|Hd].
    - injection H1 as <-. cbn in H3. injection H3 as <- _. now left.
    - right. split; [assumption|]. exists I0. eauto. }
  assert (HPGo : ∀ g, placeholderGlobal st g -> placeholderGlobal st4 g).
  { intros g (G' & H1 & H2). exists G'. split; [|exact H2].
    rewrite HGold; eauto. }
  assert (HPGn : ∀ g, placeholderGlobal st4 g ->
                      g = n ∨ (g ≠ n ∧ placeholderGlobal st g)).
  { intros g (G' & H1 & H2). rewrite EG in H1.
    destruct (decide (g = n)) as [->|Hd]; [now left|].
    right. split; [assumption|]. exists G'. auto. }
  assert (HPo : ∀ B L, pendingR st B L -> pendingR st4 B L).
  { intros B L [H1 H2]. assert (B ≠ BV) by congruence.
    split; cbn; now rewrite lookup_insert_ne by congruence. }
  assert (HPnw : ∀ B L, pendingR st4 B L ->
                        (B = BV ∧ L = LD) ∨ (B ≠ BV ∧ pendingR st B L)).
  { intros B L [H1 H2].
    destruct (EP _ _ H1) as [[-> [= ->]]|[Hd H1']]; [now left|].
    destruct (EV _ _ H2) as [[-> _]|[_ H2']]; [contradiction|].
    right. split; [assumption|]. split; assumption. }
  assert (Hnow : pendingR st4 BV LD).
  { split; cbn; apply lookup_insert_eq. }
  assert (HlLD : loadOf st4 LD n).
  { exists I. rewrite EI, decide_True by reflexivity.
    split; [reflexivity|]. split; [reflexivity|]. exists []. reflexivity. }
  assert (HgN : placeholderGlobal st4 n).
  { exists G. rewrite EG, decide_True by reflexivity.
    split; [reflexivity|]. apply prefix_placeholder. }
  split; [|split; [exact Hnow|]].
  2:{ cbn. rewrite lookup_insert_eq. eauto. }
  split; [split|split| |].
  - eapply TInv_keep; eauto; [cbn; lia|].
    intros L c H. cbn. rewrite lookup_insert_ne; [assumption|congruence].
  - intros i Hi. rewrite EI in Hi. cbn.
    destruct (decide (i = LD)) as [->|Hd]; [unlia|].
    specialize (I2 _ Hi). lia.
  - intros g Hg. rewrite EG in Hg. cbn.
    destruct (decide (g = n)) as [->|Hd]; [unlia|].
    specialize (I3 _ Hg). lia.
  - intros B v H. destruct (EV _ _ H) as [[-> ->]|[_ H']].
    + cbn. rewrite lookup_insert_eq. eauto.
    + apply HPr. eauto.
  - intros i I0 v Hi Hv. rewrite EI in Hi.
    destruct (decide (i = LD)) as [->|Hd].
    + injection Hi as <-. cbn in Hv. apply list_elem_of_singleton in Hv as ->.
      unlia.
    + specialize (I5 _ _ _ Hi Hv).
      destruct v as [c|j|g|f k|bk|f]; try exact Logic.I.
      * change (is_Some (Insts st4 !! j)). rewrite HIold; auto.
      * change (g < NextId st4)%nat. cbn in *. lia.
  - intros b l i Hb Hi. cbn in Hb.
    destruct (decide (i = LD)) as [->|Hd].
    { rewrite EI, decide_True by reflexivity. eauto. }
    rewrite EI, decide_False by assumption.
    destruct BB as [b0|].
    + destruct (decide (b = b0)) as [->|Hb0].
      * rewrite lookup_alter_eq in Hb.
        destruct (BlockInsts st !! b0) as [l0|] eqn:E0; [|discriminate].
        cbn in Hb. injection Hb as <-.
        apply elem_of_app in Hi as [Hi|Hi]; [eauto|].
        apply list_elem_of_singleton in Hi. contradiction.
      * rewrite lookup_alter_ne in Hb by congruence. eauto.
    + eauto.
  - intros B v H. destruct (EP _ _ H) as [[-> ->]|[Hd H']].
    + exists LD. split; [reflexivity|]. split; [unlia|].
      cbn. rewrite lookup_insert_eq. eauto.
    + destruct (I7 _ _ H') as (L & -> & Hlt & [w Hm]). exists L.
      split; [reflexivity|]. split; [cbn; lia|]. cbn.
      rewrite lookup_insert_ne by congruence. eauto.
  - intros B L H. destruct (HPnw _ _ H) as [[-> ->]|[Hd H']].
    + split; [exact Hbody|]. split; [exact Hvp|]. exists n. auto.
    + destruct (I8 _ _ H') as (Hs & Hv & g & Hl & Hg).
      split; [exact Hs|]. split; [exact Hv|]. exists g. auto.
  - intros B L H1 H2.
    destruct (EP _ _ H1) as [[-> [= ->]]|[Hd H1']].
    + destruct H2. cbn. apply lookup_insert_eq.
    + rewrite EI. destruct (I7 _ _ H1') as (L' & [= <-] & Hlt & _).
      rewrite decide_False by unlia.
      apply (I9 _ _ H1'). intros H3. apply H2. cbn.
      now rewrite lookup_insert_ne by congruence.
  - intros B1 B2 i H1 H2.
    destruct (EV _ _ H1) as [[-> E1]|[? H1']],
             (EV _ _ H2) as [[-> E2]|[? H2']]; try reflexivity.
    + injection E1 as ->. specialize (I4 _ _ H2'). cbn in I4.
      rewrite HfI in I4 by unlia. now destruct I4.
    + injection E2 as ->. specialize (I4 _ _ H1'). cbn in I4.
      rewrite HfI in I4 by unlia. now destruct I4.
    + eauto.
  - intros g Hg. destruct (HPGn _ Hg) as [->|[Hd Hg']].
    + exists BV, LD. auto.
    + destruct (I11 _ Hg') as (B & L & H1 & H2). exists B, L. auto.
  - intros i g H1 H2. destruct (HLn _ _ H1) as [[-> ->]|[Hd H1']].
    + exists BV. exact Hnow.
    + destruct (HPGn _ H2) as [->|[Hg H2']].
      * destruct H1' as (I0 & Hi & _ & rest & Ho).
        assert (Hin : VGlobal n ∈ Operands I0) by (rewrite Ho; apply elem_of_cons; now left).
        specialize (I5 _ _ _ Hi Hin). cbn in I5. unlia.
      * destruct (I12 _ _ H1' H2') as [B HB]. exists B. auto.
  - intros i i' g H1 H2 H3.
    assert (Hold : ∀ j, j ≠ LD -> loadOf st j g -> g ≠ n).
    { intros j _ (I0 & Hi & _ & rest & Ho) ->.
      assert (Hin : VGlobal n ∈ Operands I0) by (rewrite Ho; apply elem_of_cons; now left).
      specialize (I5 _ _ _ Hi Hin). cbn in I5. unlia. }
    destruct (HLn _ _ H1) as [[-> ->]|[Hd1 H1']],
             (HLn _ _ H2) as [[-> E2]|[Hd2 H2']]; try reflexivity.
    + now destruct (Hold _ Hd2 H2').
    + subst g. now destruct (Hold _ Hd1 H1').
    + destruct (HPGn _ H3) as [->|[Hg H3']]; [now destruct (Hold _ Hd1 H1')|].
      eauto.
  - cbn. lia.
  - reflexivity.
  - reflexivity.
  - cbn. now apply insert_subseteq.
  - intros B v H _. cbn. rewrite lookup_insert_ne; [assumption|congruence].
  - intros B [v H]. cbn. destruct (decide (B = BV)) as [->|Hd].
    + rewrite lookup_insert_eq. eauto.
    + rewrite lookup_insert_ne by congruence. eauto.
  - intros B L H1 H2. destruct (EP _ _ H1) as [[-> [= ->]]|[Hd H1']].
    + split; [assumption|]. unlia.
    + congruence.
  - exact HPr.
  - intros B L H. destruct (HPnw _ _ H) as [[-> ->]|[Hd H']]; [now right|now left].
Qed.

Lemma Value_dec (a b : Value) : a = b ∨ a ≠ b.
Proof.
  destruct (Value_eqb a b) eqn:E.
  - left. now apply Value_eqb_eq.
  - right. intros ->. now rewrite Value_eqb_refl in E.
Qed.

(** The step that resolves [BV]: its placeholder [LD] is erased, and
    nothing else is. *)
Record RKill (BV LD : nat) (st st' : State) : Prop := mkRKill {
  rkill_inv : RInv st';
  rkill_ext : RExt st st';
  rkill_keeps : ∀ v, properV st v -> v ≠ VInst LD -> properV st' v;
  rkill_pending : ∀ B L, pendingR st' B L -> B ≠ BV ∧ pendingR st B L;
  rkill_erased : Insts st' !! LD = None
}.

Definition substV (Old New v : Value) : Value :=
  if Value_eqb v Old then New else v.

Lemma mapValue_cases BV V st r st' :
  mapValue BV V st = Ok (r, st') ->
  r = V
  ∧ ((ValueMap st !! BV = None ∧ st' = setValueMap <[BV := V]> st)
     ∨ (ValueMap st !! BV = Some V ∧ st' = st)
     ∨ (∃ Old LD g, ValueMap st !! BV = Some Old ∧ Old ≠ V
          ∧ placeholderOf st Old = Ok (LD, g)
          ∧ st' = setValueMap <[BV := V]>
                    (eraseGlobal g
                       (eraseInst LD (replaceAllUsesWith (VInst LD) V st))))).
Proof.
  unfold mapValue. intros H.
  destruct (ValueMap st !! BV) as [Old|] eqn:E.
  - destruct (Value_eqb Old V) eqn:Eq.
    + apply Value_eqb_eq in Eq. subst Old. injection H as <- <-. auto.
    + apply bind_Ok in H as ([LD g] & EP & H). cbn in H.
      injection H as <- <-. split; [reflexivity|]. right; right.
      exists Old, LD, g. split; [reflexivity|]. split; [|auto].
      intros ->. now rewrite Value_eqb_refl in Eq.
  - injection H as <- <-. auto.
Qed.

Lemma RKill_resolve BV V LD g st :
  RInv st -> properV st V ->
  (∀ i B, V = VInst i -> ValueMap st !! B ≠ Some (VInst i)) ->
  ValueMap st !! BV = Some (VInst LD) -> V ≠ VInst LD ->
  loadOf st LD g -> placeholderGlobal st g ->
  let st' := setValueMap <[BV := V]>
               (eraseGlobal g
                  (eraseInst LD (replaceAllUsesWith (VInst LD) V st))) in
  pendingR st BV LD ∧ RKill BV LD st st'.
Proof.
  intros HI HV Hnew HBV Hne HLD HPG st'.
  pose proof HI as [I1 I2 I3 I4 I5 I6 I7 I8 I9 I10 I11 I12 I13].
  assert (Hpend : pendingR st BV LD).
  { destruct (I12 _ _ HLD HPG) as [B [H1 H2]].
    assert (B = BV) as -> by (eapply I10; eauto). split; assumption. }
  split; [exact Hpend|]. destruct Hpend as [HP1 HP2].
  set (sub := substV (VInst LD) V).
  set (subI := fun i => mkInstruction (Kind i) (map sub (Operands i))
                                      (IName i) (Parent i)).
  assert (EI : ∀ i, Insts st' !! i = if decide (i = LD) then None
                                     else subI <$> Insts st !! i).
  { intros i. cbn. destruct (decide (i = LD)) as [->|Hd].
    - apply lookup_delete_eq.
    - rewrite lookup_delete_ne by congruence. apply lookup_fmap. }
  assert (EG : ∀ g', Globals st' !! g' = if decide (g' = g) then None
                                         else Globals st !! g').
  { intros g'. cbn. destruct (decide (g' = g)) as [->|Hd].
    - apply lookup_delete_eq.
    - now rewrite lookup_delete_ne by congruence. }
  assert (EB : ∀ b, BlockInsts st' !! b
                    = filter (fun j => j ≠ LD) <$> BlockInsts st !! b).
  { intros b. cbn. apply lookup_fmap. }
  assert (EV : ∀ B v, ValueMap st' !! B = Some v ->
            (B = BV ∧ v = V) ∨ (B ≠ BV ∧ ValueMap st !! B = Some v)).
  { intros B v H. cbn in H. destruct (decide (B = BV)) as [->|Hd].
    - rewrite lookup_insert_eq in H. injection H as <-. now left.
    - rewrite lookup_insert_ne in H by congruence. now right. }
  assert (Hsubg : ∀ g', sub (VGlobal g') = VGlobal g') by reflexivity.
  assert (Hsub : ∀ v, v ≠ VInst LD -> sub v = v).
  { intros v Hv. unfold sub, substV. now rewrite Value_eqb_neq. }
  assert (HsubLD : sub (VInst LD) = V).
  { unfold sub, substV. now rewrite Value_eqb_refl. }
  assert (Hg_uniq : ∀ i g', loadOf st i g' -> placeholderGlobal st g' ->
                            g' = g -> i = LD).
  { intros i g' H1 H2 ->. eauto. }
  assert (Hlive : ∀ i, i ≠ LD -> is_Some (Insts st !! i) ->
                       is_Some (Insts st' !! i)).
  { intros i Hd Hi. rewrite EI, decide_False by assumption.
    now rewrite fmap_is_Some. }
  assert (HPr : ∀ v, properV st v -> v ≠ VInst LD -> properV st' v).
  { intros [c|i|g'|f k|bk|f] Hv Hd; try exact Logic.I.
    - apply Hlive; [congruence|exact Hv].
    - destruct Hv as (G & H1 & H2). exists G. split; [|exact H2].
      rewrite EG, decide_False; [assumption|].
      intros ->. destruct HPG as (G' & H1' & H2'). congruence. }
  assert (HPV : properV st' V) by (now apply HPr).
  assert (HPGn : ∀ g', placeholderGlobal st' g' ->
                       g' ≠ g ∧ placeholderGlobal st g').
  { intros g' (G & H1 & H2). rewrite EG in H1.
    destruct (decide (g' = g)) as [->|Hd]; [discriminate|].
    split; [assumption|]. exists G. auto. }
  assert (HPGo : ∀ g', g' ≠ g -> placeholderGlobal st g' ->
                       placeholderGlobal st' g').
  { intros g' Hd (G & H1 & H2). exists G. split; [|exact H2].
    now rewrite EG, decide_False. }
  assert (HLo : ∀ i g', i ≠ LD -> loadOf st i g' -> loadOf st' i g').
  { intros i g' Hd (I & H1 & H2 & rest & H3).
    exists (subI I). rewrite EI, decide_False, H1 by assumption.
    split; [reflexivity|]. split; [exact H2|].
    exists (map sub rest). cbn. now rewrite H3. }
  assert (HLn : ∀ i g', loadOf st' i g' -> placeholderGlobal st' g' ->
                        i ≠ LD ∧ loadOf st i g').
  { intros i g' (I' & H1 & H2 & rest & H3) Hg'. rewrite EI in H1.
    destruct (decide (i = LD)) as [->|Hd]; [discriminate|].
    split; [assumption|].
    destruct (Insts st !! i) as [I|] eqn:Ei; [|discriminate].
    cbn in H1. injection H1 as <-. cbn in H2, H3.
    exists I. split; [exact Ei|]. split; [exact H2|].
    destruct (Operands I) as [|o os]; [discriminate|].
    cbn in H3. injection H3 as H3 _.
    destruct (Value_dec o (VInst LD)) as [->|Ho].
    - rewrite HsubLD in H3. rewrite H3 in HV.
      destruct HV as (G & HG1 & HG2).
      destruct (HPGn _ Hg') as [_ (G' & HG1' & HG2')]. congruence.
    - rewrite Hsub in H3 by assumption. subst o. eauto. }
  assert (HPo : ∀ B L, B ≠ BV -> pendingR st B L -> pendingR st' B L).
  { intros B L Hd [H1 H2]. split; [exact H1|]. cbn.
    now rewrite lookup_insert_ne by congruence. }
  assert (HPn : ∀ B L, pendingR st' B L -> B ≠ BV ∧ pendingR st B L).
  { intros B L [H1 H2]. destruct (EV _ _ H2) as [[-> E]|[Hd H2']].
    - cbn in H1. rewrite HP1 in H1. injection H1 as <-. congruence.
    - split; [assumption|]. split; assumption. }
  split; [split|split| | |].
  - eapply TInv_keep; eauto. intros L c H. cbn.
    rewrite lookup_insert_ne; [assumption|congruence].
  - intros i Hi. rewrite EI in Hi. cbn.
    destruct (decide (i = LD)); [now destruct Hi|].
    rewrite fmap_is_Some in Hi. eauto.
  - intros g' Hg'. rewrite EG in Hg'. cbn.
    destruct (decide (g' = g)); [now destruct Hg'|]. eauto.
  - intros B v H. destruct (EV _ _ H) as [[-> ->]|[Hd H']]; [exact HPV|].
    apply HPr; [eauto|]. intros ->. apply Hd. eapply I10; eauto.
  - intros i I' v Hi Hv. rewrite EI in Hi.
    destruct (decide (i = LD)) as [->|Hd]; [discriminate|].
    destruct (Insts st !! i) as [I|] eqn:Ei; [|discriminate].
    cbn in Hi. injection Hi as <-. cbn in Hv.
    apply list_elem_of_fmap in Hv as (v0 & -> & Hv0).
    destruct (Value_dec v0 (VInst LD)) as [->|Hv0'].
    + rewrite HsubLD. destruct V as [c|j|g'|f k|bk|f]; try exact Logic.I.
      * exact HPV.
      * destruct HV as (G & HG & _). apply I3. eauto.
    + rewrite Hsub by assumption. specialize (I5 _ _ _ Ei Hv0).
      destruct v0 as [c|j|g'|f k|bk|f]; try exact Logic.I.
      * apply Hlive; [congruence|exact I5].
      * exact I5.
  - intros b l i Hb Hi. rewrite EB in Hb.
    destruct (BlockInsts st !! b) as [l0|] eqn:E0; [|discriminate].
    cbn in Hb. injection Hb as <-.
    apply list_elem_of_filter in Hi as [Hd Hi]. apply Hlive; eauto.
  - intros B v H. cbn in H. destruct (I7 _ _ H) as (L & -> & Hlt & [w Hm]).
    exists L. split; [reflexivity|]. split; [assumption|]. cbn.
    destruct (decide (B = BV)) as [->|Hd].
    + rewrite lookup_insert_eq. eauto.
    + rewrite lookup_insert_ne by congruence. eauto.
  - intros B L H. destruct (HPn _ _ H) as [Hd H'].
    destruct (I8 _ _ H') as (Hs & Hv & g' & Hl & Hg).
    split; [exact Hs|]. split; [exact Hv|].
    assert (L ≠ LD).
    { intros ->. apply Hd. destruct H' as [_ H2']. eapply I10; eauto. }
    assert (g' ≠ g).
    { intros ->. eauto. }
    exists g'. auto.
  - intros B L H1 H2. cbn in H1. rewrite EI.
    destruct (decide (L = LD)) as [->|Hd]; [reflexivity|].
    assert (B ≠ BV).
    { intros ->. congruence. }
    rewrite (I9 _ _ H1); [reflexivity|].
    intros H3. apply H2. cbn. now rewrite lookup_insert_ne by congruence.
  - intros B1 B2 i H1 H2.
    destruct (EV _ _ H1) as [[-> E1]|[? H1']],
             (EV _ _ H2) as [[-> E2]|[? H2']]; try reflexivity.
    + now destruct (Hnew i B2 (eq_sym E1)).
    + now destruct (Hnew i B1 (eq_sym E2)).
    + eauto.
  - intros g' Hg'. destruct (HPGn _ Hg') as [Hd Hg0].
    destruct (I11 _ Hg0) as (B & L & H1 & H2).
    assert (L ≠ LD).
    { intros ->. apply Hd. destruct HLD as (I & Hi & _ & r1 & Ho),
        H2 as (I' & Hi' & _ & r2 & Ho'). congruence. }
    assert (B ≠ BV).
    { intros ->. destruct H1 as [_ H1]. congruence. }
    exists B, L. auto.
  - intros i g' H1 H2. destruct (HLn _ _ H1 H2) as [Hd H1'].
    destruct (HPGn _ H2) as [Hg H2'].
    destruct (I12 _ _ H1' H2') as [B HB]. exists B. apply HPo; [|exact HB].
    intros ->. destruct HB as [_ HB]. congruence.
  - intros i i' g' H1 H2 H3.
    destruct (HLn _ _ H1 H3) as [_ H1'], (HLn _ _ H2 H3) as [_ H2'].
    destruct (HPGn _ H3) as [_ H3']. eauto.
  - cbn. lia.
  - reflexivity.
  - reflexivity.
  - reflexivity.
  - intros B v H Hp. cbn. rewrite lookup_insert_ne; [assumption|].
    intros ->. congruence.
  - intros B [v H]. cbn. destruct (decide (B = BV)) as [->|Hd].
    + rewrite lookup_insert_eq. eauto.
    + rewrite lookup_insert_ne by congruence. eauto.
  - intros B L H1 H2. cbn in H1. congruence.
  - exact HPr.
  - exact HPn.
  - now rewrite EI, decide_True.
Qed.

(** X19.  When [mapValue] is given the value [V] for an id whose entry
    is another value, that entry is the load of a placeholder; afterwards
    the id is mapped to [V], every instruction that had the load as an
    operand has [V] in its place, the load is in no block and is no
    instruction any more, and the global variable it loaded from is
    gone; the other entries of the table are as they were. *)
Theorem reader_mapValue_replaces_placeholder BV V Old st r st' :
  mapValue BV V st = Ok (r, st') ->
  ValueMap st !! BV = Some Old -> Old ≠ V ->
  ∃ LD g,
    Old = VInst LD ∧ loadOf st LD g ∧ placeholderGlobal st g
    ∧ r = V ∧ ValueMap st' !! BV = Some V
    ∧ (∀ B, B ≠ BV -> ValueMap st' !! B = ValueMap st !! B)
    ∧ Insts st' !! LD = None ∧ Globals st' !! g = None
    ∧ (∀ b l, BlockInsts st' !! b = Some l -> LD ∉ l)
    ∧ (∀ i I, Insts st' !! i = Some I -> VInst LD ∉ Operands I)
    ∧ (∀ i I, Insts st !! i = Some I -> i ≠ LD ->
         Insts st' !! i
         = Some (mkInstruction (Kind I)
                               (map (substV (VInst LD) V) (Operands I))
                               (IName I) (Parent I))).
Proof.
  intros H HO Hne.
  destruct (mapValue_cases BV V st r st' H)
    as [-> [[E _]|[[E _]|(Old' & LD & g & E & _ & HP & ->)]]];
    [congruence|congruence|].
  assert (Old' = Old) as -> by congruence.
  destruct (placeholderOf_Ok st Old LD g HP)
    as (-> & inst & ops & gv & Hi & Hk & Ho & Hg & Hpre).
  exists LD, g. split; [reflexivity|].
  split; [exists inst; eauto|]. split; [exists gv; eauto|].
  split; [reflexivity|]. split; [cbn; apply lookup_insert_eq|].
  split; [intros B HB; cbn; now rewrite lookup_insert_ne by congruence|].
  split; [cbn; apply lookup_delete_eq|].
  split; [cbn; apply lookup_delete_eq|].
  assert (EI : ∀ i I, Insts st !! i = Some I -> i ≠ LD ->
            Insts (setValueMap <[BV := V]>
                     (eraseGlobal g
                        (eraseInst LD (replaceAllUsesWith (VInst LD) V st))))
              !! i
            = Some (mkInstruction (Kind I)
                                  (map (substV (VInst LD) V) (Operands I))
                                  (IName I) (Parent I))).
  { intros i I HI Hd. cbn. rewrite lookup_delete_ne by congruence.
    now rewrite lookup_fmap, HI. }
  split; [|split; [|exact EI]].
  - intros b l Hb Hin. cbn in Hb. rewrite lookup_fmap in Hb.
    destruct (BlockInsts st !! b) as [l0|]; [|discriminate].
    cbn in Hb. injection Hb as <-.
    apply list_elem_of_filter in Hin as [Hd _]. now apply Hd.
  - intros i I HI Hin. cbn in HI.
    destruct (decide (i = LD)) as [->|Hd].
    { now rewrite lookup_delete_eq in HI. }
    rewrite lookup_delete_ne, lookup_fmap in HI by congruence.
    destruct (Insts st !! i) as [I0|]; [|discriminate].
    cbn in HI. injection HI as <-. cbn in Hin.
    apply list_elem_of_fmap in Hin as (v & Ev & _).
    destruct (Value_eqb v (VInst LD)) eqn:Eq; [congruence|].
    subst v. now rewrite Value_eqb_refl in Eq.
Qed.

(** *** Well-formed modules *)

(** What the translation of the values relies on.  No name begins like
    the name of a placeholder.  The operands of an instruction of a
    function that are instructions have a result and belong to the same
    function.  An instruction belongs to one function.  The initializer
    of a variable is no instruction.  A function, its parameters and the
    labels of its blocks are no instructions with a result. *)
Record wfModule : Prop := mkWfModule {
  wf_names :
    ∀ BV val, Values BM !! BV = Some val ->
              String.prefix KPlaceholderPrefix (ValueName val) = false;
  wf_operands :
    ∀ BF Fn BV o, FunctionsOf BM !! BF = Some Fn -> BV ∈ bodyOf Fn ->
                  o ∈ operandsOfValue BV -> instKind o ->
                  o ∈ bodyOf Fn ∧ valueProducing o;
  wf_bodies :
    ∀ BF BF' Fn Fn' BV,
      FunctionsOf BM !! BF = Some Fn -> FunctionsOf BM !! BF' = Some Fn' ->
      BV ∈ bodyOf Fn -> BV ∈ bodyOf Fn' -> BF = BF';
  wf_initializers :
    ∀ BV val SC InitV,
      Values BM !! BV = Some val -> Op val = OpVariable SC (Some InitV) ->
      ¬ instKind InitV;
  wf_functions :
    ∀ BF Fn, FunctionsOf BM !! BF = Some Fn ->
             ¬ valueProducing BF
             ∧ (∀ BA, BA ∈ Arguments Fn -> ¬ valueProducing BA)
             ∧ (∀ BBB, BBB ∈ BBVec Fn -> ¬ valueProducing (LabelId BBB))
}.

Lemma valueProducing_instKind BV : valueProducing BV -> instKind BV.
Proof.
  unfold valueProducing, instKind. destruct (opOf BV) as [[]|]; auto.
Qed.

Lemma operands_valueProducing BV o :
  o ∈ operandsOfValue BV -> valueProducing BV.
Proof.
  unfold operandsOfValue, valueProducing.
  destruct (opOf BV) as [[]|]; cbn; auto; intros H;
    now apply not_elem_of_nil in H.
Qed.

(** *** What a translation leaves behind *)

Lemma setName_maps v Name st :
  ValueMap (setName v Name st) = ValueMap st
  ∧ PlaceholderMap (setName v Name st) = PlaceholderMap st.
Proof.
  unfold setName. destruct (String.eqb _ _); [auto|]. destruct v; auto.
Qed.

Lemma fresh_inst_unmapped st B :
  RInv st -> ValueMap st !! B ≠ Some (VInst (NextId st)).
Proof.
  intros HI H. pose proof (rinv_values_proper _ HI _ _ H) as Hp. cbn in Hp.
  pose proof (rinv_insts_fresh _ HI _ Hp). lia.
Qed.

Lemma fresh_inst_unplaced st B :
  RInv st -> PlaceholderMap st !! B ≠ Some (VInst (NextId st)).
Proof.
  intros HI H.
  destruct (rinv_placeholder _ HI _ _ H) as (LD & E & Hlt & _).
  injection E as <-. lia.
Qed.

(** A placeholder that is pending now and was an instruction before was
    pending before. *)
Lemma pending_back st s BV LD :
  RInv st -> RExt st s -> pendingR s BV LD -> properV st (VInst LD) ->
  pendingR st BV LD.
Proof.
  intros HI HX [HP HV] Hpr. cbn in Hpr.
  pose proof (rinv_insts_fresh _ HI _ Hpr) as Hlt.
  destruct (PlaceholderMap st !! BV) as [p|] eqn:EP.
  - pose proof (lookup_weaken _ _ _ _ EP (rext_placeholders _ _ HX)) as E.
    rewrite HP in E. injection E as <-.
    destruct (rinv_placeholder _ HI _ _ EP) as (LD' & _ & _ & [x Hx]).
    destruct (Value_dec x (VInst LD)) as [->|Hne]; [split; assumption|].
    assert (ValueMap s !! BV = Some x)
      by (apply (rext_values _ _ HX); [assumption|congruence]).
    congruence.
  - destruct (rext_new_placeholder _ _ HX _ _ HP EP) as [_ ?]. lia.
Qed.

Lemma mapValue_spec BV V st r st' :
  RInv st -> properV st V ->
  (∀ i B, V = VInst i -> ValueMap st !! B ≠ Some (VInst i)) ->
  mapValue BV V st = Ok (r, st') ->
  r = V ∧ ValueMap st' !! BV = Some V
  ∧ PlaceholderMap st' = PlaceholderMap st ∧ FuncMap st' = FuncMap st
  ∧ properV st' V
  ∧ (RStep none st st' ∨ ∃ LD, pendingR st BV LD ∧ RKill BV LD st st').
Proof.
  intros HI HV Hnew H.
  destruct (mapValue_cases _ _ _ _ _ H)
    as [-> [[E ->]|[[E ->]|(Old & LD & g & E & Hne & HP & ->)]]].
  - assert (HS : RStep none st (setValueMap <[BV := V]> st))
      by now apply RStep_mapNew.
    split; [reflexivity|]. split; [cbn; apply lookup_insert_eq|].
    split; [reflexivity|]. split; [reflexivity|].
    split; [now apply (rstep_keeps _ _ _ HS)|now left].
  - repeat (split; [first [reflexivity|assumption]|]).
    left. now apply RStep_refl.
  - destruct (placeholderOf_Ok st Old LD g HP)
      as (-> & inst & ops & gv & Hi & Hk & Ho & Hg & Hpre).
    destruct (RKill_resolve BV V LD g st) as [HPd HK]; auto.
    { exists inst; eauto. }
    { exists gv; eauto. }
    split; [reflexivity|]. split; [cbn; apply lookup_insert_eq|].
    split; [reflexivity|]. split; [reflexivity|].
    split; [apply (rkill_keeps _ _ _ _ HK); auto|].
    right. exists LD. now split.
Qed.

(** What [transValue] is asked for: an instruction that is translated in
    a block belongs to a function whose translation has begun, and has a
    result when a placeholder may be made for it. *)
Definition PreV (st : State) (BV : nat) (BB : option nat) (cph : bool)
    : Prop :=
  instKind BV -> is_Some BB ->
  inStartedBody st BV ∧ (cph = true -> valueProducing BV).

(** The values whose translation is entered in the table: all but the
    constant samplers and the variables of the storage class of the
    samplers. *)
Definition memoKind (BV : nat) : Prop :=
  match opOf BV with
  | Some (OpConstantSampler _ _ _) => False
  | Some (OpVariable BS _) => BS ≠ StorageClassUniformConstant
  | _ => True
  end.

(** What [transValue] leaves behind.  The only instruction that may
    disappear is the placeholder of the value itself, when none may be
    made; the only placeholders that may appear are that of the value
    itself, when one may be made, and those of its operands. *)
Record VPostR (BV : nat) (cph : bool) (st : State) (r : option Value)
    (st' : State) : Prop := mkVPostR {
  vpr_inv : RInv st';
  vpr_ext : RExt st st';
  vpr_keeps :
    ∀ v, properV st v ->
         properV st' v
         ∨ (cph = false ∧ ∃ LD, v = VInst LD ∧ pendingR st BV LD);
  vpr_pending :
    ∀ B L, pendingR st' B L ->
           pendingR st B L ∨ (cph = true ∧ B = BV)
           ∨ (cph = false ∧ B ∈ operandsOfValue BV);
  vpr_result : ∀ v, r = Some v -> properV st' v;
  vpr_resolved : cph = false -> valueProducing BV -> resolvedR st' BV;
  vpr_mapped :
    ∀ v, r = Some v -> memoKind BV -> ValueMap st' !! BV = Some v
}.

Lemma VPostR_step (N : nat -> Prop) BV cph st r st' :
  RStep N st st' ->
  (∀ B, N B -> (cph = true ∧ B = BV)
               ∨ (cph = false ∧ B ∈ operandsOfValue BV)) ->
  (∀ v, r = Some v -> properV st' v) ->
  (cph = false -> valueProducing BV -> resolvedR st' BV) ->
  (∀ v, r = Some v -> memoKind BV -> ValueMap st' !! BV = Some v) ->
  VPostR BV cph st r st'.
Proof.
  intros [A B C D] HN Hr Hz Hm. split; auto.
  intros B0 L HP. destruct (D _ _ HP) as [?|?]; [now left|right; auto].
Qed.

Lemma VPostR_setName BV cph st v s Name :
  VPostR BV cph st (Some v) s ->
  String.prefix KPlaceholderPrefix Name = false ->
  VPostR BV cph st (Some v) (setName v Name s).
Proof.
  intros [A B C D E Z M] HN.
  destruct (RStep_setName none v Name s A (E _ eq_refl) HN)
    as [[A' B' C' D'] _].
  destruct (setName_maps v Name s) as [EV EP].
  split.
  - assumption.
  - apply (RExt_trans st s _ A B B').
  - intros v0 H0. destruct (C _ H0) as [?|?]; [left; auto|now right].
  - intros B0 L HP. destruct (D' _ _ HP) as [?|[]]. auto.
  - intros v0 [= <-]. auto.
  - intros H1 H2. apply (resolvedR_mono s); auto.
  - intros v0 H0 Hk. rewrite EV. auto.
Qed.

(** The entry that ends the translation of a value. *)
Lemma VPostR_map (N : nat -> Prop) BV st s V r st' :
  RInv st -> RStep N st s ->
  (∀ B, N B -> B ∈ operandsOfValue BV) ->
  properV s V ->
  (∀ i B, V = VInst i -> ValueMap s !! B ≠ Some (VInst i)) ->
  PlaceholderMap s !! BV ≠ Some V ->
  mapValue BV V s = Ok (r, st') ->
  r = V ∧ VPostR BV false st (Some V) st'.
Proof.
  intros HI [A B C D] HN HV Hnew HP H.
  destruct (mapValue_spec _ _ _ _ _ A HV Hnew H)
    as (-> & EV & EP & _ & HV' & [[A' B' C' D']|(LD & Hpd & [A' B' C' D' _])]);
    (split; [reflexivity|]).
  - split; auto.
    + apply (RExt_trans st s _ A B B').
    + intros B0 L H0. destruct (D' _ _ H0) as [H1|[]].
      destruct (D _ _ H1) as [?|?]; [now left|right; right; auto].
    + intros v [= <-]. assumption.
    + intros _ _. exists V. split; [assumption|]. now rewrite EP.
    + intros v [= <-] _. assumption.
  - split; auto.
    + apply (RExt_trans st s _ A B B').
    + intros v Hv. destruct (Value_dec v (VInst LD)) as [->|Hne].
      * right. split; [reflexivity|]. exists LD. split; [reflexivity|].
        apply (pending_back st s); auto.
      * left. apply C'; auto.
    + intros B0 L H0. destruct (D' _ _ H0) as [_ H1].
      destruct (D _ _ H1) as [?|?]; [now left|right; right; auto].
    + intros v [= <-]. assumption.
    + intros _ _. exists V. split; [assumption|]. now rewrite EP.
    + intros v [= <-] _. assumption.
Qed.

(** The entry of a value that is no instruction with a result. *)
Lemma VPostR_map_other BV cph st s V r st' :
  RStep none st s -> ¬ valueProducing BV ->
  properV s V ->
  (∀ i B, V = VInst i -> ValueMap s !! B ≠ Some (VInst i)) ->
  mapValue BV V s = Ok (r, st') ->
  r = V ∧ VPostR BV cph st (Some V) st'.
Proof.
  intros HS Hnv HV Hnew H. pose proof (rstep_inv _ _ _ HS) as A.
  destruct (mapValue_spec _ _ _ _ _ A HV Hnew H)
    as (-> & EV & EP & _ & HV' & [HS'|(LD & Hpd & _)]).
  - split; [reflexivity|].
    apply (VPostR_step none); [apply (RStep_trans _ _ s); auto|..].
    + intros B [].
    + intros v [= <-]. assumption.
    + intros _ Hp. contradiction.
    + intros v [= <-] _. assumption.
  - destruct (rinv_pending _ A _ _ Hpd) as (_ & Hp & _). contradiction.
Qed.

(** The translation of a value that is no instruction with a result
    erases nothing and makes no placeholder. *)
Lemma VPostR_quiet BV cph st r s :
  RInv st -> ¬ valueProducing BV -> VPostR BV cph st r s ->
  RStep none st s.
Proof.
  intros HI Hnv [A B C D E Z M]. split; auto.
  - intros v Hv. destruct (C _ Hv) as [?|(_ & LD & _ & Hp)]; [assumption|].
    destruct (rinv_pending _ HI _ _ Hp) as (_ & ? & _). contradiction.
  - intros B0 L HP. destruct (D _ _ HP) as [?|[[_ ->]|[_ Ho]]].
    + now left.
    + destruct (rinv_pending _ A _ _ HP) as (_ & ? & _). contradiction.
    + apply operands_valueProducing in Ho. contradiction.
Qed.

(** The translation of an operand erases nothing. *)
Lemma VPostR_operand BV st r s :
  VPostR BV true st r s -> RStep (eq BV) st s.
Proof.
  intros [A B C D E Z M]. split; auto.
  - intros v Hv. destruct (C _ Hv) as [?|[? _]]; [assumption|discriminate].
  - intros B0 L HP. destruct (D _ _ HP) as [?|[[_ ->]|[? _]]];
      [now left|now right|discriminate].
Qed.

(** The operands of an instruction of a function that has begun may be
    asked for. *)
Definition OperandsOk (st : State) (BB : option nat) (l : list nat) : Prop :=
  ∀ o, o ∈ l -> PreV st o BB true.

Lemma PreV_mono st st' BV BB cph :
  RExt st st' -> PreV st BV BB cph -> PreV st' BV BB cph.
Proof.
  intros HX HP Hk Hb. destruct (HP Hk Hb) as [H1 H2]. split; [|assumption].
  apply (inStartedBody_mono st); [apply (rext_funcmap _ _ HX)|assumption].
Qed.

Lemma OperandsOk_mono st st' BB l :
  RExt st st' -> OperandsOk st BB l -> OperandsOk st' BB l.
Proof. intros HX H o Ho. apply (PreV_mono st); auto. Qed.

Lemma OperandsOk_operands st BV BB :
  wfModule -> PreV st BV BB false -> valueProducing BV ->
  OperandsOk st BB (operandsOfValue BV).
Proof.
  intros Hwf HP Hv o Ho Hk Hb.
  destruct (HP (valueProducing_instKind _ Hv) Hb)
    as [(BF & Fn & H1 & H2 & H3) _].
  destruct (wf_operands Hwf _ _ _ _ H1 H2 Ho Hk) as [H4 H5].
  split; [|auto]. exists BF, Fn. auto.
Qed.

(** *** One level of the recursion *)

Section ReaderStep.

Hypothesis Hwf : wfModule.
Variable fuel : nat.
Hypothesis IHV : ∀ BV F BB cph st r st',
  RInv st -> PreV st BV BB cph ->
  rtransValue fuel BV F BB cph st = Ok (r, st') -> VPostR BV cph st r st'.
Hypothesis IHF : ∀ BF st F st',
  RInv st -> rtransFunction fuel BF st = Ok (F, st') ->
  RStep none st st' ∧ FuncMap st' !! BF = Some F.

Tactic Notation "ok_bind" hyp(H) "as" simple_intropattern(p) ident(E) :=
  apply bind_Ok in H as (p & E & H); cbv beta iota in H.

Lemma operandValueR BV F BB st v st' :
  RInv st -> PreV st BV BB true ->
  Reader.operandValue (rtransValue fuel) BV F BB true st = Ok (v, st') ->
  RStep (eq BV) st st' ∧ properV st' v.
Proof.
  intros HI HP H. unfold Reader.operandValue in H.
  ok_bind H as [r st1] E. destruct r as [v0|]; [|discriminate].
  injection H as <- <-.
  pose proof (IHV _ _ _ _ _ _ _ HI HP E) as HV. split.
  - now apply VPostR_operand in HV.
  - now apply (vpr_result _ _ _ _ _ HV).
Qed.

Lemma transValuesR (N : nat -> Prop) F BB :
  ∀ BVs st vs st',
    RInv st -> OperandsOk st BB BVs -> (∀ o, o ∈ BVs -> N o) ->
    Reader.transValues (rtransValue fuel) BVs F BB st = Ok (vs, st') ->
    RStep N st st' ∧ ∀ v, v ∈ vs -> properV st' v.
Proof.
  induction BVs as [|BV BVs IH]; intros st vs st' HI HO HN H; cbn in H.
  - injection H as <- <-. split; [now apply RStep_refl|].
    intros v Hv. now apply not_elem_of_nil in Hv.
  - ok_bind H as [v st1] E1. ok_bind H as [vs' st2] E2.
    injection H as <- <-.
    assert (Hhd : BV ∈ BV :: BVs) by (apply elem_of_cons; now left).
    destruct (operandValueR _ _ _ _ _ _ HI (HO _ Hhd) E1) as [S1 P1].
    assert (HO1 : OperandsOk st1 BB BVs).
    { apply (OperandsOk_mono st); [apply S1|].
      intros o Ho. apply HO, elem_of_cons. now right. }
    assert (HN1 : ∀ o, o ∈ BVs -> N o).
    { intros o Ho. apply HN, elem_of_cons. now right. }
    destruct (IH _ _ _ (rstep_inv _ _ _ S1) HO1 HN1 E2) as [S2 P2].
    split.
    + apply (RStep_trans _ _ st1); [|assumption].
      apply (RStep_weaken (eq BV)); [assumption|]. intros x <-. auto.
    + intros x Hx. apply elem_of_cons in Hx as [->|Hx]; [|auto].
      now apply (rstep_keeps _ _ _ S2).
Qed.

Lemma transPhiPairsR (N : nat -> Prop) Phi F BB :
  ∀ Pairs st st',
    RInv st ->
    OperandsOk st BB (Pairs ≫= (fun p => [fst p; snd p])) ->
    (∀ o, o ∈ Pairs ≫= (fun p => [fst p; snd p]) -> N o) ->
    Reader.transPhiPairs (rtransValue fuel) Phi Pairs F BB st = Ok st' ->
    RStep N st st'.
Proof.
  induction Pairs as [|[IV IB] Pairs IH]; intros st st' HI HO HN H; cbn in H.
  - injection H as <-. now apply RStep_refl.
  - ok_bind H as [v st1] E1. ok_bind H as [b st2] E2.
    assert (H1 : IV ∈ ((IV, IB) :: Pairs) ≫= (fun p => [fst p; snd p]))
      by (cbn; apply elem_of_cons; now left).
    assert (H2 : IB ∈ ((IV, IB) :: Pairs) ≫= (fun p => [fst p; snd p])).
    { cbn. apply elem_of_cons. right. apply elem_of_cons. now left. }
    assert (H3 : ∀ o, o ∈ Pairs ≫= (fun p => [fst p; snd p]) ->
                      o ∈ ((IV, IB) :: Pairs) ≫= (fun p => [fst p; snd p])).
    { intros o Ho. cbn. apply elem_of_cons. right. apply elem_of_cons.
      now right. }
    destruct (operandValueR _ _ _ _ _ _ HI (HO _ H1) E1) as [S1 P1].
    pose proof (rstep_inv _ _ _ S1) as I1.
    destruct (operandValueR IB F BB st1 b st2 I1) as [S2 P2];
      [apply (PreV_mono st); [apply S1|auto]|assumption|].
    pose proof (rstep_inv _ _ _ S2) as I2.
    assert (S3 : RStep N st2 (Reader.addIncoming Phi v b st2)).
    { apply RStep_addIncoming; auto. now apply (rstep_keeps _ _ _ S2). }
    assert (S12 : RStep N st st2).
    { apply (RStep_trans _ _ st1).
      - apply (RStep_weaken (eq IV)); [assumption|]. intros x <-. auto.
      - apply (RStep_weaken (eq IB)); [assumption|]. intros x <-. auto. }
    pose proof (RStep_trans _ _ _ _ S12 S3) as S13.
    apply (RStep_trans _ _ _ _ S13).
    apply IH; [apply S3| |auto|assumption].
    apply (OperandsOk_mono st); [apply S13|]. intros o Ho. auto.
Qed.

Lemma transType_values n T st LT st' :
  RInv st -> rtransType n T st = Ok (LT, st') ->
  PlaceholderMap st' = PlaceholderMap st ∧ FuncMap st' = FuncMap st
  ∧ ∀ BV v, ValueMap st' !! BV = Some v ->
            ValueMap st !! BV = Some v ∨ ∃ c, v = VConst c.
Proof.
  intros HI H.
  destruct (transType_spec _ _ _ _ _ _ _ (rinv_types _ HI) H)
    as [(J & X & _) _].
  destruct X as (A & B & C & D & EP & EF & EL & EI & EB & EG & ELF & HV).
  split; [assumption|]. split; [assumption|]. intros BV v HBV.
  destruct (HV _ _ HBV) as [?|(w & k & ->)]; [now left|right; eauto].
Qed.

Lemma opOf_value BV val : Values BM !! BV = Some val -> opOf BV = Some (Op val).
Proof. unfold opOf. now intros ->. Qed.

(** The placeholder that is made for an instruction that is asked for
    before it is translated. *)
Lemma placeholderR BV b st r st' val :
  RInv st -> inStartedBody st BV -> valueProducing BV ->
  ValueMap st !! BV = None ->
  rtransType fuel (TypeId val) st
  ≫= (λ '(Ty, st1),
        let '(GV, st2) :=
          addGlobal (KPlaceholderPrefix +:+ ValueName val) Ty None st1 in
        let '(LD, st3) :=
          addInst LoadInst [VGlobal GV] (ValueName val) (Some b) st2 in
        returnMapped
          (mapValue BV (VInst LD) (setPlaceholderMap <[BV:=VInst LD]> st3)))
  = Ok (r, st') ->
  VPostR BV true st r st'.
Proof.
  intros HI Hs Hv Hun H. ok_bind H as [Ty st1] ET.
  pose proof (RStep_type none _ _ _ _ _ HI ET) as S1.
  pose proof (rstep_inv _ _ _ S1) as I1.
  destruct (transType_values _ _ _ _ _ HI ET) as (EP & _ & HV).
  set (Name := ValueName val) in *.
  change (addGlobal (KPlaceholderPrefix +:+ Name) Ty None st1)
    with (NextId st1, snd (addGlobal (KPlaceholderPrefix +:+ Name) Ty None st1))
    in H.
  cbv beta iota zeta in H.
  set (st2 := snd (addGlobal (KPlaceholderPrefix +:+ Name) Ty None st1)) in *.
  change (addInst LoadInst [VGlobal (NextId st1)] Name (Some b) st2)
    with (S (NextId st1),
          snd (addInst LoadInst [VGlobal (NextId st1)] Name (Some b) st2))
    in H.
  cbv beta iota zeta in H.
  set (st3 := snd (addInst LoadInst [VGlobal (NextId st1)] Name (Some b) st2))
    in *.
  unfold returnMapped in H. ok_bind H as [v s] EM. injection H as <- <-.
  destruct (ValueMap st1 !! BV) as [Old|] eqn:EO.
  { destruct (HV _ _ EO) as [?|[c ->]]; [congruence|].
    unfold mapValue in EM.
    change (ValueMap (setPlaceholderMap <[BV:=VInst (S (NextId st1))]> st3))
      with (ValueMap st1) in EM.
    rewrite EO in EM. cbn in EM. discriminate. }
  destruct (RStep_placeholder BV Name Ty (Some b) st1 I1 EO)
    as (S2 & Hpd & Hpr).
  { apply (inStartedBody_mono st); [apply S1|assumption]. }
  { assumption. }
  destruct (mapValue_cases _ _ _ _ _ EM)
    as [-> [[_ ->]|[[E _]|(Old & LD & g & E & _)]]].
  - apply (VPostR_step (eq BV)).
    + apply (RStep_trans _ _ st1); [|exact S2].
      apply (RStep_weaken none); [assumption|intros x []].
    + intros B <-. now left.
    + intros x [= <-]. exact Hpr.
    + discriminate.
    + intros x [= <-] _. apply Hpd.
  - change (ValueMap (setPlaceholderMap <[BV:=VInst (S (NextId st1))]> st3))
      with (ValueMap st1) in E. congruence.
  - change (ValueMap (setPlaceholderMap <[BV:=VInst (S (NextId st1))]> st3))
      with (ValueMap st1) in E. congruence.
Qed.

(** The instruction and the entry that end the translation of an
    instruction with a result. *)
Lemma inst_endR (N : nat -> Prop) BV K Ops Name BB st s r st' :
  RInv st -> RStep N st s ->
  (∀ B, N B -> B ∈ operandsOfValue BV) ->
  (∀ v, v ∈ Ops -> properV s v) ->
  (let '(i, s2) := addInst K Ops Name BB s in
   returnMapped (mapValue BV (VInst i) s2)) = Ok (r, st') ->
  VPostR BV false st r st'.
Proof.
  intros HI HS HN HO H. pose proof (rstep_inv _ _ _ HS) as A.
  destruct (RStep_addInst N K Ops Name BB s A HO) as (S2 & Hi & _).
  change (addInst K Ops Name BB s)
    with (NextId s, snd (addInst K Ops Name BB s)) in H.
  cbv beta iota zeta in H. unfold returnMapped in H.
  ok_bind H as [v s3] EM. injection H as <- <-.
  destruct (VPostR_map N BV st (snd (addInst K Ops Name BB s))
              (VInst (NextId s)) v s3) as [-> HP]; auto.
  - apply (RStep_trans _ _ s); assumption.
  - intros i B [= <-]. apply (fresh_inst_unmapped s B A).
  - apply (fresh_inst_unplaced s BV A).
Qed.

Lemma VPostR_then (N : nat -> Prop) BV st v s st' :
  VPostR BV false st (Some v) s -> valueProducing BV ->
  RStep N s st' -> (∀ B, N B -> B ∈ operandsOfValue BV) ->
  VPostR BV false st (Some v) st'.
Proof.
  intros [A B C D E Z M] Hv [A' B' C' D'] HN. split.
  - assumption.
  - apply (RExt_trans st s _ A B B').
  - intros x Hx. destruct (C _ Hx) as [?|?]; [left; auto|now right].
  - intros B0 L HP. destruct (D' _ _ HP) as [H1|?]; [auto|right; right; auto].
  - intros x [= <-]. apply C', E. reflexivity.
  - intros _ _. apply (resolvedR_mono s); auto.
  - intros x [= <-] Hk. destruct (Z eq_refl Hv) as (y & Hy & Hp).
    rewrite (M _ eq_refl Hk) in Hy. injection Hy as <-.
    apply (rext_values _ _ B'); auto.
Qed.

Abbreviation rtransValueWithoutDecoration :=
  (Reader.transValueWithoutDecoration BM isSPIRVSamplerType SAMPLER_INIT
     SamplerInitTy (rtransType fuel) (rtransValue fuel) (rtransFunction fuel)).

Lemma setName_block B Name st : setName (VBlock B) Name st = st.
Proof. unfold setName. now destruct (String.eqb _ _). Qed.

Lemma other_endR BV cph st s V r st' :
  RStep none st s -> ¬ valueProducing BV -> properV s V ->
  (∀ i, V ≠ VInst i) ->
  returnMapped (mapValue BV V s) = Ok (r, st') -> VPostR BV cph st r st'.
Proof.
  intros HS Hn HV Hne H. unfold returnMapped in H.
  ok_bind H as [v s'] EM. injection H as <- <-.
  destruct (VPostR_map_other BV cph st s V v s' HS Hn HV) as [-> HP]; auto.
  intros i B E. now destruct (Hne i).
Qed.

Lemma translateR BV F BB cph st r st' :
  RInv st -> PreV st BV BB cph ->
  (cph = true -> ValueMap st !! BV = None) ->
  rtransValueWithoutDecoration BV F BB cph st = Ok (r, st') ->
  VPostR BV cph st r st'.
Proof.
  intros HI HP Hun H. unfold Reader.transValueWithoutDecoration in H.
  destruct (Values BM !! BV) as [val|] eqn:EV; [|discriminate].
  pose proof (opOf_value _ _ EV) as Hop.
  pose proof (wf_names Hwf _ _ EV) as Hname.
  destruct (Op val)
    as [Words| | | | |AM NM FM|BS Init|ArgNo| | |Pairs|Src|Callee Args| |
        |OpCode Ops] eqn:EO.
  - (* OpConstant *)
    assert (Hnv : ¬ valueProducing BV)
      by (unfold valueProducing; now rewrite Hop).
    destruct (Types BM !! TypeId val) as [BT|]; [|discriminate].
    ok_bind H as [LT st1] ET.
    pose proof (RStep_type none _ _ _ _ _ HI ET) as S1.
    destruct BT; try discriminate.
    + eapply other_endR; [exact S1|exact Hnv| | |exact H];
        [exact Logic.I|discriminate].
    + eapply other_endR; [exact S1|exact Hnv| | |exact H];
        [exact Logic.I|discriminate].
    + destruct ((BitWidth =? 16) || (BitWidth =? 32) || (BitWidth =? 64));
        [|discriminate].
      eapply other_endR; [exact S1|exact Hnv| | |exact H];
        [exact Logic.I|discriminate].
  - (* OpConstantTrue *)
    assert (Hnv : ¬ valueProducing BV)
      by (unfold valueProducing; now rewrite Hop).
    eapply other_endR; [now apply RStep_refl|exact Hnv| | |exact H];
      [exact Logic.I|discriminate].
  - (* OpConstantFalse *)
    assert (Hnv : ¬ valueProducing BV)
      by (unfold valueProducing; now rewrite Hop).
    eapply other_endR; [now apply RStep_refl|exact Hnv| | |exact H];
      [exact Logic.I|discriminate].
  - (* OpConstantNull *)
    assert (Hnv : ¬ valueProducing BV)
      by (unfold valueProducing; now rewrite Hop).
    ok_bind H as [LT st1] ET.
    pose proof (RStep_type none _ _ _ _ _ HI ET) as S1.
    eapply other_endR; [exact S1|exact Hnv| | |exact H];
      [exact Logic.I|discriminate].
  - (* OpUndef *)
    assert (Hnv : ¬ valueProducing BV)
      by (unfold valueProducing; now rewrite Hop).
    ok_bind H as [LT st1] ET.
    pose proof (RStep_type none _ _ _ _ _ HI ET) as S1.
    eapply other_endR; [exact S1|exact Hnv| | |exact H];
      [exact Logic.I|discriminate].
  - (* OpConstantSampler *)
    assert (Hnv : ¬ valueProducing BV)
      by (unfold valueProducing; now rewrite Hop).
    unfold oclTransConstantSampler in H.
    pose proof (RStep_getOrInsertFunction none SAMPLER_INIT SamplerInitTy st HI)
      as S1.
    destruct (getOrInsertFunction SAMPLER_INIT SamplerInitTy st)
      as [Func st1] eqn:EG.
    cbn [snd] in S1. cbv zeta in H.
    pose proof (rstep_inv _ _ _ S1) as I1.
    set (Lit := Z.lor (Z.lor (to_word (Z.shiftl AM 1)) NM)
                      (to_word (Z.shiftl (to_word (FM + 1)) 4))) in *.
    destruct (RStep_addInst none CallInstK [VFunc Func; VConst (CInt 32 Lit)]
                EmptyString BB st1 I1) as (S2 & Hi & _).
    { intros v Hv. apply elem_of_cons in Hv as [->|Hv]; [exact Logic.I|].
      apply elem_of_cons in Hv as [->|Hv]; [exact Logic.I|].
      now apply not_elem_of_nil in Hv. }
    change (addInst CallInstK [VFunc Func; VConst (CInt 32 Lit)] EmptyString
              BB st1)
      with (NextId st1,
            snd (addInst CallInstK [VFunc Func; VConst (CInt 32 Lit)]
                   EmptyString BB st1)) in H.
    cbv beta iota in H. injection H as <- <-.
    apply (VPostR_step none).
    + apply (RStep_trans _ _ st1); assumption.
    + intros B [].
    + intros v [= <-]. exact Hi.
    + intros _ Hp. contradiction.
    + intros v _ Hk. unfold memoKind in Hk. rewrite Hop in Hk. destruct Hk.
  - (* OpVariable *)
    assert (Hnv : ¬ valueProducing BV)
      by (unfold valueProducing; now rewrite Hop).
    destruct (Types BM !! TypeId val) as [[| | | | |SC ElemTy| | | | | | | ]|];
      try discriminate.
    ok_bind H as [Ty st1] ET.
    pose proof (RStep_type none _ _ _ _ _ HI ET) as S1.
    pose proof (rstep_inv _ _ _ S1) as I1.
    assert (Hquiet : ∀ InitV c v s,
              Init = Some InitV ->
              rtransValue fuel InitV F BB c st1 = Ok (v, s) ->
              RStep none st1 s ∧ ∀ x, v = Some x -> properV s x).
    { intros InitV c v s -> E.
      assert (Hni : ¬ instKind InitV)
        by (eapply (wf_initializers Hwf); eauto).
      assert (PI : PreV st1 InitV BB c) by (intros Hk; contradiction).
      pose proof (IHV _ _ _ _ _ _ _ I1 PI E) as P2. split.
      - apply (VPostR_quiet InitV c st1 v s); auto.
        intros Hp. apply Hni, valueProducing_instKind, Hp.
      - apply (vpr_result _ _ _ _ _ P2). }
    destruct (isSPIRVSamplerType Ty && Nat.eqb BS StorageClassUniformConstant)
      eqn:ES.
    + assert (EBS : BS = StorageClassUniformConstant).
      { apply andb_true_iff in ES as [_ ES]. now apply Nat.eqb_eq in ES. }
      assert (Hmk : ¬ memoKind BV)
        by (unfold memoKind; rewrite Hop; auto).
      destruct BB as [b|].
      * destruct Init as [InitV|]; [|discriminate].
        destruct (Hquiet _ _ _ _ eq_refl H) as [S2 R2].
        apply (VPostR_step none).
        -- apply (RStep_trans _ _ st1); assumption.
        -- intros B [].
        -- assumption.
        -- intros _ Hp. contradiction.
        -- intros v _ Hk. contradiction.
      * injection H as <- <-. apply (VPostR_step none).
        -- assumption.
        -- intros B [].
        -- discriminate.
        -- intros _ Hp. contradiction.
        -- discriminate.
    + ok_bind H as [Init' st2] EI.
      assert (S2 : RStep none st1 st2).
      { destruct Init as [InitV|].
        - ok_bind EI as [v s] EV'. injection EI as _ <-.
          now destruct (Hquiet _ _ _ _ eq_refl EV').
        - injection EI as _ <-. now apply RStep_refl. }
      pose proof (rstep_inv _ _ _ S2) as I2.
      pose proof (RStep_trans _ _ _ _ S1 S2) as S12.
      destruct (Nat.eqb BS StorageClassFunction
                && negb (bool_decide (is_Some Init))).
      * destruct BB as [b|]; [|discriminate].
        destruct (RStep_addInst none AllocaInst [] (ValueName val) (Some b)
                    st2 I2) as (S3 & Hi & _).
        { intros v Hv. now apply not_elem_of_nil in Hv. }
        change (addInst AllocaInst [] (ValueName val) (Some b) st2)
          with (NextId st2,
                snd (addInst AllocaInst [] (ValueName val) (Some b) st2)) in H.
        cbv beta iota in H. unfold returnMapped in H.
        ok_bind H as [v s3] EM. injection H as <- <-.
        destruct (VPostR_map_other BV cph st
                    (snd (addInst AllocaInst [] (ValueName val) (Some b) st2))
                    (VInst (NextId st2)) v s3) as [-> P]; auto.
        -- apply (RStep_trans _ _ st2); assumption.
        -- intros i B [= <-]. apply (fresh_inst_unmapped st2 B I2).
      * destruct (RStep_addGlobal none (ValueName val) Ty Init' st2 I2 Hname)
          as (S3 & Hp & _).
        change (addGlobal (ValueName val) Ty Init' st2)
          with (NextId st2, snd (addGlobal (ValueName val) Ty Init' st2)) in H.
        cbv beta iota in H.
        eapply other_endR; [|exact Hnv| | |exact H];
          [apply (RStep_trans _ _ st2); assumption|exact Hp|discriminate].
  - (* OpFunctionParameter *)
    assert (Hnv : ¬ valueProducing BV)
      by (unfold valueProducing; now rewrite Hop).
    destruct F as [f|]; [|discriminate].
    destruct (LFunctions st !! f) as [[fn ft fb]|]; [|discriminate].
    destruct ft; try discriminate.
    match type of H with
    | (if ?c then _ else _) = _ => destruct c; [|discriminate]
    end.
    eapply other_endR; [now apply RStep_refl|exact Hnv| | |exact H];
      [exact Logic.I|discriminate].
  - (* OpFunction *)
    assert (Hnv : ¬ valueProducing BV)
      by (unfold valueProducing; now rewrite Hop).
    ok_bind H as [LF st1] EF. destruct (IHF _ _ _ _ HI EF) as [S1 _].
    eapply other_endR; [exact S1|exact Hnv| | |exact H];
      [exact Logic.I|discriminate].
  - (* OpLabel *)
    assert (Hnv : ¬ valueProducing BV)
      by (unfold valueProducing; now rewrite Hop).
    pose proof (RStep_addBlock none F st HI) as S1.
    change (addBlock F st) with (NextId st, snd (addBlock F st)) in H.
    cbv beta iota in H. rewrite setName_block in H.
    eapply other_endR; [exact S1|exact Hnv| | |exact H];
      [exact Logic.I|discriminate].
  - (* OpPhi *)
    assert (Hv : valueProducing BV)
      by (unfold valueProducing; now rewrite Hop).
    destruct BB as [b|]; [|discriminate].
    destruct (HP (valueProducing_instKind _ Hv) (mk_is_Some _ _ eq_refl))
      as [Hs _].
    destruct cph; [apply (placeholderR BV b st r st' val); auto|].
    pose proof (OperandsOk_operands st BV (Some b) Hwf HP Hv) as HO.
    assert (EOps : operandsOfValue BV = Pairs ≫= (fun p => [fst p; snd p]))
      by (unfold operandsOfValue; now rewrite Hop).
    ok_bind H as [Ty st1] ET.
    pose proof (RStep_type none _ _ _ _ _ HI ET) as S1.
    pose proof (rstep_inv _ _ _ S1) as I1.
    destruct (RStep_addInst none PHINode [] (ValueName val) (Some b) st1 I1)
      as (S2 & Hi & _).
    { intros v Hv0. now apply not_elem_of_nil in Hv0. }
    change (addInst PHINode [] (ValueName val) (Some b) st1)
      with (NextId st1,
            snd (addInst PHINode [] (ValueName val) (Some b) st1)) in H.
    cbv beta iota in H.
    ok_bind H as [v0 st3] EM. ok_bind H as st4 EPh. injection H as <- <-.
    destruct (VPostR_map none BV st
                (snd (addInst PHINode [] (ValueName val) (Some b) st1))
                (VInst (NextId st1)) v0 st3) as [-> P3]; auto.
    { apply (RStep_trans _ _ st1); assumption. }
    { intros B []. }
    { intros i B [= <-]. apply (fresh_inst_unmapped st1 B I1). }
    { apply (fresh_inst_unplaced st1 BV I1). }
    apply (VPostR_then (fun B => B ∈ operandsOfValue BV) BV st _ st3); auto.
    apply (transPhiPairsR _ _ _ _ _ _ _ (vpr_inv _ _ _ _ _ P3)) with (3 := EPh).
    + rewrite <- EOps. apply (OperandsOk_mono st); [apply P3|assumption].
    + intros o Ho. now rewrite EOps.
  - (* OpLoad *)
    assert (Hv : valueProducing BV)
      by (unfold valueProducing; now rewrite Hop).
    destruct BB as [b|]; [|discriminate].
    destruct (HP (valueProducing_instKind _ Hv) (mk_is_Some _ _ eq_refl))
      as [Hs _].
    destruct cph; [apply (placeholderR BV b st r st' val); auto|].
    pose proof (OperandsOk_operands st BV (Some b) Hwf HP Hv) as HO.
    assert (EOps : operandsOfValue BV = [Src])
      by (unfold operandsOfValue; now rewrite Hop).
    rewrite EOps in HO.
    ok_bind H as [Ptr st1] E1.
    destruct (operandValueR _ _ _ _ _ _ HI (HO Src ltac:(apply elem_of_cons; now left)) E1)
      as [S1 P1].
    eapply (inst_endR (eq Src) BV); [exact HI|exact S1| | |exact H].
    + intros B <-. rewrite EOps. apply elem_of_cons. now left.
    + intros v Hv0. apply elem_of_cons in Hv0 as [->|Hv0]; [assumption|].
      now apply not_elem_of_nil in Hv0.
  - (* OpFunctionCall *)
    assert (Hv : valueProducing BV)
      by (unfold valueProducing; now rewrite Hop).
    destruct BB as [b|]; [|discriminate].
    destruct (HP (valueProducing_instKind _ Hv) (mk_is_Some _ _ eq_refl))
      as [Hs _].
    destruct cph; [apply (placeholderR BV b st r st' val); auto|].
    pose proof (OperandsOk_operands st BV (Some b) Hwf HP Hv) as HO.
    assert (EOps : operandsOfValue BV = Args)
      by (unfold operandsOfValue; now rewrite Hop).
    rewrite EOps in HO.
    ok_bind H as [LF st1] EF. destruct (IHF _ _ _ _ HI EF) as [S1 _].
    pose proof (rstep_inv _ _ _ S1) as I1.
    ok_bind H as [Vs st2] E2.
    destruct (transValuesR (fun B => B ∈ Args) F (Some b) Args st1 Vs st2 I1)
      as [S2 P2]; [apply (OperandsOk_mono st); [apply S1|assumption]|auto
                  |assumption|].
    eapply (inst_endR (fun B => B ∈ Args) BV); [exact HI| | | |exact H].
    + apply (RStep_trans _ _ st1); [|assumption].
      apply (RStep_weaken none); [assumption|intros x []].
    + intros B HB. now rewrite EOps.
    + intros v Hv0. apply elem_of_cons in Hv0 as [->|Hv0];
        [exact Logic.I|auto].
  - (* OpLoopMerge *)
    assert (Hnv : ¬ valueProducing BV)
      by (unfold valueProducing; now rewrite Hop).
    assert (Hk : instKind BV) by (unfold instKind; now rewrite Hop).
    destruct BB as [b|]; [|discriminate].
    destruct (HP Hk (mk_is_Some _ _ eq_refl)) as [Hs Hc].
    destruct cph; [destruct (Hnv (Hc eq_refl))|].
    injection H as <- <-. apply (VPostR_step none).
    + now apply RStep_loopMetadata.
    + intros B [].
    + discriminate.
    + intros _ Hp. contradiction.
    + discriminate.
  - (* OpLine *)
    assert (Hnv : ¬ valueProducing BV)
      by (unfold valueProducing; now rewrite Hop).
    assert (Hk : instKind BV) by (unfold instKind; now rewrite Hop).
    destruct BB as [b|]; [|discriminate].
    destruct (HP Hk (mk_is_Some _ _ eq_refl)) as [Hs Hc].
    destruct cph; [destruct (Hnv (Hc eq_refl))|].
    injection H as <- <-. apply (VPostR_step none).
    + now apply RStep_refl.
    + intros B [].
    + discriminate.
    + intros _ Hp. contradiction.
    + discriminate.
  - (* OpInst *)
    assert (Hv : valueProducing BV)
      by (unfold valueProducing; now rewrite Hop).
    destruct BB as [b|]; [|discriminate].
    destruct (HP (valueProducing_instKind _ Hv) (mk_is_Some _ _ eq_refl))
      as [Hs _].
    destruct cph; [apply (placeholderR BV b st r st' val); auto|].
    pose proof (OperandsOk_operands st BV (Some b) Hwf HP Hv) as HO.
    assert (EOps : operandsOfValue BV = Ops)
      by (unfold operandsOfValue; now rewrite Hop).
    rewrite EOps in HO.
    ok_bind H as [Vs st1] E1.
    destruct (transValuesR (fun B => B ∈ Ops) F (Some b) Ops st Vs st1 HI)
      as [S1 P1]; [assumption|auto|assumption|].
    eapply (inst_endR (fun B => B ∈ Ops) BV); [exact HI|exact S1| | |exact H].
    + intros B HB. now rewrite EOps.
    + assumption.
Qed.

Abbreviation rtransValueStep :=
  (Reader.transValueStep BM isSPIRVSamplerType SAMPLER_INIT SamplerInitTy
     (rtransType fuel) (rtransValue fuel) (rtransFunction fuel)).

Lemma translate_nameR BV F BB cph st r st' :
  RInv st -> PreV st BV BB cph ->
  (cph = true -> ValueMap st !! BV = None) ->
  rtransValueWithoutDecoration BV F BB cph st
  ≫= (λ '(V, st1),
        match V with
        | None => Ok (None, st1)
        | Some v =>
            Ok (Some v,
                setName v (default EmptyString
                                   (ValueName <$> Values BM !! BV)) st1)
        end) = Ok (r, st') ->
  VPostR BV cph st r st'.
Proof.
  intros HI HP Hun H. ok_bind H as [V st1] E.
  pose proof (translateR _ _ _ _ _ _ _ HI HP Hun E) as P.
  destruct V as [v|]; injection H as <- <-; [|assumption].
  apply VPostR_setName; [assumption|].
  destruct (Values BM !! BV) as [val|] eqn:EV; cbn; [|reflexivity].
  now apply (wf_names Hwf _ _ EV).
Qed.

Lemma transValueStepR BV F BB cph st r st' :
  RInv st -> PreV st BV BB cph ->
  rtransValueStep BV F BB cph st = Ok (r, st') -> VPostR BV cph st r st'.
Proof.
  intros HI HP H. unfold Reader.transValueStep in H. cbv zeta in H.
  destruct (ValueMap st !! BV) as [v|] eqn:EM.
  - destruct (negb (bool_decide (is_Some (PlaceholderMap st !! BV))) || cph)
      eqn:EG.
    + injection H as <- <-. apply (VPostR_step none).
      * now apply RStep_refl.
      * intros B [].
      * intros x [= <-]. now apply (rinv_values_proper _ HI _ _ EM).
      * intros -> _. rewrite orb_false_r in EG.
        apply negb_true_iff, bool_decide_eq_false in EG.
        exists v. split; [assumption|]. intros E. apply EG. eauto.
      * intros x [= <-] _. assumption.
    + apply orb_false_iff in EG as [_ ->].
      apply (translate_nameR BV F BB false st r st'); auto. discriminate.
  - apply (translate_nameR BV F BB cph st r st'); auto.
Qed.

(** An entry for a value that is no instruction with a result. *)
Lemma mapValue_quiet BV V st r st' :
  RInv st -> ¬ valueProducing BV -> properV st V -> (∀ i, V ≠ VInst i) ->
  mapValue BV V st = Ok (r, st') ->
  RStep none st st' ∧ FuncMap st' = FuncMap st.
Proof.
  intros HI Hnv HV Hne H.
  assert (Hnew : ∀ i B, V = VInst i -> ValueMap st !! B ≠ Some (VInst i))
    by (intros i B E; now destruct (Hne i)).
  destruct (mapValue_spec _ _ _ _ _ HI HV Hnew H)
    as (_ & _ & _ & EF & _ & [HS|(LD & Hpd & _)]).
  - now split.
  - destruct (rinv_pending _ HI _ _ Hpd) as (_ & Hp & _). contradiction.
Qed.

Lemma mapArgumentsR F :
  ∀ BAs ArgNo st st',
    RInv st -> (∀ BA, BA ∈ BAs -> ¬ valueProducing BA) ->
    Reader.mapArguments F ArgNo BAs st = Ok st' ->
    RStep none st st' ∧ FuncMap st' = FuncMap st.
Proof.
  induction BAs as [|BA BAs IH]; intros ArgNo st st' HI HA H; cbn in H.
  - injection H as <-. split; [now apply RStep_refl|reflexivity].
  - ok_bind H as [v st1] E1.
    assert (Hnv : ¬ valueProducing BA)
      by (apply HA, elem_of_cons; now left).
    assert (Hne : ∀ i, VArg F ArgNo ≠ VInst i) by discriminate.
    destruct (mapValue_quiet BA (VArg F ArgNo) st v st1 HI Hnv Logic.I Hne E1)
      as [S1 F1].
    destruct (IH (S ArgNo) st1 st' (rstep_inv _ _ _ S1)) as [S2 F2];
      [intros x Hx; apply HA, elem_of_cons; now right|assumption|].
    split; [apply (RStep_trans _ _ st1); assumption|congruence].
Qed.

Lemma labelR L F st r st' :
  RInv st -> ¬ valueProducing L ->
  rtransValue fuel L (Some F) None true st = Ok (r, st') ->
  RStep none st st'.
Proof.
  intros HI Hnv H. apply (VPostR_quiet L true st r st'); auto.
  eapply IHV; [exact HI| |exact H].
  intros _ [x Hx]. discriminate.
Qed.

Lemma transLabelsR F :
  ∀ BBs st st',
    RInv st -> (∀ BBB, BBB ∈ BBs -> ¬ valueProducing (LabelId BBB)) ->
    Reader.transLabels (rtransValue fuel) F BBs st = Ok st' ->
    RStep none st st'.
Proof.
  induction BBs as [|BBB BBs IH]; intros st st' HI HL H; cbn in H.
  - injection H as <-. now apply RStep_refl.
  - ok_bind H as [v st1] E1.
    assert (S1 : RStep none st st1).
    { eapply labelR; [exact HI| |exact E1].
      apply HL, elem_of_cons. now left. }
    apply (RStep_trans _ _ st1); [assumption|].
    apply IH; [apply S1| |assumption].
    intros x Hx. apply HL, elem_of_cons. now right.
Qed.

(** *** The body of a function *)

Section Body.

Variable BF : nat.
Variable Fn : SPIRVFunction.
Variable LF : nat.
Variable st0 : State.
Hypothesis HFn : FunctionsOf BM !! BF = Some Fn.
Hypothesis HI0 : RInv st0.
Hypothesis Hnew0 : FuncMap st0 !! BF = None.

(** The state while the body of the function [BF], whose translation
    began in [st0], is translated: nothing that was there in [st0] has
    been erased, the placeholders that are pending were pending in [st0]
    or stand for instructions of the body, and the instructions that
    have been translated are resolved. *)
Record BodyR (done : nat -> Prop) (s : State) : Prop := mkBodyR {
  bd_inv : RInv s;
  bd_ext : RExt st0 s;
  bd_started : FuncMap s !! BF = Some LF;
  bd_keeps : ∀ v, properV st0 v -> properV s v;
  bd_pending : ∀ B L, pendingR s B L -> pendingR st0 B L ∨ B ∈ bodyOf Fn;
  bd_resolved : ∀ b, done b -> valueProducing b -> resolvedR s b
}.

Lemma BodyR_start s :
  RStep none st0 s -> FuncMap s !! BF = Some LF -> BodyR (fun _ => False) s.
Proof.
  intros [A B C D] HF. split; auto.
  - intros B0 L HP. destruct (D _ _ HP) as [?|[]]. now left.
  - intros b [].
Qed.

Lemma BodyR_weaken (d d' : nat -> Prop) s :
  BodyR d s -> (∀ x, d' x -> d x) -> BodyR d' s.
Proof. intros [A B C D E G] H. split; auto. Qed.

Lemma BodyR_step d s s' : BodyR d s -> RStep none s s' -> BodyR d s'.
Proof.
  intros [A B C D E G] [A' B' C' D']. split.
  - assumption.
  - apply (RExt_trans st0 s s' A B B').
  - apply (lookup_weaken _ _ _ _ C (rext_funcmap _ _ B')).
  - auto.
  - intros B0 L HP. destruct (D' _ _ HP) as [?|[]]. auto.
  - intros b Hb Hv. apply (resolvedR_mono s); auto.
Qed.

Lemma BodyR_inst d s b r s' :
  BodyR d s -> b ∈ bodyOf Fn -> VPostR b false s r s' ->
  BodyR (fun x => d x ∨ x = b) s'.
Proof.
  intros [A B C D E G] Hb [A' B' C' D' E' Z' M']. split.
  - assumption.
  - apply (RExt_trans st0 s s' A B B').
  - apply (lookup_weaken _ _ _ _ C (rext_funcmap _ _ B')).
  - intros v Hv. destruct (C' _ (D _ Hv)) as [?|(_ & LD & -> & Hpd)];
      [assumption|exfalso].
    pose proof (pending_back st0 s b LD HI0 B Hpd Hv) as Hp0.
    destruct (rinv_pending _ HI0 _ _ Hp0)
      as ((BF' & Fn' & H1 & H2 & H3) & _).
    assert (BF' = BF) by (apply (wf_bodies Hwf BF' BF Fn' Fn b); auto).
    subst BF'. rewrite Hnew0 in H3. destruct H3; discriminate.
  - intros B0 L HP.
    destruct (D' _ _ HP) as [H1|[[? _]|[_ Ho]]]; [auto|discriminate|right].
    destruct (rinv_pending _ A' _ _ HP) as (_ & Hvp & _).
    apply (wf_operands Hwf BF Fn b B0 HFn Hb Ho
             (valueProducing_instKind _ Hvp)).
  - intros x [Hd| ->] Hvx; [|auto]. apply (resolvedR_mono s); auto.
Qed.

Lemma transInstsR F BB :
  ∀ l d s s',
    BodyR d s -> (∀ b, b ∈ l -> b ∈ bodyOf Fn) ->
    Reader.transInsts (rtransValue fuel) F BB l s = Ok s' ->
    BodyR (fun x => d x ∨ x ∈ l) s'.
Proof.
  induction l as [|b l IH]; intros d s s' HB Hl H; cbn in H.
  - injection H as <-. apply (BodyR_weaken d); [assumption|].
    intros x [?|Hx]; [assumption|]. now apply not_elem_of_nil in Hx.
  - ok_bind H as [v st1] E1.
    assert (Hb : b ∈ bodyOf Fn) by (apply Hl, elem_of_cons; now left).
    assert (HP : PreV s b BB false).
    { intros _ _. split; [|discriminate]. exists BF, Fn.
      split; [assumption|]. split; [assumption|]. exists LF. apply HB. }
    pose proof (IHV _ _ _ _ _ _ _ (bd_inv _ _ HB) HP E1) as P1.
    pose proof (BodyR_inst _ _ _ _ _ HB Hb P1) as HB1.
    apply (BodyR_weaken (fun x => (d x ∨ x = b) ∨ x ∈ l)).
    + apply (IH _ st1); [assumption| |assumption].
      intros x Hx. apply Hl, elem_of_cons. now right.
    + intros x [?|Hx]; [now left; left|].
      apply elem_of_cons in Hx as [->|Hx]; [left; now right|now right].
Qed.

Lemma transBlocksR F :
  ∀ BBs d s s',
    BodyR d s -> (∀ BBB, BBB ∈ BBs -> BBB ∈ BBVec Fn) ->
    Reader.transBlocks (rtransValue fuel) F BBs s = Ok s' ->
    BodyR (fun x => d x ∨ x ∈ BBs ≫= InstVec) s'.
Proof.
  induction BBs as [|BBB BBs IH]; intros d s s' HB Hl H; cbn in H.
  - injection H as <-. apply (BodyR_weaken d); [assumption|].
    intros x [?|Hx]; [assumption|]. now apply not_elem_of_nil in Hx.
  - ok_bind H as [B st1] E1. ok_bind H as st2 E2.
    assert (Hin : BBB ∈ BBVec Fn) by (apply Hl, elem_of_cons; now left).
    assert (S1 : RStep none s st1).
    { eapply labelR; [apply HB| |exact E1].
      now apply (wf_functions Hwf _ _ HFn). }
    pose proof (BodyR_step _ _ _ HB S1) as HB1.
    assert (HB2 : BodyR (fun x => d x ∨ x ∈ InstVec BBB) st2).
    { eapply transInstsR; [exact HB1| |exact E2].
      intros b Hb. apply list_elem_of_bind. eauto. }
    apply (BodyR_weaken
             (fun x => (d x ∨ x ∈ InstVec BBB) ∨ x ∈ BBs ≫= InstVec)).
    + apply (IH _ st2); [assumption| |assumption].
      intros x Hx. apply Hl, elem_of_cons. now right.
    + intros x [?|Hx]; [now left; left|]. cbn in Hx.
      apply elem_of_app in Hx as [Hx|Hx]; [left; now right|now right].
Qed.

Lemma BodyR_close s : BodyR (fun x => x ∈ bodyOf Fn) s -> RStep none st0 s.
Proof.
  intros [A B C D E G]. split; auto.
  intros B0 L HP. destruct (E _ _ HP) as [?|Hb]; [now left|exfalso].
  destruct (rinv_pending _ A _ _ HP) as (_ & Hv & _).
  apply (pending_not_resolvedR _ _ _ HP). auto.
Qed.

End Body.

Abbreviation rtransFunctionStep :=
  (Reader.transFunctionStep BM loopHeaders (rtransType fuel)
     (rtransValue fuel)).

Lemma transFunctionStepR BF st F st' :
  RInv st -> rtransFunctionStep BF st = Ok (F, st') ->
  RStep none st st' ∧ FuncMap st' !! BF = Some F
  ∧ (FuncMap st !! BF = None ->
     ∀ Fn, FunctionsOf BM !! BF = Some Fn -> IsKernel Fn = false ->
           ∀ b, b ∈ bodyOf Fn -> valueProducing b -> resolvedR st' b).
Proof.
  intros HI H. unfold Reader.transFunctionStep in H.
  destruct (FuncMap st !! BF) as [F0|] eqn:EF.
  { injection H as <- <-. split; [now apply RStep_refl|].
    split; [assumption|discriminate]. }
  destruct (FunctionsOf BM !! BF) as [Fn|] eqn:EFn; [|discriminate].
  destruct (Values BM !! BF) as [val|] eqn:EV; [|discriminate].
  destruct (wf_functions Hwf _ _ EFn) as (HnF & HnA & HnL).
  cbv zeta in H.
  match type of H with
  | match ?x with _ => _ end = _ => destruct x as [[k F0]|] eqn:ES
  end.
  - ok_bind H as [v st1] E1. injection H as <- <-.
    assert (Hne : ∀ i, VFunc F0 ≠ VInst i) by discriminate.
    destruct (mapValue_quiet BF (VFunc F0) st v st1 HI HnF Logic.I Hne E1)
      as [S1 F1].
    assert (S2 : RStep none st1 (mapFunction BF F0 st1)).
    { apply RStep_mapFunction; [apply S1|]. now rewrite F1. }
    split; [apply (RStep_trans _ _ st1); assumption|].
    split; [cbn; apply lookup_insert_eq|].
    intros _ Fn' [= <-] HK. rewrite HK in ES. discriminate.
  - ok_bind H as [FT st1] ET. destruct FT; try discriminate.
    pose proof (RStep_type none _ _ _ _ _ HI ET) as S1.
    pose proof (rstep_inv _ _ _ S1) as I1.
    destruct (transType_values _ _ _ _ _ HI ET) as (_ & F1 & _).
    set (FTy := LFunction _ _) in *.
    pose proof (RStep_addFunction none (ValueName val) FTy st1 I1) as S2.
    change (addFunction (ValueName val) FTy st1)
      with (NextId st1, snd (addFunction (ValueName val) FTy st1)) in H.
    cbv beta iota in H.
    set (st2 := snd (addFunction (ValueName val) FTy st1)) in *.
    set (LF := NextId st1) in *.
    ok_bind H as [v st3] E3.
    match type of H with
    | (if ?c then _ else _) = _ => destruct c; [discriminate|]
    end.
    ok_bind H as st5 E5. ok_bind H as st6 E6. ok_bind H as st7 E7.
    injection H as <- <-.
    assert (Hne : ∀ i, VFunc LF ≠ VInst i) by discriminate.
    destruct (mapValue_quiet BF (VFunc LF) st2 v st3 (rstep_inv _ _ _ S2) HnF
                Logic.I Hne E3) as [S3 F3].
    assert (S4 : RStep none st3 (mapFunction BF LF st3)).
    { apply RStep_mapFunction; [apply S3|]. rewrite F3.
      change (FuncMap st2) with (FuncMap st1). now rewrite F1. }
    assert (HnA' : ∀ BA, BA ∈ take (length params) (Arguments Fn) ->
                         ¬ valueProducing BA).
    { intros BA HBA. apply HnA.
      rewrite <- (take_drop (length params) (Arguments Fn)).
      apply elem_of_app. now left. }
    destruct (mapArgumentsR LF _ _ _ _ (rstep_inv _ _ _ S4) HnA' E5)
      as [S5 F5].
    pose proof (transLabelsR LF _ _ _ (rstep_inv _ _ _ S5) HnL E6) as S6.
    assert (S06 : RStep none st st6).
    { apply (RStep_trans _ _ st1); [assumption|].
      apply (RStep_trans _ _ st2); [assumption|].
      apply (RStep_trans _ _ st3); [assumption|].
      apply (RStep_trans _ _ _ _ S4).
      apply (RStep_trans _ _ _ _ S5 S6). }
    assert (F6 : FuncMap st6 !! BF = Some LF).
    { apply (lookup_weaken (FuncMap st5)); [|apply S6].
      rewrite F5. cbn. apply lookup_insert_eq. }
    pose proof (BodyR_start BF Fn LF st st6 S06 F6) as HB6.
    pose proof (transBlocksR BF Fn LF st EFn HI EF LF _ _ _ _ HB6
                  (fun x Hx => Hx) E7) as HB7.
    assert (S7 : RStep none st st7).
    { apply (BodyR_close BF Fn LF). apply (BodyR_weaken _ _ _ _ _ _ _ HB7).
      intros x Hx. now right. }
    assert (S8 : RStep none st7 (transLLVMLoopMetadata loopHeaders LF st7)).
    { unfold transLLVMLoopMetadata. apply RStep_loopMetadata, S7. }
    split; [apply (RStep_trans _ _ _ _ S7 S8)|]. split; [apply HB7|].
    intros _ Fn' [= <-] _ b Hb Hv.
    apply (resolvedR_mono st7); [apply S8|apply S8|].
    apply (bd_resolved _ _ _ _ _ _ HB7); [now right|assumption].
Qed.

End ReaderStep.

(** *** The recursion *)

Lemma transR (Hwf : wfModule) fuel :
  (∀ BV F BB cph st r st',
     RInv st -> PreV st BV BB cph ->
     rtransValue fuel BV F BB cph st = Ok (r, st') ->
     VPostR BV cph st r st')
  ∧ (∀ BF st F st',
       RInv st -> rtransFunction fuel BF st = Ok (F, st') ->
       RStep none st st' ∧ FuncMap st' !! BF = Some F).
Proof.
  induction fuel as [|n [IHV IHF]]; (split; [|]).
  - intros BV F BB cph st r st' _ _ H. discriminate.
  - intros BF st F st' _ H. discriminate.
  - intros BV F BB cph st r st' HI HP H.
    apply (transValueStepR Hwf n IHV IHF BV F BB cph st r st' HI HP H).
  - intros BF st F st' HI H.
    destruct (transFunctionStepR Hwf n IHV BF st F st' HI H) as (A & B & _).
    now split.
Qed.

Lemma RInv_initState : RInv initState.
Proof.
  split.
  - split.
    + intros T LT H. cbn in H. now rewrite lookup_empty in H.
    + intros s [i H]. cbn in H. now rewrite lookup_empty in H.
  - intros i [x H]. cbn in H. now rewrite lookup_empty in H.
  - intros g [x H]. cbn in H. now rewrite lookup_empty in H.
  - intros BV v H. cbn in H. now rewrite lookup_empty in H.
  - intros i I v H. cbn in H. now rewrite lookup_empty in H.
  - intros b l i H. cbn in H. now rewrite lookup_empty in H.
  - intros BV v H. cbn in H. now rewrite lookup_empty in H.
  - intros BV LD [H _]. cbn in H. now rewrite lookup_empty in H.
  - intros BV LD H. cbn in H. now rewrite lookup_empty in H.
  - intros BV BV' i H. cbn in H. now rewrite lookup_empty in H.
  - intros g (G & H & _). cbn in H. now rewrite lookup_empty in H.
  - intros i g (I & H & _). cbn in H. now rewrite lookup_empty in H.
  - intros i i' g (I & H & _). cbn in H. now rewrite lookup_empty in H.
Qed.

(** X20.  When [transFunction] has translated a function of a well-formed
    module, starting in a state that keeps the invariant and in which no
    placeholder is pending, no placeholder is left: no global variable
    has the placeholder prefix, every entry of the table of the values
    is an instruction or a global variable of the module and is not the
    placeholder that was made for it, and each load that was made as a
    placeholder is no instruction any more, is in no block and is an
    operand of no instruction. *)
Theorem reader_transFunction_leaves_no_placeholder fuel BF st F st' :
  wfModule -> RInv st -> (∀ B L, ¬ pendingR st B L) ->
  rtransFunction fuel BF st = Ok (F, st') ->
  (∀ g, ¬ placeholderGlobal st' g)
  ∧ (∀ BV v, ValueMap st' !! BV = Some v ->
             properV st' v ∧ PlaceholderMap st' !! BV ≠ Some v)
  ∧ (∀ BV LD, PlaceholderMap st' !! BV = Some (VInst LD) ->
              Insts st' !! LD = None
              ∧ (∀ b l, BlockInsts st' !! b = Some l -> LD ∉ l)
              ∧ (∀ i I, Insts st' !! i = Some I -> VInst LD ∉ Operands I)).
Proof.
  intros Hwf HI Hnone H.
  destruct (proj2 (transR Hwf fuel) BF st F st' HI H) as [[A B C D] _].
  assert (Hno : ∀ B0 L, ¬ pendingR st' B0 L).
  { intros B0 L HP. destruct (D _ _ HP) as [?|[]]. now apply (Hnone B0 L). }
  assert (Hgone : ∀ BV LD, PlaceholderMap st' !! BV = Some (VInst LD) ->
                           Insts st' !! LD = None).
  { intros BV LD HP. apply (rinv_resolved _ A BV LD HP).
    intros HV. apply (Hno BV LD). now split. }
  split; [|split].
  - intros g Hg. destruct (rinv_pglobal _ A _ Hg) as (BV & LD & HP & _).
    now apply (Hno BV LD).
  - intros BV v HV. split; [now apply (rinv_values_proper _ A _ _ HV)|].
    intros HP. destruct (rinv_placeholder _ A _ _ HP) as (LD & -> & _).
    apply (Hno BV LD). now split.
  - intros BV LD HP. pose proof (Hgone _ _ HP) as HN.
    split; [assumption|]. split.
    + intros b l Hb Hin. destruct (rinv_blocks_live _ A _ _ _ Hb Hin) as [x Hx].
      congruence.
    + intros i I Hi Hin.
      destruct (rinv_operands_live _ A _ _ _ Hi Hin) as [x Hx]. congruence.
Qed.

(** X21.  In a well-formed module a value that [transValue] has
    translated, other than a constant sampler or a variable of the
    storage class of the samplers, is entered in the table of the
    values: a later request for it that allows a placeholder gets the
    same value and changes nothing. *)
Theorem reader_transValue_memoized fuel BV F BB cph st v st' :
  wfModule -> RInv st -> PreV st BV BB cph -> memoKind BV ->
  rtransValue fuel BV F BB cph st = Ok (Some v, st') ->
  ValueMap st' !! BV = Some v
  ∧ ∀ fuel' F' BB',
      rtransValue (S fuel') BV F' BB' true st' = Ok (Some v, st').
Proof.
  intros Hwf HI HP Hk H.
  pose proof (proj1 (transR Hwf fuel) BV F BB cph st _ st' HI HP H) as P.
  pose proof (vpr_mapped _ _ _ _ _ P v eq_refl Hk) as HM.
  split; [assumption|]. intros fuel' F' BB'. cbn.
  unfold Reader.transValueStep. rewrite HM. now rewrite orb_true_r.
Qed.

(** X22.  In a well-formed module [transFunction] erases nothing: the
    instructions and the global variables that were there before the
    call, placeholders apart, are there after it, the values that had
    been translated keep their entries, and the only placeholders that
    are pending after the call were pending before it.  The function is
    entered in the table of the functions, so that a later call returns
    it and changes nothing. *)
Theorem reader_transFunction_erases_nothing fuel BF st F st' :
  wfModule -> RInv st ->
  rtransFunction fuel BF st = Ok (F, st') ->
  RInv st'
  ∧ (∀ v, properV st v -> properV st' v)
  ∧ (∀ BV, resolvedR st BV -> ValueMap st' !! BV = ValueMap st !! BV)
  ∧ (∀ BV LD, pendingR st' BV LD -> pendingR st BV LD)
  ∧ FuncMap st ⊆ FuncMap st'
  ∧ ∀ fuel', rtransFunction (S fuel') BF st' = Ok (F, st').
Proof.
  intros Hwf HI H.
  destruct (proj2 (transR Hwf fuel) BF st F st' HI H) as [[A B C D] HF].
  split; [assumption|]. split; [assumption|]. split; [|split; [|split]].
  - intros BV (v & Hv & Hp). rewrite Hv. now apply (rext_values _ _ B).
  - intros BV LD HP. destruct (D _ _ HP) as [?|[]]. assumption.
  - apply B.
  - intros fuel'. cbn. unfold Reader.transFunctionStep. now rewrite HF.
Qed.

(** X27.  When [transFunction] builds a function that is no kernel and
    had not been begun, every instruction of its body that has a result
    is translated: it has an entry in the table of the values, the
    entry is an instruction or a global variable of the module, and it is
    not the placeholder that may have been made for it. *)
Theorem reader_transFunction_translates_body fuel BF Fn st F st' :
  wfModule -> RInv st ->
  FuncMap st !! BF = None -> FunctionsOf BM !! BF = Some Fn ->
  IsKernel Fn = false ->
  rtransFunction fuel BF st = Ok (F, st') ->
  ∀ b, b ∈ bodyOf Fn -> valueProducing b ->
       ∃ v, ValueMap st' !! b = Some v ∧ properV st' v
            ∧ PlaceholderMap st' !! b ≠ Some v.
Proof.
  intros Hwf HI HF HFn HK H b Hb Hv.
  destruct fuel as [|n]; [discriminate|].
  destruct (transR Hwf n) as [IHV _].
  destruct (transFunctionStepR Hwf n IHV BF st F st' HI H)
    as ([A _ _ _] & _ & R).
  destruct (R HF Fn HFn HK b Hb Hv) as (v & E1 & E2).
  exists v. split; [assumption|].
  split; [now apply (rinv_values_proper _ A _ _ E1)|assumption].
Qed.

(** *** The whole module *)

Lemma transVariablesR (Hwf : wfModule) fuel :
  ∀ BVs st st',
    RInv st ->
    ReaderTranslate.transVariables BM rmapAddrSpace isSPIRVSamplerType
      SAMPLER_INIT SamplerInitTy loopHeaders fuel BVs st = Ok st' ->
    RStep none st st'.
Proof.
  induction BVs as [|BV BVs IH]; intros st st' HI H; cbn in H.
  - injection H as <-. now apply RStep_refl.
  - destruct (Values BM !! BV) as [val|] eqn:EV; [|discriminate].
    cbn in H. destruct (Op val) eqn:EO; try discriminate.
    destruct (negb _); [|now apply IH].
    apply bind_Ok in H as ([r st1] & E1 & H). cbv beta iota in H.
    assert (Hnv : ¬ valueProducing BV).
    { unfold valueProducing. rewrite (opOf_value _ _ EV), EO. auto. }
    assert (S1 : RStep none st st1).
    { apply (VPostR_quiet BV true st r st1 HI Hnv).
      apply (proj1 (transR Hwf fuel) BV None None true st r st1 HI);
        [|exact E1].
      intros _ [x Hx]. discriminate. }
    apply (RStep_trans _ _ st1); [assumption|]. apply IH; [apply S1|assumption].
Qed.

Lemma transFunctionsR (Hwf : wfModule) fuel :
  ∀ BFs st st',
    RInv st ->
    ReaderTranslate.transFunctions BM rmapAddrSpace isSPIRVSamplerType
      SAMPLER_INIT SamplerInitTy loopHeaders fuel BFs st = Ok st' ->
    RStep none st st'.
Proof.
  induction BFs as [|BF BFs IH]; intros st st' HI H; cbn in H.
  - injection H as <-. now apply RStep_refl.
  - apply bind_Ok in H as ([F st1] & E1 & H). cbv beta iota in H.
    destruct (proj2 (transR Hwf fuel) BF st F st1 HI E1) as [S1 _].
    apply (RStep_trans _ _ st1); [assumption|]. apply IH; [apply S1|assumption].
Qed.

(** X23.  When [translate] has built the variables and the functions of
    a well-formed module, no placeholder is left in the module that it
    built: the state keeps the invariant, no global variable has the
    placeholder prefix, no entry of the table of the values is the
    placeholder that was made for it, and each load that was made as a
    placeholder is no instruction any more, is in no block and is an
    operand of no instruction. *)
Theorem reader_translate_leaves_no_placeholder ModuleVariables
    ModuleFunctions fuel st' :
  wfModule ->
  ReaderTranslate.translate BM rmapAddrSpace isSPIRVSamplerType SAMPLER_INIT
    SamplerInitTy loopHeaders ModuleVariables ModuleFunctions fuel initState
  = Ok st' ->
  RInv st'
  ∧ (∀ g, ¬ placeholderGlobal st' g)
  ∧ (∀ BV v, ValueMap st' !! BV = Some v ->
             properV st' v ∧ PlaceholderMap st' !! BV ≠ Some v)
  ∧ (∀ BV LD, PlaceholderMap st' !! BV = Some (VInst LD) ->
              Insts st' !! LD = None
              ∧ (∀ b l, BlockInsts st' !! b = Some l -> LD ∉ l)
              ∧ (∀ i I, Insts st' !! i = Some I -> VInst LD ∉ Operands I)).
Proof.
  intros Hwf H. unfold ReaderTranslate.translate in H.
  apply bind_Ok in H as (st1 & E1 & H). cbv beta iota in H.
  pose proof (transVariablesR Hwf fuel _ _ _ RInv_initState E1) as S1.
  pose proof (transFunctionsR Hwf fuel _ _ _ (rstep_inv _ _ _ S1) H) as S2.
  destruct (RStep_trans _ _ _ _ S1 S2) as [A B C D].
  assert (Hno : ∀ B0 L, ¬ pendingR st' B0 L).
  { intros B0 L HP. destruct (D _ _ HP) as [[HP0 _]|[]]. cbn in HP0.
    now rewrite lookup_empty in HP0. }
  split; [assumption|]. split; [|split].
  - intros g Hg. destruct (rinv_pglobal _ A _ Hg) as (BV & LD & HP & _).
    now apply (Hno BV LD).
  - intros BV v HV. split; [now apply (rinv_values_proper _ A _ _ HV)|].
    intros HP. destruct (rinv_placeholder _ A _ _ HP) as (LD & -> & _).
    apply (Hno BV LD). now split.
  - intros BV LD HP.
    assert (HN : Insts st' !! LD = None).
    { apply (rinv_resolved _ A BV LD HP). intros HV. apply (Hno BV LD).
      now split. }
    split; [assumption|]. split.
    + intros b l Hb Hin. destruct (rinv_blocks_live _ A _ _ _ Hb Hin) as [x Hx].
      congruence.
    + intros i I Hi Hin.
      destruct (rinv_operands_live _ A _ _ _ Hi Hin) as [x Hx]. congruence.
Qed.

End ReaderValueFacts.

(** A state in which the value 5 has a placeholder that an instruction
    uses. *)
Definition withPlaceholder : Reader.State :=
  let '(g, st1) :=
    Reader.addGlobal "placeholder.x" LVoid None Reader.initState in
  let '(LD, st2) := Reader.addInst Reader.LoadInst [VGlobal g] "x" None st1 in
  let '(u, st3) :=
    Reader.addInst (Reader.OtherInst 1) [VInst LD; VInst LD] "u" None st2 in
  Reader.setValueMap <[5%nat := VInst LD]> st3.

Lemma reader_mapValue_replaces_placeholder_witness :
  ∃ st',
    Reader.mapValue 5 (VConst (CInt 32 7)) withPlaceholder
    = Ok (VConst (CInt 32 7), st')
    ∧ Reader.ValueMap st' !! 5%nat = Some (VConst (CInt 32 7))
    ∧ Reader.Insts st' !! 1%nat = None
    ∧ Reader.Globals st' !! 0%nat = None
    ∧ Reader.Insts st' !! 2%nat
      = Some (Reader.mkInstruction (Reader.OtherInst 1)
                [VConst (CInt 32 7); VConst (CInt 32 7)] "u" None).
Proof.
  eexists. split; [vm_compute; reflexivity|].
  destruct (reader_mapValue_replaces_placeholder 5 (VConst (CInt 32 7))
              (VInst 1) withPlaceholder _ _ eq_refl eq_refl)
    as (LD & g & E & HL & HG & _ & HV & _ & HI & HGl & _ & _ & HU).
  - discriminate.
  - injection E as <-.
    assert (g = 0%nat) as ->.
    { destruct HL as (I & HI1 & _ & rest & HI2).
      vm_compute in HI1. injection HI1 as <-. cbn in HI2. congruence. }
    split; [exact HV|]. split; [exact HI|]. split; [exact HGl|].
    apply (HU 2%nat (Reader.mkInstruction (Reader.OtherInst 1)
                       [VInst 1; VInst 1] "u" None)); [reflexivity|lia].
Defined.

(** A function whose first instruction uses the second one, a constant
    and a variable of the module. *)
Definition useBeforeDef : Reader.SPIRVModule :=
  Reader.mkSPIRVModule
    (<[1%nat := Reader.OpTypeInt 32 false]>
       (<[2%nat := Reader.OpTypeFunction 3 []]>
          (<[3%nat := Reader.OpTypeVoid]>
             (<[4%nat := Reader.OpTypePointer 5 1]> ∅))))
    (<[10%nat := Reader.mkSPIRVValue Reader.OpFunction 2 "f"]>
       (<[11%nat := Reader.mkSPIRVValue Reader.OpLabel 0 "entry"]>
          (<[12%nat := Reader.mkSPIRVValue (Reader.OpInst 5 [13%nat]) 1 "a"]>
             (<[13%nat := Reader.mkSPIRVValue (Reader.OpInst 6 []) 1 "b"]>
                (<[14%nat := Reader.mkSPIRVValue (Reader.OpConstant [7]) 1
                               "c"]>
                   (<[15%nat := Reader.mkSPIRVValue
                                  (Reader.OpVariable 5 None) 4 "g"]> ∅))))))
    (<[10%nat := Reader.mkSPIRVFunction 2 false []
                   [Reader.mkSPIRVBasicBlock 11 [12%nat; 13%nat]]]> ∅).

Definition translateUseBeforeDef : Res (nat * Reader.State) :=
  Reader.transFunction useBeforeDef (fun AS => AS) (fun _ => false)
    "__translate_sampler_initializer" LVoid (fun _ _ => []) 6%nat 10%nat
    Reader.initState.

Lemma useBeforeDef_wf : wfModule useBeforeDef.
Proof.
  split.
  - intros BV val H. cbn in H. lookup_cases H; reflexivity.
  - intros BF Fn BV o HF HB Ho Hk. cbn in HF. lookup_cases HF.
    vm_compute in HB. elem_cases HB.
    + vm_compute in Ho. elem_cases Ho. split; [|exact I].
      vm_compute. apply elem_of_cons. right. apply elem_of_cons. now left.
    + vm_compute in Ho. elem_cases Ho.
  - intros BF BF' Fn Fn' BV H1 H2 _ _. cbn in H1, H2.
    lookup_cases H1. lookup_cases H2. reflexivity.
  - intros BV val SC InitV H HO. cbn in H. lookup_cases H; discriminate.
  - intros BF Fn HF. cbn in HF. lookup_cases HF.
    split; [vm_compute; tauto|]. split.
    + intros BA HBA. cbn in HBA. elem_cases HBA.
    + intros BBB HB. cbn in HB. elem_cases HB. vm_compute. tauto.
Defined.

Lemma reader_transFunction_leaves_no_placeholder_witness :
  ∃ F st',
    translateUseBeforeDef = Ok (F, st')
    ∧ (∀ g, ¬ placeholderGlobal st' g)
    ∧ (∀ BV v, Reader.ValueMap st' !! BV = Some v ->
               properV st' v ∧ Reader.PlaceholderMap st' !! BV ≠ Some v)
    ∧ (∀ BV LD,
         Reader.PlaceholderMap st' !! BV = Some (VInst LD) ->
         Reader.Insts st' !! LD = None
         ∧ (∀ b l, Reader.BlockInsts st' !! b = Some l -> LD ∉ l)
         ∧ (∀ i I, Reader.Insts st' !! i = Some I ->
                   VInst LD ∉ Reader.Operands I)).
Proof.
  assert (E : ∃ F st', translateUseBeforeDef = Ok (F, st')).
  { vm_compute. eexists _, _. reflexivity. }
  destruct E as (F & st' & E). exists F, st'. split; [exact E|].
  apply (reader_transFunction_leaves_no_placeholder useBeforeDef
           (fun AS => AS) (fun _ => false) "__translate_sampler_initializer"
           LVoid (fun _ _ => []) 6%nat 10%nat Reader.initState F st' useBeforeDef_wf
           (RInv_initState useBeforeDef (fun AS => AS))).
  - intros B L [H _]. cbn in H. now rewrite lookup_empty in H.
  - exact E.
Defined.

Lemma reader_transValue_memoized_witness :
  ∃ st',
    Reader.transValue useBeforeDef (fun AS => AS) (fun _ => false)
      "__translate_sampler_initializer" LVoid (fun _ _ => []) 5%nat 14%nat
      None None true Reader.initState
    = Ok (Some (VConst (CInt 32 7)), st')
    ∧ Reader.ValueMap st' !! 14%nat = Some (VConst (CInt 32 7))
    ∧ Reader.transValue useBeforeDef (fun AS => AS) (fun _ => false)
        "__translate_sampler_initializer" LVoid (fun _ _ => []) 1%nat 14%nat
        None None true st'
      = Ok (Some (VConst (CInt 32 7)), st').
Proof.
  assert (E : ∃ st',
            Reader.transValue useBeforeDef (fun AS => AS) (fun _ => false)
              "__translate_sampler_initializer" LVoid (fun _ _ => []) 5%nat
              14%nat None None true Reader.initState
            = Ok (Some (VConst (CInt 32 7)), st')).
  { vm_compute. eexists. reflexivity. }
  destruct E as (st' & E). exists st'. split; [exact E|].
  destruct (reader_transValue_memoized useBeforeDef (fun AS => AS)
              (fun _ => false) "__translate_sampler_initializer" LVoid
              (fun _ _ => []) 5%nat 14%nat None None true Reader.initState
              (VConst (CInt 32 7)) st' useBeforeDef_wf
              (RInv_initState useBeforeDef (fun AS => AS)))
    as [A B].
  - intros Hk. vm_compute in Hk. destruct Hk.
  - vm_compute. exact I.
  - exact E.
  - split; [exact A|]. exact (B 0%nat None None).
Defined.

Lemma reader_transFunction_erases_nothing_witness :
  ∃ F st',
    translateUseBeforeDef = Ok (F, st')
    ∧ RInv useBeforeDef (fun AS => AS) st'
    ∧ (∀ BV LD, ¬ pendingR st' BV LD)
    ∧ Reader.transFunction useBeforeDef (fun AS => AS) (fun _ => false)
        "__translate_sampler_initializer" LVoid (fun _ _ => []) 1%nat 10%nat
        st'
      = Ok (F, st').
Proof.
  assert (E : ∃ F st', translateUseBeforeDef = Ok (F, st')).
  { vm_compute. eexists _, _. reflexivity. }
  destruct E as (F & st' & E). exists F, st'. split; [exact E|].
  destruct (reader_transFunction_erases_nothing useBeforeDef
              (fun AS => AS) (fun _ => false)
              "__translate_sampler_initializer" LVoid (fun _ _ => []) 6%nat
              10%nat Reader.initState F st' useBeforeDef_wf
              (RInv_initState useBeforeDef (fun AS => AS)) E)
    as (A & _ & _ & D & _ & G).
  split; [exact A|]. split; [|exact (G 0%nat)].
  intros BV LD HP. destruct (D _ _ HP) as [H _]. cbn in H.
  now rewrite lookup_empty in H.
Defined.

Lemma reader_translate_leaves_no_placeholder_witness :
  ∃ st' LD,
    ReaderTranslate.translate useBeforeDef (fun AS => AS) (fun _ => false)
      "__translate_sampler_initializer" LVoid (fun _ _ => []) [15%nat]
      [10%nat] 6%nat Reader.initState = Ok st'
    ∧ RInv useBeforeDef (fun AS => AS) st'
    ∧ (∀ g, ¬ placeholderGlobal st' g)
    ∧ Reader.ValueMap st' !! 15%nat = Some (VGlobal 0)
    ∧ Reader.PlaceholderMap st' !! 13%nat = Some (VInst LD)
    ∧ Reader.Insts st' !! LD = None.
Proof.
  assert (E : ∃ st' LD,
            ReaderTranslate.translate useBeforeDef (fun AS => AS)
              (fun _ => false) "__translate_sampler_initializer" LVoid
              (fun _ _ => []) [15%nat] [10%nat] 6%nat Reader.initState
            = Ok st'
            ∧ Reader.ValueMap st' !! 15%nat = Some (VGlobal 0)
            ∧ Reader.PlaceholderMap st' !! 13%nat = Some (VInst LD)).
  { vm_compute. eexists _, _. split; [reflexivity|]. split; reflexivity. }
  destruct E as (st' & LD & E & HV & HP). exists st', LD. split; [exact E|].
  destruct (reader_translate_leaves_no_placeholder useBeforeDef
              (fun AS => AS) (fun _ => false)
              "__translate_sampler_initializer" LVoid (fun _ _ => [])
              [15%nat] [10%nat] 6%nat st' useBeforeDef_wf E)
    as (A & B & _ & D).
  split; [exact A|]. split; [exact B|]. split; [exact HV|].
  split; [exact HP|]. now destruct (D _ _ HP).
Defined.

Lemma reader_transFunction_translates_body_witness :
  ∃ F st',
    translateUseBeforeDef = Ok (F, st')
    ∧ ∃ v, Reader.ValueMap st' !! 13%nat = Some v ∧ properV st' v
           ∧ Reader.PlaceholderMap st' !! 13%nat ≠ Some v.
Proof.
  assert (E : ∃ F st', translateUseBeforeDef = Ok (F, st')).
  { vm_compute. eexists _, _. reflexivity. }
  destruct E as (F & st' & E). exists F, st'. split; [exact E|].
  apply (reader_transFunction_translates_body useBeforeDef (fun AS => AS)
           (fun _ => false) "__translate_sampler_initializer" LVoid
           (fun _ _ => []) 6%nat 10%nat
           (Reader.mkSPIRVFunction 2 false []
              [Reader.mkSPIRVBasicBlock 11 [12%nat; 13%nat]])
           Reader.initState F st' useBeforeDef_wf
           (RInv_initState useBeforeDef (fun AS => AS))).
  - reflexivity.
  - reflexivity.
  - reflexivity.
  - exact E.
  - vm_compute. apply elem_of_cons. right. apply elem_of_cons. now left.
  - vm_compute. exact I.
Defined.

(** ** A forward reference that is never replaced *)

(** The types [void], [void ()], its pointer, [{}] and [{}*]. *)
Definition invariantUseTypes : gmap nat Writer.LLVMType :=
  <[1%nat := Writer.VoidTy]>
    (<[2%nat := Writer.FunctionTy 1 []]>
       (<[3%nat := Writer.PointerTy 2 0]>
          (<[4%nat := Writer.StructTy EmptyString (Some []) false]>
             (<[5%nat := Writer.PointerTy 4 0]> ∅)))).

(** A function [g] whose first instruction calls [llvm.invariant.start]
    and whose second instruction has the result of the call as its
    operand. *)
Definition invariantUse : gmap nat Writer.LLVMValue :=
  <[300%nat := Writer.FunctionV "llvm.invariant.start.p0i8" 3 0 []]>
  (<[302%nat := Writer.FunctionV "g" 3 0 [310%nat]]>
  (<[310%nat := Writer.BasicBlockV 302 [311%nat; 312%nat]]>
  (<[311%nat := Writer.InstructionV 302 5
                  (Writer.CallInst (Writer.CalledFunction 300) [])]>
  (<[312%nat := Writer.InstructionV 302 1
                  (Writer.OtherInstruction 2 [311%nat])]> ∅)))).

Definition translateInvariantUse : Res Writer.State :=
  Writer.translateFunctions invariantUseTypes (fun _ => false) (fun AS => AS)
    (fun _ => None) "spirv.ConstantSampler" "spirv.ConstantPipeStorage"
    0 0 0 (fun _ _ => 0%nat) invariantUse [300%nat; 302%nat]
    (fun _ => 2%nat) (fun N => String.prefix "llvm.invariant.start" N)
    (fun _ => None)
    (fun N => if String.prefix "llvm.invariant.start" N
              then Writer.IntrinsicDropped else Writer.IntrinsicUnknown)
    (fun OC => Z.of_nat OC) (fun _ => false) false false 20
    Writer.initState.

(** C4 (the code at the failing input).  [transIntrinsicInst] drops the
    call of [llvm.invariant.start], which is given no entry.  When the
    next instruction asks for its operand, a forward reference is made
    for the call, and nothing replaces it: the translation of the
    functions of the module succeeds, the entry of the call is still the
    forward reference, and the instruction that uses the call has the
    forward reference as its operand. *)
Theorem used_dropped_call_keeps_forward :
  ∃ st' Fw BI,
    translateInvariantUse = Ok st'
    ∧ Writer.ValueMap st' !! 311%nat = Some Fw
    ∧ Writer.Entries st' !! Fw = Some (Writer.EForward 6)
    ∧ Writer.ValueMap st' !! 312%nat = Some BI
    ∧ Writer.Entries st' !! BI
      = Some (Writer.EInstruction 2 [1%nat; Fw] (Some 4%nat))
    ∧ pending st' 311 ∧ ¬ noForward st'.
Proof.
  eexists _, 7%nat, 8%nat. split; [vm_compute; reflexivity|].
  split; [vm_compute; reflexivity|]. split; [vm_compute; reflexivity|].
  split; [vm_compute; reflexivity|]. split; [vm_compute; reflexivity|].
  split; [eexists; split; vm_compute; reflexivity|].
  intros H. apply (H 7%nat 6%nat). vm_compute. reflexivity.
Qed.

(** ** Memoization in both directions *)

Section TranslationTables.

(** The decoder and what it reads. *)
Variable BM : Reader.SPIRVModule.
Variable rmapAddrSpace : nat -> nat.
Variable isSPIRVSamplerType : LType -> bool.
Variable SAMPLER_INIT : string.
Variable SamplerInitTy : LType.
Variable loopHeaders : Reader.State -> nat -> list nat.

(** The encoder and what it reads. *)
Variable LTypes : gmap nat Writer.LLVMType.
Variable isAllowedToUseExtension : Writer.ExtensionID -> bool.
Variable mapAddrSpace : nat -> nat.
Variable specialOpaque : string -> option nat.
Variable ConstantSamplerName ConstantPipeStorageName : string.
Variable SamplerType PipeStorageType : nat.
Variable SizetType : nat.
Variable ConstantIntId : nat -> Z -> nat.
Variable LValues : gmap nat Writer.LLVMValue.
Variable getAdaptedType : nat -> nat.
Variable isKnownIntrinsic : string -> bool.
Variable builtinOp : string -> option Z.
Variable intrinsicCase : string -> Writer.IntrinsicCase.
Variable OpCodeMap : nat -> Z.
Variable SPV_INTEL_inline_assembly_allowed : bool.
Variable SPIRVAllowUnknownIntrinsics : bool.

Abbreviation rtransType := (Reader.transType BM rmapAddrSpace).
Abbreviation rtransValue :=
  (Reader.transValue BM rmapAddrSpace isSPIRVSamplerType SAMPLER_INIT
     SamplerInitTy loopHeaders).
Abbreviation wtransType :=
  (Writer.transType LTypes isAllowedToUseExtension mapAddrSpace specialOpaque
     ConstantSamplerName ConstantPipeStorageName SamplerType PipeStorageType
     SizetType ConstantIntId).
Abbreviation wtransValue :=
  (Writer.transValue LTypes isAllowedToUseExtension mapAddrSpace specialOpaque
     ConstantSamplerName ConstantPipeStorageName SamplerType PipeStorageType
     SizetType ConstantIntId LValues getAdaptedType isKnownIntrinsic
     builtinOp intrinsicCase OpCodeMap SPV_INTEL_inline_assembly_allowed
     SPIRVAllowUnknownIntrinsics).


End TranslationTables.


(** A module with a constant sampler. *)
Definition samplerUse : Reader.SPIRVModule :=
  Reader.mkSPIRVModule
    (<[1%nat := Reader.OpTypeSpecial "opencl.sampler_t" 2]> ∅)
    (<[20%nat := Reader.mkSPIRVValue (Reader.OpConstantSampler 1 0 1) 1
                   "s"]> ∅)
    ∅.


(** ** Annotation strings of the FPGA memory attributes *)

Section FPGAAnnotationFacts.
Import FPGAAnnotations.
Import Stdlib.Strings.Ascii.

#[local] Arguments String.append : simpl nomatch.

(** A text without brackets. *)
Definition plainText (c : string) : Prop :=
  count "{" c = 0%nat ∧ count "}" c = 0%nat.

(** One annotation with the text [c] between its brackets, and
    annotations that follow each other. *)
Definition group (c : string) : string := ("{" ++ c ++ "}")%string.

Definition groups (cs : list string) : string :=
  foldr (fun c acc => (group c ++ acc)%string) EmptyString cs.

(** What the loop makes of the text between the brackets of one
    annotation. *)
Definition decodeGroup (c : string) : Res (Decoration * string) :=
  let '(F, S_) := split ":" c in decorationOf F S_ (group c).

Lemma count_app C (a b : string) :
  count C (a ++ b) = (count C a + count C b)%nat.
Proof.
  induction a as [|x a IH]; cbn [String.append count]; [reflexivity|].
  rewrite IH. lia.
Qed.

Lemma firstIndex_app C (a r : string) :
  count C a = 0%nat ->
  firstIndex C (a ++ String C r) = Some (String.length a).
Proof.
  induction a as [|x a IH]; cbn [String.append count firstIndex String.length].
  - intros _. now rewrite Ascii.eqb_refl.
  - destruct (Ascii.eqb x C); [discriminate|]. intros H.
    rewrite IH by exact H. reflexivity.
Qed.

Lemma size_app (a b : string) : size (a ++ b) = size a + size b.
Proof. unfold size. rewrite string_length_app. lia. Qed.

Lemma size_nonneg (a : string) : 0 <= size a.
Proof. unfold size. lia. Qed.

(** The characters of [b] in [a ++ b ++ c]. *)
Lemma substr_take (a b c : string) N :
  N = size b -> substr (size a) N (a ++ b ++ c) = b.
Proof.
  intros ->. unfold substr. rewrite !size_app.
  pose proof (size_nonneg a). pose proof (size_nonneg b).
  pose proof (size_nonneg c).
  rewrite Z.min_l by lia. rewrite Z.min_l by lia.
  unfold size. rewrite !Nat2Z.id. apply substring_app.
Qed.

(** What follows [a] in [a ++ b]. *)
Lemma substr_rest (a b : string) N :
  size b <= N -> substr (size a) N (a ++ b) = b.
Proof.
  intros HN. unfold substr. rewrite !size_app.
  pose proof (size_nonneg a). pose proof (size_nonneg b).
  rewrite Z.min_l by lia. rewrite Z.min_r by lia.
  replace (size a + size b - size a) with (size b) by lia.
  unfold size. rewrite !Nat2Z.id.
  pose proof (substring_app a b EmptyString) as E.
  now rewrite string_app_nil_r in E.
Qed.

Lemma find_app C (p a r : string) :
  size (p ++ a ++ String C r) < 2 ^ 64 -> count C a = 0%nat ->
  find C (size p) (p ++ a ++ String C r) = size p + size a.
Proof.
  intros Hlt Ha. unfold find. rewrite size_app in *.
  pose proof (size_nonneg p). pose proof (size_nonneg (a ++ String C r)).
  rewrite Z.min_l by lia.
  rewrite substr_rest by (unfold npos; lia).
  now rewrite firstIndex_app.
Qed.

Lemma size_t_small n : 0 <= n < 2 ^ 64 -> size_t n = n.
Proof. intros H. unfold size_t. now apply Z.mod_small. Qed.

Lemma group_app (c rest : string) :
  (group c ++ rest)%string = String "{" (c ++ String "}" rest).
Proof.
  unfold group. cbn [String.append]. now rewrite string_app_assoc.
Qed.

Lemma size_group (c : string) : size (group c) = size c + 2.
Proof.
  unfold group. rewrite !size_app. unfold size. cbn [String.length]. lia.
Qed.

Lemma count_group C (c : string) :
  count C (group c)
  = ((if Ascii.eqb "{" C then 1 else 0) + count C c
     + (if Ascii.eqb "}" C then 1 else 0))%nat.
Proof.
  unfold group. rewrite !count_app. cbn [count]. lia.
Qed.

(** One round of the loop on a string that begins with an annotation. *)
Lemma parseLoop_group n (c rest : string) acc :
  plainText c -> size (group c ++ rest) < 2 ^ 64 ->
  parseLoop (S n) (group c ++ rest) acc
  = (decodeGroup c ≫= fun D => parseLoop n rest (acc ++ [D])).
Proof.
  intros [Ho Hc] Hlt.
  pose proof (size_nonneg c) as Hc0. pose proof (size_nonneg rest) as Hr0.
  pose proof Hlt as Hlt'. rewrite size_app, size_group in Hlt'.
  assert (EF : find "{" 0 (group c ++ rest) = 0).
  { pose proof (find_app "{" EmptyString EmptyString
                  (c ++ String "}" rest)) as E.
    cbn [String.append] in E. rewrite group_app. apply E; [|reflexivity].
    rewrite <- group_app. exact Hlt. }
  assert (ET : find "}" 0 (group c ++ rest) = 1 + size c).
  { pose proof (find_app "}" EmptyString (String "{" c) rest) as E.
    cbn [String.append] in E. rewrite group_app.
    replace (1 + size c) with (size EmptyString + size (String "{" c))
      by (unfold size; cbn [String.length]; lia).
    apply E; [rewrite <- group_app; exact Hlt|].
    cbn [count]. exact Hc. }
  cbn [parseLoop]. rewrite EF, ET.
  replace (size_t (0 + 1)) with (size "{")
    by (rewrite size_t_small; [reflexivity|lia]).
  replace (size_t (1 + size c - 1)) with (size c)
    by (rewrite size_t_small; lia).
  replace (size_t (1 + size c + 1)) with (size (group c))
    by (rewrite size_t_small, size_group; lia).
  assert (E1 : substr (size "{") (size c) (group c ++ rest) = c).
  { rewrite group_app.
    change (String "{" (c ++ String "}" rest))
      with ("{" ++ c ++ String "}" rest)%string.
    now apply substr_take. }
  assert (E2 : substr 0 (size (group c)) (group c ++ rest) = group c).
  { change 0 with (size EmptyString).
    change (group c ++ rest)%string with ("" ++ group c ++ rest)%string.
    now apply substr_take. }
  assert (E3 : drop_front (size (group c)) (group c ++ rest) = Ok rest).
  { unfold drop_front. rewrite size_app.
    destruct (Z.leb_spec (size (group c)) (size (group c) + size rest));
      [|lia].
    rewrite substr_rest; [reflexivity|unfold npos; lia]. }
  rewrite E1, E2, E3. unfold decodeGroup.
  destruct (split ":" c) as [F S_]. reflexivity.
Qed.

Lemma count_groups C (cs : list string) :
  (∀ c, c ∈ cs -> count C c = 0%nat) ->
  count C (groups cs)
  = (((if Ascii.eqb "{" C then 1 else 0)
      + (if Ascii.eqb "}" C then 1 else 0)) * length cs)%nat.
Proof.
  induction cs as [|c cs IH]; intros H; cbn [groups foldr length].
  - cbn. lia.
  - rewrite count_app, count_group. fold (groups cs).
    rewrite IH by (intros x Hx; apply H, elem_of_cons; now right).
    rewrite (H c) by (apply elem_of_cons; now left). lia.
Qed.

Lemma parseLoop_groups :
  ∀ cs ds acc,
    (∀ c, c ∈ cs -> plainText c) -> size (groups cs) < 2 ^ 64 ->
    Forall2 (fun c d => decodeGroup c = Ok d) cs ds ->
    parseLoop (length cs) (groups cs) acc = Ok (acc ++ ds).
Proof.
  induction cs as [|c cs IH]; intros ds acc Hp Hlt HD.
  - inversion HD; subst. cbn. now rewrite app_nil_r.
  - inversion HD as [|c0 d cs0 ds0 Hd HD']; subst.
    cbn [length groups foldr]. fold (groups cs).
    cbn [groups foldr] in Hlt. fold (groups cs) in Hlt.
    rewrite parseLoop_group;
      [|apply Hp, elem_of_cons; now left|exact Hlt].
    rewrite Hd. cbn. rewrite IH with (ds := ds0).
    + now rewrite <- app_assoc.
    + intros x Hx. apply Hp, elem_of_cons. now right.
    + rewrite size_app in Hlt. pose proof (size_nonneg (group c)). lia.
    + exact HD'.
Qed.

(** X24.  Annotations that follow each other, each a text without
    brackets between an opening and a closing bracket, are parsed one by
    one and in their order: the result lists, for each annotation, the
    decoration and the value that its text stands for. *)
Theorem annotation_groups_parse (cs : list string)
    (ds : list (Decoration * string)) :
  (∀ c, c ∈ cs -> plainText c) -> size (groups cs) < 2 ^ 64 ->
  Forall2 (fun c d => decodeGroup c = Ok d) cs ds ->
  tryParseIntelFPGAAnnotationString (groups cs) = Ok ds.
Proof.
  intros Hp Hlt HD. unfold tryParseIntelFPGAAnnotationString.
  rewrite !count_groups by (intros c Hc; now apply Hp).
  cbn. rewrite Nat.add_0_r, Nat.eqb_refl. cbn.
  now apply (parseLoop_groups cs ds []).
Qed.

(** X25.  When a text without brackets comes before the one annotation
    of a string, the closing bracket is taken for a part of the
    annotation: the name and the argument are those of the text between
    the brackets followed by the closing bracket. *)
Theorem annotation_after_text_keeps_bracket (p c : string) :
  plainText p -> p ≠ EmptyString -> plainText c ->
  size (p ++ group c) < 2 ^ 64 ->
  tryParseIntelFPGAAnnotationString (p ++ group c)
  = (let '(F, S_) := split ":" (c ++ "}") in
     decorationOf F S_ (group c) ≫= fun D => Ok [D]).
Proof.
  intros [Hpo Hpc] Hne [Hco Hcc] Hlt.
  pose proof (size_nonneg p) as Hp0. pose proof (size_nonneg c) as Hc0.
  assert (Hp1 : 1 <= size p).
  { destruct p; [contradiction|]. unfold size. cbn [String.length]. lia. }
  pose proof Hlt as Hlt'. rewrite size_app, size_group in Hlt'.
  assert (EO : count "{" (p ++ group c) = 1%nat)
    by (rewrite count_app, count_group, Hpo, Hco; reflexivity).
  assert (EC : count "}" (p ++ group c) = 1%nat)
    by (rewrite count_app, count_group, Hpc, Hcc; reflexivity).
  unfold tryParseIntelFPGAAnnotationString. rewrite EO, EC.
  cbn [Nat.eqb negb parseLoop].
  assert (Ecode : (p ++ group c)%string
                  = (p ++ String "{" c ++ String "}" EmptyString)%string).
  { unfold group. cbn [String.append]. reflexivity. }
  assert (EF : find "{" 0 (p ++ group c) = size p).
  { pose proof (find_app "{" EmptyString p (c ++ "}")) as E.
    cbn [String.append] in E. change (size EmptyString) with 0 in E.
    change (group c) with (String "{" (c ++ "}")).
    rewrite E; [lia|exact Hlt|exact Hpo]. }
  assert (ET : find "}" (size p) (p ++ group c) = size p + (1 + size c)).
  { rewrite Ecode.
    replace (1 + size c) with (size (String "{" c))
      by (unfold size; cbn [String.length]; lia).
    apply find_app; [rewrite <- Ecode; exact Hlt|]. cbn [count]. exact Hcc. }
  rewrite EF, ET.
  replace (size_t (size p + 1)) with (size (p ++ "{"))
    by (rewrite size_t_small, size_app; [reflexivity|lia]).
  replace (size_t (size p + (1 + size c) - 1)) with (size p + size c)
    by (rewrite size_t_small; lia).
  replace (size_t (size p + (1 + size c) + 1)) with (size p + size c + 2)
    by (rewrite size_t_small; lia).
  assert (E1 : substr (size (p ++ "{")) (size p + size c) (p ++ group c)
               = (c ++ "}")%string).
  { replace (p ++ group c)%string with ((p ++ "{") ++ c ++ "}")%string
      by (unfold group; now rewrite string_app_assoc).
    apply substr_rest. rewrite size_app. unfold size at 2.
    cbn [String.length]. lia. }
  assert (E2 : substr (size p) (size p + size c + 2) (p ++ group c)
               = group c).
  { apply substr_rest. rewrite size_group. lia. }
  assert (E3 : drop_front (size p + size c + 2) (p ++ group c)
               = Ok EmptyString).
  { unfold drop_front. rewrite size_app, size_group.
    destruct (Z.leb_spec (size p + size c + 2) (size p + (size c + 2)));
      [|lia].
    replace (size p + size c + 2) with (size (p ++ group c))
      by (rewrite size_app, size_group; lia).
    rewrite <- (string_app_nil_r (p ++ group c)) at 2.
    rewrite substr_rest; [reflexivity|unfold size, npos; cbn; lia]. }
  rewrite E1, E2, E3.
  destruct (split ":" (c ++ "}")) as [F S_].
  destruct (decorationOf F S_ (group c)); reflexivity.
Qed.

End FPGAAnnotationFacts.

Lemma annotation_groups_parse_witness :
  FPGAAnnotations.tryParseIntelFPGAAnnotationString
    (groups ["memory:DEFAULT"; "numbanks:4"; "pump:2"; "register:1";
             "my_attr"])
  = Ok [(FPGAAnnotations.DecorationMemoryINTEL, "DEFAULT");
        (FPGAAnnotations.DecorationNumbanksINTEL, "4");
        (FPGAAnnotations.DecorationDoublepumpINTEL, EmptyString);
        (FPGAAnnotations.DecorationRegisterINTEL, EmptyString);
        (FPGAAnnotations.DecorationUserSemantic, "{my_attr}")].
Proof.
  apply annotation_groups_parse.
  - intros c Hc. elem_cases Hc; split; reflexivity.
  - vm_compute. reflexivity.
  - repeat (constructor; [vm_compute; reflexivity|]). constructor.
Defined.

Lemma annotation_after_text_keeps_bracket_witness :
  FPGAAnnotations.tryParseIntelFPGAAnnotationString
    ("x" ++ group "numbanks:4")
  = Ok [(FPGAAnnotations.DecorationNumbanksINTEL, "4}")].
Proof.
  rewrite (annotation_after_text_keeps_bracket "x" "numbanks:4").
  - vm_compute. reflexivity.
  - split; reflexivity.
  - discriminate.
  - split; reflexivity.
  - vm_compute. reflexivity.
Defined.

(** ** The annotation string that is decoded and encoded again *)

Section FPGAAnnotationRoundTrip.
Import FPGAAnnotations FPGAAnnotationText.
Import Stdlib.Strings.Ascii.

#[local] Arguments String.append : simpl nomatch.

Lemma groups_app (a b : list string) :
  groups (a ++ b) = (groups a ++ groups b)%string.
Proof.
  induction a as [|c a IH]; cbn [groups foldr app]; [reflexivity|].
  fold (groups (a ++ b)). fold (groups a). rewrite IH.
  now rewrite string_app_assoc.
Qed.

Lemma groups_one (c : string) : groups [c] = group c.
Proof. cbn [groups foldr]. apply string_app_nil_r. Qed.

(** The digits of a number are no brackets and no colons. *)
Lemma count_uint C (u : Decimal.uint) :
  C = "{"%char ∨ C = "}"%char ∨ C = ":"%char ->
  count C (DecimalString.NilEmpty.string_of_uint u) = 0%nat.
Proof.
  intros [-> | [-> | ->]]; induction u; cbn; auto.
Qed.

Lemma count_showWord C (n : Z) :
  C = "{"%char ∨ C = "}"%char ∨ C = ":"%char ->
  count C (showWord n) = 0%nat.
Proof.
  intros HC. unfold showWord, DecimalString.NilZero.string_of_uint.
  destruct (N.to_uint (Z.to_N n)) eqn:E; try apply (count_uint C _ HC).
  destruct HC as [-> | [-> | ->]]; reflexivity.
Qed.

Lemma plainText_showWord (n : Z) : plainText (showWord n).
Proof. split; apply count_showWord; auto. Qed.

Lemma plainText_app (a b : string) :
  plainText a -> plainText b -> plainText (a ++ b).
Proof.
  intros [A1 A2] [B1 B2]. split; rewrite count_app; lia.
Qed.

(** The name and the argument of a text with a colon. *)
Lemma split_colon (n v : string) :
  size (n ++ String ":" v) < 2 ^ 64 -> count ":" n = 0%nat ->
  split ":" (n ++ String ":" v) = (n, v).
Proof.
  intros Hlt Hn. unfold split.
  pose proof (find_app ":" EmptyString n v) as E.
  cbn [String.append] in E. change (size EmptyString) with 0 in E.
  rewrite E by assumption. rewrite Z.add_0_l.
  pose proof (size_nonneg n) as Hn0. pose proof (size_nonneg v) as Hv0.
  rewrite size_app in Hlt.
  assert (Hs : size (String ":" v) = 1 + size v)
    by (unfold size; cbn [String.length]; lia).
  rewrite Hs in Hlt.
  destruct (Z.eqb_spec (size n) npos) as [Heq|_];
    [unfold npos in Heq; lia|].
  f_equal.
  - exact (substr_take EmptyString n (String ":" v) (size n) eq_refl).
  - replace (n ++ String ":" v)%string with ((n ++ ":") ++ v)%string
      by (now rewrite string_app_assoc).
    replace (size n + 1) with (size (n ++ ":"))
      by (rewrite size_app; reflexivity).
    apply substr_rest. unfold npos. lia.
Qed.

(** The texts between the brackets that [generateIntelFPGAAnnotation]
    writes, and the decorations that they stand for. *)
Definition flagText (D : bool) (c : string) : list string :=
  if D then [c] else [].

Definition wordText (D : option Z) (Name : string) : list string :=
  match D with
  | Some Result => [(Name ++ ":" ++ showWord Result)%string]
  | None => []
  end.

Definition joinWith (sep : string) (l : list string) : string :=
  match l with
  | [] => EmptyString
  | s :: r => (s ++ foldr (fun x acc => (sep ++ x ++ acc)%string)
                          EmptyString r)%string
  end.

Definition flagDec (D : bool) (Dec : Decoration)
    : list (Decoration * string) :=
  if D then [(Dec, EmptyString)] else [].

Definition wordDec (D : option Z) (Dec : Decoration)
    : list (Decoration * string) :=
  match D with
  | Some Result => [(Dec, showWord Result)]
  | None => []
  end.

(** The decorations of an entry as the encoder reads them from the
    annotation string: in the order of the string, numbers by their
    digits, the strings of a merge joined by colons and the bits of the
    banks joined by commas. *)
Definition decorationsOf (E : Decorations) : list (Decoration * string) :=
  flagDec (RegisterINTEL E) DecorationRegisterINTEL
  ++ match MemoryINTEL E with
     | Some (Str :: _) => [(DecorationMemoryINTEL, Str)]
     | _ => []
     end
  ++ wordDec (BankwidthINTEL E) DecorationBankwidthINTEL
  ++ wordDec (NumbanksINTEL E) DecorationNumbanksINTEL
  ++ wordDec (MaxPrivateCopiesINTEL E) DecorationMaxPrivateCopiesINTEL
  ++ flagDec (SinglepumpINTEL E) DecorationSinglepumpINTEL
  ++ flagDec (DoublepumpINTEL E) DecorationDoublepumpINTEL
  ++ wordDec (MaxReplicatesINTEL E) DecorationMaxReplicatesINTEL
  ++ flagDec (SimpleDualPortINTEL E) DecorationSimpleDualPortINTEL
  ++ match MergeINTEL E with
     | Some Strs => [(DecorationMergeINTEL, joinWith ":" Strs)]
     | None => []
     end
  ++ match BankBitsINTEL E with
     | Some Literals =>
         [(DecorationBankBitsINTEL, joinWith "," (map showWord Literals))]
     | None => []
     end
  ++ wordDec (ForcePow2DepthINTEL E) DecorationForcePow2DepthINTEL
  ++ match UserSemantic E with
     | Some (Str :: _) => [(DecorationUserSemantic, Str)]
     | _ => []
     end.

Definition memoryText (E : Decorations) : list string :=
  match MemoryINTEL E with
  | Some (Str :: _) => [("memory:" ++ Str)%string]
  | _ => []
  end.

Definition mergeText (E : Decorations) : list string :=
  match MergeINTEL E with
  | Some Strs =>
      [("merge" ++ foldr (fun x acc => (":" ++ x ++ acc)%string)
                         EmptyString Strs)%string]
  | None => []
  end.

Definition bankBitsText (E : Decorations) : list string :=
  match BankBitsINTEL E with
  | Some Literals =>
      [("bank_bits:" ++ joinWith "," (map showWord Literals))%string]
  | None => []
  end.

(** The texts between the brackets; [u] is the text of the annotation of
    the user, if there is one. *)
Definition contents (E : Decorations) (u : list string) : list string :=
  flagText (RegisterINTEL E) "register:1"
  ++ memoryText E
  ++ wordText (BankwidthINTEL E) "bankwidth"
  ++ wordText (NumbanksINTEL E) "numbanks"
  ++ wordText (MaxPrivateCopiesINTEL E) "private_copies"
  ++ flagText (SinglepumpINTEL E) "pump:1"
  ++ flagText (DoublepumpINTEL E) "pump:2"
  ++ wordText (MaxReplicatesINTEL E) "max_replicates"
  ++ flagText (SimpleDualPortINTEL E) "simple_dual_port:1"
  ++ mergeText E
  ++ bankBitsText E
  ++ wordText (ForcePow2DepthINTEL E) "force_pow2_depth"
  ++ u.

Lemma emitFlag_groups (D : bool) (c Out : string) :
  emitFlag D (group c) Out = (Out ++ groups (flagText D c))%string.
Proof.
  destruct D; cbn [emitFlag flagText].
  - now rewrite groups_one.
  - cbn. now rewrite string_app_nil_r.
Qed.

Lemma emitWord_groups (D : option Z) (Name Out : string) :
  emitWord D Name Out = (Out ++ groups (wordText D Name))%string.
Proof.
  destruct D as [n|]; cbn [emitWord wordText].
  - rewrite groups_one. unfold group. now rewrite !string_app_assoc.
  - cbn. now rewrite string_app_nil_r.
Qed.

Lemma merge_text (Strs : list string) :
  ∀ Out,
    foldl (fun O Str => (O ++ ":" ++ Str)%string) Out Strs
    = (Out ++ foldr (fun x acc => (":" ++ x ++ acc)%string) EmptyString Strs)
        %string.
Proof.
  induction Strs as [|s r IH]; intros Out; cbn [foldl foldr].
  - now rewrite string_app_nil_r.
  - rewrite IH. now rewrite !string_app_assoc.
Qed.

Lemma bank_bits_text (Literals : list Z) :
  Literals ≠ [] ->
  ∀ Out,
    (foldl (fun O L => (O ++ showWord L ++ ",")%string) Out
           (List.removelast Literals)
     ++ showWord (List.last Literals 0))%string
    = (Out ++ joinWith "," (map showWord Literals))%string.
Proof.
  induction Literals as [|l r IH]; intros Hne Out; [contradiction|].
  destruct r as [|l' r'].
  - cbn. now rewrite string_app_nil_r.
  - change (List.removelast (l :: l' :: r'))
      with (l :: List.removelast (l' :: r')).
    change (List.last (l :: l' :: r') 0) with (List.last (l' :: r') 0).
    cbn [foldl]. rewrite IH by discriminate.
    cbn [joinWith map foldr]. now rewrite !string_app_assoc.
Qed.

(** The annotation of the user, when the entry has one: a text [c]
    between brackets. *)
Definition userText (E : Decorations) (u : list string) : Prop :=
  match UserSemantic E with
  | Some Strs => ∃ c rest, Strs = group c :: rest ∧ u = [c]
  | None => u = []
  end.

Lemma memory_groups (E : Decorations) (Out : string) :
  (∀ Strs, MemoryINTEL E = Some Strs -> Strs ≠ []) ->
  match MemoryINTEL E with
  | Some Strs =>
      front Strs ≫= fun Str => Ok (Out ++ "{memory:" ++ Str ++ "}")%string
  | None => Ok Out
  end = Ok (Out ++ groups (memoryText E))%string.
Proof.
  intros HM. unfold memoryText.
  destruct (MemoryINTEL E) as [[|s r]|];
    [destruct (HM _ eq_refl eq_refl)| |].
  - cbn [front]. rewrite groups_one. unfold group.
    change (Ok s ≫= fun Str => Ok (Out ++ "{memory:" ++ Str ++ "}")%string)
      with (Ok (A := string) (Out ++ "{memory:" ++ s ++ "}")%string).
    f_equal.
  - cbn. now rewrite string_app_nil_r.
Qed.

Lemma merge_groups (E : Decorations) (Out : string) :
  match MergeINTEL E with
  | Some Strs =>
      (foldl (fun O Str => (O ++ ":" ++ Str)%string) (Out ++ "{merge")%string
             Strs ++ "}")%string
  | None => Out
  end = (Out ++ groups (mergeText E))%string.
Proof.
  unfold mergeText. destruct (MergeINTEL E) as [Strs|].
  - rewrite merge_text, groups_one. unfold group.
    rewrite !string_app_assoc. reflexivity.
  - cbn. now rewrite string_app_nil_r.
Qed.

Lemma bankBits_groups (E : Decorations) (Out : string) :
  (∀ Literals, BankBitsINTEL E = Some Literals -> Literals ≠ []) ->
  match BankBitsINTEL E with
  | Some Literals =>
      match Literals with
      | [] => Fault DanglingPointer
      | _ =>
          Ok (foldl (fun O L => (O ++ showWord L ++ ",")%string)
                    (Out ++ "{bank_bits:")%string (List.removelast Literals)
              ++ showWord (List.last Literals 0) ++ "}")%string
      end
  | None => Ok Out
  end = Ok (Out ++ groups (bankBitsText E))%string.
Proof.
  intros HB. unfold bankBitsText.
  destruct (BankBitsINTEL E) as [[|l r]|];
    [destruct (HB _ eq_refl eq_refl)| |].
  - f_equal. rewrite <- string_app_assoc.
    rewrite bank_bits_text by discriminate.
    rewrite groups_one. unfold group. rewrite !string_app_assoc.
    reflexivity.
  - cbn. now rewrite string_app_nil_r.
Qed.

Lemma user_groups (E : Decorations) (u : list string) (Out : string) :
  userText E u ->
  match UserSemantic E with
  | Some Strs => front Strs ≫= fun Str => Ok (Out ++ Str)%string
  | None => Ok Out
  end = Ok (Out ++ groups u)%string.
Proof.
  unfold userText. destruct (UserSemantic E) as [Strs|].
  - intros (c & rest & -> & ->). cbn [front]. now rewrite groups_one.
  - intros ->. cbn. now rewrite string_app_nil_r.
Qed.

Lemma generate_groups (E : Decorations) (u : list string) :
  (∀ Strs, MemoryINTEL E = Some Strs -> Strs ≠ []) ->
  (∀ Literals, BankBitsINTEL E = Some Literals -> Literals ≠ []) ->
  userText E u ->
  generateIntelFPGAAnnotation E EmptyString = Ok (groups (contents E u)).
Proof.
  intros HM HB HU. unfold generateIntelFPGAAnnotation, contents.
  cbv zeta.
  rewrite (emitFlag_groups _ "register:1").
  rewrite (memory_groups E _ HM).
  change (Ok ?a ≫= ?k) with (k a). cbv beta.
  rewrite !emitWord_groups.
  rewrite (emitFlag_groups _ "pump:1"), (emitFlag_groups _ "pump:2"),
    (emitFlag_groups _ "simple_dual_port:1").
  rewrite merge_groups.
  rewrite (bankBits_groups E _ HB).
  change (Ok ?a ≫= ?k) with (k a). cbv beta.
  rewrite emitWord_groups.
  rewrite (user_groups E u _ HU).
  f_equal. rewrite !groups_app, !string_app_assoc. reflexivity.
Qed.

Lemma size_group_elem (c : string) (cs : list string) :
  c ∈ cs -> size c < size (groups cs).
Proof.
  induction cs as [|x cs IH]; intros Hc.
  - now apply not_elem_of_nil in Hc.
  - cbn [groups foldr]. fold (groups cs). rewrite size_app, size_group.
    pose proof (size_nonneg (groups cs)). pose proof (size_nonneg x).
    apply elem_of_cons in Hc as [->|Hc]; [lia|]. specialize (IH Hc). lia.
Qed.

(** A text is well formed for a decoration: it has no brackets, and the
    loop reads the decoration from it. *)
Definition readsAs (c : string) (d : Decoration * string) : Prop :=
  plainText c ∧ (size c < 2 ^ 64 -> decodeGroup c = Ok d).

Lemma readsAs_named (name v : string) (d : Decoration * string) :
  plainText name -> count ":" name = 0%nat -> plainText v ->
  (∀ whole, decorationOf name v whole = Ok d) ->
  readsAs (name ++ ":" ++ v) d.
Proof.
  intros Hn Hc Hv Hd. split.
  - apply plainText_app; [assumption|].
    apply (plainText_app ":" v); [split; reflexivity|assumption].
  - intros Hlt. unfold decodeGroup.
    change (name ++ ":" ++ v)%string with (name ++ String ":" v)%string.
    rewrite split_colon by assumption. apply Hd.
Qed.

Lemma readsAs_flag (D : bool) (c : string) (Dec : Decoration) :
  plainText c -> decodeGroup c = Ok (Dec, EmptyString) ->
  Forall2 readsAs (flagText D c) (flagDec D Dec).
Proof.
  intros Hp Hd. destruct D; cbn [flagText flagDec]; constructor;
    [|constructor]. split; auto.
Qed.

Lemma readsAs_word (D : option Z) (Name : string) (Dec : Decoration) :
  plainText Name -> count ":" Name = 0%nat ->
  (∀ v whole, decorationOf Name v whole = Ok (Dec, v)) ->
  Forall2 readsAs (wordText D Name) (wordDec D Dec).
Proof.
  intros Hn Hc Hd. destruct D as [n|]; cbn [wordText wordDec]; constructor;
    [|constructor].
  apply readsAs_named; auto. apply plainText_showWord.
Qed.

Lemma plainText_join (sep : string) (l : list string) :
  plainText sep -> (∀ s, s ∈ l -> plainText s) ->
  plainText (foldr (fun x acc => (sep ++ x ++ acc)%string) EmptyString l).
Proof.
  intros Hs. induction l as [|x l IH]; intros Hl; cbn [foldr].
  - split; reflexivity.
  - apply plainText_app; [assumption|]. apply plainText_app.
    + apply Hl, elem_of_cons. now left.
    + apply IH. intros s Hs'. apply Hl, elem_of_cons. now right.
Qed.

Lemma plainText_joinWith (sep : string) (l : list string) :
  plainText sep -> (∀ s, s ∈ l -> plainText s) ->
  plainText (joinWith sep l).
Proof.
  intros Hs Hl. destruct l as [|x l]; cbn [joinWith]; [split; reflexivity|].
  apply plainText_app.
  - apply Hl, elem_of_cons. now left.
  - apply plainText_join; [assumption|]. intros s Hs'.
    apply Hl, elem_of_cons. now right.
Qed.

Lemma Forall2_readsAs (cs : list string) (ds : list (Decoration * string)) :
  Forall2 readsAs cs ds ->
  (∀ c, c ∈ cs -> plainText c)
  ∧ ((∀ c, c ∈ cs -> size c < 2 ^ 64) ->
     Forall2 (fun c d => decodeGroup c = Ok d) cs ds).
Proof.
  induction 1 as [|c d cs ds [Hp Hd] HF [IH1 IH2]].
  - split; [|constructor]. intros c Hc. now apply not_elem_of_nil in Hc.
  - split.
    + intros x Hx. apply elem_of_cons in Hx as [->|Hx]; auto.
    + intros Hs. constructor.
      * apply Hd, Hs, elem_of_cons. now left.
      * apply IH2. intros x Hx. apply Hs, elem_of_cons. now right.
Qed.

Lemma contents_readsAs (E : Decorations) (u : list string) :
  (∀ Strs, MemoryINTEL E = Some Strs ->
           ∃ Str rest, Strs = Str :: rest ∧ plainText Str) ->
  (∀ Strs, MergeINTEL E = Some Strs -> ∀ Str, Str ∈ Strs -> plainText Str) ->
  Forall2 readsAs u
    match UserSemantic E with
    | Some (Str :: _) => [(DecorationUserSemantic, Str)]
    | _ => []
    end ->
  Forall2 readsAs (contents E u) (decorationsOf E).
Proof.
  intros HM HG HU. unfold contents, decorationsOf.
  assert (Hplain : ∀ s : string, count "{" s = 0%nat -> count "}" s = 0%nat ->
                                 plainText s) by (intros s ? ?; now split).
  apply Forall2_app;
    [apply readsAs_flag; [now apply Hplain|reflexivity]|].
  apply Forall2_app.
  { unfold memoryText. destruct (MemoryINTEL E) as [Strs|]; [|constructor].
    destruct (HM _ eq_refl) as (Str & rest & -> & Hp).
    constructor; [|constructor].
    apply (readsAs_named "memory" Str);
      [now apply Hplain|reflexivity|assumption|reflexivity]. }
  apply Forall2_app;
    [apply readsAs_word; [now apply Hplain|reflexivity|reflexivity]|].
  apply Forall2_app;
    [apply readsAs_word; [now apply Hplain|reflexivity|reflexivity]|].
  apply Forall2_app;
    [apply readsAs_word; [now apply Hplain|reflexivity|reflexivity]|].
  apply Forall2_app;
    [apply readsAs_flag; [now apply Hplain|reflexivity]|].
  apply Forall2_app;
    [apply readsAs_flag; [now apply Hplain|reflexivity]|].
  apply Forall2_app;
    [apply readsAs_word; [now apply Hplain|reflexivity|reflexivity]|].
  apply Forall2_app;
    [apply readsAs_flag; [now apply Hplain|reflexivity]|].
  apply Forall2_app.
  { unfold mergeText. destruct (MergeINTEL E) as [Strs|]; [|constructor].
    specialize (HG _ eq_refl). constructor; [|constructor].
    destruct Strs as [|s r].
    - split; [now apply Hplain|]. intros _. reflexivity.
    - cbn [foldr joinWith].
      apply (readsAs_named "merge"); [now apply Hplain|reflexivity| |auto].
      apply plainText_app; [apply HG, elem_of_cons; now left|].
      apply plainText_join; [now apply Hplain|].
      intros x Hx. apply HG, elem_of_cons. now right. }
  apply Forall2_app.
  { unfold bankBitsText. destruct (BankBitsINTEL E) as [L|]; [|constructor].
    constructor; [|constructor].
    apply (readsAs_named "bank_bits"); [now apply Hplain|reflexivity| |auto].
    apply plainText_joinWith; [now apply Hplain|].
    intros s Hs. apply list_elem_of_fmap in Hs as (n & -> & _).
    apply plainText_showWord. }
  apply Forall2_app;
    [apply readsAs_word; [now apply Hplain|reflexivity|reflexivity]|].
  exact HU.
Qed.

(** X26.  The annotation string that the decoder writes for the
    decorations of an entry is read back by the encoder as these
    decorations.  When the strings of the memory and of the merge
    decoration have no brackets, the decoration of the bits of the banks
    has a literal, and the annotation of the user, if there is one, is a
    bracketed text that stands for no other decoration, then
    [generateIntelFPGAAnnotation] returns a string, and
    [tryParseIntelFPGAAnnotationString] makes of it the list of the
    decorations of the entry, in the order in which they were written,
    each with its value as text. *)
Theorem annotation_text_round_trip (E : Decorations) :
  (∀ Strs, MemoryINTEL E = Some Strs ->
           ∃ Str rest, Strs = Str :: rest ∧ plainText Str) ->
  (∀ Strs, MergeINTEL E = Some Strs -> ∀ Str, Str ∈ Strs -> plainText Str) ->
  (∀ Literals, BankBitsINTEL E = Some Literals -> Literals ≠ []) ->
  (∀ Strs, UserSemantic E = Some Strs ->
           ∃ c rest, Strs = group c :: rest ∧ plainText c
                     ∧ decodeGroup c = Ok (DecorationUserSemantic, group c)) ->
  ∃ str,
    generateIntelFPGAAnnotation E EmptyString = Ok str
    ∧ (size str < 2 ^ 64 ->
       tryParseIntelFPGAAnnotationString str = Ok (decorationsOf E)).
Proof.
  intros HM HG HB HU.
  assert (Hu : ∃ u, userText E u
                    ∧ Forall2 readsAs u
                        match UserSemantic E with
                        | Some (Str :: _) => [(DecorationUserSemantic, Str)]
                        | _ => []
                        end).
  { unfold userText. destruct (UserSemantic E) as [Strs|].
    - destruct (HU _ eq_refl) as (c & rest & -> & Hp & Hd). exists [c].
      split; [eauto|]. constructor; [|constructor]. split; auto.
    - exists []. split; [reflexivity|constructor]. }
  destruct Hu as (u & Hu & HFu).
  exists (groups (contents E u)). split.
  - apply generate_groups; auto. intros Strs HS.
    destruct (HM _ HS) as (? & ? & -> & _). discriminate.
  - intros Hlt.
    destruct (Forall2_readsAs _ _ (contents_readsAs E u HM HG HFu))
      as [Hp Hd].
    unfold tryParseIntelFPGAAnnotationString.
    rewrite !count_groups by (intros c Hc; now apply Hp).
    cbn. rewrite Nat.add_0_r, Nat.eqb_refl. cbn.
    apply (parseLoop_groups (contents E u) (decorationsOf E) []); auto.
    apply Hd. intros c Hc. pose proof (size_group_elem c _ Hc). lia.
Qed.

End FPGAAnnotationRoundTrip.

(** An entry with a register, a memory, widths, a pump, a merge and bits
    of banks. *)
Definition annotatedMemory : FPGAAnnotationText.Decorations :=
  FPGAAnnotationText.mkDecorations true (Some ["DEFAULT"]) (Some 8) (Some 4)
    None false true None false (Some ["a"; "b"]) (Some [2; 3]) None None.

Lemma annotation_text_round_trip_witness :
  ∃ str,
    FPGAAnnotationText.generateIntelFPGAAnnotation annotatedMemory EmptyString
    = Ok str
    ∧ str = "{register:1}{memory:DEFAULT}{bankwidth:8}{numbanks:4}{pump:2}{merge:a:b}{bank_bits:2,3}"
    ∧ FPGAAnnotations.tryParseIntelFPGAAnnotationString str
      = Ok [(FPGAAnnotations.DecorationRegisterINTEL, EmptyString);
            (FPGAAnnotations.DecorationMemoryINTEL, "DEFAULT");
            (FPGAAnnotations.DecorationBankwidthINTEL, "8");
            (FPGAAnnotations.DecorationNumbanksINTEL, "4");
            (FPGAAnnotations.DecorationDoublepumpINTEL, EmptyString);
            (FPGAAnnotations.DecorationMergeINTEL, "a:b");
            (FPGAAnnotations.DecorationBankBitsINTEL, "2,3")].
Proof.
  destruct (annotation_text_round_trip annotatedMemory)
    as (str & Eg & Hp).
  - intros Strs H. injection H as <-. exists "DEFAULT", [].
    split; [reflexivity|]. split; reflexivity.
  - intros Strs H Str HS. injection H as <-. elem_cases HS; split; reflexivity.
  - intros L H. injection H as <-. discriminate.
  - intros Strs H. discriminate.
  - exists str. split; [exact Eg|].
    vm_compute in Eg. injection Eg as <-. split; [reflexivity|].
    rewrite Hp; [vm_compute; reflexivity|]. vm_compute. reflexivity.
Defined.
